(** * Berry-Sethi construction: regular expression to DFA

    A shallow embedding of the algorithmic core of [main.py] / [app.py]
    (the two files share it verbatim): the recursive-descent [RegexParser],
    the position annotator [annotate], the followpos builder
    [compute_followpos] and the worklist DFA constructor [construct_dfa].

    Modelling conventions.
    - A Python [str] is a [string]; a character is an [ascii], that is a
      code point below 256.
    - A [RegexNode] object is a node of an inductive tree that carries the
      identity of the Python object ([obj]).  The fields that are set once
      by the constructor ([type], [left], [right], [symbol]) are the tree
      structure; the fields that [annotate] mutates ([nullable],
      [firstpos], [lastpos], [position]) live in a store indexed by
      object identity, so that two references to one object see the same
      attributes.
    - Python sets of positions are [gset nat]; dictionaries that are only
      indexed are [gmap]; dictionaries that are iterated are association
      lists in insertion order.
    - The order in which Python iterates over a set is not fixed by the
      language: the development is parametric in it ([set_iter]).
    - The renderer [visualize_dfa] is the list of the calls it makes on
      the graph object and on the file system, which is a parameter;
      [MainApp.generate_dfa] is what the window shows when it ends.

    Not embedded: the limit of the Python interpreter on the depth of
    recursion, characters beyond code point 255, the libraries behind
    the calls of the renderer, and the Flask handlers of [app.py], whose
    [try] block is the conversion [convert] followed by the renderer. *)

From Stdlib Require Import String Ascii.
From stdpp Require Import gmap strings list fin_maps fin_sets sorting pretty.

Local Open Scope string_scope.
Local Open Scope char_scope.

(** ** Characters *)

(** [str.isalnum] on a one-character string, for code points below 256:
    the ASCII digits and letters, and the Latin-1 letters and numerics. *)
Definition isalnum (c : ascii) : bool :=
  (let n := nat_of_ascii c in
   ((48 <=? n) && (n <=? 57)) || ((65 <=? n) && (n <=? 90))
   || ((97 <=? n) && (n <=? 122))
   || (n =? 170) || (n =? 178) || (n =? 179) || (n =? 181)
   || (n =? 185) || (n =? 186) || ((188 <=? n) && (n <=? 190))
   || ((192 <=? n) && (n <=? 214)) || ((216 <=? n) && (n <=? 246))
   || ((248 <=? n) && (n <=? 255)))%nat.

(** ** Errors and outcomes *)

(** The two exceptions raised by the parser ([Exception('Mismatched
    parentheses')] and [Exception(f'Unexpected character: {c}')]), and
    the two built-in exceptions a failed dictionary or list access
    raises. *)
Inductive exn : Type :=
| MismatchedParentheses
| UnexpectedCharacter (c : option ascii)
| KeyError
| IndexError.

(** A computation returns, raises, or runs out of the fuel that bounds
    its recursion in the model. *)
Inductive outcome (A : Type) : Type :=
| Return (a : A)
| Raise (e : exn)
| OutOfFuel.

Arguments Return {A} a.
Arguments Raise {A} e.
Arguments OutOfFuel {A}.

Definition obind {A B} (m : outcome A) (k : A → outcome B) : outcome B :=
  match m with
  | Return a => k a
  | Raise e => Raise e
  | OutOfFuel => OutOfFuel
  end.

(** ** Syntax tree *)

Inductive RegexNode : Type :=
| Symbol (obj : nat) (symbol : ascii)
| Concat (obj : nat) (left right : RegexNode)
| Union (obj : nat) (left right : RegexNode)
| Star (obj : nat) (left : RegexNode).

(** Identity of the object a reference points to. *)
Definition obj_of (node : RegexNode) : nat :=
  match node with
  | Symbol o _ | Concat o _ _ | Union o _ _ | Star o _ => o
  end.

(** ** Parser *)

(** The parser object: [regex], [pos], [current_char], and the number of
    [RegexNode] objects allocated so far (the identity of the next one). *)
Record RegexParser : Type := mkRegexParser {
  regex : string;
  pos : nat;
  current_char : option ascii;
  allocated : nat
}.

(** [RegexParser.__init__]. *)
Definition RegexParser_init (regex : string) : RegexParser :=
  {| regex := regex;
     pos := 0;
     current_char := if decide (regex = EmptyString) then None
                     else String.get 0 regex;
     allocated := 0 |}.

Module Parser.

(** State-and-exception monad over the parser object. *)
Definition parser (A : Type) : Type :=
  RegexParser → outcome (A * RegexParser).

Definition ret {A} (a : A) : parser A := λ self, Return (a, self).

Definition raise {A} (e : exn) : parser A := λ _, Raise e.

Definition out_of_fuel {A} : parser A := λ _, OutOfFuel.

Definition bind {A B} (m : parser A) (k : A → parser B) : parser B :=
  λ self,
    match m self with
    | Return (a, self') => k a self'
    | Raise e => Raise e
    | OutOfFuel => OutOfFuel
    end.

Declare Scope parser_scope.
Delimit Scope parser_scope with parser.
Notation "x <- m ;; k" := (bind m (λ x, k))
  (at level 100, m at next level, right associativity) : parser_scope.
Notation "m ;;; k" := (bind m (λ _, k))
  (at level 100, right associativity) : parser_scope.
Local Open Scope parser_scope.

(** Read [self.current_char]. *)
Definition peek : parser (option ascii) :=
  λ self, Return (current_char self, self).

(** [RegexParser.advance]. *)
Definition advance : parser unit :=
  λ self,
    let pos' := pos self + 1 in
    Return (tt,
      {| regex := regex self;
         pos := pos';
         current_char := if decide (pos' < String.length (regex self))
                         then String.get pos' (regex self) else None;
         allocated := allocated self |}).

(** Allocation of a [RegexNode]: [mk] receives the fresh identity. *)
Definition alloc (mk : nat → RegexNode) : parser RegexNode :=
  λ self,
    Return (mk (allocated self),
      {| regex := regex self;
         pos := pos self;
         current_char := current_char self;
         allocated := S (allocated self) |}).

(** Each [while] loop is a function of its own ([_while]) that receives
    the loop variable [node]. Arguments of a constructor call are
    evaluated before the object is allocated. *)

(** The loop of [factor]. *)
Fixpoint factor_while (fuel : nat) (node : RegexNode) : parser RegexNode :=
  match fuel with
  | 0 => out_of_fuel
  | S fuel =>
      c <- peek ;;
      if decide (c = Some "*") then
        advance ;;;
        node <- alloc (λ o, Star o node) ;;
        factor_while fuel node
      else if decide (c = Some "+") then
        advance ;;;
        (* `a+` is equivalent to `a a*`: the operand object is shared *)
        star <- alloc (λ o, Star o node) ;;
        node <- alloc (λ o, Concat o node star) ;;
        factor_while fuel node
      else ret node
  end.

(** The four mutually recursive methods. *)
Fixpoint expression (fuel : nat) : parser RegexNode :=
  match fuel with
  | 0 => out_of_fuel
  | S fuel =>
      node <- term fuel ;;
      expression_while fuel node
  end
with expression_while (fuel : nat) (node : RegexNode) : parser RegexNode :=
  match fuel with
  | 0 => out_of_fuel
  | S fuel =>
      c <- peek ;;
      if decide (c = Some "|") then
        advance ;;;
        right <- term fuel ;;
        node <- alloc (λ o, Union o node right) ;;
        expression_while fuel node
      else ret node
  end
with term (fuel : nat) : parser RegexNode :=
  match fuel with
  | 0 => out_of_fuel
  | S fuel =>
      node <- factor fuel ;;
      term_while fuel node
  end
with term_while (fuel : nat) (node : RegexNode) : parser RegexNode :=
  match fuel with
  | 0 => out_of_fuel
  | S fuel =>
      c <- peek ;;
      match c with
      | Some ch =>
          if decide (ch ≠ "|" ∧ ch ≠ ")") then
            right <- factor fuel ;;
            node <- alloc (λ o, Concat o node right) ;;
            term_while fuel node
          else ret node
      | None => ret node
      end
  end
with factor (fuel : nat) : parser RegexNode :=
  match fuel with
  | 0 => out_of_fuel
  | S fuel =>
      node <- base fuel ;;
      factor_while fuel node
  end
with base (fuel : nat) : parser RegexNode :=
  match fuel with
  | 0 => out_of_fuel
  | S fuel =>
      c <- peek ;;
      if decide (c = Some "(") then
        advance ;;;
        node <- expression fuel ;;
        c' <- peek ;;
        if decide (c' ≠ Some ")") then raise MismatchedParentheses
        else
          advance ;;;
          ret node
      else
        match c with
        | Some ch =>
            if isalnum ch || bool_decide (ch = "#") then
              advance ;;;
              alloc (λ o, Symbol o ch)
            else raise (UnexpectedCharacter c)
        | None => raise (UnexpectedCharacter c)
        end
  end.

(** [RegexParser.parse]. *)
Definition parse (fuel : nat) : parser RegexNode :=
  node <- expression fuel ;;
  (* Append '#' to mark the end *)
  hash_node <- alloc (λ o, Symbol o "#") ;;
  node <- alloc (λ o, Concat o node hash_node) ;;
  ret node.

(** Fuel that is enough for a regex of the given length. *)
Definition fuel_for (regex : string) : nat := 7 * String.length regex + 7.

End Parser.

(** [RegexParser(regex).parse()]. *)
Definition parse_regex (regex : string) : outcome RegexNode :=
  match Parser.parse (Parser.fuel_for regex) (RegexParser_init regex) with
  | Return (node, _) => Return node
  | Raise e => Raise e
  | OutOfFuel => OutOfFuel
  end.

(** ** Memory: module globals and mutable node attributes *)

(** The attributes [RegexNode.__init__] initialises and [annotate]
    assigns. *)
Record attrs : Type := mkAttrs {
  nullable : bool;
  firstpos : gset nat;
  lastpos : gset nat;
  position : option nat
}.

(** Attributes of a freshly constructed node. *)
Definition fresh_attrs : attrs :=
  {| nullable := false; firstpos := ∅; lastpos := ∅; position := None |}.

(** The module globals [position_counter] and [positions], and the
    attributes of the node objects of the current conversion. An object
    that has not been assigned to yet has the constructor's defaults. *)
Record memory : Type := mkMemory {
  position_counter : nat;
  positions : gmap nat ascii;
  objects : gmap nat attrs
}.

(** Attributes of the object [node] refers to. *)
Definition attr (m : memory) (node : RegexNode) : attrs :=
  default fresh_attrs (objects m !! obj_of node).

Definition set_attr (f : attrs → attrs) (node : RegexNode) (m : memory) : memory :=
  {| position_counter := position_counter m;
     positions := positions m;
     objects := <[obj_of node := f (attr m node)]> (objects m) |}.

(** [node.nullable = b], [node.firstpos = s], [node.lastpos = s],
    [node.position = p]. *)
Definition set_nullable (b : bool) : RegexNode → memory → memory :=
  set_attr (λ a, {| nullable := b; firstpos := firstpos a;
                    lastpos := lastpos a; position := position a |}).
Definition set_firstpos (s : gset nat) : RegexNode → memory → memory :=
  set_attr (λ a, {| nullable := nullable a; firstpos := s;
                    lastpos := lastpos a; position := position a |}).
Definition set_lastpos (s : gset nat) : RegexNode → memory → memory :=
  set_attr (λ a, {| nullable := nullable a; firstpos := firstpos a;
                    lastpos := s; position := position a |}).
Definition set_position (p : nat) : RegexNode → memory → memory :=
  set_attr (λ a, {| nullable := nullable a; firstpos := firstpos a;
                    lastpos := lastpos a; position := Some p |}).

(** [positions[position_counter] = symbol]. *)
Definition record_position (symbol : ascii) (m : memory) : memory :=
  {| position_counter := position_counter m;
     positions := <[position_counter m := symbol]> (positions m);
     objects := objects m |}.

(** [position_counter += 1]. *)
Definition bump_counter (m : memory) : memory :=
  {| position_counter := position_counter m + 1;
     positions := positions m;
     objects := objects m |}.

(** ** Position annotator *)

(** [annotate]: the recursion follows the references, so a node object
    that is referenced twice is visited twice. *)
Fixpoint annotate (node : RegexNode) (m : memory) : memory :=
  match node with
  | Symbol _ symbol =>
      let m := set_nullable false node m in
      let m := set_firstpos {[position_counter m]} node m in
      let m := set_lastpos {[position_counter m]} node m in
      let m := set_position (position_counter m) node m in
      let m := record_position symbol m in
      bump_counter m
  | Concat _ left_node right_node =>
      let m := annotate left_node m in
      let m := annotate right_node m in
      let m := set_nullable
                 (nullable (attr m left_node) && nullable (attr m right_node)) node m in
      let m := set_firstpos
                 (if negb (nullable (attr m left_node)) then firstpos (attr m left_node)
                  else firstpos (attr m left_node) ∪ firstpos (attr m right_node))
                 node m in
      set_lastpos
        (if negb (nullable (attr m right_node)) then lastpos (attr m right_node)
         else lastpos (attr m left_node) ∪ lastpos (attr m right_node))
        node m
  | Union _ left_node right_node =>
      let m := annotate left_node m in
      let m := annotate right_node m in
      let m := set_nullable
                 (nullable (attr m left_node) || nullable (attr m right_node)) node m in
      let m := set_firstpos
                 (firstpos (attr m left_node) ∪ firstpos (attr m right_node)) node m in
      set_lastpos (lastpos (attr m left_node) ∪ lastpos (attr m right_node)) node m
  | Star _ left_node =>
      let m := annotate left_node m in
      let m := set_nullable true node m in
      let m := set_firstpos (firstpos (attr m left_node)) node m in
      set_lastpos (lastpos (attr m left_node)) node m
  end.

(** ** Dictionaries in insertion order *)

Section dict.
Context {K V : Type} `{EqDecision K}.

(** [d.get(k)] *)
Fixpoint dict_get (k : K) (d : list (K * V)) : option V :=
  match d with
  | [] => None
  | (k', v) :: d => if decide (k' = k) then Some v else dict_get k d
  end.

(** [d[k] = v]: an existing key keeps its place, a new key goes last. *)
Fixpoint dict_set (k : K) (v : V) (d : list (K * V)) : list (K * V) :=
  match d with
  | [] => [(k, v)]
  | (k', v') :: d =>
      if decide (k' = k) then (k', v) :: d else (k', v') :: dict_set k v d
  end.

Definition dict_keys (d : list (K * V)) : list K := d.*1.
End dict.

(** ** Followpos builder and DFA constructor *)

(** An automaton as [construct_dfa] returns it: the list [states] of
    transition dictionaries and the set [accepting_states]. *)
Definition automaton : Type := list (list (ascii * nat)) * gset nat.

(** The local variables of [construct_dfa]. The deque [queue] is kept as
    the list of everything appended to it and the number of items popped
    from its left_node: its content is [drop queue_popped queue_appended]. *)
Record dfa : Type := mkDfa {
  states : list (list (ascii * nat));
  state_pos : gmap nat (gset nat);
  pos_state : gmap (gset nat) nat;
  queue_appended : list nat;
  queue_popped : nat;
  accepting_states : gset nat
}.

Section pipeline.

(** Order in which a [for] loop or a generator visits a set. *)
Variable set_iter : gset nat → list nat.

(** [followpos_table.setdefault(pos, set()).update(s)] *)
Definition setdefault_update (s : gset nat)
    (followpos_table : gmap nat (gset nat)) (pos : nat) : gmap nat (gset nat) :=
  <[pos := default ∅ (followpos_table !! pos) ∪ s]> followpos_table.

(** [compute_followpos]. *)
Fixpoint compute_followpos (m : memory) (node : RegexNode)
    (followpos_table : gmap nat (gset nat)) : gmap nat (gset nat) :=
  match node with
  | Symbol _ _ => followpos_table
  | Concat _ left_node right_node =>
      let followpos_table :=
        foldl (setdefault_update (firstpos (attr m right_node))) followpos_table
              (set_iter (lastpos (attr m left_node))) in
      let followpos_table := compute_followpos m left_node followpos_table in
      compute_followpos m right_node followpos_table
  | Union _ left_node right_node =>
      let followpos_table := compute_followpos m left_node followpos_table in
      compute_followpos m right_node followpos_table
  | Star _ left_node =>
      let followpos_table :=
        foldl (setdefault_update (firstpos (attr m node))) followpos_table
              (set_iter (lastpos (attr m node))) in
      compute_followpos m left_node followpos_table
  end.

(** [any(positions[pos] == '#' for pos in l)]: the generator stops at
    the first hit; a missing key raises. *)
Fixpoint any_hash (positions : gmap nat ascii) (l : list nat) : outcome bool :=
  match l with
  | [] => Return false
  | pos :: l =>
      match positions !! pos with
      | None => Raise KeyError
      | Some symbol =>
          if decide (symbol = "#") then Return true
          else any_hash positions l
      end
  end.

(** Body of the first [for] loop: one position of the dequeued state. *)
Definition group_position (positions : gmap nat ascii)
    (followpos_table : gmap nat (gset nat))
    (symbol_pos_map : list (ascii * gset nat)) (pos : nat)
    : outcome (list (ascii * gset nat)) :=
  match positions !! pos with
  | None => Raise KeyError
  | Some symbol =>
      if decide (symbol ≠ "#") then
        Return (dict_set symbol
                  (default ∅ (dict_get symbol symbol_pos_map)
                   ∪ default ∅ (followpos_table !! pos))
                  symbol_pos_map)
      else Return symbol_pos_map
  end.

(** A [for] loop whose body may raise. *)
Fixpoint for_each {A S : Type} (body : S → A → outcome S) (s : S) (l : list A)
    : outcome S :=
  match l with
  | [] => Return s
  | a :: l => obind (body s a) (λ s, for_each body s l)
  end.

(** Body of the second [for] loop: one entry of [symbol_pos_map]. *)
Definition add_transition (positions : gmap nat ascii) (state_id : nat)
    (d : dfa) (item : ascii * gset nat) : outcome dfa :=
  let '(symbol, next_pos_set) := item in
  let next_pos_frozen := next_pos_set in
  obind
    (match pos_state d !! next_pos_frozen with
     | Some next_state_id => Return (next_state_id, d)
     | None =>
         let next_state_id := length (states d) in
         let d :=
           {| states := states d ++ [[]];
              state_pos := <[next_state_id := next_pos_frozen]> (state_pos d);
              pos_state := <[next_pos_frozen := next_state_id]> (pos_state d);
              queue_appended := queue_appended d ++ [next_state_id];
              queue_popped := queue_popped d;
              accepting_states := accepting_states d |} in
         obind (any_hash positions (set_iter next_pos_set)) (λ hit,
           Return (next_state_id,
             if hit then
               {| states := states d;
                  state_pos := state_pos d;
                  pos_state := pos_state d;
                  queue_appended := queue_appended d;
                  queue_popped := queue_popped d;
                  accepting_states := {[next_state_id]} ∪ accepting_states d |}
             else d))
     end)
    (λ '(next_state_id, d),
      (* states[state_id][symbol] = next_state_id *)
      match states d !! state_id with
      | None => Raise IndexError
      | Some transitions =>
          Return
            {| states := <[state_id := dict_set symbol next_state_id transitions]>
                           (states d);
               state_pos := state_pos d;
               pos_state := pos_state d;
               queue_appended := queue_appended d;
               queue_popped := queue_popped d;
               accepting_states := accepting_states d |}
      end).

(** Body of the [while queue] loop. *)
Definition process_state (positions : gmap nat ascii)
    (followpos_table : gmap nat (gset nat)) (d : dfa) : outcome dfa :=
  match queue_appended d !! queue_popped d with
  | None => Raise IndexError
  | Some state_id =>
      let d :=
        {| states := states d;
           state_pos := state_pos d;
           pos_state := pos_state d;
           queue_appended := queue_appended d;
           queue_popped := S (queue_popped d);
           accepting_states := accepting_states d |} in
      match state_pos d !! state_id with
      | None => Raise KeyError
      | Some pos_set =>
          obind (for_each (group_position positions followpos_table) []
                          (set_iter pos_set))
                (λ symbol_pos_map,
                  for_each (add_transition positions state_id) d symbol_pos_map)
      end
  end.

(** The [while queue] loop. *)
Fixpoint construct_while (fuel : nat) (positions : gmap nat ascii)
    (followpos_table : gmap nat (gset nat)) (d : dfa) : outcome dfa :=
  match fuel with
  | 0 => OutOfFuel
  | S fuel =>
      if decide (queue_popped d < length (queue_appended d)) then
        obind (process_state positions followpos_table d)
              (construct_while fuel positions followpos_table)
      else Return d
  end.

(** The statements of [construct_dfa] before the loop. *)
Definition construct_init (m : memory) (root : RegexNode) : outcome dfa :=
  let start_pos := firstpos (attr m root) in
  let start_state_id := 0 in
  obind (any_hash (positions m) (set_iter start_pos)) (λ hit,
    Return
      {| states := [[]];
         state_pos := {[start_state_id := start_pos]};
         pos_state := {[start_pos := start_state_id]};
         queue_appended := [start_state_id];
         queue_popped := 0;
         accepting_states := if hit then {[start_state_id]} else ∅ |}).

(** All of [construct_dfa] up to its [return], keeping the local
    variables. The loop runs at most once per subset of the position
    table's keys, which bounds the fuel it needs. *)
Definition construct_dfa_locals (m : memory) (root : RegexNode)
    (followpos_table : gmap nat (gset nat)) : outcome dfa :=
  obind (construct_init m root)
        (construct_while (S (2 ^ size (positions m))) (positions m)
                         followpos_table).

(** [construct_dfa]. *)
Definition construct_dfa (m : memory) (root : RegexNode)
    (followpos_table : gmap nat (gset nat)) : outcome automaton :=
  obind (construct_dfa_locals m root followpos_table)
        (λ d, Return (states d, accepting_states d)).

(** The state in which the hosts start a conversion: the globals are
    reset, and the nodes the parser is about to build are new objects. *)
Definition reset (m : memory) : memory :=
  {| position_counter := 1; positions := ∅; objects := ∅ |}.

(** Everything one conversion computes: the tree, the memory after
    annotation, the followpos table and the local variables of
    [construct_dfa]. *)
Record conversion : Type := mkConversion {
  conv_root : RegexNode;
  conv_memory : memory;
  conv_followpos : gmap nat (gset nat);
  conv_dfa : dfa
}.

(** The body of the hosts' [try] block up to [construct_dfa]. *)
Definition convert_locals (m : memory) (regex : string) : outcome conversion :=
  let m := reset m in
  obind (parse_regex regex) (λ root,
    let m := annotate root m in
    let followpos_table := compute_followpos m root ∅ in
    obind (construct_dfa_locals m root followpos_table) (λ d,
      Return {| conv_root := root; conv_memory := m;
                conv_followpos := followpos_table; conv_dfa := d |})).

(** The automaton a conversion hands to the renderer. *)
Definition convert (m : memory) (regex : string) : outcome automaton :=
  obind (convert_locals m regex)
        (λ c, Return (states (conv_dfa c), accepting_states (conv_dfa c))).

End pipeline.

(** ** Renderer *)

(** The calls [visualize_dfa] makes on the graph object and on the file
    system. *)
Inductive call : Type :=
| new_Digraph (comment : string)
| dot_node (name shape : string)
| dot_edge (tail_name head_name label : string)
| os_makedirs (directory : string)
| dot_render (filename format : string) (cleanup : bool).

Section renderer.

(** [os.path.exists] in the file system the program runs in, and
    [os.path.dirname]. *)
Variable path_exists : string → bool.
Variable dirname : string → string.

(** [str(state_id)]: the decimal digits of an index. *)
Definition str (state_id : nat) : string := pretty state_id.

(** Body of the outer [for] loop of [visualize_dfa]: the node of one
    state and the edges of its transitions, in the order of the
    dictionary. *)
Definition draw_state (accepting_states : gset nat) (state_id : nat)
    (transitions : list (ascii * nat)) : list call :=
  let shape := if decide (state_id ∈ accepting_states)
               then "doublecircle"%string else "circle"%string in
  dot_node (str state_id) shape
  :: map (λ item, dot_edge (str state_id) (str item.2) (String item.1 ""%string))
         transitions.

(** [visualize_dfa]: the calls it makes, in order, when none of them
    raises. *)
Definition visualize_dfa (states : list (list (ascii * nat)))
    (accepting_states : gset nat) (image_path : string) : list call :=
  new_Digraph "DFA"%string
  :: concat (imap (draw_state accepting_states) states)
  ++ (let directory := dirname image_path in
      (if path_exists directory then [] else [os_makedirs directory])
      ++ [dot_render image_path "png"%string true]).

End renderer.

(** ** Desktop host *)

(** What the [except Exception] clause of the desktop host can catch: an
    exception of the conversion, or the [TypeError] of a call that
    leaves a parameter of the callee without an argument. *)
Inductive host_exn : Type :=
| conversion_exn (e : exn)
| TypeError_missing_argument (callee parameter : string).

(** What the window shows when [generate_dfa] ends: the toast
    [f"Invalid regular expression: {e}"], or the image whose path was
    assigned to [dfa_image.source]. *)
Inductive shown : Type :=
| toast_invalid (e : host_exn)
| image_source (path : string).

Section desktop.
Variable set_iter : gset nat → list nat.

(** [MainApp.generate_dfa] of [main.py] on the text of the input field.
    The [try] block is the conversion followed by the call
    [visualize_dfa(states, accepting_states)]: the function has a third
    parameter, [image_path], without a default, so binding the
    arguments raises [TypeError] before the body runs, and the
    statements after the call are not reached. *)
Definition generate_dfa (m : memory) (regex : string) : outcome shown :=
  match convert set_iter m regex with
  | Return _ =>
      Return (toast_invalid
                (TypeError_missing_argument "visualize_dfa"%string
                                            "image_path"%string))
  | Raise e => Return (toast_invalid (conversion_exn e))
  | OutOfFuel => OutOfFuel
  end.

End desktop.

(** * Vocabulary of the statements *)

Local Close Scope string_scope.

(** ** Shape of syntax trees *)

(** The characters of a string. *)
Definition chars (s : string) : list ascii := list_ascii_of_string s.

(** All references reachable from [node], each as often as the
    traversals of [annotate] and [compute_followpos] reach it. *)
Fixpoint subterms (node : RegexNode) : list RegexNode :=
  node ::
  match node with
  | Symbol _ _ => []
  | Concat _ l r | Union _ l r => subterms l ++ subterms r
  | Star _ l => subterms l
  end.

(** The leaves in visiting order, as (object, symbol). *)
Fixpoint leaves (node : RegexNode) : list (nat * ascii) :=
  match node with
  | Symbol o c => [(o, c)]
  | Concat _ l r | Union _ l r => leaves l ++ leaves r
  | Star _ l => leaves l
  end.

(** Number of leaves of the tree, a shared leaf counted once per
    reference. *)
Definition leaf_count (node : RegexNode) : nat := length (leaves node).

(** The distinct leaf objects. *)
Definition leaf_objects (node : RegexNode) : gset nat :=
  list_to_set (leaves node).*1.

(** An object identity stands for one node: two references with the
    same identity are references to the same subtree. *)
Definition well_formed (node : RegexNode) : Prop :=
  ∀ u v, u ∈ subterms node → v ∈ subterms node → obj_of u = obj_of v → u = v.

(** The two operands of a binary node have no object in common, unless
    the node was built for a [+]: then the right operand is the star of
    the left one. *)
Definition plus_sharing (node : RegexNode) : Prop :=
  ∀ u, u ∈ subterms node →
    match u with
    | Concat _ l r | Union _ l r =>
        (∀ v w, v ∈ subterms l → w ∈ subterms r → obj_of v ≠ obj_of w)
        ∨ (∃ o, r = Star o l)
    | _ => True
    end.

(** What the parser guarantees about a tree built from the regex [R]
    with the objects allocated from [a] up to [b]. *)
Definition well_built (R : string) (a b : nat) (node : RegexNode) : Prop :=
  (∀ u, u ∈ subterms node → a ≤ obj_of u < b)
  ∧ well_formed node
  ∧ (∀ oc, oc ∈ leaves node → oc.2 ∈ chars R)
  ∧ ("+" ∉ chars R → NoDup (leaves node).*1)
  ∧ plus_sharing node.

(** [current_char] is the character at [pos], or [None] past the end. *)
Definition coherent (self : RegexParser) : Prop :=
  current_char self = String.get (pos self) (regex self).

(** A parsing method that builds a tree, and a loop that extends one. *)
Definition produces (R : string) (f : Parser.parser RegexNode) : Prop :=
  ∀ self node self',
    coherent self → regex self = R → f self = Return (node, self') →
    regex self' = R ∧ coherent self' ∧ pos self < pos self'
    ∧ well_built R (allocated self) (allocated self') node.

Definition extends (R : string) (f : RegexNode → Parser.parser RegexNode) : Prop :=
  ∀ a self node0 node self',
    coherent self → regex self = R → well_built R a (allocated self) node0 →
    f node0 self = Return (node, self') →
    regex self' = R ∧ coherent self' ∧ pos self ≤ pos self'
    ∧ well_built R a (allocated self') node.

(** Characters left to read. *)
Definition remaining (self : RegexParser) : nat :=
  String.length (regex self) - pos self.

(** With [fuel] at least [7 * remaining + k] the method does not run out
    of fuel. *)
Definition fuelled {A} (k : nat) (f : nat → Parser.parser A) : Prop :=
  ∀ fuel self, coherent self → 7 * remaining self + k ≤ fuel →
               f fuel self ≠ OutOfFuel.

(** ** The language of a syntax tree *)

(** The words a tree matches; the object identities play no role. *)
Inductive matches : RegexNode → list ascii → Prop :=
| matches_Symbol o c : matches (Symbol o c) [c]
| matches_Concat o l r w1 w2 :
    matches l w1 → matches r w2 → matches (Concat o l r) (w1 ++ w2)
| matches_Union_l o l r w : matches l w → matches (Union o l r) w
| matches_Union_r o l r w : matches r w → matches (Union o l r) w
| matches_Star_nil o l : matches (Star o l) []
| matches_Star_app o l w1 w2 :
    matches l w1 → matches (Star o l) w2 → matches (Star o l) (w1 ++ w2).

(** Nullability computed from the shape of the tree alone. *)
Fixpoint nullable_of (node : RegexNode) : bool :=
  match node with
  | Symbol _ _ => false
  | Concat _ l r => nullable_of l && nullable_of r
  | Union _ l r => nullable_of l || nullable_of r
  | Star _ _ => true
  end.

(** The attribute sets of [a] hold positions from [lo] up to [hi] only. *)
Definition within (lo hi : nat) (a : attrs) : Prop :=
  (∀ p, p ∈ firstpos a → lo ≤ p < hi) ∧ (∀ p, p ∈ lastpos a → lo ≤ p < hi).

(** ** Position sets and the invariant of the worklist loop *)

(** The union of the followpos sets of the positions of [l] that carry
    the symbol [c]. *)
Definition move_list (P : gmap nat ascii) (F : gmap nat (gset nat))
    (l : list nat) (c : ascii) : gset nat :=
  ⋃ ((λ p, default ∅ (F !! p)) <$> filter (λ p, P !! p = Some c) l).

(** The successor position-set of [X] on the symbol [c]. *)
Definition move (P : gmap nat ascii) (F : gmap nat (gset nat))
    (X : gset nat) (c : ascii) : gset nat :=
  move_list P F (elements X) c.

(** Some position of [X] carries the symbol [c]. *)
Definition carries (P : gmap nat ascii) (X : gset nat) (c : ascii) : Prop :=
  ∃ p, p ∈ X ∧ P !! p = Some c.

(** State [i] has a transition on [c]. *)
Definition has_transition (d : dfa) (i : nat) (c : ascii) : Prop :=
  ∃ tr j, states d !! i = Some tr ∧ dict_get c tr = Some j.

(** What holds of the local variables of [construct_dfa] whenever the
    loop condition is evaluated, for the position table [P] and the
    followpos table [F]. *)
Record dfa_inv (P : gmap nat ascii) (F : gmap nat (gset nat)) (d : dfa) : Prop := {
  inv_queue : queue_appended d = seq 0 (length (states d));
  inv_popped : queue_popped d ≤ length (states d);
  inv_dom : ∀ i, i < length (states d) ↔ is_Some (state_pos d !! i);
  inv_bij : ∀ i X, state_pos d !! i = Some X ↔ pos_state d !! X = Some i;
  inv_sub : ∀ i X, state_pos d !! i = Some X → X ⊆ dom P;
  inv_size : size (pos_state d) = length (states d);
  inv_acc_lt : ∀ i, i ∈ accepting_states d → i < length (states d);
  inv_acc : ∀ i X, state_pos d !! i = Some X →
            (i ∈ accepting_states d ↔ carries P X "#");
  inv_trans : ∀ i tr c j,
      states d !! i = Some tr → dict_get c tr = Some j →
      ∃ X, state_pos d !! i = Some X ∧ c ≠ "#" ∧ carries P X c
           ∧ state_pos d !! j = Some (move P F X c);
  inv_reach : ∀ j X,
      state_pos d !! j = Some X →
      j = 0 ∨ ∃ i Y c, i < j ∧ state_pos d !! i = Some Y ∧ c ≠ "#"
                       ∧ carries P Y c ∧ X = move P F Y c
}.

(** The states below [n] have all their transitions. *)
Definition complete_below (P : gmap nat ascii) (n : nat) (d : dfa) : Prop :=
  ∀ i X c, i < n → state_pos d !! i = Some X → c ≠ "#" → carries P X c →
           has_transition d i c.

(** The position-sets of the states in the order they were enqueued. *)
Definition enqueued_sets (d : dfa) : list (gset nat) :=
  omap (λ i, state_pos d !! i) (queue_appended d).

(** The two updates one pass of the second [for] loop makes: a new
    state for the position-set [S], marked accepting when [hit]; and the
    assignment [states[i][c] = j], where [tr] is [states[i]]. *)
Definition with_state (S : gset nat) (hit : bool) (d : dfa) : dfa :=
  {| states := states d ++ [[]];
     state_pos := <[length (states d) := S]> (state_pos d);
     pos_state := <[S := length (states d)]> (pos_state d);
     queue_appended := queue_appended d ++ [length (states d)];
     queue_popped := queue_popped d;
     accepting_states :=
       if hit then {[length (states d)]} ∪ accepting_states d
       else accepting_states d |}.

Definition with_transition (i : nat) (c : ascii) (j : nat)
    (tr : list (ascii * nat)) (d : dfa) : dfa :=
  {| states := <[i := dict_set c j tr]> (states d);
     state_pos := state_pos d;
     pos_state := pos_state d;
     queue_appended := queue_appended d;
     queue_popped := queue_popped d;
     accepting_states := accepting_states d |}.

(** ** Vocabulary of the conversion *)

(** The tree of the regex itself: [parse] returns it as the left operand
    of the concatenation with the end marker. *)
Definition parsed_expression (root : RegexNode) : RegexNode :=
  match root with
  | Concat _ e _ => e
  | _ => root
  end.

(** The position a leaf object holds after annotation. *)
Definition leaf_position (m : memory) (oc : nat * ascii) : option nat :=
  position (attr m (Symbol oc.1 oc.2)).

(** Unique and dense position identifiers over [1..n]: the table has
    exactly the keys [1..n], every leaf holds an identifier, no two leaf
    objects hold the same one, and every identifier of [1..n] is held by
    a leaf. *)
Definition ids_unique_dense (root : RegexNode) (m : memory) (n : nat) : Prop :=
  (∀ p, is_Some (positions m !! p) ↔ 1 ≤ p ≤ n)
  ∧ (∀ oc, oc ∈ leaves root → is_Some (leaf_position m oc))
  ∧ (∀ oc1 oc2, oc1 ∈ leaves root → oc2 ∈ leaves root →
       leaf_position m oc1 = leaf_position m oc2 → oc1.1 = oc2.1)
  ∧ (∀ p, 1 ≤ p ≤ n → ∃ oc, oc ∈ leaves root ∧ leaf_position m oc = Some p).

(** The memory in which the hosts start a conversion. *)
Definition fresh_memory : memory :=
  {| position_counter := 1; positions := ∅; objects := ∅ |}.

(** What a successful conversion of [regex] has computed. *)
Record converted (set_iter : gset nat → list nat) (m : memory)
    (regex : string) (c : conversion) : Prop := {
  cv_parse : parse_regex regex = Return (conv_root c);
  cv_memory : conv_memory c = annotate (conv_root c) (reset m);
  cv_followpos :
    conv_followpos c
    = compute_followpos set_iter (conv_memory c) (conv_root c) ∅;
  cv_closed : ∀ p X, conv_followpos c !! p = Some X →
                     X ⊆ dom (positions (conv_memory c));
  cv_inv : dfa_inv (positions (conv_memory c)) (conv_followpos c) (conv_dfa c);
  cv_done : queue_popped (conv_dfa c) = length (states (conv_dfa c));
  cv_complete : complete_below (positions (conv_memory c))
                               (length (states (conv_dfa c))) (conv_dfa c);
  cv_start : state_pos (conv_dfa c) !! 0
             = Some (firstpos (attr (conv_memory c) (conv_root c)));
  cv_bound : length (states (conv_dfa c)) ≤ 2 ^ leaf_count (conv_root c)
}.

(** ** Exploring the position-sets by hand *)

(** [carries] as a test. *)
Definition carriesb (P : gmap nat ascii) (X : gset nat) (c : ascii) : bool :=
  existsb (λ p, bool_decide (P !! p = Some c)) (elements X).

(** The position-sets one transition away from [X]. *)
Definition successors (P : gmap nat ascii) (F : gmap nat (gset nat))
    (X : gset nat) : list (gset nat) :=
  omap (λ p, match P !! p with
             | Some c => if decide (c = "#") then None
                         else Some (move P F X c)
             | None => None
             end) (elements X).

(** The position-sets at most [n] transitions away from those of [Xs]. *)
Fixpoint explore (P : gmap nat ascii) (F : gmap nat (gset nat))
    (n : nat) (Xs : list (gset nat)) : list (gset nat) :=
  match n with
  | 0 => Xs
  | S n => explore P F n (Xs ++ (Xs ≫= successors P F))
  end.

(** No transition leads out of [Xs]. *)
Definition closed_under_move (P : gmap nat ascii) (F : gmap nat (gset nat))
    (Xs : list (gset nat)) : bool :=
  forallb (λ X, forallb (λ Y, bool_decide (Y ∈ Xs)) (successors P F X)) Xs.

(** [X] is the only set of [Xs] that carries [#]. *)
Definition only_accepting (P : gmap nat ascii) (X : gset nat)
    (Xs : list (gset nat)) : bool :=
  forallb (λ Y, negb (carriesb P Y "#") || bool_decide (Y = X)) Xs.

(** Observations on the outcome of a conversion. *)
Definition outcome_map {A B} (f : A → B) (r : outcome A) : outcome B :=
  match r with
  | Return a => Return (f a)
  | Raise e => Raise e
  | OutOfFuel => OutOfFuel
  end.

(** The positions the leaves of [node] hold. *)
Definition held (m : memory) (node : RegexNode) : gset nat :=
  list_to_set (omap (leaf_position m) (leaves node)).

(** Both sets of [u] are made of positions that leaves of [u] hold. *)
Definition tight (m : memory) (u : RegexNode) : Prop :=
  firstpos (attr m u) ⊆ held m u ∧ lastpos (attr m u) ⊆ held m u.

(** ** The equations of the construction *)

(** The attributes of [u] are those the construction prescribes, given
    the attributes of its operands in the same memory. *)
Definition consistent (m : memory) (u : RegexNode) : Prop :=
  match u with
  | Symbol _ _ =>
      ∃ p, position (attr m u) = Some p
           ∧ nullable (attr m u) = false
           ∧ firstpos (attr m u) = {[p]} ∧ lastpos (attr m u) = {[p]}
  | Concat _ l r =>
      nullable (attr m u) = nullable (attr m l) && nullable (attr m r)
      ∧ firstpos (attr m u)
        = (if nullable (attr m l)
           then firstpos (attr m l) ∪ firstpos (attr m r)
           else firstpos (attr m l))
      ∧ lastpos (attr m u)
        = (if nullable (attr m r)
           then lastpos (attr m l) ∪ lastpos (attr m r)
           else lastpos (attr m r))
  | Union _ l r =>
      nullable (attr m u) = nullable (attr m l) || nullable (attr m r)
      ∧ firstpos (attr m u) = firstpos (attr m l) ∪ firstpos (attr m r)
      ∧ lastpos (attr m u) = lastpos (attr m l) ∪ lastpos (attr m r)
  | Star _ l =>
      nullable (attr m u) = true
      ∧ firstpos (attr m u) = firstpos (attr m l)
      ∧ lastpos (attr m u) = lastpos (attr m l)
  end.

(** The pairs the node [u] itself adds to the followpos table. *)
Definition follow_at (m : memory) (u : RegexNode) (p q : nat) : Prop :=
  match u with
  | Concat _ l r => p ∈ lastpos (attr m l) ∧ q ∈ firstpos (attr m r)
  | Star _ _ => p ∈ lastpos (attr m u) ∧ q ∈ firstpos (attr m u)
  | _ => False
  end.

(** The pairs the nodes of [node] add to the followpos table. *)
Definition follows (m : memory) (node : RegexNode) (p q : nat) : Prop :=
  ∃ u, u ∈ subterms node ∧ follow_at m u p q.

(** The entry of a position in a followpos table, as
    [followpos_table.get(pos, set())] reads it. *)
Definition followpos_get (F : gmap nat (gset nat)) (p : nat) : gset nat :=
  default ∅ (F !! p).

(** ** Words of positions *)

(** The words of a tree, written with the positions of the leaves
    instead of their symbols. *)
Inductive pmatches (m : memory) : RegexNode → list nat → Prop :=
| pmatches_Symbol o c p :
    leaf_position m (o, c) = Some p → pmatches m (Symbol o c) [p]
| pmatches_Concat o l r w1 w2 :
    pmatches m l w1 → pmatches m r w2 → pmatches m (Concat o l r) (w1 ++ w2)
| pmatches_Union_l o l r w : pmatches m l w → pmatches m (Union o l r) w
| pmatches_Union_r o l r w : pmatches m r w → pmatches m (Union o l r) w
| pmatches_Star_nil o l : pmatches m (Star o l) []
| pmatches_Star_app o l w1 w2 :
    pmatches m l w1 → pmatches m (Star o l) w2 →
    pmatches m (Star o l) (w1 ++ w2).

(** From [p], the positions of [ps] follow one another by the pairs of
    [u], and the last one is in lastpos of [u]. *)
Fixpoint linked (m : memory) (u : RegexNode) (p : nat) (ps : list nat) : Prop :=
  match ps with
  | [] => p ∈ lastpos (attr m u)
  | q :: ps => follows m u p q ∧ linked m u q ps
  end.

(** A word of positions that the attributes of [u] allow: it starts in
    firstpos, follows the pairs of [u] and ends in lastpos; the empty
    word is allowed when [u] is nullable. *)
Definition path (m : memory) (u : RegexNode) (ps : list nat) : Prop :=
  match ps with
  | [] => nullable (attr m u) = true
  | p :: ps => p ∈ firstpos (attr m u) ∧ linked m u p ps
  end.

(** The word of positions [ps] spells the word [w]. *)
Definition spells (P : gmap nat ascii) (ps : list nat) (w : list ascii) : Prop :=
  Forall2 (λ p c, P !! p = Some c) ps w.

(** ** Reading an automaton *)

(** The state the automaton is in after reading [w] from state [i];
    [None] when a transition is missing. *)
Fixpoint run (states : list (list (ascii * nat))) (i : nat) (w : list ascii)
    : option nat :=
  match w with
  | [] => Some i
  | c :: w =>
      match states !! i with
      | Some transitions =>
          match dict_get c transitions with
          | Some j => run states j w
          | None => None
          end
      | None => None
      end
  end.

(** The automaton accepts [w]: reading [w] from state 0 ends in an
    accepting state. *)
Definition accepts (a : automaton) (w : list ascii) : Prop :=
  ∃ j, run a.1 0 w = Some j ∧ j ∈ a.2.

(** Position [q] is reached from the set [X] by a word of positions
    [ps]: the first one is in [X], each next one in the followpos entry
    of the one before, and [q] in the entry of the last. *)
Fixpoint trail (F : gmap nat (gset nat)) (X : gset nat) (ps : list nat)
    (q : nat) : Prop :=
  match ps with
  | [] => q ∈ X
  | p :: ps => p ∈ X ∧ trail F (followpos_get F p) ps q
  end.

(** Position [q] is reached from the set [X] by reading [w]. *)
Definition reach (P : gmap nat ascii) (F : gmap nat (gset nat))
    (X : gset nat) (w : list ascii) (q : nat) : Prop :=
  ∃ ps, spells P ps w ∧ "#" ∉ w ∧ trail F X ps q.

(** The position-sets the worklist can meet from [start]. *)
Inductive reachable_set (P : gmap nat ascii) (F : gmap nat (gset nat))
    (start : gset nat) : gset nat → Prop :=
| reachable_start : reachable_set P F start start
| reachable_move X c :
    reachable_set P F start X → c ≠ "#" → carries P X c →
    reachable_set P F start (move P F X c).

(** ** What the parser reads *)

(** The characters [base] accepts as a symbol. *)
Definition is_symbol (c : ascii) : bool := isalnum c || bool_decide (c = "#").

(** The characters of [R] from index [a] up to index [b]. *)
Definition segment (R : string) (a b : nat) : list ascii :=
  take (b - a) (drop a (chars R)).

(** The character at which [expression] stops, and the one at which
    [term] stops. *)
Definition stop_expression (c : option ascii) : Prop :=
  c = None ∨ c = Some ")".
Definition stop_term (c : option ascii) : Prop :=
  c = None ∨ c = Some "|" ∨ c = Some ")".

(** A method that reads a part of the regex [R] and builds a tree: it
    stops at a character allowed by [stop], and, when [R] has no [+],
    the leaves of the tree are the symbols it has read, in order. *)
Definition reads (R : string) (stop : option ascii → Prop)
    (f : Parser.parser RegexNode) : Prop :=
  ∀ self node self',
    coherent self → regex self = R → f self = Return (node, self') →
    regex self' = R ∧ coherent self' ∧ pos self ≤ pos self'
    ∧ stop (current_char self')
    ∧ ("+" ∉ chars R →
       (leaves node).*2 = filter is_symbol (segment R (pos self) (pos self'))).

(** A loop that reads on from a state allowed by [pre] and extends the
    tree [node0]. *)
Definition reads_on (R : string) (pre stop : option ascii → Prop)
    (f : RegexNode → Parser.parser RegexNode) : Prop :=
  ∀ self node0 node self',
    coherent self → regex self = R → pre (current_char self) →
    f node0 self = Return (node, self') →
    regex self' = R ∧ coherent self' ∧ pos self ≤ pos self'
    ∧ stop (current_char self')
    ∧ ("+" ∉ chars R →
       (leaves node).*2
       = (leaves node0).*2
         ++ filter is_symbol (segment R (pos self) (pos self'))).

(** The errors of the parser on the regex [R]: a missing closing
    parenthesis, the end of the input where a symbol or an opening
    parenthesis is required, or a character of [R] that is neither. *)
Definition parse_error (R : string) (e : exn) : Prop :=
  (e = MismatchedParentheses ∧ "(" ∈ chars R)
  ∨ e = UnexpectedCharacter None
  ∨ ∃ ch, e = UnexpectedCharacter (Some ch) ∧ ch ∈ chars R
          ∧ is_symbol ch = false ∧ ch ≠ "(".

(** From [p], the positions of [ps] follow one another by the pairs of
    [u], and the last of them is [q] (which is [p] when [ps] is empty). *)
Fixpoint arrives (m : memory) (u : RegexNode) (p : nat) (ps : list nat)
    (q : nat) : Prop :=
  match ps with
  | [] => p = q
  | p' :: ps => follows m u p p' ∧ arrives m u p' ps q
  end.

(** ** The parser on a regex and on the same regex followed by more *)

(** Whatever [f] returns, [g] returns. *)
Definition refines {A} (f g : Parser.parser A) : Prop :=
  ∀ self r, f self = Return r → g self = Return r.

(** Two parsers at the same place: [self1] reads [s], [self2] reads
    [s2], and both are at the same index, not beyond the end of [s],
    with the same objects allocated. *)
Definition same_place (s s2 : string) (self1 self2 : RegexParser) : Prop :=
  regex self1 = s ∧ regex self2 = s2
  ∧ pos self1 = pos self2 ∧ allocated self1 = allocated self2
  ∧ coherent self1 ∧ coherent self2
  ∧ pos self1 ≤ String.length s.

(** When [f] returns from [self1], [g] returns the same from [self2],
    and the two parsers are at the same place again. *)
Definition follows_suit (s s2 : string) {A} (self1 self2 : RegexParser)
    (f g : Parser.parser A) : Prop :=
  ∀ a self1', f self1 = Return (a, self1') →
    ∃ self2', g self2 = Return (a, self2') ∧ same_place s s2 self1' self2'.

(** ** Reading a drawing *)

(** The nodes a list of calls declares, as (name, shape), and the edges
    it draws, as (tail, head, label). *)
Definition node_calls (calls : list call) : list (string * string) :=
  omap (λ c, match c with
             | dot_node name shape => Some (name, shape)
             | _ => None
             end) calls.

Definition edge_calls (calls : list call) : list (string * string * string) :=
  omap (λ c, match c with
             | dot_edge tail_name head_name label =>
                 Some (tail_name, head_name, label)
             | _ => None
             end) calls.

(** The keys of every transition dictionary are distinct. *)
Definition distinct_keys (d : dfa) : Prop :=
  ∀ i tr, states d !! i = Some tr → NoDup tr.*1.

(** A drawing of a deterministic automaton: the edges join declared
    nodes, no two edges leave a node with the same label, no label is
    [#], no two nodes have the same name, and some node is drawn as
    accepting. *)
Definition well_drawn (calls : list call) : Prop :=
  (∀ tl hd lb, (tl, hd, lb) ∈ edge_calls calls →
     tl ∈ (node_calls calls).*1 ∧ hd ∈ (node_calls calls).*1
     ∧ lb ≠ "#"%string)
  ∧ (∀ tl hd1 hd2 lb,
       (tl, hd1, lb) ∈ edge_calls calls → (tl, hd2, lb) ∈ edge_calls calls →
       hd1 = hd2)
  ∧ NoDup (node_calls calls).*1
  ∧ (∃ name, (name, "doublecircle"%string) ∈ node_calls calls).

(** * The parser *)

Section string_facts.

Lemma get_lt s n c : String.get n s = Some c → n < String.length s.
Proof.
  revert n. induction s as [|a s IH]; intros [|n]; simpl; try done.
  - lia.
  - intros H. apply IH in H. lia.
Qed.

Lemma get_ge s n : String.length s ≤ n → String.get n s = None.
Proof.
  revert n. induction s as [|a s IH]; intros [|n]; simpl; try done.
  - lia.
  - intros H. apply IH. lia.
Qed.

Lemma get_chars s n c : String.get n s = Some c → c ∈ chars s.
Proof.
  revert n. induction s as [|a s IH]; intros [|n]; simpl; try done.
  - intros [= ->]. left.
  - intros H. right. by eapply IH.
Qed.

End string_facts.

Section tree_facts.

Lemma subterms_self node : node ∈ subterms node.
Proof. destruct node; left. Qed.

Lemma subterms_trans u v w : u ∈ subterms v → v ∈ subterms w → u ∈ subterms w.
Proof.
  revert u v. induction w as [o c|o l IHl r IHr|o l IHl r IHr|o l IHl];
    intros u v Hu Hv; simpl in Hv.
  - apply list_elem_of_singleton in Hv as ->. done.
  - apply elem_of_cons in Hv as [->|Hv]; [done|].
    simpl. right. apply elem_of_app. apply elem_of_app in Hv as [Hv|Hv];
      [left; eapply IHl|right; eapply IHr]; done.
  - apply elem_of_cons in Hv as [->|Hv]; [done|].
    simpl. right. apply elem_of_app. apply elem_of_app in Hv as [Hv|Hv];
      [left; eapply IHl|right; eapply IHr]; done.
  - apply elem_of_cons in Hv as [->|Hv]; [done|].
    simpl. right. by eapply IHl.
Qed.

Lemma well_formed_sub u node : well_formed node → u ∈ subterms node → well_formed u.
Proof.
  intros Hwf Hu v w Hv Hw. apply Hwf; by eapply subterms_trans.
Qed.

Lemma leaves_subterms node o c : (o, c) ∈ leaves node ↔ Symbol o c ∈ subterms node.
Proof.
  induction node as [o' c'|o' l IHl r IHr|o' l IHl r IHr|o' l IHl]; simpl.
  - rewrite !list_elem_of_singleton. split; intros [= -> ->]; done.
  - rewrite elem_of_cons, !elem_of_app, IHl, IHr.
    split; [tauto | intros [? | ?]; [done | tauto]].
  - rewrite elem_of_cons, !elem_of_app, IHl, IHr.
    split; [tauto | intros [? | ?]; [done | tauto]].
  - rewrite elem_of_cons, IHl.
    split; [tauto | intros [? | ?]; [done | tauto]].
Qed.

Lemma subterms_length u node :
  u ∈ subterms node → length (subterms u) ≤ length (subterms node).
Proof.
  induction node as [o c|o l IHl r IHr|o l IHl r IHr|o l IHl]; simpl;
    rewrite elem_of_cons, ?elem_of_app, ?length_app.
  - intros [->|[]%elem_of_nil]. done.
  - intros [->|[H|H]]; [simpl; rewrite length_app; lia|..];
      [apply IHl in H|apply IHr in H]; lia.
  - intros [->|[H|H]]; [simpl; rewrite length_app; lia|..];
      [apply IHl in H|apply IHr in H]; lia.
  - intros [->|H]; [simpl; lia|]. apply IHl in H. lia.
Qed.

(** In a well-formed tree a node is none of its own descendants. *)
Lemma well_formed_proper node u :
  well_formed node → u ∈ tail (subterms node) → obj_of node ≠ obj_of u.
Proof.
  intros Hwf Hu Heq.
  assert (Hin : u ∈ subterms node).
  { destruct node; simpl in *; by right. }
  assert (node = u) as <- by (apply Hwf; [apply subterms_self|done..]).
  destruct node as [o c|o l r|o l r|o l]; simpl in Hu.
  - by apply elem_of_nil in Hu.
  - apply elem_of_app in Hu as [H|H]; apply subterms_length in H;
      simpl in H; rewrite length_app in H; lia.
  - apply elem_of_app in Hu as [H|H]; apply subterms_length in H;
      simpl in H; rewrite length_app in H; lia.
  - apply subterms_length in Hu. simpl in Hu. lia.
Qed.

Lemma well_formed_binary (mk : nat → RegexNode → RegexNode → RegexNode) o l r :
  mk = Concat ∨ mk = Union → well_formed (mk o l r) →
  well_formed l ∧ well_formed r
  ∧ (∀ u v, u ∈ subterms l → v ∈ subterms r → obj_of u = obj_of v → u = v)
  ∧ (∀ u, u ∈ subterms l ++ subterms r → o ≠ obj_of u).
Proof.
  intros Hmk Hwf.
  assert (Hsub : subterms (mk o l r) = mk o l r :: subterms l ++ subterms r)
    by (destruct Hmk as [-> | ->]; done).
  assert (Hobj : obj_of (mk o l r) = o) by (destruct Hmk as [-> | ->]; done).
  split; [|split; [|split]].
  - apply (well_formed_sub _ _ Hwf). rewrite Hsub. right.
    apply elem_of_app. left. apply subterms_self.
  - apply (well_formed_sub _ _ Hwf). rewrite Hsub. right.
    apply elem_of_app. right. apply subterms_self.
  - intros u v Hu Hv. apply Hwf; rewrite Hsub; right; apply elem_of_app; auto.
  - intros u Hu. rewrite <- Hobj. apply well_formed_proper; [done|].
    by rewrite Hsub.
Qed.

Lemma well_formed_Star o l :
  well_formed (Star o l) →
  well_formed l ∧ (∀ u, u ∈ subterms l → o ≠ obj_of u).
Proof.
  intros Hwf. split.
  - apply (well_formed_sub _ _ Hwf). simpl. right. apply subterms_self.
  - intros u Hu. by apply (well_formed_proper (Star o l)).
Qed.

End tree_facts.

Section well_built_facts.
Context (R : string).

Lemma well_built_Symbol o c : c ∈ chars R → well_built R o (S o) (Symbol o c).
Proof.
  intros Hc. repeat split.
  - apply list_elem_of_singleton in H as ->. simpl. lia.
  - apply list_elem_of_singleton in H as ->. simpl. lia.
  - intros u v Hu%list_elem_of_singleton Hv%list_elem_of_singleton _. congruence.
  - intros oc Hoc%list_elem_of_singleton. by subst.
  - intros _. simpl. apply NoDup_singleton.
  - intros u ->%list_elem_of_singleton. done.
Qed.

Lemma well_built_leaf a b node oc :
  well_built R a b node → oc ∈ leaves node → a ≤ oc.1 < b.
Proof.
  intros (Hr & _) Hoc. destruct oc as [o c].
  apply leaves_subterms, Hr in Hoc. done.
Qed.

Lemma well_built_weaken a a' b b' node :
  well_built R a b node → a' ≤ a → b ≤ b' → well_built R a' b' node.
Proof.
  intros (Hr & Hwf & Hc & Hnd & Hsh) Ha Hb.
  split; [|done]. intros u Hu. apply Hr in Hu. lia.
Qed.

Lemma well_built_obj_lt a b node : well_built R a b node → a ≤ obj_of node < b.
Proof. intros (Hr & _). apply Hr, subterms_self. Qed.

(** A binary node over two trees built one after the other. *)
Lemma well_built_binary (mk : nat → RegexNode → RegexNode → RegexNode) a b c o l r :
  mk = Concat ∨ mk = Union →
  well_built R a b l → well_built R b c r → c ≤ o →
  well_built R a (S o) (mk o l r).
Proof.
  intros Hmk (Hrl & Hwl & Hcl & Hndl & Hshl) (Hrr & Hwr & Hcr & Hndr & Hshr) Hco.
  pose proof (Hrl l (subterms_self l)) as Hl0.
  pose proof (Hrr r (subterms_self r)) as Hr0.
  assert (Hsub : subterms (mk o l r) = mk o l r :: subterms l ++ subterms r)
    by (destruct Hmk as [-> | ->]; done).
  assert (Hlv : leaves (mk o l r) = leaves l ++ leaves r)
    by (destruct Hmk as [-> | ->]; done).
  assert (Hobj : obj_of (mk o l r) = o) by (destruct Hmk as [-> | ->]; done).
  split; [|split; [|split; [|split]]].
  - intros u. rewrite Hsub, elem_of_cons, elem_of_app.
    intros [-> | [Hu | Hu]].
    + rewrite Hobj. lia.
    + apply Hrl in Hu. lia.
    + apply Hrr in Hu. lia.
  - intros u v. rewrite Hsub, !elem_of_cons, !elem_of_app.
    intros [-> | [Hu | Hu]] [-> | [Hv | Hv]] Heq; try done;
      rewrite ?Hobj in Heq;
      try (pose proof (Hrl _ Hu)); try (pose proof (Hrr _ Hu));
      try (pose proof (Hrl _ Hv)); try (pose proof (Hrr _ Hv)); try lia.
    + by apply Hwl.
    + by apply Hwr.
  - intros oc. rewrite Hlv, elem_of_app. intros [H | H]; auto.
  - intros Hplus. rewrite Hlv, fmap_app.
    apply NoDup_app. repeat split; auto.
    intros x (u & -> & Hu)%list_elem_of_fmap (v & Hv1 & Hv)%list_elem_of_fmap.
    destruct u as [o1 c1], v as [o2 c2]. simpl in *. subst.
    apply leaves_subterms, Hrl in Hu. apply leaves_subterms, Hrr in Hv.
    simpl in *. lia.
  - intros u. rewrite Hsub, elem_of_cons, elem_of_app.
    intros [-> | [Hu | Hu]]; [|by apply Hshl|by apply Hshr].
    assert (Hdisj : ∀ v w, v ∈ subterms l → w ∈ subterms r →
                           obj_of v ≠ obj_of w).
    { intros v w Hv%Hrl Hw%Hrr. lia. }
    destruct Hmk as [-> | ->]; by left.
Qed.

Lemma well_built_Star a b o l :
  well_built R a b l → b ≤ o → well_built R a (S o) (Star o l).
Proof.
  intros (Hrl & Hwl & Hcl & Hndl & Hshl) Hbo.
  split; [|split; [|split; [|split]]].
  - intros u. simpl. rewrite elem_of_cons. intros [-> | Hu].
    + simpl. pose proof (Hrl l (subterms_self l)). lia.
    + apply Hrl in Hu. lia.
  - intros u v. simpl. rewrite !elem_of_cons.
    intros [-> | Hu] [-> | Hv] Heq; try done; simpl in Heq;
      try (pose proof (Hrl _ Hu)); try (pose proof (Hrl _ Hv)); try lia.
    by apply Hwl.
  - done.
  - done.
  - intros u. simpl. rewrite elem_of_cons. intros [-> | Hu]; [done|].
    by apply Hshl.
Qed.

(** The tree the [+] operator builds: its operand is referenced twice. *)
Lemma well_built_plus a b o node :
  well_built R a b node → b ≤ o → "+" ∈ chars R →
  well_built R a (S (S o)) (Concat (S o) node (Star o node)).
Proof.
  intros (Hrl & Hwl & Hcl & Hndl & Hshl) Hbo Hplus.
  split; [|split; [|split; [|split]]].
  - intros u. simpl. rewrite elem_of_cons, elem_of_app, elem_of_cons.
    intros [-> | [Hu | [-> | Hu]]]; simpl;
      try (apply Hrl in Hu); try lia;
      pose proof (Hrl node (subterms_self node)); lia.
  - intros u v. simpl. rewrite !elem_of_cons, !elem_of_app, !elem_of_cons.
    intros [-> | [Hu | [-> | Hu]]] [-> | [Hv | [-> | Hv]]] Heq;
      try done; simpl in Heq;
      try (pose proof (Hrl _ Hu)); try (pose proof (Hrl _ Hv)); try lia;
      by apply Hwl.
  - intros oc. simpl. rewrite elem_of_app. intros [H | H]; auto.
  - done.
  - intros u. simpl. rewrite elem_of_cons, elem_of_app, elem_of_cons.
    intros [-> | [Hu | [-> | Hu]]]; [|by apply Hshl|done|by apply Hshl].
    right. by exists o.
Qed.

End well_built_facts.

Ltac split4 := split; [|split; [|split]].

Section parser_facts.
Import Parser.
Local Open Scope parser_scope.

Lemma bind_Return {A B} (m : parser A) (k : A → parser B) self b self' :
  bind m k self = Return (b, self') →
  ∃ a self1, m self = Return (a, self1) ∧ k a self1 = Return (b, self').
Proof. unfold bind. destruct (m self) as [[a s1]| |]; naive_solver. Qed.

Lemma advance_inv self u self' :
  advance self = Return (u, self') →
  coherent self' ∧ regex self' = regex self ∧ pos self' = S (pos self)
  ∧ allocated self' = allocated self.
Proof.
  unfold advance. intros [= _ <-]. unfold coherent. simpl.
  repeat split; try lia.
  case_decide; [done|]. symmetry. apply get_ge. lia.
Qed.

Lemma alloc_inv mk self node self' :
  alloc mk self = Return (node, self') →
  node = mk (allocated self) ∧ (coherent self → coherent self')
  ∧ regex self' = regex self ∧ pos self' = pos self
  ∧ allocated self' = S (allocated self).
Proof. unfold alloc. intros [= <- <-]. done. Qed.

Lemma init_coherent s : coherent (RegexParser_init s).
Proof.
  unfold coherent, RegexParser_init. simpl. case_decide; [by subst|done].
Qed.

Lemma coherent_chars self c :
  coherent self → current_char self = Some c → c ∈ chars (regex self).
Proof. unfold coherent. intros -> H. by eapply get_chars. Qed.

Lemma coherent_remaining self c :
  coherent self → current_char self = Some c → pos self < String.length (regex self).
Proof. unfold coherent. intros -> H. by eapply get_lt. Qed.

Lemma factor_while_extends R fuel : extends R (factor_while fuel).
Proof.
  induction fuel as [|fuel IH]; intros a self node0 node self' Hco HR Hwb H;
    [done|].
  simpl in H. apply bind_Return in H as (c & s1 & Hpeek & H).
  injection Hpeek as <- <-.
  destruct (decide (current_char self = Some "*")) as [Hstar|Hnstar];
    [|destruct (decide (current_char self = Some "+")) as [Hplus|Hnplus]].
  - apply bind_Return in H as (u & s1 & Hadv & H).
    apply advance_inv in Hadv as (Hco1 & HR1 & Hpos1 & Hal1).
    apply bind_Return in H as (n1 & s2 & Hal & H).
    apply alloc_inv in Hal as (-> & Hco2 & HR2 & Hpos2 & Hal2).
    assert (Hwb2 : well_built R a (allocated s2) (Star (allocated s1) node0))
      by (rewrite Hal2; eapply well_built_Star; [done|lia]).
    destruct (IH a s2 _ _ _ (Hco2 Hco1) ltac:(congruence) Hwb2 H)
      as (? & ? & ? & ?).
    split4; try done; lia.
  - apply bind_Return in H as (u & s1 & Hadv & H).
    apply advance_inv in Hadv as (Hco1 & HR1 & Hpos1 & Hal1).
    apply bind_Return in H as (n1 & s2 & Hal & H).
    apply alloc_inv in Hal as (-> & Hco2 & HR2 & Hpos2 & Hal2).
    apply bind_Return in H as (n2 & s3 & Hal' & H).
    apply alloc_inv in Hal' as (-> & Hco3 & HR3 & Hpos3 & Hal3).
    assert (Hwb3 : well_built R a (allocated s3)
              (Concat (allocated s2) node0 (Star (allocated s1) node0))).
    { rewrite Hal3, Hal2. eapply well_built_plus; [done|lia|].
      rewrite <- HR. by eapply coherent_chars. }
    destruct (IH a s3 _ _ _ (Hco3 (Hco2 Hco1)) ltac:(congruence) Hwb3 H)
      as (? & ? & ? & ?).
    split4; try done; lia.
  - injection H as <- <-. by split4.
Qed.

Lemma parser_invariants R fuel :
  produces R (expression fuel) ∧ extends R (expression_while fuel)
  ∧ produces R (term fuel) ∧ extends R (term_while fuel)
  ∧ produces R (factor fuel) ∧ produces R (base fuel).
Proof.
  induction fuel as [|fuel (IHe & IHew & IHt & IHtw & IHf & IHb)].
  { repeat split; intros; discriminate. }
  split; [|split; [|split; [|split; [|split]]]].
  - (* expression *)
    intros self node self' Hco HR H. simpl in H.
    apply bind_Return in H as (n1 & s1 & Ht & H).
    destruct (IHt _ _ _ Hco HR Ht) as (HR1 & Hco1 & Hpos1 & Hwb1).
    destruct (IHew _ _ _ _ _ Hco1 HR1 Hwb1 H) as (? & ? & ? & ?).
    split4; try done; lia.
  - (* expression_while *)
    intros a self node0 node self' Hco HR Hwb H. simpl in H.
    apply bind_Return in H as (c & s1 & Hpeek & H).
    injection Hpeek as <- <-.
    destruct (decide (current_char self = Some "|")) as [Hbar|Hnbar].
    + apply bind_Return in H as (u & s1 & Hadv & H).
      apply advance_inv in Hadv as (Hco1 & HR1 & Hpos1 & Hal1).
      apply bind_Return in H as (n1 & s2 & Ht & H).
      destruct (IHt _ _ _ Hco1 ltac:(congruence) Ht) as (HR2 & Hco2 & Hpos2 & Hwb2).
      apply bind_Return in H as (n2 & s3 & Hal & H).
      apply alloc_inv in Hal as (-> & Hco3 & HR3 & Hpos3 & Hal3).
      assert (Hwb3 : well_built R a (allocated s3) (Union (allocated s2) node0 n1)).
      { rewrite Hal3. eapply (well_built_binary R Union); [by right | done | |done].
        by rewrite <- Hal1. }
      destruct (IHew a s3 _ _ _ (Hco3 Hco2) ltac:(congruence) Hwb3 H)
        as (? & ? & ? & ?).
      split4; try done; lia.
    + injection H as <- <-. by split4.
  - (* term *)
    intros self node self' Hco HR H. simpl in H.
    apply bind_Return in H as (n1 & s1 & Hf & H).
    destruct (IHf _ _ _ Hco HR Hf) as (HR1 & Hco1 & Hpos1 & Hwb1).
    destruct (IHtw _ _ _ _ _ Hco1 HR1 Hwb1 H) as (? & ? & ? & ?).
    split4; try done; lia.
  - (* term_while *)
    intros a self node0 node self' Hco HR Hwb H. simpl in H.
    apply bind_Return in H as (c & s1 & Hpeek & H).
    injection Hpeek as <- <-.
    destruct (current_char self) as [ch|] eqn:Hch;
      [destruct (decide (ch ≠ "|" ∧ ch ≠ ")")) as [Hgo|Hstop]|].
    + apply bind_Return in H as (n1 & s2 & Hf & H).
      destruct (IHf _ _ _ Hco HR Hf) as (HR2 & Hco2 & Hpos2 & Hwb2).
      apply bind_Return in H as (n2 & s3 & Hal & H).
      apply alloc_inv in Hal as (-> & Hco3 & HR3 & Hpos3 & Hal3).
      assert (Hwb3 : well_built R a (allocated s3) (Concat (allocated s2) node0 n1)).
      { rewrite Hal3. eapply (well_built_binary R Concat); [by left | done | done |done]. }
      destruct (IHtw a s3 _ _ _ (Hco3 Hco2) ltac:(congruence) Hwb3 H)
        as (? & ? & ? & ?).
      split4; try done; lia.
    + injection H as <- <-. by split4.
    + injection H as <- <-. by split4.
  - (* factor *)
    intros self node self' Hco HR H. simpl in H.
    apply bind_Return in H as (n1 & s1 & Hb & H).
    destruct (IHb _ _ _ Hco HR Hb) as (HR1 & Hco1 & Hpos1 & Hwb1).
    destruct (factor_while_extends R fuel _ _ _ _ _ Hco1 HR1 Hwb1 H)
      as (? & ? & ? & ?).
    split4; try done; lia.
  - (* base *)
    intros self node self' Hco HR H. simpl in H.
    apply bind_Return in H as (c & s1 & Hpeek & H).
    injection Hpeek as <- <-.
    destruct (decide (current_char self = Some "(")) as [Hopen|Hnopen].
    + apply bind_Return in H as (u & s1 & Hadv & H).
      apply advance_inv in Hadv as (Hco1 & HR1 & Hpos1 & Hal1).
      apply bind_Return in H as (n1 & s2 & He & H).
      destruct (IHe _ _ _ Hco1 ltac:(congruence) He) as (HR2 & Hco2 & Hpos2 & Hwb2).
      apply bind_Return in H as (c' & s3 & Hpeek & H).
      injection Hpeek as <- <-.
      destruct (decide (current_char s2 ≠ Some ")")); [done|].
      apply bind_Return in H as (u' & s3 & Hadv & H).
      apply advance_inv in Hadv as (Hco3 & HR3 & Hpos3 & Hal3).
      injection H as <- <-.
      split4; [congruence | done | lia |].
      rewrite Hal3, <- Hal1. done.
    + destruct (current_char self) as [ch|] eqn:Hch; [|done].
      destruct (isalnum ch || bool_decide (ch = "#")); [|done].
      apply bind_Return in H as (u & s1 & Hadv & H).
      apply advance_inv in Hadv as (Hco1 & HR1 & Hpos1 & Hal1).
      apply alloc_inv in H as (-> & Hco2 & HR2 & Hpos2 & Hal2).
      split4; [congruence | by auto | lia |].
      rewrite Hal2, Hal1. apply well_built_Symbol.
      rewrite <- HR. by eapply coherent_chars.
Qed.

(** *** Enough fuel *)

Lemma bind_fuelled {A B} (m : parser A) (k : A → parser B) self :
  m self ≠ OutOfFuel →
  (∀ a self1, m self = Return (a, self1) → k a self1 ≠ OutOfFuel) →
  bind m k self ≠ OutOfFuel.
Proof.
  unfold bind. destruct (m self) as [[a s1]| |]; [|done..].
  intros _ Hk. by apply Hk.
Qed.

Lemma remaining_advance self self' c :
  coherent self → current_char self = Some c →
  regex self' = regex self → pos self < pos self' →
  S (remaining self') ≤ remaining self.
Proof.
  intros Hco Hc HR Hpos. pose proof (coherent_remaining _ _ Hco Hc).
  unfold remaining. rewrite HR. lia.
Qed.

Lemma remaining_mono self self' :
  regex self' = regex self → pos self ≤ pos self' →
  remaining self' ≤ remaining self.
Proof. intros HR Hpos. unfold remaining. rewrite HR. lia. Qed.

Lemma factor_while_fuelled node : fuelled 1 (λ fuel, factor_while fuel node).
Proof.
  intros fuel. revert node.
  induction fuel as [|fuel IH]; intros node self Hco Hfuel; [lia|].
  simpl. apply bind_fuelled; [done|]. intros c s1 [= <- <-].
  destruct (decide (current_char self = Some "*")) as [Hstar|Hnstar];
    [|destruct (decide (current_char self = Some "+")) as [Hplus|Hnplus]];
    [| |done].
  - apply bind_fuelled; [done|]. intros u s1 Hadv.
    apply advance_inv in Hadv as (Hco1 & HR1 & Hpos1 & Hal1).
    apply bind_fuelled; [done|]. intros n1 s2 Hal.
    apply alloc_inv in Hal as (-> & Hco2 & HR2 & Hpos2 & Hal2).
    apply IH; [by auto|].
    pose proof (remaining_advance self s2 _ Hco Hstar ltac:(congruence) ltac:(lia)).
    lia.
  - apply bind_fuelled; [done|]. intros u s1 Hadv.
    apply advance_inv in Hadv as (Hco1 & HR1 & Hpos1 & Hal1).
    apply bind_fuelled; [done|]. intros n1 s2 Hal.
    apply alloc_inv in Hal as (-> & Hco2 & HR2 & Hpos2 & Hal2).
    apply bind_fuelled; [done|]. intros n2 s3 Hal'.
    apply alloc_inv in Hal' as (-> & Hco3 & HR3 & Hpos3 & Hal3).
    apply IH; [by auto|].
    pose proof (remaining_advance self s3 _ Hco Hplus ltac:(congruence) ltac:(lia)).
    lia.
Qed.

Lemma parser_fuelled fuel0 :
  (∀ fuel, fuel ≤ fuel0 → ∀ self, coherent self →
     7 * remaining self + 6 ≤ fuel → expression fuel self ≠ OutOfFuel)
  ∧ (∀ fuel, fuel ≤ fuel0 → ∀ node self, coherent self →
     7 * remaining self + 5 ≤ fuel → expression_while fuel node self ≠ OutOfFuel)
  ∧ (∀ fuel, fuel ≤ fuel0 → ∀ self, coherent self →
     7 * remaining self + 4 ≤ fuel → term fuel self ≠ OutOfFuel)
  ∧ (∀ fuel, fuel ≤ fuel0 → ∀ node self, coherent self →
     7 * remaining self + 3 ≤ fuel → term_while fuel node self ≠ OutOfFuel)
  ∧ (∀ fuel, fuel ≤ fuel0 → ∀ self, coherent self →
     7 * remaining self + 2 ≤ fuel → factor fuel self ≠ OutOfFuel)
  ∧ (∀ fuel, fuel ≤ fuel0 → ∀ self, coherent self →
     7 * remaining self + 1 ≤ fuel → base fuel self ≠ OutOfFuel).
Proof.
  induction fuel0 as [|fuel0 (IHe & IHew & IHt & IHtw & IHf & IHb)].
  { repeat split; intros; lia. }
  split; [|split; [|split; [|split; [|split]]]].
  - (* expression *)
    intros [|fuel] Hle self Hco Hfuel; [lia|]. simpl.
    apply bind_fuelled; [apply IHt; [lia|done|lia]|]. intros n1 s1 Ht.
    destruct (proj1 (proj2 (proj2 (parser_invariants (regex self) fuel)))
                _ _ _ Hco eq_refl Ht) as (HR1 & Hco1 & Hpos1 & _).
    apply IHew; [lia|done|].
    pose proof (remaining_mono self s1 HR1 ltac:(lia)). lia.
  - (* expression_while *)
    intros [|fuel] Hle node self Hco Hfuel; [lia|]. simpl.
    apply bind_fuelled; [done|]. intros c s1 [= <- <-].
    destruct (decide (current_char self = Some "|")) as [Hbar|Hnbar]; [|done].
    apply bind_fuelled; [done|]. intros u s1 Hadv.
    apply advance_inv in Hadv as (Hco1 & HR1 & Hpos1 & Hal1).
    pose proof (remaining_advance self s1 _ Hco Hbar HR1 ltac:(lia)).
    apply bind_fuelled; [apply IHt; [lia|done|lia]|]. intros n1 s2 Ht.
    destruct (proj1 (proj2 (proj2 (parser_invariants (regex s1) fuel)))
                _ _ _ Hco1 eq_refl Ht) as (HR2 & Hco2 & Hpos2 & _).
    apply bind_fuelled; [done|]. intros n2 s3 Hal.
    apply alloc_inv in Hal as (-> & Hco3 & HR3 & Hpos3 & Hal3).
    apply IHew; [lia|by auto|].
    pose proof (remaining_mono s1 s3 ltac:(congruence) ltac:(lia)). lia.
  - (* term *)
    intros [|fuel] Hle self Hco Hfuel; [lia|]. simpl.
    apply bind_fuelled; [apply IHf; [lia|done|lia]|]. intros n1 s1 Hf.
    destruct (proj1 (proj2 (proj2 (proj2 (proj2 (parser_invariants (regex self) fuel)))))
                _ _ _ Hco eq_refl Hf) as (HR1 & Hco1 & Hpos1 & _).
    apply IHtw; [lia|done|].
    pose proof (remaining_mono self s1 HR1 ltac:(lia)). lia.
  - (* term_while *)
    intros [|fuel] Hle node self Hco Hfuel; [lia|]. simpl.
    apply bind_fuelled; [done|]. intros c s1 [= <- <-].
    destruct (current_char self) as [ch|] eqn:Hch; [|done].
    destruct (decide (ch ≠ "|" ∧ ch ≠ ")")) as [Hgo|Hstop]; [|done].
    apply bind_fuelled; [apply IHf; [lia|done|lia]|]. intros n1 s2 Hf.
    destruct (proj1 (proj2 (proj2 (proj2 (proj2 (parser_invariants (regex self) fuel)))))
                _ _ _ Hco eq_refl Hf) as (HR2 & Hco2 & Hpos2 & _).
    apply bind_fuelled; [done|]. intros n2 s3 Hal.
    apply alloc_inv in Hal as (-> & Hco3 & HR3 & Hpos3 & Hal3).
    apply IHtw; [lia|by auto|].
    pose proof (remaining_advance self s3 _ Hco Hch ltac:(congruence) ltac:(lia)).
    lia.
  - (* factor *)
    intros [|fuel] Hle self Hco Hfuel; [lia|]. simpl.
    apply bind_fuelled; [apply IHb; [lia|done|lia]|]. intros n1 s1 Hb.
    destruct (proj2 (proj2 (proj2 (proj2 (proj2 (parser_invariants (regex self) fuel)))))
                _ _ _ Hco eq_refl Hb) as (HR1 & Hco1 & Hpos1 & _).
    apply factor_while_fuelled; [done|].
    pose proof (remaining_mono self s1 HR1 ltac:(lia)). lia.
  - (* base *)
    intros [|fuel] Hle self Hco Hfuel; [lia|]. simpl.
    apply bind_fuelled; [done|]. intros c s1 [= <- <-].
    destruct (decide (current_char self = Some "(")) as [Hopen|Hnopen].
    + apply bind_fuelled; [done|]. intros u s1 Hadv.
      apply advance_inv in Hadv as (Hco1 & HR1 & Hpos1 & Hal1).
      pose proof (remaining_advance self s1 _ Hco Hopen HR1 ltac:(lia)).
      apply bind_fuelled; [apply IHe; [lia|done|lia]|]. intros n1 s2 He.
      apply bind_fuelled; [done|]. intros c' s3 [= <- <-].
      destruct (decide (current_char s2 ≠ Some ")")); [done|].
      apply bind_fuelled; done.
    + destruct (current_char self) as [ch|] eqn:Hch; [|done].
      destruct (isalnum ch || bool_decide (ch = "#")); [|done].
      apply bind_fuelled; done.
Qed.

(** The methods of the parser return or raise. *)
Lemma parse_fuelled fuel self :
  coherent self → 7 * remaining self + 6 ≤ fuel → parse fuel self ≠ OutOfFuel.
Proof.
  intros Hco Hfuel. unfold parse.
  apply bind_fuelled; [by apply (parser_fuelled fuel)|]. intros n1 s1 _.
  apply bind_fuelled; [done|]. intros n2 s2 _.
  apply bind_fuelled; done.
Qed.

Lemma parse_regex_fuelled s : parse_regex s ≠ OutOfFuel.
Proof.
  unfold parse_regex.
  pose proof (parse_fuelled (fuel_for s) (RegexParser_init s) (init_coherent s)) as H.
  destruct (parse (fuel_for s) (RegexParser_init s)) as [[n s1]| |]; [done..|].
  exfalso. apply H; [|done]. unfold fuel_for, remaining. simpl. lia.
Qed.

End parser_facts.

(** * The annotator *)

Section language_facts.

Lemma matches_nil_nullable node : matches node [] ↔ nullable_of node = true.
Proof.
  split.
  - intros H. remember [] as w eqn:Hw. revert Hw.
    induction H as [o c|o l r w1 w2 _ IH1 _ IH2|o l r w _ IH|o l r w _ IH
                   |o l|o l w1 w2 _ IH1 _ IH2]; intros Hw; simpl; try done.
    + apply app_eq_nil in Hw as [-> ->].
      by rewrite IH1, IH2.
    + by rewrite IH.
    + rewrite IH by done. apply orb_true_r.
  - induction node as [o c|o l IHl r IHr|o l IHl r IHr|o l IHl]; simpl.
    + done.
    + intros [Hl Hr]%andb_true_iff.
      apply (matches_Concat o l r [] []); auto.
    + intros [Hl | Hr]%orb_true_iff;
        [apply matches_Union_l | apply matches_Union_r]; auto.
    + intros _. apply matches_Star_nil.
Qed.

End language_facts.

Section memory_facts.

Lemma attr_set_attr f node m u :
  attr (set_attr f node m) u
  = if decide (obj_of node = obj_of u) then f (attr m node) else attr m u.
Proof.
  unfold attr, set_attr. simpl. rewrite lookup_insert.
  case_decide as H; done.
Qed.

Lemma attr_obj_eq m u v : obj_of u = obj_of v → attr m u = attr m v.
Proof. unfold attr. by intros ->. Qed.

(** An assignment to one field leaves the other fields alone, whatever
    the object. *)
Lemma attr_set_attr_field {A} (proj : attrs → A) f node m u :
  (∀ a, proj (f a) = proj a) →
  proj (attr (set_attr f node m) u) = proj (attr m u).
Proof.
  intros Hf. rewrite attr_set_attr. case_decide as H; [|done].
  rewrite Hf. f_equal. by apply attr_obj_eq.
Qed.

Lemma attr_set_attr_ne f node m u :
  obj_of node ≠ obj_of u → attr (set_attr f node m) u = attr m u.
Proof. intros H. rewrite attr_set_attr. by case_decide. Qed.

Lemma firstpos_set_nullable b node m u :
  firstpos (attr (set_nullable b node m) u) = firstpos (attr m u).
Proof. by apply attr_set_attr_field. Qed.
Lemma lastpos_set_nullable b node m u :
  lastpos (attr (set_nullable b node m) u) = lastpos (attr m u).
Proof. by apply attr_set_attr_field. Qed.
Lemma position_set_nullable b node m u :
  position (attr (set_nullable b node m) u) = position (attr m u).
Proof. by apply attr_set_attr_field. Qed.
Lemma nullable_set_firstpos s node m u :
  nullable (attr (set_firstpos s node m) u) = nullable (attr m u).
Proof. by apply attr_set_attr_field. Qed.
Lemma lastpos_set_firstpos s node m u :
  lastpos (attr (set_firstpos s node m) u) = lastpos (attr m u).
Proof. by apply attr_set_attr_field. Qed.
Lemma position_set_firstpos s node m u :
  position (attr (set_firstpos s node m) u) = position (attr m u).
Proof. by apply attr_set_attr_field. Qed.
Lemma nullable_set_lastpos s node m u :
  nullable (attr (set_lastpos s node m) u) = nullable (attr m u).
Proof. by apply attr_set_attr_field. Qed.
Lemma firstpos_set_lastpos s node m u :
  firstpos (attr (set_lastpos s node m) u) = firstpos (attr m u).
Proof. by apply attr_set_attr_field. Qed.
Lemma position_set_lastpos s node m u :
  position (attr (set_lastpos s node m) u) = position (attr m u).
Proof. by apply attr_set_attr_field. Qed.
Lemma nullable_set_position p node m u :
  nullable (attr (set_position p node m) u) = nullable (attr m u).
Proof. by apply attr_set_attr_field. Qed.
Lemma firstpos_set_position p node m u :
  firstpos (attr (set_position p node m) u) = firstpos (attr m u).
Proof. by apply attr_set_attr_field. Qed.
Lemma lastpos_set_position p node m u :
  lastpos (attr (set_position p node m) u) = lastpos (attr m u).
Proof. by apply attr_set_attr_field. Qed.

(** Reading the field just assigned, through any reference to the
    object. *)
Lemma nullable_set_nullable b node m u :
  obj_of node = obj_of u → nullable (attr (set_nullable b node m) u) = b.
Proof. intros H. unfold set_nullable. rewrite attr_set_attr. by case_decide. Qed.
Lemma firstpos_set_firstpos s node m u :
  obj_of node = obj_of u → firstpos (attr (set_firstpos s node m) u) = s.
Proof. intros H. unfold set_firstpos. rewrite attr_set_attr. by case_decide. Qed.
Lemma lastpos_set_lastpos s node m u :
  obj_of node = obj_of u → lastpos (attr (set_lastpos s node m) u) = s.
Proof. intros H. unfold set_lastpos. rewrite attr_set_attr. by case_decide. Qed.
Lemma position_set_position p node m u :
  obj_of node = obj_of u → position (attr (set_position p node m) u) = Some p.
Proof. intros H. unfold set_position. rewrite attr_set_attr. by case_decide. Qed.

Lemma attr_record_position s m u : attr (record_position s m) u = attr m u.
Proof. done. Qed.

Lemma attr_bump_counter m u : attr (bump_counter m) u = attr m u.
Proof. done. Qed.

End memory_facts.

(** Rewrites the attributes read after an assignment. *)
Ltac attr_simpl :=
  unfold set_nullable, set_firstpos, set_lastpos, set_position;
  repeat (rewrite attr_set_attr || rewrite attr_record_position
          || rewrite attr_bump_counter);
  repeat case_decide; simpl; try done.

Section annotate_facts.

(** The counter grows by the number of leaves visited. *)
Lemma annotate_counter node m :
  position_counter (annotate node m) = position_counter m + leaf_count node.
Proof.
  revert m. unfold leaf_count.
  induction node as [o c|o l IHl r IHr|o l IHl r IHr|o l IHl]; intros m; simpl.
  - done.
  - rewrite IHr, IHl, length_app. lia.
  - rewrite IHr, IHl, length_app. lia.
  - by rewrite IHl.
Qed.

(** The table receives the symbols of the leaves in visiting order. *)
Lemma annotate_positions node m p :
  positions (annotate node m) !! p
  = if decide (position_counter m ≤ p < position_counter m + leaf_count node)
    then (leaves node).*2 !! (p - position_counter m)
    else positions m !! p.
Proof.
  revert m. unfold leaf_count.
  induction node as [o c|o l IHl r IHr|o l IHl r IHr|o l IHl]; intros m; simpl.
  - rewrite lookup_insert. repeat case_decide; try lia; try done.
    subst. by rewrite Nat.sub_diag.
  - rewrite IHr, IHl, annotate_counter. unfold leaf_count.
    rewrite fmap_app, length_app.
    repeat case_decide; try lia; try done.
    + rewrite lookup_app_r by (rewrite length_fmap; lia).
      rewrite length_fmap. f_equal. lia.
    + rewrite lookup_app_l by (rewrite length_fmap; lia). done.
  - rewrite IHr, IHl, annotate_counter. unfold leaf_count.
    rewrite fmap_app, length_app.
    repeat case_decide; try lia; try done.
    + rewrite lookup_app_r by (rewrite length_fmap; lia).
      rewrite length_fmap. f_equal. lia.
    + rewrite lookup_app_l by (rewrite length_fmap; lia). done.
  - by rewrite IHl.
Qed.

(** Only the objects of the tree are assigned to. *)
Lemma annotate_frame node m u :
  obj_of u ∉ obj_of <$> subterms node → attr (annotate node m) u = attr m u.
Proof.
  revert m.
  induction node as [o c|o l IHl r IHr|o l IHl r IHr|o l IHl]; intros m Hu;
    simpl in Hu; rewrite ?fmap_app in Hu;
    rewrite not_elem_of_cons, ?not_elem_of_app in Hu; simpl.
  - attr_simpl; naive_solver.
  - destruct Hu as (Ho & Hl & Hr). attr_simpl. by rewrite IHr, IHl.
  - destruct Hu as (Ho & Hl & Hr). attr_simpl. by rewrite IHr, IHl.
  - destruct Hu as (Ho & Hl). attr_simpl. by rewrite IHl.
Qed.

(** *** What one visit assigns *)

Lemma annotate_Symbol o c m :
  let m' := annotate (Symbol o c) m in
  (∀ u, o ≠ obj_of u → attr m' u = attr m u)
  ∧ (∀ u, o = obj_of u →
       attr m' u = {| nullable := false;
                      firstpos := {[position_counter m]};
                      lastpos := {[position_counter m]};
                      position := Some (position_counter m) |}).
Proof.
  simpl. split; intros u Hu.
  - unfold set_nullable, set_firstpos, set_lastpos, set_position.
    rewrite attr_bump_counter, attr_record_position.
    by rewrite !attr_set_attr_ne.
  - unfold set_nullable, set_firstpos, set_lastpos, set_position.
    rewrite attr_bump_counter, attr_record_position.
    rewrite !attr_set_attr. simpl. by repeat case_decide.
Qed.

Lemma annotate_Concat o l r m :
  let m2 := annotate r (annotate l m) in
  let m3 := annotate (Concat o l r) m in
  (∀ u, o ≠ obj_of u → attr m3 u = attr m2 u)
  ∧ (∀ u, o = obj_of u →
       nullable (attr m3 u) = nullable (attr m2 l) && nullable (attr m2 r)
       ∧ (∃ b : bool, firstpos (attr m3 u)
               = (if b then firstpos (attr m2 l)
                  else firstpos (attr m2 l) ∪ firstpos (attr m2 r))
               ∧ (o ≠ obj_of l → b = negb (nullable (attr m2 l))))
       ∧ (∃ b : bool, lastpos (attr m3 u)
               = (if b then lastpos (attr m2 r)
                  else lastpos (attr m2 l) ∪ lastpos (attr m2 r))
               ∧ (o ≠ obj_of r → b = negb (nullable (attr m2 r))))
       ∧ position (attr m3 u) = position (attr m2 u)).
Proof.
  simpl. set (m2 := annotate r (annotate l m)). split; intros u Hu.
  - unfold set_nullable, set_firstpos, set_lastpos.
    by rewrite !attr_set_attr_ne.
  - split; [|split; [|split]].
    + by rewrite nullable_set_lastpos, nullable_set_firstpos,
        nullable_set_nullable.
    + rewrite firstpos_set_lastpos, firstpos_set_firstpos by done.
      rewrite !firstpos_set_nullable. eexists. split; [done|].
      intros Hne. unfold set_nullable. by rewrite attr_set_attr_ne.
    + rewrite lastpos_set_lastpos by done.
      rewrite !lastpos_set_firstpos, !lastpos_set_nullable.
      eexists. split; [done|].
      intros Hne. rewrite nullable_set_firstpos.
      unfold set_nullable. by rewrite attr_set_attr_ne.
    + by rewrite position_set_lastpos, position_set_firstpos,
        position_set_nullable.
Qed.

Lemma annotate_Union o l r m :
  let m2 := annotate r (annotate l m) in
  let m3 := annotate (Union o l r) m in
  (∀ u, o ≠ obj_of u → attr m3 u = attr m2 u)
  ∧ (∀ u, o = obj_of u →
       nullable (attr m3 u) = nullable (attr m2 l) || nullable (attr m2 r)
       ∧ firstpos (attr m3 u) = firstpos (attr m2 l) ∪ firstpos (attr m2 r)
       ∧ lastpos (attr m3 u) = lastpos (attr m2 l) ∪ lastpos (attr m2 r)
       ∧ position (attr m3 u) = position (attr m2 u)).
Proof.
  simpl. set (m2 := annotate r (annotate l m)). split; intros u Hu.
  - unfold set_nullable, set_firstpos, set_lastpos.
    by rewrite !attr_set_attr_ne.
  - split; [|split; [|split]].
    + by rewrite nullable_set_lastpos, nullable_set_firstpos,
        nullable_set_nullable.
    + rewrite firstpos_set_lastpos, firstpos_set_firstpos by done.
      by rewrite !firstpos_set_nullable.
    + rewrite lastpos_set_lastpos by done.
      by rewrite !lastpos_set_firstpos, !lastpos_set_nullable.
    + by rewrite position_set_lastpos, position_set_firstpos,
        position_set_nullable.
Qed.

Lemma annotate_Star o l m :
  let m1 := annotate l m in
  let m2 := annotate (Star o l) m in
  (∀ u, o ≠ obj_of u → attr m2 u = attr m1 u)
  ∧ (∀ u, o = obj_of u →
       nullable (attr m2 u) = true
       ∧ firstpos (attr m2 u) = firstpos (attr m1 l)
       ∧ lastpos (attr m2 u) = lastpos (attr m1 l)
       ∧ position (attr m2 u) = position (attr m1 u)).
Proof.
  simpl. set (m1 := annotate l m). split; intros u Hu.
  - unfold set_nullable, set_firstpos, set_lastpos.
    by rewrite !attr_set_attr_ne.
  - split; [|split; [|split]].
    + by rewrite nullable_set_lastpos, nullable_set_firstpos,
        nullable_set_nullable.
    + rewrite firstpos_set_lastpos, firstpos_set_firstpos by done.
      by rewrite !firstpos_set_nullable.
    + rewrite lastpos_set_lastpos by done.
      by rewrite !lastpos_set_firstpos, !lastpos_set_nullable.
    + by rewrite position_set_lastpos, position_set_firstpos,
        position_set_nullable.
Qed.

(** *** The sets hold positions of the visit *)

Lemma within_weaken lo hi lo' hi' a :
  within lo hi a → lo' ≤ lo → hi ≤ hi' → within lo' hi' a.
Proof.
  intros [Hf Hl] ??. split; intros p Hp; [apply Hf in Hp|apply Hl in Hp]; lia.
Qed.

Lemma elem_of_objs u node :
  obj_of u ∈ obj_of <$> subterms node ↔
  ∃ v, v ∈ subterms node ∧ obj_of v = obj_of u.
Proof.
  rewrite list_elem_of_fmap. split; intros (v & H1 & H2); exists v; done.
Qed.

Lemma leaf_count_binary o l r :
  leaf_count (Concat o l r) = leaf_count l + leaf_count r
  ∧ leaf_count (Union o l r) = leaf_count l + leaf_count r.
Proof. unfold leaf_count. simpl. by rewrite length_app. Qed.

(** After the two children of a binary node have been visited. *)
Lemma within_children l r m u :
  (∀ m u, u ∈ subterms l →
     within (position_counter m) (position_counter m + leaf_count l)
            (attr (annotate l m) u)) →
  (∀ m u, u ∈ subterms r →
     within (position_counter m) (position_counter m + leaf_count r)
            (attr (annotate r m) u)) →
  u ∈ subterms l ++ subterms r →
  within (position_counter m)
         (position_counter m + (leaf_count l + leaf_count r))
         (attr (annotate r (annotate l m)) u).
Proof.
  intros IHl IHr Hu.
  assert (Hr : ∀ v, v ∈ subterms r →
    within (position_counter m)
           (position_counter m + (leaf_count l + leaf_count r))
           (attr (annotate r (annotate l m)) v)).
  { intros v Hv. eapply within_weaken; [by apply IHr|..];
      rewrite annotate_counter; lia. }
  apply elem_of_app in Hu as [Hu|Hu]; [|by apply Hr].
  destruct (decide (obj_of u ∈ obj_of <$> subterms r)) as [Hin|Hout].
  - apply elem_of_objs in Hin as (v & Hv & Heq).
    rewrite <- (attr_obj_eq _ v u Heq). by apply Hr.
  - rewrite annotate_frame by done.
    eapply within_weaken; [by apply IHl|..]; lia.
Qed.

(** Every set [annotate] stores holds positions of this visit only. *)
Lemma annotate_within node m u :
  u ∈ subterms node →
  within (position_counter m) (position_counter m + leaf_count node)
         (attr (annotate node m) u).
Proof.
  revert m u.
  induction node as [o c|o l IHl r IHr|o l IHl r IHr|o l IHl]; intros m u Hu.
  - apply list_elem_of_singleton in Hu as ->.
    destruct (annotate_Symbol o c m) as [_ Heq]. rewrite Heq by done.
    unfold leaf_count. simpl.
    split; simpl; intros p ->%elem_of_singleton; lia.
  - pose proof (within_children l r m) as Hc.
    rewrite (proj1 (leaf_count_binary o l r)).
    destruct (Hc l IHl IHr) as [Hlf Hll];
      [apply elem_of_app; left; apply subterms_self|].
    destruct (Hc r IHl IHr) as [Hrf Hrl];
      [apply elem_of_app; right; apply subterms_self|].
    destruct (annotate_Concat o l r m) as [Hne Heq].
    destruct (decide (o = obj_of u)) as [Hou|Hou].
    + destruct (Heq u Hou) as (_ & (b & Hf & _) & (b' & Hl & _) & _).
      split; intros p Hp; [rewrite Hf in Hp|rewrite Hl in Hp].
      * destruct b; [auto|]. apply elem_of_union in Hp as [?|?]; auto.
      * destruct b'; [auto|]. apply elem_of_union in Hp as [?|?]; auto.
    + rewrite Hne by done. simpl in Hu. apply elem_of_cons in Hu as [->|Hu];
        [done|]. by apply Hc.
  - pose proof (within_children l r m) as Hc.
    rewrite (proj2 (leaf_count_binary o l r)).
    destruct (Hc l IHl IHr) as [Hlf Hll];
      [apply elem_of_app; left; apply subterms_self|].
    destruct (Hc r IHl IHr) as [Hrf Hrl];
      [apply elem_of_app; right; apply subterms_self|].
    destruct (annotate_Union o l r m) as [Hne Heq].
    destruct (decide (o = obj_of u)) as [Hou|Hou].
    + destruct (Heq u Hou) as (_ & Hf & Hl & _).
      split; intros p Hp; [rewrite Hf in Hp|rewrite Hl in Hp];
        apply elem_of_union in Hp as [?|?]; auto.
    + rewrite Hne by done. simpl in Hu. apply elem_of_cons in Hu as [->|Hu];
        [done|]. by apply Hc.
  - change (leaf_count (Star o l)) with (leaf_count l).
    destruct (IHl m l (subterms_self l)) as [Hlf Hll].
    destruct (annotate_Star o l m) as [Hne Heq].
    destruct (decide (o = obj_of u)) as [Hou|Hou].
    + destruct (Heq u Hou) as (_ & Hf & Hl & _).
      split; intros p Hp; [rewrite Hf in Hp|rewrite Hl in Hp]; auto.
    + rewrite Hne by done. simpl in Hu. apply elem_of_cons in Hu as [->|Hu];
        [done|]. by apply IHl.
Qed.

(** *** Nullability and the positions of the leaves *)

(** A property of every node of the two children holds after both
    have been visited, if it holds for each after its own visit: a
    node of the left child that the visit of the right child reaches
    again is, in a well-formed tree, a node of the right child. *)
Lemma children_merge (Q : RegexNode → attrs → Prop) l r m1 m2 :
  (∀ u v, u ∈ subterms l → v ∈ subterms r → obj_of u = obj_of v → u = v) →
  (∀ u, u ∈ subterms l → Q u (attr m1 u)) →
  (∀ v, v ∈ subterms r → Q v (attr m2 v)) →
  (∀ u, obj_of u ∉ obj_of <$> subterms r → attr m2 u = attr m1 u) →
  ∀ u, u ∈ subterms l ++ subterms r → Q u (attr m2 u).
Proof.
  intros Hcross Hl Hr Hframe u Hu.
  apply elem_of_app in Hu as [Hu|Hu]; [|by apply Hr].
  destruct (decide (obj_of u ∈ obj_of <$> subterms r)) as [Hin|Hout].
  - apply elem_of_objs in Hin as (v & Hv & Heq).
    assert (u = v) as -> by (by apply Hcross). by apply Hr.
  - rewrite Hframe by done. by apply Hl.
Qed.

(** The [nullable] attribute is the nullability of the subtree. *)
Lemma annotate_nullable node m u :
  well_formed node → u ∈ subterms node →
  nullable (attr (annotate node m) u) = nullable_of u.
Proof.
  revert m u.
  induction node as [o c|o l IHl r IHr|o l IHl r IHr|o l IHl];
    intros m u Hwf Hu.
  - apply list_elem_of_singleton in Hu as ->.
    destruct (annotate_Symbol o c m) as [_ Heq]. by rewrite Heq.
  - destruct (well_formed_binary Concat o l r) as (Hwl & Hwr & Hcross & Hproper);
      [by left|done|].
    assert (Hc : ∀ v, v ∈ subterms l ++ subterms r →
              nullable (attr (annotate r (annotate l m)) v) = nullable_of v).
    { apply (children_merge (λ v a, nullable a = nullable_of v) l r
               (annotate l m)); auto using annotate_frame. }
    destruct (annotate_Concat o l r m) as [Hne Heq].
    simpl in Hu. apply elem_of_cons in Hu as [->|Hu].
    + destruct (Heq (Concat o l r) eq_refl) as (-> & _). simpl.
      rewrite !Hc; [done|apply elem_of_app..]; auto using subterms_self.
    + rewrite Hne by auto. by apply Hc.
  - destruct (well_formed_binary Union o l r) as (Hwl & Hwr & Hcross & Hproper);
      [by right|done|].
    assert (Hc : ∀ v, v ∈ subterms l ++ subterms r →
              nullable (attr (annotate r (annotate l m)) v) = nullable_of v).
    { apply (children_merge (λ v a, nullable a = nullable_of v) l r
               (annotate l m)); auto using annotate_frame. }
    destruct (annotate_Union o l r m) as [Hne Heq].
    simpl in Hu. apply elem_of_cons in Hu as [->|Hu].
    + destruct (Heq (Union o l r) eq_refl) as (-> & _). simpl.
      rewrite !Hc; [done|apply elem_of_app..]; auto using subterms_self.
    + rewrite Hne by auto. by apply Hc.
  - destruct (well_formed_Star o l Hwf) as (Hwl & Hproper).
    destruct (annotate_Star o l m) as [Hne Heq].
    simpl in Hu. apply elem_of_cons in Hu as [->|Hu].
    + by destruct (Heq (Star o l) eq_refl) as (-> & _).
    + rewrite Hne by auto. by apply IHl.
Qed.

(** An inner node is never assigned a position. *)
Lemma annotate_position_inner node m u :
  match node with Symbol _ _ => False | _ => True end →
  position (attr (annotate node m) u)
  = position (attr (match node with
                    | Symbol _ _ => m
                    | Concat _ l r | Union _ l r => annotate r (annotate l m)
                    | Star _ l => annotate l m
                    end) u).
Proof.
  destruct node as [o c|o l r|o l r|o l]; intros H; [done|..].
  - destruct (annotate_Concat o l r m) as [Hne Heq].
    destruct (decide (o = obj_of u)) as [Hou|Hou].
    + by destruct (Heq u Hou) as (_ & _ & _ & ->).
    + by rewrite Hne.
  - destruct (annotate_Union o l r m) as [Hne Heq].
    destruct (decide (o = obj_of u)) as [Hou|Hou].
    + by destruct (Heq u Hou) as (_ & _ & _ & ->).
    + by rewrite Hne.
  - destruct (annotate_Star o l m) as [Hne Heq].
    destruct (decide (o = obj_of u)) as [Hou|Hou].
    + by destruct (Heq u Hou) as (_ & _ & _ & ->).
    + by rewrite Hne.
Qed.

(** Only leaf objects are assigned a position. *)
Lemma annotate_position_frame node m u :
  obj_of u ∉ (leaves node).*1 →
  position (attr (annotate node m) u) = position (attr m u).
Proof.
  revert m.
  induction node as [o c|o l IHl r IHr|o l IHl r IHr|o l IHl]; intros m Hu;
    simpl in Hu; rewrite ?fmap_app, ?not_elem_of_app in Hu.
  - destruct (annotate_Symbol o c m) as [Hne _]. rewrite Hne; [done|].
    intros ->. apply Hu. left.
  - rewrite annotate_position_inner by done.
    destruct Hu. by rewrite IHr, IHl.
  - rewrite annotate_position_inner by done.
    destruct Hu. by rewrite IHr, IHl.
  - rewrite annotate_position_inner by done. by rewrite IHl.
Qed.

(** In a tree without shared leaves, the leaves hold the positions in
    visiting order. *)
Lemma annotate_leaf_dense node m i o c :
  NoDup (leaves node).*1 → leaves node !! i = Some (o, c) →
  position (attr (annotate node m) (Symbol o c))
  = Some (position_counter m + i).
Proof.
  revert m i.
  induction node as [o' c'|o' l IHl r IHr|o' l IHl r IHr|o' l IHl];
    intros m i Hnd Hi; simpl in Hnd, Hi.
  - destruct i as [|i]; [|done]. injection Hi as -> ->.
    destruct (annotate_Symbol o c m) as [_ Heq]. rewrite Heq by done.
    simpl. f_equal. lia.
  - rewrite annotate_position_inner by done.
    rewrite fmap_app in Hnd. apply NoDup_app in Hnd as (Hndl & Hdisj & Hndr).
    apply lookup_app_Some in Hi as [Hi|[Hlen Hi]].
    + rewrite annotate_position_frame; [by apply IHl|].
      apply Hdisj. simpl. apply list_elem_of_fmap.
      exists (o, c). split; [done|]. by eapply list_elem_of_lookup_2.
    + rewrite (IHr _ _ Hndr Hi), annotate_counter. unfold leaf_count.
      f_equal. lia.
  - rewrite annotate_position_inner by done.
    rewrite fmap_app in Hnd. apply NoDup_app in Hnd as (Hndl & Hdisj & Hndr).
    apply lookup_app_Some in Hi as [Hi|[Hlen Hi]].
    + rewrite annotate_position_frame; [by apply IHl|].
      apply Hdisj. simpl. apply list_elem_of_fmap.
      exists (o, c). split; [done|]. by eapply list_elem_of_lookup_2.
    + rewrite (IHr _ _ Hndr Hi), annotate_counter. unfold leaf_count.
      f_equal. lia.
  - rewrite annotate_position_inner by done. by apply IHl.
Qed.

Lemma children_split l r u :
  (∀ u v, u ∈ subterms l → v ∈ subterms r → obj_of u = obj_of v → u = v) →
  u ∈ subterms l ++ subterms r →
  u ∈ subterms r ∨ (u ∈ subterms l ∧ obj_of u ∉ obj_of <$> subterms r).
Proof.
  intros Hcross [Hu|Hu]%elem_of_app; [|by left].
  destruct (decide (obj_of u ∈ obj_of <$> subterms r)) as [Hin|Hout]; [|by right].
  apply elem_of_objs in Hin as (v & Hv & Heq).
  assert (u = v) as -> by (by apply Hcross). by left.
Qed.

(** Every leaf object holds one position of the visit, and the table
    maps that position to the symbol of the leaf. *)
Lemma annotate_leaf_position node m o c :
  well_formed node → (o, c) ∈ leaves node →
  ∃ p, position (attr (annotate node m) (Symbol o c)) = Some p
       ∧ position_counter m ≤ p < position_counter m + leaf_count node
       ∧ positions (annotate node m) !! p = Some c.
Proof.
  revert m.
  induction node as [o' c'|o' l IHl r IHr|o' l IHl r IHr|o' l IHl];
    intros m Hwf Hoc.
  - apply list_elem_of_singleton in Hoc as [= -> ->].
    destruct (annotate_Symbol o' c' m) as [_ Heq]. rewrite Heq by done.
    exists (position_counter m). unfold leaf_count. simpl.
    split; [done|]. split; [lia|]. by rewrite lookup_insert_eq.
  - destruct (well_formed_binary Concat o' l r) as (Hwl & Hwr & Hcross & Hproper);
      [by left|done|].
    rewrite annotate_position_inner by done.
    rewrite (proj1 (leaf_count_binary o' l r)).
    change (positions (annotate (Concat o' l r) m))
      with (positions (annotate r (annotate l m))).
    simpl in Hoc. apply elem_of_app in Hoc as [Hoc|Hoc].
    + destruct (decide (o ∈ obj_of <$> subterms r)) as [Hin|Hout].
      * apply (elem_of_objs (Symbol o c)) in Hin as (v & Hv & Heq).
        assert (Symbol o c = v) as <-
          by (apply Hcross; [by apply leaves_subterms|done..]).
        apply leaves_subterms in Hv.
        destruct (IHr (annotate l m) Hwr Hv) as (p & Hp & Hrange & Htab).
        rewrite annotate_counter in Hrange.
        exists p. split; [done|]. split; [lia|done].
      * rewrite (annotate_frame r) by done.
        destruct (IHl m Hwl Hoc) as (p & Hp & Hrange & Htab).
        exists p. split; [done|]. split; [lia|].
        rewrite annotate_positions, annotate_counter.
        case_decide; [lia|done].
    + destruct (IHr (annotate l m) Hwr Hoc) as (p & Hp & Hrange & Htab).
      rewrite annotate_counter in Hrange.
      exists p. split; [done|]. split; [lia|done].
  - destruct (well_formed_binary Union o' l r) as (Hwl & Hwr & Hcross & Hproper);
      [by right|done|].
    rewrite annotate_position_inner by done.
    rewrite (proj2 (leaf_count_binary o' l r)).
    change (positions (annotate (Union o' l r) m))
      with (positions (annotate r (annotate l m))).
    simpl in Hoc. apply elem_of_app in Hoc as [Hoc|Hoc].
    + destruct (decide (o ∈ obj_of <$> subterms r)) as [Hin|Hout].
      * apply (elem_of_objs (Symbol o c)) in Hin as (v & Hv & Heq).
        assert (Symbol o c = v) as <-
          by (apply Hcross; [by apply leaves_subterms|done..]).
        apply leaves_subterms in Hv.
        destruct (IHr (annotate l m) Hwr Hv) as (p & Hp & Hrange & Htab).
        rewrite annotate_counter in Hrange.
        exists p. split; [done|]. split; [lia|done].
      * rewrite (annotate_frame r) by done.
        destruct (IHl m Hwl Hoc) as (p & Hp & Hrange & Htab).
        exists p. split; [done|]. split; [lia|].
        rewrite annotate_positions, annotate_counter.
        case_decide; [lia|done].
    + destruct (IHr (annotate l m) Hwr Hoc) as (p & Hp & Hrange & Htab).
      rewrite annotate_counter in Hrange.
      exists p. split; [done|]. split; [lia|done].
  - destruct (well_formed_Star o' l Hwf) as (Hwl & Hproper).
    rewrite annotate_position_inner by done.
    change (positions (annotate (Star o' l) m)) with (positions (annotate l m)).
    by apply IHl.
Qed.

(** Two leaf objects do not hold the same position. *)
Lemma annotate_leaf_injective node m o1 c1 o2 c2 :
  well_formed node → (o1, c1) ∈ leaves node → (o2, c2) ∈ leaves node →
  position (attr (annotate node m) (Symbol o1 c1))
  = position (attr (annotate node m) (Symbol o2 c2)) →
  o1 = o2.
Proof.
  revert m.
  assert (Hbin : ∀ l r m,
    well_formed l → well_formed r →
    (∀ u v, u ∈ subterms l → v ∈ subterms r → obj_of u = obj_of v → u = v) →
    (∀ m, (o1, c1) ∈ leaves l → (o2, c2) ∈ leaves l →
       position (attr (annotate l m) (Symbol o1 c1))
       = position (attr (annotate l m) (Symbol o2 c2)) → o1 = o2) →
    (∀ m, (o1, c1) ∈ leaves r → (o2, c2) ∈ leaves r →
       position (attr (annotate r m) (Symbol o1 c1))
       = position (attr (annotate r m) (Symbol o2 c2)) → o1 = o2) →
    (o1, c1) ∈ leaves l ++ leaves r → (o2, c2) ∈ leaves l ++ leaves r →
    position (attr (annotate r (annotate l m)) (Symbol o1 c1))
    = position (attr (annotate r (annotate l m)) (Symbol o2 c2)) → o1 = o2).
  { intros l r m Hwl Hwr Hcross IHl IHr H1 H2 Heq.
    assert (Hcls : ∀ o c, (o, c) ∈ leaves l ++ leaves r →
      ((o, c) ∈ leaves r ∧
         ∃ p, position (attr (annotate r (annotate l m)) (Symbol o c)) = Some p
              ∧ position_counter (annotate l m) ≤ p)
      ∨ ((o, c) ∈ leaves l ∧
         position (attr (annotate r (annotate l m)) (Symbol o c))
         = position (attr (annotate l m) (Symbol o c)) ∧
         ∃ p, position (attr (annotate l m) (Symbol o c)) = Some p
              ∧ p < position_counter (annotate l m))).
    { intros o c Hoc.
      destruct (children_split l r (Symbol o c) Hcross) as [Hr|[Hl Hout]].
      - apply elem_of_app. rewrite <- !leaves_subterms. by apply elem_of_app.
      - left. apply leaves_subterms in Hr. split; [done|].
        destruct (annotate_leaf_position r (annotate l m) o c Hwr Hr)
          as (p & Hp & Hrange & _).
        exists p. split; [done|lia].
      - right. apply leaves_subterms in Hl. split; [done|].
        rewrite (annotate_frame r) by done. split; [done|].
        destruct (annotate_leaf_position l m o c Hwl Hl)
          as (p & Hp & Hrange & _).
        exists p. split; [done|]. rewrite annotate_counter. lia. }
    destruct (Hcls o1 c1 H1) as [(Hr1 & p1 & Hp1 & Hge1)|(Hl1 & Hf1 & p1 & Hp1 & Hlt1)],
             (Hcls o2 c2 H2) as [(Hr2 & p2 & Hp2 & Hge2)|(Hl2 & Hf2 & p2 & Hp2 & Hlt2)].
    - by eapply IHr.
    - rewrite Hp1, Hf2, Hp2 in Heq. injection Heq as ->. lia.
    - rewrite Hf1, Hp1, Hp2 in Heq. injection Heq as ->. lia.
    - rewrite Hf1, Hf2 in Heq. by eapply IHl. }
  induction node as [o' c'|o' l IHl r IHr|o' l IHl r IHr|o' l IHl];
    intros m Hwf H1 H2 Heq.
  - apply list_elem_of_singleton in H1 as [= -> ->].
    by apply list_elem_of_singleton in H2 as [= -> ->].
  - destruct (well_formed_binary Concat o' l r) as (Hwl & Hwr & Hcross & Hproper);
      [by left|done|].
    rewrite (annotate_position_inner _ _ (Symbol o1 c1)),
      (annotate_position_inner _ _ (Symbol o2 c2)) in Heq by done.
    eapply (Hbin l r m); eauto.
  - destruct (well_formed_binary Union o' l r) as (Hwl & Hwr & Hcross & Hproper);
      [by right|done|].
    rewrite (annotate_position_inner _ _ (Symbol o1 c1)),
      (annotate_position_inner _ _ (Symbol o2 c2)) in Heq by done.
    eapply (Hbin l r m); eauto.
  - destruct (well_formed_Star o' l Hwf) as (Hwl & Hproper).
    rewrite (annotate_position_inner _ _ (Symbol o1 c1)),
      (annotate_position_inner _ _ (Symbol o2 c2)) in Heq by done.
    by eapply IHl.
Qed.

(** *** The sets hold positions that leaves hold *)

Lemma elem_of_held m node p :
  p ∈ held m node ↔ ∃ oc, oc ∈ leaves node ∧ leaf_position m oc = Some p.
Proof. unfold held. by rewrite elem_of_list_to_set, list_elem_of_omap. Qed.

Lemma held_ext m1 m2 u :
  (∀ oc, oc ∈ leaves u → leaf_position m1 oc = leaf_position m2 oc) →
  held m1 u = held m2 u.
Proof.
  intros Hext. apply leibniz_equiv. intros p. rewrite !elem_of_held.
  split; intros (oc & Hoc & Hp); exists oc; (split; [done|]).
  - by rewrite <- (Hext oc Hoc).
  - by rewrite (Hext oc Hoc).
Qed.

Lemma held_binary m o l r :
  held m (Concat o l r) = held m l ∪ held m r
  ∧ held m (Union o l r) = held m l ∪ held m r.
Proof.
  unfold held. simpl. by rewrite omap_app, list_to_set_app_L.
Qed.

Lemma held_mono m u node :
  u ∈ subterms node → held m u ⊆ held m node.
Proof.
  intros Hu p. rewrite !elem_of_held. intros ([o c] & Hoc & Hp).
  exists (o, c). split; [|done].
  apply leaves_subterms. apply leaves_subterms in Hoc.
  by eapply subterms_trans.
Qed.

Lemma plus_sharing_sub u node :
  plus_sharing node → u ∈ subterms node → plus_sharing u.
Proof. intros Hsh Hu v Hv. apply Hsh. by eapply subterms_trans. Qed.

(** Tightness of a node only depends on the attributes of the objects
    below it. *)
Lemma tight_ext m1 m2 u :
  (∀ v, v ∈ subterms u → attr m1 v = attr m2 v) → tight m1 u → tight m2 u.
Proof.
  intros Hext [Hf Hl].
  assert (Hheld : held m1 u = held m2 u).
  { apply held_ext. intros [o c] Hoc%leaves_subterms.
    unfold leaf_position. simpl. by rewrite (Hext _ Hoc). }
  unfold tight. by rewrite <- (Hext u (subterms_self u)), <- Hheld.
Qed.

(** After the two children of a binary node have been visited. *)
Lemma tight_children l r m u :
  (∀ v w, v ∈ subterms l → w ∈ subterms r → obj_of v ≠ obj_of w)
  ∨ (∃ o, r = Star o l) →
  (∀ u, u ∈ subterms l → tight (annotate l m) u) →
  (∀ m u, u ∈ subterms r → tight (annotate r m) u) →
  u ∈ subterms l ++ subterms r →
  tight (annotate r (annotate l m)) u.
Proof.
  intros Hshare IHl IHr [Hu|Hu]%elem_of_app; [|by apply IHr].
  destruct Hshare as [Hdisj|[o ->]].
  - apply (tight_ext (annotate l m)); [|by apply IHl].
    intros v Hv. symmetry. apply annotate_frame.
    intros (w & Hw & Heq)%elem_of_objs.
    apply (Hdisj v w); [by eapply subterms_trans|done|done].
  - apply IHr. simpl. by right.
Qed.

(** Every set [annotate] stores is made of positions that leaves of the
    node hold when the visit ends, also where a shared subtree has been
    visited twice. *)
Lemma annotate_tight node m u :
  well_formed node → plus_sharing node → u ∈ subterms node →
  tight (annotate node m) u.
Proof.
  revert m u.
  induction node as [o c|o l IHl r IHr|o l IHl r IHr|o l IHl];
    intros m u Hwf Hsh Hu.
  - apply list_elem_of_singleton in Hu as ->.
    destruct (annotate_Symbol o c m) as [_ Heq].
    assert (Hheld : held (annotate (Symbol o c) m) (Symbol o c)
                    = {[position_counter m]}).
    { unfold held, leaf_position. simpl leaves. cbn [omap list_omap fst snd].
      rewrite (Heq (Symbol o c) eq_refl). simpl. set_solver. }
    unfold tight. rewrite Hheld, (Heq (Symbol o c) eq_refl). done.
  - destruct (well_formed_binary Concat o l r) as (Hwl & Hwr & Hcross & Hproper);
      [by left|done|].
    pose proof (Hsh _ (subterms_self _)) as Hshare. simpl in Hshare.
    assert (Hshl : plus_sharing l).
    { apply (plus_sharing_sub _ _ Hsh). simpl. right. apply elem_of_app.
      left. apply subterms_self. }
    assert (Hshr : plus_sharing r).
    { apply (plus_sharing_sub _ _ Hsh). simpl. right. apply elem_of_app.
      right. apply subterms_self. }
    assert (Hc : ∀ v, v ∈ subterms l ++ subterms r →
                      tight (annotate r (annotate l m)) v).
    { intros v Hv. apply tight_children; auto. }
    destruct (annotate_Concat o l r m) as [Hne Heq].
    assert (Hc3 : ∀ v, v ∈ subterms l ++ subterms r →
                       tight (annotate (Concat o l r) m) v).
    { intros v Hv. apply (tight_ext (annotate r (annotate l m))); [|by apply Hc].
      intros w Hw. symmetry. apply Hne, Hproper.
      apply elem_of_app in Hv as [Hv|Hv]; apply elem_of_app;
        [left|right]; by eapply subterms_trans. }
    simpl in Hu. apply elem_of_cons in Hu as [->|Hu]; [|by apply Hc3].
    destruct (Hc3 l) as [Hlf Hll];
      [apply elem_of_app; left; apply subterms_self|].
    destruct (Hc3 r) as [Hrf Hrl];
      [apply elem_of_app; right; apply subterms_self|].
    rewrite Hne in Hlf, Hll
      by (apply Hproper, elem_of_app; left; apply subterms_self).
    rewrite Hne in Hrf, Hrl
      by (apply Hproper, elem_of_app; right; apply subterms_self).
    destruct (Heq (Concat o l r) eq_refl) as (_ & (b & Hf & _) & (b' & Hl & _) & _).
    unfold tight. rewrite Hf, Hl, (proj1 (held_binary _ o l r)).
    split; [destruct b|destruct b'].
    + etrans; [exact Hlf|apply union_subseteq_l].
    + by apply union_mono.
    + etrans; [exact Hrl|apply union_subseteq_r].
    + by apply union_mono.
  - destruct (well_formed_binary Union o l r) as (Hwl & Hwr & Hcross & Hproper);
      [by right|done|].
    pose proof (Hsh _ (subterms_self _)) as Hshare. simpl in Hshare.
    assert (Hshl : plus_sharing l).
    { apply (plus_sharing_sub _ _ Hsh). simpl. right. apply elem_of_app.
      left. apply subterms_self. }
    assert (Hshr : plus_sharing r).
    { apply (plus_sharing_sub _ _ Hsh). simpl. right. apply elem_of_app.
      right. apply subterms_self. }
    assert (Hc : ∀ v, v ∈ subterms l ++ subterms r →
                      tight (annotate r (annotate l m)) v).
    { intros v Hv. apply tight_children; auto. }
    destruct (annotate_Union o l r m) as [Hne Heq].
    assert (Hc3 : ∀ v, v ∈ subterms l ++ subterms r →
                       tight (annotate (Union o l r) m) v).
    { intros v Hv. apply (tight_ext (annotate r (annotate l m))); [|by apply Hc].
      intros w Hw. symmetry. apply Hne, Hproper.
      apply elem_of_app in Hv as [Hv|Hv]; apply elem_of_app;
        [left|right]; by eapply subterms_trans. }
    simpl in Hu. apply elem_of_cons in Hu as [->|Hu]; [|by apply Hc3].
    destruct (Hc3 l) as [Hlf Hll];
      [apply elem_of_app; left; apply subterms_self|].
    destruct (Hc3 r) as [Hrf Hrl];
      [apply elem_of_app; right; apply subterms_self|].
    rewrite Hne in Hlf, Hll
      by (apply Hproper, elem_of_app; left; apply subterms_self).
    rewrite Hne in Hrf, Hrl
      by (apply Hproper, elem_of_app; right; apply subterms_self).
    destruct (Heq (Union o l r) eq_refl) as (_ & Hf & Hl & _).
    unfold tight. rewrite Hf, Hl, (proj2 (held_binary _ o l r)).
    split; by apply union_mono.
  - destruct (well_formed_Star o l Hwf) as (Hwl & Hproper).
    assert (Hshl : plus_sharing l).
    { apply (plus_sharing_sub _ _ Hsh). simpl. right. apply subterms_self. }
    destruct (annotate_Star o l m) as [Hne Heq].
    assert (Hc2 : ∀ v, v ∈ subterms l → tight (annotate (Star o l) m) v).
    { intros v Hv. apply (tight_ext (annotate l m)); [|by apply IHl].
      intros w Hw. symmetry. apply Hne, Hproper. by eapply subterms_trans. }
    simpl in Hu. apply elem_of_cons in Hu as [->|Hu]; [|by apply Hc2].
    destruct (Hc2 l (subterms_self l)) as [Hlf Hll].
    rewrite Hne in Hlf, Hll by (apply Hproper, subterms_self).
    destruct (Heq (Star o l) eq_refl) as (_ & Hf & Hl & _).
    unfold tight. rewrite Hf, Hl. done.
Qed.

(** No more positions are held than there are leaf objects. *)
Lemma held_size m node : size (held m node) ≤ size (leaf_objects node).
Proof.
  assert (Himg : ∀ (f : nat → option nat) (l : list nat),
    size (list_to_set (omap f l) : gset nat) ≤ size (list_to_set l : gset nat)).
  { intros f. induction l as [|x l IH]; [done|]. csimpl.
    destruct (decide (x ∈ l)) as [Hin|Hout].
    - assert (Hl : ({[x]} ∪ list_to_set l : gset nat) = list_to_set l)
        by set_solver.
      rewrite Hl.
      destruct (f x) as [y|] eqn:Hy; [|done]. csimpl.
      assert (Hy' : ({[y]} ∪ list_to_set (omap f l) : gset nat)
                    = list_to_set (omap f l)).
      { assert (y ∈ omap f l) by (apply list_elem_of_omap; by exists x).
        set_solver. }
      by rewrite Hy'.
    - rewrite (size_union {[x]}) by set_solver. rewrite size_singleton.
      destruct (f x) as [y|]; csimpl; [|lia].
      etrans; [apply (subseteq_size _ ({[y]} ∪ list_to_set (omap f l)));
               set_solver|].
      rewrite size_union_alt, size_singleton.
      assert (size (list_to_set (omap f l) ∖ {[y]} : gset nat)
              ≤ size (list_to_set (omap f l) : gset nat))
        by (apply subseteq_size; set_solver).
      lia. }
  unfold held, leaf_objects.
  assert (Hfac : omap (leaf_position m) (leaves node)
    = omap (λ o, position (default fresh_attrs (objects m !! o)))
           (leaves node).*1).
  { induction (leaves node) as [|[o c] l IH]; [done|]. csimpl.
    unfold leaf_position at 1. unfold attr. simpl. by rewrite IH. }
  rewrite Hfac. apply Himg.
Qed.

End annotate_facts.

(** * The followpos builder *)

(** The loop [for pos in s: followpos_table.setdefault(pos,
    set()).update(t)]. *)
Lemma setdefault_update_loop (t : gset nat) l (tbl : gmap nat (gset nat)) p :
  foldl (setdefault_update t) tbl l !! p
  = if decide (p ∈ l) then Some (default ∅ (tbl !! p) ∪ t) else tbl !! p.
Proof.
  revert tbl. induction l as [|a l IH]; intros tbl; simpl.
  - done.
  - rewrite IH. unfold setdefault_update. rewrite lookup_insert.
    destruct (decide (p ∈ l)) as [Hl|Hl], (decide (a = p)) as [->|Hne];
      simpl.
    + rewrite decide_True by left. f_equal. set_solver.
    + rewrite decide_True by (by right). done.
    + rewrite decide_True by left. done.
    + rewrite decide_False; [done|]. rewrite elem_of_cons. naive_solver.
Qed.

Section followpos_facts.
Variable set_iter : gset nat → list nat.
Hypothesis set_iter_perm : ∀ X, set_iter X ≡ₚ elements X.
Local Set Default Proof Using "All".

Lemma elem_of_set_iter X p : p ∈ set_iter X ↔ p ∈ X.
Proof. by rewrite set_iter_perm, elem_of_elements. Qed.

(** Where the keys and the members of the table come from. *)
Lemma compute_followpos_keys m node tbl p :
  is_Some (compute_followpos set_iter m node tbl !! p) →
  is_Some (tbl !! p) ∨ ∃ u, u ∈ subterms node ∧ p ∈ lastpos (attr m u).
Proof.
  revert tbl.
  induction node as [o c|o l IHl r IHr|o l IHl r IHr|o l IHl];
    intros tbl; simpl.
  - by left.
  - intros [H|(u & Hu & Hp)]%IHr.
    + apply IHl in H as [H|(u & Hu & Hp)].
      * rewrite setdefault_update_loop in H. case_decide as Hin; [|by left].
        right. exists l. split; [|by apply elem_of_set_iter].
        right. apply elem_of_app. left. apply subterms_self.
      * right. exists u. split; [|done]. right. apply elem_of_app. by left.
    + right. exists u. split; [|done]. right. apply elem_of_app. by right.
  - intros [H|(u & Hu & Hp)]%IHr.
    + apply IHl in H as [H|(u & Hu & Hp)]; [by left|].
      right. exists u. split; [|done]. right. apply elem_of_app. by left.
    + right. exists u. split; [|done]. right. apply elem_of_app. by right.
  - intros [H|(u & Hu & Hp)]%IHl.
    + rewrite setdefault_update_loop in H. case_decide as Hin; [|by left].
      right. exists (Star o l). split; [left|by apply elem_of_set_iter].
    + right. exists u. split; [|done]. by right.
Qed.

Lemma compute_followpos_values m node tbl p X q :
  compute_followpos set_iter m node tbl !! p = Some X → q ∈ X →
  (∃ Y, tbl !! p = Some Y ∧ q ∈ Y)
  ∨ ∃ u, u ∈ subterms node ∧ q ∈ firstpos (attr m u).
Proof.
  revert tbl X.
  induction node as [o c|o l IHl r IHr|o l IHl r IHr|o l IHl];
    intros tbl X; simpl; intros HX Hq.
  - left. by exists X.
  - destruct (IHr _ _ HX Hq) as [(Y & HY & HqY)|(u & Hu & Hp)].
    + destruct (IHl _ _ HY HqY) as [(Z & HZ & HqZ)|(u & Hu & Hp)].
      * rewrite setdefault_update_loop in HZ. case_decide as Hin.
        -- injection HZ as <-. apply elem_of_union in HqZ as [HqZ|HqZ].
           ++ left. destruct (tbl !! p) as [W|]; [by exists W|].
              by apply elem_of_empty in HqZ.
           ++ right. exists r. split; [|done].
              right. apply elem_of_app. right. apply subterms_self.
        -- left. by exists Z.
      * right. exists u. split; [|done]. right. apply elem_of_app. by left.
    + right. exists u. split; [|done]. right. apply elem_of_app. by right.
  - destruct (IHr _ _ HX Hq) as [(Y & HY & HqY)|(u & Hu & Hp)].
    + destruct (IHl _ _ HY HqY) as [(Z & HZ & HqZ)|(u & Hu & Hp)].
      * left. by exists Z.
      * right. exists u. split; [|done]. right. apply elem_of_app. by left.
    + right. exists u. split; [|done]. right. apply elem_of_app. by right.
  - destruct (IHl _ _ HX Hq) as [(Z & HZ & HqZ)|(u & Hu & Hp)].
    + rewrite setdefault_update_loop in HZ. case_decide as Hin.
      * injection HZ as <-. apply elem_of_union in HqZ as [HqZ|HqZ].
        -- left. destruct (tbl !! p) as [W|]; [by exists W|].
           by apply elem_of_empty in HqZ.
        -- right. exists (Star o l). split; [left|done].
      * left. by exists Z.
    + right. exists u. split; [|done]. by right.
Qed.

(** The table does not depend on the order in which the sets are
    visited. *)
Lemma compute_followpos_order m node tbl :
  compute_followpos set_iter m node tbl = compute_followpos elements m node tbl.
Proof.
  assert (Hloop : ∀ t X (tbl : gmap nat (gset nat)),
    foldl (setdefault_update t) tbl (set_iter X)
    = foldl (setdefault_update t) tbl (elements X)).
  { intros t X tbl'. apply map_eq. intros p.
    rewrite !setdefault_update_loop.
    destruct (decide (p ∈ set_iter X)) as [H1|H1],
             (decide (p ∈ elements X)) as [H2|H2]; try done;
      rewrite elem_of_set_iter, <- elem_of_elements in H1; done. }
  revert tbl.
  induction node as [o c|o l IHl r IHr|o l IHl r IHr|o l IHl];
    intros tbl; simpl.
  - done.
  - by rewrite Hloop, IHl, IHr.
  - by rewrite IHl, IHr.
  - by rewrite Hloop, IHl.
Qed.

End followpos_facts.

(** * The DFA constructor *)

Section dict_facts.
Context {K V : Type} `{EqDecision K}.
Implicit Types (d : list (K * V)).

Lemma dict_get_set k k' v d :
  dict_get k' (dict_set k v d) = if decide (k = k') then Some v else dict_get k' d.
Proof.
  induction d as [|[k0 v0] d IH]; simpl.
  - repeat case_decide; congruence.
  - destruct (decide (k0 = k)) as [->|Hne]; simpl.
    + repeat case_decide; congruence.
    + rewrite IH. repeat case_decide; congruence.
Qed.

Lemma dict_set_keys k v d :
  (dict_set k v d).*1 = if decide (k ∈ d.*1) then d.*1 else d.*1 ++ [k].
Proof.
  induction d as [|[k0 v0] d IH]; csimpl.
  - done.
  - destruct (decide (k0 = k)) as [->|Hne]; csimpl.
    + rewrite decide_True; [done|]. left.
    + rewrite IH. destruct (decide (k ∈ d.*1)) as [Hin|Hout].
      * rewrite decide_True; [done|]. by right.
      * rewrite decide_False; [done|]. rewrite elem_of_cons. naive_solver.
Qed.

Lemma dict_set_NoDup k v d : NoDup d.*1 → NoDup (dict_set k v d).*1.
Proof.
  intros Hnd. rewrite dict_set_keys. case_decide as Hin; [done|].
  apply NoDup_app. split; [done|]. split; [|apply NoDup_singleton].
  intros x Hx ->%list_elem_of_singleton. done.
Qed.

Lemma dict_get_elem_of k v d : NoDup d.*1 → (k, v) ∈ d → dict_get k d = Some v.
Proof.
  induction d as [|[k0 v0] d IH]; csimpl; intros Hnd Hin.
  - by apply elem_of_nil in Hin.
  - apply NoDup_cons in Hnd as [Hk0 Hnd].
    apply elem_of_cons in Hin as [[= <- <-]|Hin].
    + by rewrite decide_True.
    + rewrite decide_False; [by apply IH|].
      intros ->. apply Hk0. apply list_elem_of_fmap. by exists (k, v).
Qed.

Lemma dict_get_Some k v d : dict_get k d = Some v → (k, v) ∈ d.
Proof.
  induction d as [|[k0 v0] d IH]; simpl; [done|].
  case_decide as Hk.
  - intros [= ->]. subst. left.
  - intros H. right. by apply IH.
Qed.

End dict_facts.

Lemma option_functional {A} (o : option A) x y : o = Some x → o = Some y → x = y.
Proof. congruence. Qed.

Section subsets.

(** A list of distinct subsets of a set of [n] elements has at most
    [2 ^ n] entries. *)
Lemma NoDup_subsets_length (U : gset nat) (l : list (gset nat)) :
  NoDup l → (∀ X, X ∈ l → X ⊆ U) → length l ≤ 2 ^ size U.
Proof.
  revert l. induction U as [|x U Hx IH] using set_ind_L; intros l Hnd Hsub.
  - rewrite size_empty. simpl.
    destruct l as [|X [|Y l]]; simpl; [lia..|]. exfalso.
    apply NoDup_cons in Hnd as [Hnin _]. apply Hnin.
    assert (X = ∅) as -> by (apply leibniz_equiv, equiv_empty, Hsub; left).
    assert (Y = ∅) as -> by
      (apply leibniz_equiv, equiv_empty, Hsub; right; left).
    left.
  - rewrite size_union by set_solver. rewrite size_singleton. simpl.
    rewrite <- (filter_app_complement (λ X, x ∈ X) l), length_app.
    assert (H0 : length (filter (λ X, x ∉ X) l) ≤ 2 ^ size U).
    { apply IH; [by apply NoDup_filter|].
      intros X [HxX HX]%list_elem_of_filter. apply Hsub in HX. set_solver. }
    assert (H1 : length (filter (λ X, x ∈ X) l) ≤ 2 ^ size U).
    { rewrite <- (length_fmap (λ X : gset nat, X ∖ {[x]})). apply IH.
      - apply NoDup_fmap_2_strong; [|by apply NoDup_filter].
        intros X Y [HxX _]%list_elem_of_filter [HxY _]%list_elem_of_filter Heq.
        apply leibniz_equiv. intros y.
        destruct (decide (y = x)) as [->|Hne]; [done|].
        assert (y ∈ X ∖ {[x]} ↔ y ∈ Y ∖ {[x]}) as H by (by rewrite Heq).
        set_solver.
      - intros Z (X & -> & [HxX HX]%list_elem_of_filter)%list_elem_of_fmap.
        apply Hsub in HX. set_solver. }
    lia.
Qed.

End subsets.

Section dfa_facts.
Variable set_iter : gset nat → list nat.
Hypothesis set_iter_perm : ∀ X, set_iter X ≡ₚ elements X.

(** The position table and the followpos table of the conversion. *)
Variable P : gmap nat ascii.
Variable F : gmap nat (gset nat).
Hypothesis F_closed : ∀ p X, F !! p = Some X → X ⊆ dom P.
Local Set Default Proof Using "All".
Implicit Types (l : list nat) (X S : gset nat) (c : ascii) (d : dfa).

Lemma elem_of_move_list l c q :
  q ∈ move_list P F l c ↔
  ∃ p, p ∈ l ∧ P !! p = Some c ∧ q ∈ default ∅ (F !! p).
Proof.
  unfold move_list. rewrite elem_of_union_list. split.
  - intros (X & (p & -> & [Hp Hl]%list_elem_of_filter)%list_elem_of_fmap & Hq).
    by exists p.
  - intros (p & Hl & Hp & Hq). exists (default ∅ (F !! p)). split; [|done].
    apply list_elem_of_fmap. exists p. split; [done|].
    by apply list_elem_of_filter.
Qed.

Lemma elem_of_move X c q :
  q ∈ move P F X c ↔
  ∃ p, p ∈ X ∧ P !! p = Some c ∧ q ∈ default ∅ (F !! p).
Proof.
  unfold move. rewrite elem_of_move_list.
  by setoid_rewrite elem_of_elements.
Qed.

Lemma move_list_set_iter X c : move_list P F (set_iter X) c = move P F X c.
Proof.
  apply leibniz_equiv. intros q. rewrite elem_of_move_list, elem_of_move.
  by setoid_rewrite (elem_of_set_iter set_iter set_iter_perm).
Qed.

Lemma move_list_cons p l c :
  move_list P F (p :: l) c
  = if decide (P !! p = Some c) then default ∅ (F !! p) ∪ move_list P F l c
    else move_list P F l c.
Proof. unfold move_list. rewrite filter_cons. by case_decide. Qed.

Lemma move_closed X c : move P F X c ⊆ dom P.
Proof.
  intros q (p & _ & _ & Hq)%elem_of_move.
  destruct (F !! p) as [Y|] eqn:HY; simpl in Hq; [|by apply elem_of_empty in Hq].
  by eapply F_closed.
Qed.

(** The generator of [any] finds a position that carries [#] exactly
    when there is one. *)
Lemma any_hash_spec l :
  (∀ p, p ∈ l → is_Some (P !! p)) →
  ∃ hit, any_hash P l = Return hit
         ∧ (hit = true ↔ ∃ p, p ∈ l ∧ P !! p = Some "#").
Proof.
  induction l as [|p l IH]; intros Hl; simpl.
  - exists false. split; [done|]. split; [done|].
    intros (p & []%elem_of_nil & _).
  - destruct (Hl p) as [s Hs]; [left|]. rewrite Hs.
    destruct (decide (s = "#")) as [->|Hne].
    + exists true. split; [done|]. split; [|done]. intros _. exists p.
      split; [left|done].
    + destruct IH as (hit & -> & Hhit); [intros q Hq; apply Hl; by right|].
      exists hit. split; [done|]. rewrite Hhit. split.
      * intros (q & Hq & Hq'). exists q. split; [by right|done].
      * intros (q & [->|Hq]%elem_of_cons & Hq'); [congruence|]. by exists q.
Qed.

Lemma any_hash_set X :
  X ⊆ dom P →
  ∃ hit, any_hash P (set_iter X) = Return hit ∧ (hit = true ↔ carries P X "#").
Proof.
  intros HX. destruct (any_hash_spec (set_iter X)) as (hit & Hret & Hhit).
  - intros p Hp%(elem_of_set_iter set_iter set_iter_perm).
    by apply elem_of_dom, HX.
  - exists hit. split; [done|]. rewrite Hhit. unfold carries.
    by setoid_rewrite (elem_of_set_iter set_iter set_iter_perm).
Qed.

(** *** The first [for] loop: grouping the positions by symbol *)

Lemma move_list_empty l c :
  (¬ ∃ p, p ∈ l ∧ P !! p = Some c) → move_list P F l c = ∅.
Proof.
  intros Hno. apply leibniz_equiv. intros q. rewrite elem_of_move_list.
  split; [|by intros ?%elem_of_empty].
  intros (p & Hp & Hc & _). exfalso. apply Hno. by exists p.
Qed.

Lemma carries_list_dec l c :
  {∃ p, p ∈ l ∧ P !! p = Some c} + {¬ ∃ p, p ∈ l ∧ P !! p = Some c}.
Proof.
  destruct (decide (Exists (λ p, P !! p = Some c) l)) as [H|H];
    [left|right]; by rewrite <- Exists_exists.
Qed.

Lemma group_loop l acc :
  (∀ p, p ∈ l → is_Some (P !! p)) → NoDup acc.*1 →
  ∃ acc', for_each (group_position P F) acc l = Return acc'
    ∧ NoDup acc'.*1
    ∧ (∀ c, c ≠ "#" → (∃ p, p ∈ l ∧ P !! p = Some c) →
            dict_get c acc'
            = Some (default ∅ (dict_get c acc) ∪ move_list P F l c))
    ∧ (∀ c, c = "#" ∨ (¬ ∃ p, p ∈ l ∧ P !! p = Some c) →
            dict_get c acc' = dict_get c acc).
Proof.
  revert acc. induction l as [|p l IH]; intros acc Hl Hnd.
  - exists acc. split; [done|]. split; [done|]. split; [|done].
    intros c _ (p & []%elem_of_nil & _).
  - destruct (Hl p) as [s Hs]; [left|].
    assert (Hl' : ∀ q, q ∈ l → is_Some (P !! q))
      by (intros q Hq; apply Hl; by right).
    simpl. unfold group_position at 1. rewrite Hs.
    destruct (decide (s ≠ "#")) as [Hne|Heq]; simpl.
    + set (acc1 := dict_set s (default ∅ (dict_get s acc)
                               ∪ default ∅ (F !! p)) acc).
      destruct (IH acc1 Hl' (dict_set_NoDup _ _ _ Hnd))
        as (acc' & -> & Hnd' & Hyes & Hno).
      exists acc'. split; [done|]. split; [done|]. split.
      * intros c Hc Hex. rewrite move_list_cons.
        destruct (carries_list_dec l c) as [Hexl|Hnexl].
        -- rewrite (Hyes c Hc Hexl). unfold acc1. rewrite dict_get_set.
           destruct (decide (s = c)) as [->|Hsc]; simpl.
           ++ rewrite decide_True by done. f_equal. set_solver.
           ++ rewrite decide_False by congruence. done.
        -- rewrite (Hno c) by (by right). unfold acc1. rewrite dict_get_set.
           rewrite (move_list_empty l c Hnexl).
           destruct Hex as (q & [->|Hq]%elem_of_cons & Hqc);
             [|exfalso; apply Hnexl; by exists q].
           assert (s = c) as -> by congruence.
           rewrite !decide_True by done. f_equal. set_solver.
      * intros c Hc. rewrite Hno.
        -- unfold acc1. rewrite dict_get_set, decide_False; [done|].
           intros ->. destruct Hc as [->|Hc]; [done|].
           apply Hc. exists p. split; [left|done].
        -- destruct Hc as [->|Hc]; [by left|]. right.
           intros (q & Hq & Hqc). apply Hc. exists q. split; [by right|done].
    + apply dec_stable in Heq. subst s.
      destruct (IH acc Hl' Hnd) as (acc' & -> & Hnd' & Hyes & Hno).
      exists acc'. split; [done|]. split; [done|]. split.
      * intros c Hc Hex. rewrite move_list_cons, decide_False by congruence.
        apply Hyes; [done|].
        destruct Hex as (q & [->|Hq]%elem_of_cons & Hqc); [congruence|].
        by exists q.
      * intros c Hc. apply Hno. destruct Hc as [->|Hc]; [by left|]. right.
        intros (q & Hq & Hqc). apply Hc. exists q. split; [by right|done].
Qed.

(** [symbol_pos_map] for the position-set [X]. *)
Lemma symbol_pos_map_spec X :
  X ⊆ dom P →
  ∃ spm, for_each (group_position P F) [] (set_iter X) = Return spm
    ∧ NoDup spm.*1
    ∧ (∀ c S, (c, S) ∈ spm ↔
              c ≠ "#" ∧ carries P X c ∧ S = move P F X c).
Proof.
  intros HX.
  destruct (group_loop (set_iter X) []) as (spm & Hret & Hnd & Hyes & Hno).
  { intros p Hp%(elem_of_set_iter set_iter set_iter_perm).
    by apply elem_of_dom, HX. }
  { apply NoDup_nil_2. }
  exists spm. split; [done|]. split; [done|]. intros c S.
  assert (Hcar : carries P X c ↔ ∃ p, p ∈ set_iter X ∧ P !! p = Some c).
  { unfold carries. by setoid_rewrite (elem_of_set_iter set_iter set_iter_perm). }
  split.
  - intros Hin. apply (dict_get_elem_of _ _ _ Hnd) in Hin.
    destruct (decide (c = "#")) as [->|Hc].
    { rewrite Hno in Hin by (by left). done. }
    destruct (carries_list_dec (set_iter X) c) as [Hex|Hnex].
    + rewrite (Hyes c Hc Hex) in Hin. simpl in Hin. injection Hin as <-.
      split; [done|]. split; [by apply Hcar|].
      rewrite move_list_set_iter. set_solver.
    + rewrite Hno in Hin by (by right). done.
  - intros (Hc & Hex & ->). apply dict_get_Some.
    rewrite (Hyes c Hc) by (by apply Hcar). simpl.
    rewrite move_list_set_iter. f_equal. set_solver.
Qed.

(** *** The second [for] loop: one transition per symbol *)

Lemma add_transition_unfold i d c S :
  add_transition set_iter P i d (c, S)
  = match pos_state d !! S with
    | Some j =>
        match states d !! i with
        | None => Raise IndexError
        | Some tr => Return (with_transition i c j tr d)
        end
    | None =>
        obind (any_hash P (set_iter S)) (λ hit,
          match states (with_state S hit d) !! i with
          | None => Raise IndexError
          | Some tr =>
              Return (with_transition i c (length (states d)) tr
                        (with_state S hit d))
          end)
    end.
Proof.
  unfold add_transition. destruct (pos_state d !! S) as [j|]; simpl; [done|].
  destruct (any_hash P (set_iter S)) as [[]| |]; done.
Qed.

Lemma has_transition_with_transition i c j tr d i' c' :
  states d !! i = Some tr →
  has_transition d i' c' ∨ (i' = i ∧ c' = c) →
  has_transition (with_transition i c j tr d) i' c'.
Proof.
  intros Htr H. unfold has_transition. simpl.
  assert (Hi : i < length (states d)) by (by eapply lookup_lt_Some).
  destruct (decide (i' = i)) as [->|Hne].
  - rewrite list_lookup_insert_eq by done.
    exists (dict_set c j tr). rewrite dict_get_set.
    destruct (decide (c = c')) as [->|Hcc]; [by eexists|].
    destruct H as [(tr' & j' & Htr' & Hj')|[_ ->]]; [|done].
    exists j'. split; [done|]. congruence.
  - rewrite list_lookup_insert_ne by done.
    destruct H as [H|[-> _]]; done.
Qed.

Lemma dfa_inv_with_transition i c j tr d X :
  dfa_inv P F d → states d !! i = Some tr → state_pos d !! i = Some X →
  c ≠ "#" → carries P X c → state_pos d !! j = Some (move P F X c) →
  dfa_inv P F (with_transition i c j tr d).
Proof.
  intros [] Htr HX Hc Hcar Hj.
  assert (Hi : i < length (states d)) by (by eapply lookup_lt_Some).
  constructor; simpl; rewrite ?length_insert; try done.
  intros i' tr' c' j' Htr' Hget.
  destruct (decide (i' = i)) as [->|Hne].
  - rewrite list_lookup_insert_eq in Htr' by done. injection Htr' as <-.
    rewrite dict_get_set in Hget.
    destruct (decide (c = c')) as [->|Hcc]; [|by eapply inv_trans0].
    injection Hget as <-. by exists X.
  - rewrite list_lookup_insert_ne in Htr' by done. by eapply inv_trans0.
Qed.

Lemma dfa_inv_with_state S hit d i0 Y0 c0 :
  dfa_inv P F d → pos_state d !! S = None → S ⊆ dom P →
  (hit = true ↔ carries P S "#") →
  state_pos d !! i0 = Some Y0 → c0 ≠ "#" → carries P Y0 c0 →
  S = move P F Y0 c0 →
  dfa_inv P F (with_state S hit d).
Proof.
  intros [] HS Hsub Hhit HY0 Hc0 Hcar0 HSY0.
  assert (Hk : state_pos d !! length (states d) = None).
  { apply eq_None_not_Some. rewrite <- inv_dom0. lia. }
  constructor; simpl; rewrite ?length_app; simpl.
  - rewrite Nat.add_1_r, seq_S, inv_queue0. done.
  - lia.
  - intros i. rewrite lookup_insert. case_decide as Hi.
    + subst. split; [by eexists|lia].
    + rewrite <- inv_dom0. lia.
  - intros i X. rewrite !lookup_insert.
    destruct (decide (length (states d) = i)) as [<-|Hi],
             (decide (S = X)) as [<-|HX]; simpl.
    + done.
    + split; [congruence|]. intros HXi%inv_bij0. congruence.
    + split; [|congruence]. intros HXi%inv_bij0. congruence.
    + apply inv_bij0.
  - intros i X. rewrite lookup_insert. case_decide as Hi.
    + by intros [= <-].
    + apply inv_sub0.
  - rewrite map_size_insert_None by done. lia.
  - intros i Hi.
    assert (i = length (states d) ∨ i ∈ accepting_states d) as [->|Hacc]
      by (destruct hit; set_solver).
    + lia.
    + apply inv_acc_lt0 in Hacc. lia.
  - intros i X. rewrite lookup_insert. case_decide as Hi.
    + intros [= <-]. subst i. rewrite <- Hhit.
      destruct hit; [set_solver|].
      split; [|done]. intros Hacc%inv_acc_lt0. lia.
    + intros HX. rewrite <- (inv_acc0 i X HX).
      destruct hit; set_solver.
  - intros i tr c j Htr Hget.
    apply lookup_app_Some in Htr as [Htr|[Hlen Htr]].
    + destruct (inv_trans0 _ _ _ _ Htr Hget) as (X & HX & Hc & Hcar & Hj).
      exists X. rewrite !lookup_insert_ne; [done|..]; congruence.
    + apply list_lookup_singleton_Some in Htr as [_ <-]. done.
  - intros j X. rewrite lookup_insert. case_decide as Hj.
    + intros [= <-]. subst j. right. exists i0, Y0, c0.
      split; [apply inv_dom0; by eexists|].
      rewrite lookup_insert_ne by congruence. done.
    + intros HX. destruct (inv_reach0 j X HX) as [->|(i' & Y' & c' & Hlt & HY' & H')];
        [by left|].
      right. exists i', Y', c'. split; [done|].
      rewrite lookup_insert_ne by congruence. done.
Qed.

Lemma add_transition_spec i d c X :
  dfa_inv P F d → state_pos d !! i = Some X → c ≠ "#" → carries P X c →
  ∃ d', add_transition set_iter P i d (c, move P F X c) = Return d'
    ∧ dfa_inv P F d'
    ∧ queue_popped d' = queue_popped d
    ∧ state_pos d ⊆ state_pos d'
    ∧ length (states d) ≤ length (states d')
    ∧ (∀ i' c', has_transition d i' c' → has_transition d' i' c')
    ∧ has_transition d' i c.
Proof.
  intros Hinv HX Hc Hcar. set (S := move P F X c).
  assert (HS : S ⊆ dom P) by apply move_closed.
  assert (Hi : i < length (states d)) by (apply (inv_dom _ _ _ Hinv); by eexists).
  destruct (lookup_lt_is_Some_2 (states d) i Hi) as [tr Htr].
  rewrite add_transition_unfold.
  destruct (pos_state d !! S) as [j|] eqn:HSj.
  - rewrite Htr. eexists. split; [done|].
    apply (inv_bij _ _ _ Hinv) in HSj.
    split; [by eapply dfa_inv_with_transition|].
    split; [done|]. split; [done|]. split; [simpl; by rewrite length_insert|].
    split; intros; apply has_transition_with_transition; auto.
  - destruct (any_hash_set S HS) as (hit & -> & Hhit). simpl.
    rewrite lookup_app_l, Htr by done.
    assert (Hinv1 : dfa_inv P F (with_state S hit d))
      by (by eapply dfa_inv_with_state).
    assert (Hk : state_pos d !! length (states d) = None).
    { apply eq_None_not_Some. rewrite <- (inv_dom _ _ _ Hinv). lia. }
    assert (Htr1 : states (with_state S hit d) !! i = Some tr)
      by (simpl; by rewrite lookup_app_l).
    eexists. split; [done|].
    split.
    { eapply dfa_inv_with_transition; [done|done| | done|done|].
      - simpl. rewrite lookup_insert_ne; [done|]. lia.
      - simpl. by rewrite lookup_insert_eq. }
    split; [done|]. split; [by apply insert_subseteq|].
    split; [simpl; rewrite length_insert, length_app; lia|].
    split.
    + intros i' c' (tr' & j' & Htr' & Hj').
      apply has_transition_with_transition; [done|]. left.
      exists tr', j'. split; [|done]. simpl.
      rewrite lookup_app_l; [done|]. by eapply lookup_lt_Some.
    + apply has_transition_with_transition; auto.
Qed.

(** The second loop, over a part [items] of [symbol_pos_map]. *)
Lemma add_transitions_spec i X items d :
  dfa_inv P F d → state_pos d !! i = Some X →
  (∀ c S, (c, S) ∈ items → c ≠ "#" ∧ carries P X c ∧ S = move P F X c) →
  ∃ d', for_each (add_transition set_iter P i) d items = Return d'
    ∧ dfa_inv P F d'
    ∧ queue_popped d' = queue_popped d
    ∧ state_pos d ⊆ state_pos d'
    ∧ length (states d) ≤ length (states d')
    ∧ (∀ i' c', has_transition d i' c' → has_transition d' i' c')
    ∧ (∀ c S, (c, S) ∈ items → has_transition d' i c).
Proof.
  revert d. induction items as [|[c S] items IH]; intros d Hinv HX Hitems.
  - exists d. split; [done|]. split; [done|]. split; [done|].
    split; [done|]. split; [done|]. split; [done|].
    intros c S []%elem_of_nil.
  - destruct (Hitems c S) as (Hc & Hcar & ->); [left|].
    destruct (add_transition_spec i d c X Hinv HX Hc Hcar)
      as (d1 & Hret & Hinv1 & Hpop1 & Hsub1 & Hlen1 & Hmono1 & Hhas1).
    cbn [for_each]. rewrite Hret. cbn [obind].
    destruct (IH d1) as (d' & Hret' & Hinv' & Hpop' & Hsub' & Hlen' & Hmono' & Hhas');
      [done|by eapply lookup_weaken|intros; apply Hitems; by right|].
    exists d'. split; [done|]. split; [done|].
    split; [congruence|]. split; [by etrans|]. split; [lia|].
    split; [by auto|].
    intros c' S' [[= -> ->]|Hin]%elem_of_cons; [by auto|by eauto].
Qed.

(** *** The [while] loop *)

Lemma process_state_spec d :
  dfa_inv P F d → queue_popped d < length (states d) →
  complete_below P (queue_popped d) d →
  ∃ d', process_state set_iter P F d = Return d'
    ∧ dfa_inv P F d'
    ∧ queue_popped d' = S (queue_popped d)
    ∧ state_pos d ⊆ state_pos d'
    ∧ complete_below P (queue_popped d') d'.
Proof.
  intros Hinv Hlt Hcomp. unfold process_state.
  assert (Hq : queue_appended d !! queue_popped d = Some (queue_popped d))
    by (by rewrite (inv_queue _ _ _ Hinv), lookup_seq_lt).
  rewrite Hq. simpl.
  destruct (proj1 (inv_dom _ _ _ Hinv (queue_popped d)) Hlt) as [X HX].
  rewrite HX.
  destruct (symbol_pos_map_spec X) as (spm & -> & Hnd & Hspm);
    [by eapply inv_sub|]. simpl.
  set (d0 := {| states := states d; state_pos := state_pos d;
                pos_state := pos_state d;
                queue_appended := queue_appended d;
                queue_popped := S (queue_popped d);
                accepting_states := accepting_states d |}).
  assert (Hinv0 : dfa_inv P F d0).
  { destruct Hinv. constructor; simpl; done. }
  destruct (add_transitions_spec (queue_popped d) X spm d0 Hinv0 HX)
    as (d' & Hret & Hinv' & Hpop' & Hsub' & Hlen' & Hmono' & Hhas').
  { intros c S. apply Hspm. }
  exists d'. split; [done|]. split; [done|]. split; [done|].
  split; [done|].
  intros i Y c Hi HY Hc Hcar. rewrite Hpop' in Hi. simpl in Hi.
  destruct (decide (i = queue_popped d)) as [->|Hne].
  - assert (Y = X) as ->.
    { pose proof (lookup_weaken _ _ _ _ HX Hsub') as HX'. simpl in HX'.
      congruence. }
    apply (Hhas' c (move P F X c)). by apply Hspm.
  - assert (Hi' : i < queue_popped d) by lia.
    assert (HY0 : state_pos d !! i = Some Y).
    { destruct (proj1 (inv_dom _ _ _ Hinv i)) as [Z HZ]; [lia|].
      pose proof (lookup_weaken _ _ _ _ HZ Hsub') as HZ'. simpl in HZ'.
      congruence. }
    apply Hmono'. by apply (Hcomp i Y c).
Qed.

(** There are no more states than sets of positions. *)
Lemma dfa_inv_bound d : dfa_inv P F d → length (states d) ≤ 2 ^ size P.
Proof.
  intros Hinv. rewrite <- (inv_size _ _ _ Hinv), <- (size_dom (D := gset nat) P).
  rewrite <- (size_dom (D := gset (gset nat)) (pos_state d)).
  apply NoDup_subsets_length; [apply NoDup_elements|].
  intros X [i Hi]%elem_of_elements%elem_of_dom.
  apply (inv_bij _ _ _ Hinv) in Hi. by eapply inv_sub.
Qed.

(** With more fuel than there are sets of positions left, the loop
    runs to its end. *)
Lemma construct_while_spec fuel d :
  dfa_inv P F d → complete_below P (queue_popped d) d →
  2 ^ size P < fuel + queue_popped d →
  ∃ d', construct_while set_iter fuel P F d = Return d'
    ∧ dfa_inv P F d'
    ∧ queue_popped d' = length (states d')
    ∧ complete_below P (length (states d')) d'
    ∧ state_pos d ⊆ state_pos d'.
Proof.
  revert d. induction fuel as [|fuel IH]; intros d Hinv Hcomp Hfuel.
  - pose proof (dfa_inv_bound d Hinv). pose proof (inv_popped _ _ _ Hinv). lia.
  - simpl. rewrite (inv_queue _ _ _ Hinv), length_seq.
    destruct (decide (queue_popped d < length (states d))) as [Hlt|Hge].
    + destruct (process_state_spec d Hinv Hlt Hcomp)
        as (d1 & -> & Hinv1 & Hpop1 & Hsub1 & Hcomp1). simpl.
      destruct (IH d1 Hinv1 Hcomp1) as (d' & Hret & Hinv' & Hpop' & Hcomp' & Hsub');
        [lia|].
      exists d'. split; [done|]. split; [done|]. split; [done|].
      split; [done|]. by etrans.
    + pose proof (inv_popped _ _ _ Hinv).
      assert (Heq : queue_popped d = length (states d)) by lia.
      exists d. split; [done|]. split; [done|]. split; [done|].
      split; [by rewrite <- Heq|done].
Qed.

Lemma construct_init_spec m root :
  positions m = P → firstpos (attr m root) ⊆ dom P →
  ∃ d, construct_init set_iter m root = Return d
    ∧ dfa_inv P F d ∧ queue_popped d = 0
    ∧ state_pos d !! 0 = Some (firstpos (attr m root)).
Proof.
  intros HP HX. unfold construct_init. rewrite HP.
  destruct (any_hash_set _ HX) as (hit & -> & Hhit). simpl.
  eexists. split; [done|]. split; [|by split].
  constructor; simpl.
  - done.
  - lia.
  - intros i. rewrite lookup_singleton_is_Some. lia.
  - intros i X. rewrite !lookup_singleton_Some. naive_solver.
  - intros i X [_ <-]%lookup_singleton_Some. done.
  - by rewrite map_size_singleton.
  - intros i Hi. destruct hit; set_solver.
  - intros i X [<- <-]%lookup_singleton_Some. rewrite <- Hhit.
    destruct hit; set_solver.
  - intros [|i] tr c j Htr Hget; [|done]. by injection Htr as <-.
  - intros j X [<- _]%lookup_singleton_Some. by left.
Qed.

(** [construct_dfa] returns, and its local variables satisfy the
    invariant with every state processed. *)
Lemma construct_dfa_locals_spec m root :
  positions m = P → firstpos (attr m root) ⊆ dom P →
  ∃ d, construct_dfa_locals set_iter m root F = Return d
    ∧ dfa_inv P F d
    ∧ queue_popped d = length (states d)
    ∧ complete_below P (length (states d)) d
    ∧ state_pos d !! 0 = Some (firstpos (attr m root))
    ∧ length (states d) ≤ 2 ^ size P.
Proof.
  intros HP HX. unfold construct_dfa_locals.
  destruct (construct_init_spec m root HP HX) as (d0 & -> & Hinv0 & Hpop0 & H0).
  simpl. rewrite HP.
  destruct (construct_while_spec (S (2 ^ size P)) d0 Hinv0)
    as (d & Hret & Hinv & Hpop & Hcomp & Hsub).
  { rewrite Hpop0. intros i X c Hi. lia. }
  { lia. }
  exists d. split; [done|]. split; [done|]. split; [done|]. split; [done|].
  split; [by eapply lookup_weaken|by apply dfa_inv_bound].
Qed.

(** *** Consequences of the invariant *)

(** Every state's position-set is reached from the start set. *)
Lemma dfa_states_closed (R : gset nat → Prop) d :
  dfa_inv P F d →
  (∀ X, state_pos d !! 0 = Some X → R X) →
  (∀ X c, R X → c ≠ "#" → carries P X c → R (move P F X c)) →
  ∀ j X, state_pos d !! j = Some X → R X.
Proof.
  intros Hinv H0 Hstep j.
  induction j as [j IH] using lt_wf_ind. intros X HX.
  destruct (inv_reach _ _ _ Hinv j X HX) as [->|(i & Y & c & Hlt & HY & Hc & Hcar & ->)].
  - by apply H0.
  - apply Hstep; [|done..]. by eapply IH.
Qed.

(** In the finished automaton every state has its transitions. *)
Lemma dfa_transition d i X c :
  dfa_inv P F d → complete_below P (length (states d)) d →
  state_pos d !! i = Some X → c ≠ "#" → carries P X c →
  ∃ tr j, states d !! i = Some tr ∧ dict_get c tr = Some j
          ∧ state_pos d !! j = Some (move P F X c).
Proof.
  intros Hinv Hcomp HX Hc Hcar.
  assert (Hi : i < length (states d)) by (apply (inv_dom _ _ _ Hinv); by eexists).
  destruct (Hcomp i X c Hi HX Hc Hcar) as (tr & j & Htr & Hj).
  exists tr, j. split; [done|]. split; [done|].
  destruct (inv_trans _ _ _ Hinv _ _ _ _ Htr Hj) as (X' & HX' & _ & _ & Hj').
  congruence.
Qed.

Lemma dfa_state_pos_inj d i j X :
  dfa_inv P F d → state_pos d !! i = Some X → state_pos d !! j = Some X → i = j.
Proof.
  intros Hinv Hi%(inv_bij _ _ _ Hinv) Hj%(inv_bij _ _ _ Hinv). congruence.
Qed.

(** Every state was enqueued once, and no position-set twice. *)
Lemma enqueued_sets_spec d :
  dfa_inv P F d →
  NoDup (enqueued_sets d) ∧ length (enqueued_sets d) = length (states d).
Proof.
  intros Hinv. unfold enqueued_sets. rewrite (inv_queue _ _ _ Hinv).
  assert (H : ∀ n, n ≤ length (states d) →
    NoDup (omap (λ i, state_pos d !! i) (seq 0 n))
    ∧ length (omap (λ i, state_pos d !! i) (seq 0 n)) = n
    ∧ ∀ X, X ∈ omap (λ i, state_pos d !! i) (seq 0 n) →
           ∃ i, i < n ∧ state_pos d !! i = Some X).
  { induction n as [|n IH]; intros Hn.
    - simpl. split; [apply NoDup_nil_2|]. split; [done|].
      intros X []%elem_of_nil.
    - destruct IH as (Hnd & Hlen & Hin); [lia|].
      destruct (proj1 (inv_dom _ _ _ Hinv n)) as [Xn HXn]; [lia|].
      rewrite seq_S, omap_app. simpl. rewrite HXn.
      split; [|split].
      + apply NoDup_app. split; [done|]. split; [|apply NoDup_singleton].
        intros X (i & Hi & HX)%Hin ->%list_elem_of_singleton.
        assert (i = n) by (by eapply dfa_state_pos_inj). lia.
      + rewrite length_app, Hlen. simpl. lia.
      + intros X [HX| ->%list_elem_of_singleton]%elem_of_app.
        * destruct (Hin X HX) as (i & Hi & HXi). exists i. split; [lia|done].
        * exists n. split; [lia|done]. }
  destruct (H (length (states d))) as (Hnd & Hlen & _); done.
Qed.

(** *** The states are the position-sets reached from the start *)

Lemma carriesb_spec X c : carriesb P X c = true ↔ carries P X c.
Proof.
  unfold carriesb, carries. rewrite existsb_exists. split.
  - intros (p & Hp%list_elem_of_In%elem_of_elements & Hc%bool_decide_eq_true).
    by exists p.
  - intros (p & Hp & Hc). exists p. split.
    + by apply list_elem_of_In, elem_of_elements.
    + by apply bool_decide_eq_true.
Qed.

Lemma successors_spec X Y :
  Y ∈ successors P F X ↔ ∃ c, c ≠ "#" ∧ carries P X c ∧ Y = move P F X c.
Proof.
  unfold successors. rewrite list_elem_of_omap. split.
  - intros (p & Hp%elem_of_elements & HY).
    destruct (P !! p) as [c|] eqn:Hc; [|done].
    destruct (decide (c = "#")) as [|Hne]; [done|]. injection HY as <-.
    exists c. split; [done|]. split; [by exists p|done].
  - intros (c & Hne & (p & Hp & Hc) & ->). exists p.
    split; [by apply elem_of_elements|]. rewrite Hc. by rewrite decide_False.
Qed.

Lemma explore_incl n Xs X : X ∈ Xs → X ∈ explore P F n Xs.
Proof.
  revert Xs. induction n as [|n IH]; intros Xs HX; simpl; [done|].
  apply IH, elem_of_app. by left.
Qed.

Lemma explore_states d n Xs :
  dfa_inv P F d → complete_below P (length (states d)) d →
  (∀ X, X ∈ Xs → ∃ i, state_pos d !! i = Some X) →
  ∀ X, X ∈ explore P F n Xs → ∃ i, state_pos d !! i = Some X.
Proof.
  intros Hinv Hcomp. revert Xs.
  induction n as [|n IH]; intros Xs HXs X HX; simpl in HX; [by apply HXs|].
  apply (IH (Xs ++ (Xs ≫= successors P F))); [|done].
  intros Y [HY|HY]%elem_of_app; [by apply HXs|].
  apply list_elem_of_bind in HY as (Z & HY & HZ).
  apply successors_spec in HY as (c & Hne & Hcar & ->).
  destruct (HXs Z HZ) as [i Hi].
  destruct (dfa_transition d i Z c Hinv Hcomp Hi Hne Hcar)
    as (tr & j & _ & _ & Hj).
  by exists j.
Qed.

Lemma closed_states d Xs start :
  dfa_inv P F d → state_pos d !! 0 = Some start → start ∈ Xs →
  closed_under_move P F Xs = true →
  ∀ j X, state_pos d !! j = Some X → X ∈ Xs.
Proof.
  intros Hinv H0 Hstart Hclosed.
  apply (dfa_states_closed (λ X, X ∈ Xs) d Hinv).
  - intros X HX. by assert (X = start) as -> by congruence.
  - intros X c HX Hne Hcar. unfold closed_under_move in Hclosed.
    rewrite forallb_forall in Hclosed.
    specialize (Hclosed X (proj1 (list_elem_of_In _ _) HX)).
    rewrite forallb_forall in Hclosed.
    apply (bool_decide_eq_true_1 _), Hclosed, list_elem_of_In, successors_spec.
    by exists c.
Qed.

(** A census of the states from an exploration that has closed. *)
Lemma dfa_census d start n :
  dfa_inv P F d → complete_below P (length (states d)) d →
  state_pos d !! 0 = Some start →
  closed_under_move P F (explore P F n [start]) = true →
  (∀ X, (∃ i, state_pos d !! i = Some X) ↔ X ∈ explore P F n [start])
  ∧ length (states d) = length (remove_dups (explore P F n [start])).
Proof.
  intros Hinv Hcomp H0 Hclosed.
  assert (Hstart : start ∈ explore P F n [start]) by (apply explore_incl; left).
  assert (Hiff : ∀ X, (∃ i, state_pos d !! i = Some X)
                      ↔ X ∈ explore P F n [start]).
  { intros X. split.
    - intros [i Hi]. by eapply closed_states.
    - apply explore_states; [done..|].
      intros Y ->%list_elem_of_singleton. by exists 0. }
  split; [done|].
  rewrite <- (inv_size _ _ _ Hinv).
  rewrite <- (size_dom (D := gset (gset nat)) (pos_state d)).
  apply Permutation_length, NoDup_Permutation;
    [apply NoDup_elements|apply NoDup_remove_dups|].
  intros X. rewrite elem_of_elements, elem_of_dom, elem_of_remove_dups, <- Hiff.
  split; intros [i Hi]; exists i; by apply (inv_bij _ _ _ Hinv).
Qed.

(** One accepting state when one reachable set carries [#]. *)
Lemma dfa_one_accepting d Xs X :
  dfa_inv P F d →
  (∀ Y, (∃ i, state_pos d !! i = Some Y) ↔ Y ∈ Xs) →
  X ∈ Xs → carriesb P X "#" = true → only_accepting P X Xs = true →
  ∃ i, state_pos d !! i = Some X ∧ accepting_states d = {[i]}.
Proof.
  intros Hinv Hiff HX Hcar Honly.
  destruct (proj2 (Hiff X) HX) as [i Hi]. exists i. split; [done|].
  apply leibniz_equiv. intros j. rewrite elem_of_singleton. split.
  - intros Hj.
    destruct (proj1 (inv_dom _ _ _ Hinv j) (inv_acc_lt _ _ _ Hinv j Hj))
      as [Y HY].
    pose proof (proj1 (inv_acc _ _ _ Hinv j Y HY) Hj) as HcarY.
    apply carriesb_spec in HcarY.
    unfold only_accepting in Honly. rewrite forallb_forall in Honly.
    assert (HYin : Y ∈ Xs) by (apply Hiff; by exists j).
    specialize (Honly Y (proj1 (list_elem_of_In _ _) HYin)).
    rewrite HcarY in Honly. simpl in Honly.
    apply bool_decide_eq_true_1 in Honly. subst Y.
    by eapply dfa_state_pos_inj.
  - intros ->. apply (inv_acc _ _ _ Hinv i X Hi). by apply carriesb_spec.
Qed.

End dfa_facts.

(** * The whole conversion *)

(** [parse] returns the parsed expression concatenated with a fresh
    end marker. *)
Lemma parse_regex_shape regex root :
  parse_regex regex = Return root →
  ∃ e h, root = Concat (S h) e (Symbol h "#") ∧ well_built regex 0 h e.
Proof.
  unfold parse_regex, Parser.parse. intros H.
  destruct (Parser.bind _ _ _) as [[node self]| |] eqn:Hp; [|done..].
  injection H as ->.
  apply bind_Return in Hp as (e & s1 & He & Hp).
  apply bind_Return in Hp as (hn & s2 & Hh & Hp).
  apply alloc_inv in Hh as (-> & _ & _ & _ & Hal2).
  apply bind_Return in Hp as (rn & s3 & Hr & Hp).
  apply alloc_inv in Hr as (-> & _ & _ & _ & Hal3).
  injection Hp as <- <-.
  destruct (proj1 (parser_invariants regex (Parser.fuel_for regex))
              _ _ _ (init_coherent regex) eq_refl He) as (_ & _ & _ & Hwb).
  exists e, (allocated s1). by rewrite Hal2.
Qed.

(** The end marker is a new leaf object. *)
Lemma root_well_formed regex e h :
  well_built regex 0 h e →
  let root := Concat (S h) e (Symbol h "#") in
  well_formed root ∧ ("+" ∉ chars regex → NoDup (leaves root).*1)
  ∧ plus_sharing root.
Proof.
  intros (Hrange & Hwf & _ & Hnd & Hsh) root. split; [|split].
  - intros u v. unfold root. simpl.
    rewrite !elem_of_cons, !elem_of_app, !list_elem_of_singleton.
    intros [->|[Hu| ->]] [->|[Hv| ->]] Heq; try done; simpl in Heq;
      try (pose proof (Hrange _ Hu)); try (pose proof (Hrange _ Hv));
      try lia.
    by apply Hwf.
  - intros Hplus. unfold root. simpl. rewrite fmap_app. simpl.
    apply NoDup_app. split; [by apply Hnd|]. split; [|apply NoDup_singleton].
    intros o ([o' c] & Ho & Hoc)%list_elem_of_fmap Hoh%list_elem_of_singleton.
    simpl in Ho. subst.
    apply leaves_subterms, Hrange in Hoc. simpl in Hoc. lia.
  - intros u. unfold root. simpl.
    rewrite elem_of_cons, elem_of_app, list_elem_of_singleton.
    intros [->|[Hu| ->]]; [|by apply Hsh|done].
    left. intros v w Hv%Hrange ->%list_elem_of_singleton. simpl. lia.
Qed.

Lemma parse_regex_well_formed regex root :
  parse_regex regex = Return root →
  well_formed root ∧ ("+" ∉ chars regex → NoDup (leaves root).*1)
  ∧ plus_sharing root.
Proof.
  intros Hparse.
  destruct (parse_regex_shape regex root Hparse) as (e & h & -> & Hwb).
  apply (root_well_formed regex e h Hwb).
Qed.

(** The keys of the position table after a conversion's annotation. *)
Lemma annotate_reset_keys root m p :
  is_Some (positions (annotate root (reset m)) !! p) ↔ 1 ≤ p ≤ leaf_count root.
Proof.
  rewrite annotate_positions.
  change (position_counter (reset m)) with 1.
  change (positions (reset m)) with (∅ : gmap nat ascii).
  case_decide as Hp.
  - split; [lia|]. intros _. apply lookup_lt_is_Some.
    rewrite length_fmap. change (length (leaves root)) with (leaf_count root). lia.
  - rewrite lookup_empty. split; [by intros []|lia].
Qed.

(** The memory after annotating the tree [parse] returned. *)
Lemma annotate_root regex e h m :
  well_built regex 0 h e →
  let root := Concat (S h) e (Symbol h "#") in
  let m' := annotate root (reset m) in
  let n := leaf_count root in
  n = leaf_count e + 1
  ∧ (∀ u, u ∈ subterms e → attr m' u = attr (annotate e (reset m)) u)
  ∧ attr m' (Symbol h "#")
    = {| nullable := false; firstpos := {[n]}; lastpos := {[n]};
         position := Some n |}
  ∧ firstpos (attr m' root)
    = (if nullable_of e then firstpos (attr (annotate e (reset m)) e) ∪ {[n]}
       else firstpos (attr (annotate e (reset m)) e))
  ∧ (∀ p, positions m' !! p
          = if decide (1 ≤ p < n) then (leaves e).*2 !! (p - 1)
            else if decide (p = n) then Some "#" else None).
Proof.
  intros Hwb root m' n.
  assert (Hn : n = leaf_count e + 1)
    by (unfold n, root, leaf_count; simpl; by rewrite length_app).
  destruct Hwb as (Hrange & Hwf & _).
  set (me := annotate e (reset m)).
  assert (Hcnt : position_counter me = n).
  { unfold me. rewrite annotate_counter. simpl. lia. }
  destruct (annotate_Concat (S h) e (Symbol h "#") (reset m)) as [Hne Heq].
  fold root m' me in Hne, Heq.
  destruct (annotate_Symbol h "#" me) as [Hsne Hseq].
  assert (Hsub : ∀ u, u ∈ subterms e → attr m' u = attr me u).
  { intros u Hu. apply Hrange in Hu.
    rewrite Hne by lia. apply Hsne. lia. }
  assert (Hhash : attr m' (Symbol h "#")
    = {| nullable := false; firstpos := {[n]}; lastpos := {[n]};
         position := Some n |}).
  { rewrite Hne by (simpl; lia). rewrite Hseq by done. by rewrite Hcnt. }
  split; [done|]. split; [done|]. split; [done|]. split.
  - destruct (Heq root eq_refl) as (_ & (b & -> & Hb) & _).
    pose proof (Hrange e (subterms_self e)) as He.
    rewrite Hb by lia.
    rewrite (Hsne e) by lia. rewrite (Hseq (Symbol h "#")) by done. simpl.
    unfold me. rewrite annotate_nullable by auto using subterms_self.
    fold me. rewrite Hcnt. by destruct (nullable_of e).
  - intros p. unfold m'. rewrite annotate_positions. simpl.
    fold root n.
    assert (Hlen : length (leaves e).*2 = leaf_count e)
      by (by rewrite length_fmap).
    rewrite fmap_app. simpl.
    repeat case_decide; try lia; try done.
    + rewrite lookup_app_l by lia. done.
    + rewrite lookup_app_r by lia. subst p.
      replace (n - 1 - length (leaves e).*2) with 0 by lia. done.
Qed.

(** The position table has exactly the keys [1..n]. *)
Lemma annotate_root_keys regex e h m p :
  well_built regex 0 h e →
  let root := Concat (S h) e (Symbol h "#") in
  is_Some (positions (annotate root (reset m)) !! p) ↔ 1 ≤ p ≤ leaf_count root.
Proof.
  intros Hwb root.
  destruct (annotate_root regex e h m Hwb) as (Hn & _ & _ & _ & Hpos).
  fold root in Hn, Hpos. rewrite Hpos.
  repeat case_decide.
  - split; [lia|]. intros _. apply lookup_lt_is_Some.
    rewrite length_fmap. change (length (leaves e)) with (leaf_count e). lia.
  - split; [lia|]. by eexists.
  - split; [by intros []|lia].
Qed.

Lemma annotate_root_dom regex e h m :
  well_built regex 0 h e →
  let root := Concat (S h) e (Symbol h "#") in
  dom (positions (annotate root (reset m))) = set_seq 1 (leaf_count root).
Proof.
  intros Hwb root. apply leibniz_equiv. intros p.
  rewrite elem_of_dom, elem_of_set_seq.
  unfold root. rewrite (annotate_root_keys regex e h m p Hwb). lia.
Qed.

Lemma annotate_root_size regex e h m :
  well_built regex 0 h e →
  let root := Concat (S h) e (Symbol h "#") in
  size (positions (annotate root (reset m))) = leaf_count root.
Proof.
  intros Hwb root. rewrite <- (size_dom (D := gset nat)).
  unfold root. rewrite (annotate_root_dom regex e h m Hwb).
  apply size_set_seq.
Qed.

(** Every set of the annotated tree is a set of keys of the table. *)
Lemma annotate_root_within regex e h m u :
  well_built regex 0 h e →
  let root := Concat (S h) e (Symbol h "#") in
  let m' := annotate root (reset m) in
  u ∈ subterms root →
  firstpos (attr m' u) ⊆ dom (positions m')
  ∧ lastpos (attr m' u) ⊆ dom (positions m').
Proof.
  intros Hwb root m' Hu.
  destruct (annotate_within root (reset m) u Hu) as [Hf Hl].
  change (position_counter (reset m)) with 1 in Hf, Hl.
  pose proof (annotate_root_dom regex e h m Hwb) as Hdom.
  cbv zeta in Hdom. fold root in Hdom. unfold m'. rewrite Hdom.
  split; intros p Hp; apply elem_of_set_seq;
    [apply Hf in Hp|apply Hl in Hp]; lia.
Qed.

(** For a regex without [#], the start set holds a position that
    carries [#] exactly when the parsed expression is nullable. *)
Lemma root_firstpos_hash regex root m :
  parse_regex regex = Return root → "#" ∉ chars regex →
  let m' := annotate root (reset m) in
  carries (positions m') (firstpos (attr m' root)) "#"
  ↔ matches (parsed_expression root) [].
Proof.
  intros Hparse Hhash m'.
  destruct (parse_regex_shape regex root Hparse) as (e & h & Hroot & Hwb).
  destruct (annotate_root regex e h m Hwb) as (Hn & _ & _ & Hfirst & Hpos).
  rewrite <- Hroot in Hn, Hfirst, Hpos. fold m' in Hfirst, Hpos.
  assert (Hexpr : parsed_expression root = e) by (by rewrite Hroot).
  rewrite Hexpr, matches_nil_nullable, Hfirst.
  pose proof (annotate_within e (reset m) e (subterms_self e)) as [Hwithin _].
  change (position_counter (reset m)) with 1 in Hwithin.
  assert (Hsym : ∀ p, 1 ≤ p < leaf_count root → positions m' !! p ≠ Some "#").
  { intros p Hp Habs. rewrite Hpos, decide_True in Habs by exact Hp.
    apply list_elem_of_lookup_2, list_elem_of_fmap in Habs as (oc & Hoc & Hin).
    destruct Hwb as (_ & _ & Hchars & _). apply Hchars in Hin.
    rewrite <- Hoc in Hin. contradiction. }
  split.
  - intros (p & Hp & Hc).
    destruct (nullable_of e); [reflexivity|]. exfalso.
    apply Hwithin in Hp. apply (Hsym p); [lia|exact Hc].
  - intros ->. exists (leaf_count root). split; [set_solver|].
    rewrite Hpos, decide_False, decide_True by lia. reflexivity.
Qed.

Section conversion_facts.
Variable set_iter : gset nat → list nat.
Hypothesis set_iter_perm : ∀ X, set_iter X ≡ₚ elements X.
Local Set Default Proof Using "All".

(** A regex that parses is converted: the later stages neither raise
    nor run out of fuel, and the automaton satisfies the invariant of
    the worklist loop with every state processed. *)
Lemma convert_locals_spec m regex root :
  parse_regex regex = Return root →
  ∃ c, convert_locals set_iter m regex = Return c
    ∧ conv_root c = root ∧ converted set_iter m regex c.
Proof.
  intros Hparse.
  destruct (parse_regex_shape regex root Hparse) as (e & h & -> & Hwb).
  set (root := Concat (S h) e (Symbol h "#")) in *.
  unfold convert_locals. rewrite Hparse. cbn [obind].
  set (m' := annotate root (reset m)).
  set (F := compute_followpos set_iter m' root ∅).
  assert (HF : ∀ p X, F !! p = Some X → X ⊆ dom (positions m')).
  { intros p X HX q Hq.
    destruct (compute_followpos_values set_iter set_iter_perm
                m' root ∅ p X q HX Hq)
      as [(Y & HY & _)|(u & Hu & Hqu)]; [done|].
    destruct (annotate_root_within regex e h m u Hwb Hu) as [Hf _].
    by apply Hf. }
  destruct (construct_dfa_locals_spec set_iter set_iter_perm
              (positions m') F HF m' root eq_refl)
    as (d & -> & Hinv & Hpop & Hcomp & H0 & Hlen).
  { apply (annotate_root_within regex e h m root Hwb (subterms_self root)). }
  cbn [obind]. eexists. split; [done|]. split; [done|].
  constructor; cbn [conv_root conv_memory conv_followpos conv_dfa]; try done.
  pose proof (annotate_root_size regex e h m Hwb) as Hsize.
  cbv zeta in Hsize. fold root m' in Hsize. by rewrite <- Hsize.
Qed.

Lemma convert_locals_inv m regex c :
  convert_locals set_iter m regex = Return c →
  parse_regex regex = Return (conv_root c).
Proof.
  unfold convert_locals.
  destruct (parse_regex regex) as [root| |]; simpl; [|done..].
  destruct (construct_dfa_locals _ _ _ _) as [d| |]; simpl; [|done..].
  by intros [= <-].
Qed.

(** What every successful conversion satisfies. *)
Lemma convert_locals_Return m regex c :
  convert_locals set_iter m regex = Return c → converted set_iter m regex c.
Proof.
  intros Hc. pose proof (convert_locals_inv m regex c Hc) as Hparse.
  destruct (convert_locals_spec m regex _ Hparse) as (c' & Hc' & Hroot & H).
  by assert (c' = c) as -> by congruence.
Qed.

(** The conversion of a regex whose tree is known, with the followpos
    table computed in the order of [elements]. *)
Lemma convert_locals_parsed m regex root :
  parse_regex regex = Return root →
  ∃ d, convert_locals set_iter m regex
       = Return {| conv_root := root;
                   conv_memory := annotate root (reset m);
                   conv_followpos :=
                     compute_followpos elements (annotate root (reset m)) root ∅;
                   conv_dfa := d |}
    ∧ convert set_iter m regex = Return (states d, accepting_states d)
    ∧ (∀ p X, compute_followpos elements (annotate root (reset m)) root ∅ !! p
              = Some X →
              X ⊆ dom (positions (annotate root (reset m))))
    ∧ dfa_inv (positions (annotate root (reset m)))
              (compute_followpos elements (annotate root (reset m)) root ∅) d
    ∧ complete_below (positions (annotate root (reset m)))
                     (length (states d)) d
    ∧ state_pos d !! 0 = Some (firstpos (attr (annotate root (reset m)) root)).
Proof.
  intros Hparse.
  destruct (convert_locals_spec m regex root Hparse) as (c & Hc & Hroot & Hcv).
  destruct Hcv as [_ Hmem Hfol Hclosed Hinv _ Hcomp Hstart _].
  destruct c as [r mm ff d].
  cbn [conv_root conv_memory conv_followpos conv_dfa] in *.
  subst r mm. rewrite (compute_followpos_order set_iter set_iter_perm) in Hfol.
  subst ff. exists d. split; [exact Hc|].
  split; [unfold convert; by rewrite Hc|].
  split; [exact Hclosed|]. split; [exact Hinv|]. split; [exact Hcomp|].
  exact Hstart.
Qed.

End conversion_facts.

(** * The claims *)

Section claims.
(** The order in which a set is visited is any order of its elements. *)
Variable set_iter : gset nat → list nat.
Hypothesis set_iter_perm : ∀ X, set_iter X ≡ₚ elements X.

(** C8: conversion is deterministic. The hosts reset the position
    counter and the position table before every conversion and parse
    into new node objects, so, for a fixed iteration order, what a
    conversion returns depends on the regex only, whatever memory an
    earlier conversion left behind: two conversions of the same regex
    give the same number of states, the same set of accepting state
    indices and the same transitions, or fail alike. *)
Theorem C8_conversion_deterministic m1 m2 regex :
  convert set_iter m1 regex = convert set_iter m2 regex
  ∧ outcome_map (λ a, length a.1) (convert set_iter m1 regex)
    = outcome_map (λ a, length a.1) (convert set_iter m2 regex)
  ∧ outcome_map snd (convert set_iter m1 regex)
    = outcome_map snd (convert set_iter m2 regex)
  ∧ outcome_map fst (convert set_iter m1 regex)
    = outcome_map fst (convert set_iter m2 regex).
Proof.
  assert (H : convert set_iter m1 regex = convert set_iter m2 regex)
    by reflexivity.
  by rewrite H.
Qed.

(** C7: the position of the end marker that [parse] appends is the
    last one assigned, and it is never a key of the followpos table. *)
Theorem C7_end_marker_not_a_key m regex root :
  parse_regex regex = Return root →
  let m' := annotate root (reset m) in
  ∃ e h, root = Concat (S h) e (Symbol h "#")
    ∧ leaf_position m' (h, "#") = Some (leaf_count root)
    ∧ positions m' !! leaf_count root = Some "#"
    ∧ compute_followpos set_iter m' root ∅ !! leaf_count root = None.
Proof.
  intros Hparse m'.
  destruct (parse_regex_shape regex root Hparse) as (e & h & -> & Hwb).
  set (root := Concat (S h) e (Symbol h "#")) in *.
  destruct (annotate_root regex e h m Hwb) as (Hn & Hsub & Hhash & _ & Hpos).
  fold root m' in Hn, Hsub, Hhash, Hpos.
  exists e, h. split; [done|]. split; [|split].
  - unfold leaf_position. simpl. by rewrite Hhash.
  - rewrite Hpos. repeat case_decide; try lia; done.
  - apply eq_None_not_Some. intros Hkey.
    assert (Hin : ∃ u, u ∈ subterms e ∧ leaf_count root ∈ lastpos (attr m' u)).
    { unfold root in Hkey. simpl in Hkey.
      apply (compute_followpos_keys set_iter set_iter_perm) in Hkey
        as [Hkey|Hkey]; [|done].
      rewrite setdefault_update_loop in Hkey.
      case_decide as Hl; [|by destruct Hkey].
      exists e. split; [apply subterms_self|].
      by apply (elem_of_set_iter set_iter set_iter_perm). }
    destruct Hin as (u & Hu & Hlast). rewrite (Hsub u Hu) in Hlast.
    destruct (annotate_within e (reset m) u Hu) as [_ Hl].
    apply Hl in Hlast. simpl in Hlast. lia.
Qed.

(** C5: the worklist loop terminates for every regex that parses: the
    conversion returns with an empty queue, the position-sets that
    were enqueued are pairwise distinct, one per state, and there are
    at most [2 ^ n] states for [n] leaves, the end marker included. *)
Theorem C5_worklist_terminates m regex root :
  parse_regex regex = Return root →
  ∃ c, convert_locals set_iter m regex = Return c
    ∧ conv_root c = root
    ∧ queue_popped (conv_dfa c) = length (queue_appended (conv_dfa c))
    ∧ NoDup (enqueued_sets (conv_dfa c))
    ∧ length (enqueued_sets (conv_dfa c)) = length (states (conv_dfa c))
    ∧ length (states (conv_dfa c)) ≤ 2 ^ leaf_count root.
Proof.
  intros Hparse.
  destruct (convert_locals_spec set_iter set_iter_perm m regex root Hparse)
    as (c & Hc & Hroot & Hcv).
  exists c. split; [done|]. split; [done|].
  destruct (enqueued_sets_spec set_iter set_iter_perm _ _
              (cv_closed _ _ _ _ Hcv) _ (cv_inv _ _ _ _ Hcv)) as [Hnd Hlen'].
  split; [|split; [done|split; [done|]]].
  - rewrite (inv_queue _ _ _ (cv_inv _ _ _ _ Hcv)), length_seq.
    apply (cv_done _ _ _ _ Hcv).
  - rewrite <- Hroot. apply (cv_bound _ _ _ _ Hcv).
Qed.

(** C3, amended: every regex that parses is converted; state 0's
    position-set is firstpos of the annotated root, and state 0 is
    accepting exactly when that set holds a position whose table
    symbol is [#]; for a regex without the literal [#], that is
    exactly when the language of the regex contains the empty word. *)
Theorem C3_start_state m regex root :
  parse_regex regex = Return root →
  ∃ c, convert_locals set_iter m regex = Return c
    ∧ conv_root c = root
    ∧ conv_memory c = annotate root (reset m)
    ∧ state_pos (conv_dfa c) !! 0
      = Some (firstpos (attr (conv_memory c) root))
    ∧ (0 ∈ accepting_states (conv_dfa c)
       ↔ carries (positions (conv_memory c))
                 (firstpos (attr (conv_memory c) root)) "#")
    ∧ ("#" ∉ chars regex →
       (0 ∈ accepting_states (conv_dfa c)
        ↔ matches (parsed_expression root) [])).
Proof.
  intros Hparse.
  destruct (convert_locals_spec set_iter set_iter_perm m regex root Hparse)
    as (c & Hc & Hroot & Hcv).
  exists c. split; [exact Hc|]. split; [exact Hroot|].
  pose proof (cv_start _ _ _ _ Hcv) as Hstart.
  pose proof (cv_memory _ _ _ _ Hcv) as Hmem.
  rewrite Hroot in Hstart, Hmem.
  pose proof (inv_acc _ _ _ (cv_inv _ _ _ _ Hcv) 0 _ Hstart) as Hacc.
  split; [exact Hmem|]. split; [exact Hstart|]. split; [exact Hacc|].
  intros Hhash. rewrite Hacc, Hmem.
  exact (root_firstpos_hash regex root m Hparse Hhash).
Qed.

(** C6: the conversion of [a*] gives an automaton whose state 0 is
    accepting and has a transition on [a] to state 0 itself. *)
Theorem C6_star_self_loop m :
  ∃ states accepting,
    convert set_iter m "a*" = Return (states, accepting)
    ∧ 0 ∈ accepting
    ∧ ∃ transitions, states !! 0 = Some transitions
                     ∧ dict_get "a" transitions = Some 0.
Proof.
  set (root := Concat 3 (Star 1 (Symbol 0 "a")) (Symbol 2 "#")).
  assert (Hparse : parse_regex "a*" = Return root) by (vm_compute; reflexivity).
  destruct (convert_locals_parsed set_iter set_iter_perm m "a*" root Hparse)
    as (d & _ & Hconv & HF & Hinv & Hcomp & H0).
  exists (states d), (accepting_states d). split; [exact Hconv|]. split.
  - apply (inv_acc _ _ _ Hinv 0 _ H0).
    apply (carriesb_spec set_iter set_iter_perm _ _ HF).
    vm_compute. reflexivity.
  - destruct (dfa_transition set_iter set_iter_perm _ _ HF d 0 _ "a"
                Hinv Hcomp H0) as (tr & j & Htr & Hj & Hpos).
    { discriminate. }
    { apply (carriesb_spec set_iter set_iter_perm _ _ HF).
      vm_compute. reflexivity. }
    exists tr. split; [exact Htr|].
    assert (j = 0) as ->; [|exact Hj].
    apply (dfa_state_pos_inj set_iter set_iter_perm _ _ HF d j 0 _ Hinv Hpos).
    rewrite H0. vm_compute. reflexivity.
Qed.

(** C4: the conversion of [(a|b)*abb] gives an automaton with exactly
    4 states, in which state 0 is not accepting and exactly one state
    is accepting. *)
Theorem C4_textbook_automaton m :
  ∃ states accepting,
    convert set_iter m "(a|b)*abb" = Return (states, accepting)
    ∧ length states = 4
    ∧ 0 ∉ accepting
    ∧ size accepting = 1
    ∧ ∃ i, accepting = {[i]} ∧ i < 4.
Proof.
  set (root :=
    Concat 11
      (Concat 9
         (Concat 7
            (Concat 5 (Star 3 (Union 2 (Symbol 0 "a") (Symbol 1 "b")))
               (Symbol 4 "a"))
            (Symbol 6 "b"))
         (Symbol 8 "b"))
      (Symbol 10 "#")).
  assert (Hparse : parse_regex "(a|b)*abb" = Return root)
    by (vm_compute; reflexivity).
  destruct (convert_locals_parsed set_iter set_iter_perm m "(a|b)*abb" root
              Hparse) as (d & _ & Hconv & HF & Hinv & Hcomp & H0).
  exists (states d), (accepting_states d). split; [exact Hconv|].
  destruct (dfa_census set_iter set_iter_perm _ _ HF d _ 3 Hinv Hcomp H0)
    as [Hiff Hlen].
  { vm_compute. reflexivity. }
  assert (Hfour : length (states d) = 4).
  { rewrite Hlen. vm_compute. reflexivity. }
  destruct (dfa_one_accepting set_iter set_iter_perm _ _ HF d _ {[1; 2; 3; 6]}
              Hinv Hiff) as (i & Hi & Hacc).
  { apply (bool_decide_eq_true_1 _). vm_compute. reflexivity. }
  { vm_compute. reflexivity. }
  { vm_compute. reflexivity. }
  split; [exact Hfour|]. split; [|split].
  - intros Hzero. apply (inv_acc _ _ _ Hinv 0 _ H0) in Hzero.
    apply (carriesb_spec set_iter set_iter_perm _ _ HF) in Hzero.
    revert Hzero. vm_compute. discriminate.
  - rewrite Hacc. apply size_singleton.
  - exists i. split; [exact Hacc|]. rewrite <- Hfour.
    apply (inv_dom _ _ _ Hinv). by eexists.
Qed.

(** C10: acceptance is decided by the symbol, not by the position of
    the end marker. In every conversion a state is accepting exactly
    when its position-set holds a position whose table symbol is [#];
    no transition is on [#], and the target of a transition on [s] is
    made of the followpos sets of the positions that carry [s] alone,
    so a position mapped to [#] contributes nothing. For the regex
    [#], state 0 is the set of the position of the [#] the user wrote,
    it is accepting, and it has no transition. *)
Theorem C10_acceptance_by_symbol m :
  (∀ regex root,
     parse_regex regex = Return root →
     ∃ c, convert_locals set_iter m regex = Return c ∧ conv_root c = root
       ∧ (∀ i X, state_pos (conv_dfa c) !! i = Some X →
            (i ∈ accepting_states (conv_dfa c)
             ↔ carries (positions (conv_memory c)) X "#"))
       ∧ (∀ i tr s j,
            states (conv_dfa c) !! i = Some tr → dict_get s tr = Some j →
            s ≠ "#"
            ∧ ∃ X Y, state_pos (conv_dfa c) !! i = Some X
                ∧ state_pos (conv_dfa c) !! j = Some Y
                ∧ ∀ q, q ∈ Y ↔
                    ∃ p, p ∈ X ∧ positions (conv_memory c) !! p = Some s
                         ∧ q ∈ default ∅ (conv_followpos c !! p)))
  ∧ (∃ c, convert_locals set_iter m "#" = Return c
       ∧ conv_root c = Concat 2 (Symbol 0 "#") (Symbol 1 "#")
       ∧ leaf_position (conv_memory c) (0, "#") = Some 1
       ∧ leaf_position (conv_memory c) (1, "#") = Some 2
       ∧ state_pos (conv_dfa c) !! 0 = Some {[1]}
       ∧ 0 ∈ accepting_states (conv_dfa c)
       ∧ states (conv_dfa c) !! 0 = Some []).
Proof.
  split.
  - intros regex root Hparse.
    destruct (convert_locals_spec set_iter set_iter_perm m regex root Hparse)
      as (c & Hc & Hroot & Hcv).
    exists c. split; [exact Hc|]. split; [exact Hroot|]. split.
    + apply (inv_acc _ _ _ (cv_inv _ _ _ _ Hcv)).
    + intros i tr s j Htr Hj.
      destruct (inv_trans _ _ _ (cv_inv _ _ _ _ Hcv) i tr s j Htr Hj)
        as (X & HX & Hne & _ & HY).
      split; [exact Hne|]. exists X, (move (positions (conv_memory c))
                                        (conv_followpos c) X s).
      split; [exact HX|]. split; [exact HY|]. intros q.
      apply (elem_of_move set_iter set_iter_perm _ _ (cv_closed _ _ _ _ Hcv)).
  - set (root := Concat 2 (Symbol 0 "#") (Symbol 1 "#")).
    assert (Hparse : parse_regex "#" = Return root) by (vm_compute; reflexivity).
    destruct (convert_locals_parsed set_iter set_iter_perm m "#" root Hparse)
      as (d & Hc & _ & HF & Hinv & Hcomp & H0).
    eexists. split; [exact Hc|].
    cbn [conv_root conv_memory conv_followpos conv_dfa].
    split; [reflexivity|]. split; [vm_compute; reflexivity|].
    split; [vm_compute; reflexivity|].
    split; [rewrite H0; vm_compute; reflexivity|]. split.
    + apply (inv_acc _ _ _ Hinv 0 _ H0).
      apply (carriesb_spec set_iter set_iter_perm _ _ HF).
      vm_compute. reflexivity.
    + destruct (lookup_lt_is_Some_2 (states d) 0) as [tr Htr].
      { apply (inv_dom _ _ _ Hinv). by eexists. }
      rewrite Htr. f_equal. destruct tr as [|[s j] tr]; [reflexivity|].
      exfalso.
      destruct (inv_trans _ _ _ Hinv 0 _ s j Htr) as (X & HX & Hne & Hcar & _).
      { simpl. by rewrite decide_True. }
      assert (X = firstpos (attr (annotate root (reset m)) root)) as ->
        by exact (option_functional _ _ _ HX H0).
      apply (carriesb_spec set_iter set_iter_perm _ _ HF) in Hcar.
      assert (Hs : ∀ s', s' ≠ "#" →
        carriesb (positions (annotate root (reset m)))
                 (firstpos (attr (annotate root (reset m)) root)) s' = false).
      { intros s' Hs'. unfold carriesb.
        assert (Hel : elements (firstpos (attr (annotate root (reset m)) root))
                      = [1]) by (vm_compute; reflexivity).
        rewrite Hel. cbn [existsb]. rewrite orb_false_r.
        apply bool_decide_eq_false.
        assert (Hp : positions (annotate root (reset m)) !! 1 = Some "#")
          by (vm_compute; reflexivity).
        rewrite Hp. congruence. }
      rewrite (Hs s Hne) in Hcar. discriminate.
Qed.

End claims.

(** C1, as stated: parsing [((] does not fail with
    [MismatchedParentheses]. *)
Lemma C1_double_open_not_mismatched :
  parse_regex "((" ≠ Raise MismatchedParentheses.
Proof. vm_compute. discriminate. Qed.

(** C1, amended: parsing [((] fails with [UnexpectedCharacter] of the
    end of input: after the second parenthesis a base is required and
    the input is exhausted. *)
Theorem C1_double_open_unexpected_end :
  parse_regex "((" = Raise (UnexpectedCharacter None).
Proof. vm_compute. reflexivity. Qed.

(** C9: the parser does not require the whole input to be consumed. For
    [a)b] it returns, without an error, the tree of the prefix [a] alone:
    the unmatched parenthesis stops the loops of [term] and [expression],
    and [parse] does not look at what is left. *)
Theorem C9_unmatched_close_discarded :
  parse_regex "a)b" = Return (Concat 2 (Symbol 0 "a") (Symbol 1 "#"))
  ∧ parse_regex "a)b" = parse_regex "a"%string
  ∧ parse_regex "ab)*(" = parse_regex "ab".
Proof. repeat split; vm_compute; reflexivity. Qed.

(** C2, as stated: for the regex [a+] no [n] makes the position
    identifiers unique and dense over [1..n]. The table has the keys 1,
    2 and 3, but the operand of [+] is one leaf object referenced twice:
    its second visit replaces the identifier 1 by 2, and no leaf holds
    1. *)
Lemma C2_plus_not_dense :
  ∃ root, parse_regex "a+" = Return root
    ∧ leaf_count root = 3 ∧ size (leaf_objects root) = 2
    ∧ ∀ n, ¬ ids_unique_dense root (annotate root fresh_memory) n.
Proof.
  eexists. split; [vm_compute; reflexivity|].
  split; [done|]. split; [by vm_compute|].
  intros n (Hkeys & _ & _ & Hdense).
  assert (Hn : 1 ≤ 3 ≤ n) by (apply Hkeys; vm_compute; by eexists).
  destruct (Hdense 1) as (oc & Hoc & Hpos); [lia|].
  revert Hpos. cbn [leaves app] in Hoc.
  repeat (apply elem_of_cons in Hoc as [->|Hoc]; [vm_compute; discriminate|]).
  by apply elem_of_nil in Hoc.
Qed.

(** C2, amended: after annotation of any successfully parsed regex the
    position table has exactly the keys [1..n], for [n] the number of
    leaves of the tree including the end marker, a shared leaf counted
    once per reference; every leaf object holds exactly one identifier,
    in [1..n], which the table maps to the symbol of the leaf; no two
    leaf objects hold the same identifier; and for a regex without [+]
    the identifiers are unique and dense over [1..n]. *)
Theorem C2_position_ids regex root m :
  parse_regex regex = Return root →
  let m' := annotate root (reset m) in
  let n := leaf_count root in
  (∀ p, is_Some (positions m' !! p) ↔ 1 ≤ p ≤ n)
  ∧ (∀ oc, oc ∈ leaves root →
       ∃ p, leaf_position m' oc = Some p ∧ 1 ≤ p ≤ n
            ∧ positions m' !! p = Some oc.2)
  ∧ (∀ oc1 oc2, oc1 ∈ leaves root → oc2 ∈ leaves root →
       leaf_position m' oc1 = leaf_position m' oc2 → oc1.1 = oc2.1)
  ∧ ("+" ∉ chars regex → ids_unique_dense root m' n).
Proof.
  intros Hparse m' n.
  destruct (parse_regex_well_formed regex root Hparse) as (Hwf & Hnd & _).
  assert (Hkeys : ∀ p, is_Some (positions m' !! p) ↔ 1 ≤ p ≤ n)
    by (intros p; apply annotate_reset_keys).
  assert (Hleaf : ∀ oc, oc ∈ leaves root →
       ∃ p, leaf_position m' oc = Some p ∧ 1 ≤ p ≤ n
            ∧ positions m' !! p = Some oc.2).
  { intros [o c] Hoc.
    destruct (annotate_leaf_position root (reset m) o c Hwf Hoc)
      as (p & Hp & Hrange & Htab).
    exists p. split; [exact Hp|]. split; [|exact Htab].
    change (position_counter (reset m)) with 1 in Hrange. unfold n. lia. }
  assert (Hinj : ∀ oc1 oc2, oc1 ∈ leaves root → oc2 ∈ leaves root →
       leaf_position m' oc1 = leaf_position m' oc2 → oc1.1 = oc2.1).
  { intros [o1 c1] [o2 c2] H1 H2 Heq.
    exact (annotate_leaf_injective root (reset m) o1 c1 o2 c2 Hwf H1 H2 Heq). }
  split; [exact Hkeys|]. split; [exact Hleaf|]. split; [exact Hinj|].
  intros Hplus. split; [exact Hkeys|]. split; [|split; [exact Hinj|]].
  - intros oc Hoc. destruct (Hleaf oc Hoc) as (p & -> & _). by eexists.
  - intros p Hp.
    destruct (lookup_lt_is_Some_2 (leaves root) (p - 1)) as [[o c] Hoc].
    { change (length (leaves root)) with n. lia. }
    exists (o, c). split; [by eapply list_elem_of_lookup_2|].
    unfold leaf_position, m'. cbn [fst snd].
    rewrite (annotate_leaf_dense root (reset m) (p - 1) o c (Hnd Hplus) Hoc).
    f_equal. change (position_counter (reset m)) with 1. lia.
Qed.

(** C2 at the regex [a|b]. *)
Lemma C2_position_ids_witness :
  parse_regex "a|b"
  = Return (Concat 4 (Union 2 (Symbol 0 "a") (Symbol 1 "b")) (Symbol 3 "#"))
  ∧ ids_unique_dense
      (Concat 4 (Union 2 (Symbol 0 "a") (Symbol 1 "b")) (Symbol 3 "#"))
      (annotate (Concat 4 (Union 2 (Symbol 0 "a") (Symbol 1 "b")) (Symbol 3 "#"))
                (reset fresh_memory))
      3.
Proof.
  assert (Hparse : parse_regex "a|b"
    = Return (Concat 4 (Union 2 (Symbol 0 "a") (Symbol 1 "b")) (Symbol 3 "#")))
    by (vm_compute; reflexivity).
  split; [exact Hparse|].
  destruct (C2_position_ids "a|b" _ fresh_memory Hparse) as (_ & _ & _ & H).
  apply H. vm_compute.
  intros Hin. repeat (apply elem_of_cons in Hin as [Hin|Hin]; [discriminate|]).
  by apply elem_of_nil in Hin.
Defined.

(** C3, as stated: the regex [#] is converted, its language is the one
    word [#], and yet state 0 is accepting: its position-set is
    firstpos of the root, which holds the position of the [#] the user
    wrote. *)
Lemma C3_hash_start_accepting :
  ∃ c, convert_locals elements fresh_memory "#" = Return c
    ∧ state_pos (conv_dfa c) !! 0
      = Some (firstpos (attr (conv_memory c) (conv_root c)))
    ∧ 0 ∈ accepting_states (conv_dfa c)
    ∧ ¬ matches (parsed_expression (conv_root c)) [].
Proof.
  set (root := Concat 2 (Symbol 0 "#") (Symbol 1 "#")).
  assert (Hparse : parse_regex "#" = Return root) by (vm_compute; reflexivity).
  destruct (convert_locals_spec elements (λ X, reflexivity _)
              fresh_memory "#" root Hparse) as (c & Hc & Hroot & Hcv).
  exists c. split; [exact Hc|].
  pose proof (cv_start _ _ _ _ Hcv) as Hstart.
  split; [exact Hstart|]. split.
  - apply (inv_acc _ _ _ (cv_inv _ _ _ _ Hcv) 0 _ Hstart).
    rewrite (cv_memory _ _ _ _ Hcv), Hroot.
    exists 1. split; vm_compute; reflexivity.
  - rewrite Hroot, matches_nil_nullable. discriminate.
Qed.

(** C3 at the regex [a*]. *)
Lemma C3_start_state_witness :
  parse_regex "a*" = Return (Concat 3 (Star 1 (Symbol 0 "a")) (Symbol 2 "#"))
  ∧ ∃ c, convert_locals elements fresh_memory "a*" = Return c
      ∧ conv_root c = Concat 3 (Star 1 (Symbol 0 "a")) (Symbol 2 "#")
      ∧ conv_memory c
        = annotate (Concat 3 (Star 1 (Symbol 0 "a")) (Symbol 2 "#"))
                   (reset fresh_memory)
      ∧ state_pos (conv_dfa c) !! 0
        = Some (firstpos (attr (conv_memory c)
                  (Concat 3 (Star 1 (Symbol 0 "a")) (Symbol 2 "#"))))
      ∧ (0 ∈ accepting_states (conv_dfa c)
         ↔ carries (positions (conv_memory c))
                   (firstpos (attr (conv_memory c)
                      (Concat 3 (Star 1 (Symbol 0 "a")) (Symbol 2 "#")))) "#")
      ∧ ("#" ∉ chars "a*" →
         (0 ∈ accepting_states (conv_dfa c)
          ↔ matches (parsed_expression
                       (Concat 3 (Star 1 (Symbol 0 "a")) (Symbol 2 "#"))) [])).
Proof.
  assert (Hparse : parse_regex "a*"
    = Return (Concat 3 (Star 1 (Symbol 0 "a")) (Symbol 2 "#")))
    by (vm_compute; reflexivity).
  split; [exact Hparse|].
  exact (C3_start_state elements (λ X, reflexivity _) fresh_memory "a*" _ Hparse).
Defined.

(** C4 with the sets visited in the order of [elements]. *)
Lemma C4_textbook_automaton_witness :
  ∃ states accepting,
    convert elements fresh_memory "(a|b)*abb" = Return (states, accepting)
    ∧ length states = 4
    ∧ 0 ∉ accepting
    ∧ size accepting = 1
    ∧ ∃ i, accepting = {[i]} ∧ i < 4.
Proof.
  exact (C4_textbook_automaton elements (λ X, reflexivity _) fresh_memory).
Defined.

(** C5 at the regex [ab]. *)
Lemma C5_worklist_terminates_witness :
  parse_regex "ab"
  = Return (Concat 4 (Concat 2 (Symbol 0 "a") (Symbol 1 "b")) (Symbol 3 "#"))
  ∧ ∃ c, convert_locals elements fresh_memory "ab" = Return c
      ∧ conv_root c
        = Concat 4 (Concat 2 (Symbol 0 "a") (Symbol 1 "b")) (Symbol 3 "#")
      ∧ queue_popped (conv_dfa c) = length (queue_appended (conv_dfa c))
      ∧ NoDup (enqueued_sets (conv_dfa c))
      ∧ length (enqueued_sets (conv_dfa c)) = length (states (conv_dfa c))
      ∧ length (states (conv_dfa c))
        ≤ 2 ^ leaf_count
                (Concat 4 (Concat 2 (Symbol 0 "a") (Symbol 1 "b")) (Symbol 3 "#")).
Proof.
  assert (Hparse : parse_regex "ab"
    = Return (Concat 4 (Concat 2 (Symbol 0 "a") (Symbol 1 "b")) (Symbol 3 "#")))
    by (vm_compute; reflexivity).
  split; [exact Hparse|].
  exact (C5_worklist_terminates elements (λ X, reflexivity _)
           fresh_memory "ab" _ Hparse).
Defined.

(** C6 with the sets visited in the order of [elements]. *)
Lemma C6_star_self_loop_witness :
  ∃ states accepting,
    convert elements fresh_memory "a*" = Return (states, accepting)
    ∧ 0 ∈ accepting
    ∧ ∃ transitions, states !! 0 = Some transitions
                     ∧ dict_get "a" transitions = Some 0.
Proof.
  exact (C6_star_self_loop elements (λ X, reflexivity _) fresh_memory).
Defined.

(** C7 at the regex [ab]. *)
Lemma C7_end_marker_not_a_key_witness :
  parse_regex "ab"
  = Return (Concat 4 (Concat 2 (Symbol 0 "a") (Symbol 1 "b")) (Symbol 3 "#"))
  ∧ compute_followpos elements
      (annotate (Concat 4 (Concat 2 (Symbol 0 "a") (Symbol 1 "b")) (Symbol 3 "#"))
                (reset fresh_memory))
      (Concat 4 (Concat 2 (Symbol 0 "a") (Symbol 1 "b")) (Symbol 3 "#")) ∅
    !! 3 = None.
Proof.
  assert (Hparse : parse_regex "ab"
    = Return (Concat 4 (Concat 2 (Symbol 0 "a") (Symbol 1 "b")) (Symbol 3 "#")))
    by (vm_compute; reflexivity).
  split; [exact Hparse|].
  destruct (C7_end_marker_not_a_key elements (λ X, reflexivity _)
              fresh_memory "ab" _ Hparse) as (e & h & _ & _ & _ & Hkey).
  exact Hkey.
Defined.

(** C10 with the sets visited in the order of [elements]. *)
Lemma C10_acceptance_by_symbol_witness :
  ∃ c, convert_locals elements fresh_memory "#" = Return c
    ∧ conv_root c = Concat 2 (Symbol 0 "#") (Symbol 1 "#")
    ∧ leaf_position (conv_memory c) (0, "#") = Some 1
    ∧ leaf_position (conv_memory c) (1, "#") = Some 2
    ∧ state_pos (conv_dfa c) !! 0 = Some {[1]}
    ∧ 0 ∈ accepting_states (conv_dfa c)
    ∧ states (conv_dfa c) !! 0 = Some [].
Proof.
  exact (proj2 (C10_acceptance_by_symbol elements (λ X, reflexivity _)
                  fresh_memory)).
Defined.
(** * The equations of the construction, with a shared operand *)

Section consistency.

(** How [annotate] establishes a property of the attributes at every
    node: the property may only depend on the attributes below the node,
    it holds at a leaf that has just been visited, and at an inner node
    that has just been visited once it holds below it. A subtree that
    is referenced twice is covered by its last visit. *)
Lemma annotate_scheme (Q : memory → RegexNode → Prop) :
  (∀ m1 m2 u, (∀ v, v ∈ subterms u → attr m1 v = attr m2 v) →
              Q m1 u → Q m2 u) →
  (∀ o c m, Q (annotate (Symbol o c) m) (Symbol o c)) →
  (∀ node m, well_formed node →
     match node with Symbol _ _ => False | _ => True end →
     (∀ v, v ∈ tail (subterms node) → Q (annotate node m) v) →
     Q (annotate node m) node) →
  ∀ node m u, well_formed node → plus_sharing node → u ∈ subterms node →
              Q (annotate node m) u.
Proof.
  intros Hlocal Hleaf Hstep.
  assert (Hbin : ∀ l r m u,
    (∀ v w, v ∈ subterms l → w ∈ subterms r → obj_of v ≠ obj_of w)
    ∨ (∃ o, r = Star o l) →
    (∀ u, u ∈ subterms l → Q (annotate l m) u) →
    (∀ m u, u ∈ subterms r → Q (annotate r m) u) →
    u ∈ subterms l ++ subterms r →
    Q (annotate r (annotate l m)) u).
  { intros l r m u Hshare IHl IHr [Hu|Hu]%elem_of_app; [|by apply IHr].
    destruct Hshare as [Hdisj|[o ->]].
    - apply (Hlocal (annotate l m)); [|by apply IHl].
      intros v Hv. symmetry. apply annotate_frame.
      intros (w & Hw & Heq)%elem_of_objs.
      apply (Hdisj v w); [by eapply subterms_trans|done|done].
    - apply IHr. simpl. by right. }
  induction node as [o c|o l IHl r IHr|o l IHl r IHr|o l IHl];
    intros m u Hwf Hsh Hu.
  - apply list_elem_of_singleton in Hu as ->. apply Hleaf.
  - destruct (well_formed_binary Concat o l r) as (Hwl & Hwr & Hcross & Hproper);
      [by left|done|].
    pose proof (Hsh _ (subterms_self _)) as Hshare. simpl in Hshare.
    assert (Hshl : plus_sharing l).
    { apply (plus_sharing_sub _ _ Hsh). simpl. right. apply elem_of_app.
      left. apply subterms_self. }
    assert (Hshr : plus_sharing r).
    { apply (plus_sharing_sub _ _ Hsh). simpl. right. apply elem_of_app.
      right. apply subterms_self. }
    destruct (annotate_Concat o l r m) as [Hne _].
    assert (Hc3 : ∀ v, v ∈ subterms l ++ subterms r →
                       Q (annotate (Concat o l r) m) v).
    { intros v Hv. apply (Hlocal (annotate r (annotate l m))).
      - intros w Hw. symmetry. apply Hne, Hproper.
        apply elem_of_app in Hv as [Hv|Hv]; apply elem_of_app;
          [left|right]; by eapply subterms_trans.
      - apply Hbin; auto. }
    simpl in Hu. apply elem_of_cons in Hu as [->|Hu]; [|by apply Hc3].
    apply Hstep; [done|done|exact Hc3].
  - destruct (well_formed_binary Union o l r) as (Hwl & Hwr & Hcross & Hproper);
      [by right|done|].
    pose proof (Hsh _ (subterms_self _)) as Hshare. simpl in Hshare.
    assert (Hshl : plus_sharing l).
    { apply (plus_sharing_sub _ _ Hsh). simpl. right. apply elem_of_app.
      left. apply subterms_self. }
    assert (Hshr : plus_sharing r).
    { apply (plus_sharing_sub _ _ Hsh). simpl. right. apply elem_of_app.
      right. apply subterms_self. }
    destruct (annotate_Union o l r m) as [Hne _].
    assert (Hc3 : ∀ v, v ∈ subterms l ++ subterms r →
                       Q (annotate (Union o l r) m) v).
    { intros v Hv. apply (Hlocal (annotate r (annotate l m))).
      - intros w Hw. symmetry. apply Hne, Hproper.
        apply elem_of_app in Hv as [Hv|Hv]; apply elem_of_app;
          [left|right]; by eapply subterms_trans.
      - apply Hbin; auto. }
    simpl in Hu. apply elem_of_cons in Hu as [->|Hu]; [|by apply Hc3].
    apply Hstep; [done|done|exact Hc3].
  - destruct (well_formed_Star o l Hwf) as (Hwl & Hproper).
    assert (Hshl : plus_sharing l).
    { apply (plus_sharing_sub _ _ Hsh). simpl. right. apply subterms_self. }
    destruct (annotate_Star o l m) as [Hne _].
    assert (Hc2 : ∀ v, v ∈ subterms l → Q (annotate (Star o l) m) v).
    { intros v Hv. apply (Hlocal (annotate l m)); [|by apply IHl].
      intros w Hw. symmetry. apply Hne, Hproper. by eapply subterms_trans. }
    simpl in Hu. apply elem_of_cons in Hu as [->|Hu]; [|by apply Hc2].
    apply Hstep; [done|done|exact Hc2].
Qed.

Lemma consistent_ext m1 m2 u :
  (∀ v, v ∈ subterms u → attr m1 v = attr m2 v) →
  consistent m1 u → consistent m2 u.
Proof.
  intros Hext.
  pose proof (Hext u (subterms_self u)) as Hu.
  destruct u as [o c|o l r|o l r|o l]; unfold consistent.
  - by rewrite Hu.
  - rewrite Hu, (Hext l), (Hext r); [done| |];
      simpl; right; apply elem_of_app; [right|left]; apply subterms_self.
  - rewrite Hu, (Hext l), (Hext r); [done| |];
      simpl; right; apply elem_of_app; [right|left]; apply subterms_self.
  - rewrite Hu, (Hext l); [done|]. simpl; right; apply subterms_self.
Qed.

(** After [annotate], the attributes of every node of the tree satisfy
    the equations of the construction in the final memory, also where
    an operand is shared. *)
Lemma annotate_consistent node m u :
  well_formed node → plus_sharing node → u ∈ subterms node →
  consistent (annotate node m) u.
Proof.
  revert node m u. apply annotate_scheme.
  - apply consistent_ext.
  - intros o c m. destruct (annotate_Symbol o c m) as [_ Heq].
    exists (position_counter m). by rewrite (Heq (Symbol o c) eq_refl).
  - intros node m Hwf Hinner Hbelow.
    destruct node as [o c|o l r|o l r|o l]; [done| | |].
    + destruct (well_formed_binary Concat o l r) as (_ & _ & _ & Hproper);
        [by left|done|].
      assert (Hl : o ≠ obj_of l)
        by (apply Hproper, elem_of_app; left; apply subterms_self).
      assert (Hr : o ≠ obj_of r)
        by (apply Hproper, elem_of_app; right; apply subterms_self).
      destruct (annotate_Concat o l r m) as [Hne Heq].
      destruct (Heq (Concat o l r) eq_refl)
        as (Hn & (b & Hf & Hb) & (b' & Hl' & Hb') & _).
      unfold consistent. rewrite (Hne l Hl), (Hne r Hr), Hn, Hf, Hl'.
      rewrite (Hb Hl), (Hb' Hr).
      split; [done|]. split.
      * destruct (nullable (attr (annotate r (annotate l m)) l)); done.
      * destruct (nullable (attr (annotate r (annotate l m)) r)); done.
    + destruct (well_formed_binary Union o l r) as (_ & _ & _ & Hproper);
        [by right|done|].
      assert (Hl : o ≠ obj_of l)
        by (apply Hproper, elem_of_app; left; apply subterms_self).
      assert (Hr : o ≠ obj_of r)
        by (apply Hproper, elem_of_app; right; apply subterms_self).
      destruct (annotate_Union o l r m) as [Hne Heq].
      destruct (Heq (Union o l r) eq_refl) as (Hn & Hf & Hl' & _).
      unfold consistent. by rewrite (Hne l Hl), (Hne r Hr), Hn, Hf, Hl'.
    + destruct (well_formed_Star o l Hwf) as (_ & Hproper).
      assert (Hl : o ≠ obj_of l) by apply Hproper, subterms_self.
      destruct (annotate_Star o l m) as [Hne Heq].
      destruct (Heq (Star o l) eq_refl) as (Hn & Hf & Hl' & _).
      unfold consistent. by rewrite (Hne l Hl), Hn, Hf, Hl'.
Qed.

End consistency.

(** ** The pairs of a node *)

Section pairs.
Variable m : memory.

Lemma follows_Symbol o c p q : ¬ follows m (Symbol o c) p q.
Proof. by intros (u & ->%list_elem_of_singleton & H). Qed.

Lemma follows_Concat o l r p q :
  follows m (Concat o l r) p q ↔
  (p ∈ lastpos (attr m l) ∧ q ∈ firstpos (attr m r))
  ∨ follows m l p q ∨ follows m r p q.
Proof.
  unfold follows. simpl. split.
  - intros (u & [->|[Hu|Hu]%elem_of_app]%elem_of_cons & H).
    + by left.
    + right; left. by exists u.
    + right; right. by exists u.
  - intros [H|[(u & Hu & H)|(u & Hu & H)]].
    + exists (Concat o l r). split; [left|done].
    + exists u. split; [right; apply elem_of_app; by left|done].
    + exists u. split; [right; apply elem_of_app; by right|done].
Qed.

Lemma follows_Union o l r p q :
  follows m (Union o l r) p q ↔ follows m l p q ∨ follows m r p q.
Proof.
  unfold follows. simpl. split.
  - intros (u & [->|[Hu|Hu]%elem_of_app]%elem_of_cons & H).
    + done.
    + left. by exists u.
    + right. by exists u.
  - intros [(u & Hu & H)|(u & Hu & H)].
    + exists u. split; [right; apply elem_of_app; by left|done].
    + exists u. split; [right; apply elem_of_app; by right|done].
Qed.

Lemma follows_Star o l p q :
  follows m (Star o l) p q ↔
  (p ∈ lastpos (attr m (Star o l)) ∧ q ∈ firstpos (attr m (Star o l)))
  ∨ follows m l p q.
Proof.
  unfold follows. simpl. split.
  - intros (u & [->|Hu]%elem_of_cons & H).
    + by left.
    + right. by exists u.
  - intros [H|(u & Hu & H)].
    + exists (Star o l). split; [left|done].
    + exists u. split; [by right|done].
Qed.

End pairs.

(** ** The attributes in the memory a conversion ends with *)

Section final_memory.
Variable m : memory.
Variable root : RegexNode.
Hypothesis fm_consistent : ∀ u, u ∈ subterms root → consistent m u.
Hypothesis fm_well_formed : well_formed root.
Hypothesis fm_sharing : plus_sharing root.
Hypothesis fm_injective : ∀ oc1 oc2,
  oc1 ∈ leaves root → oc2 ∈ leaves root →
  leaf_position m oc1 = leaf_position m oc2 → oc1.1 = oc2.1.
Hypothesis fm_labelled : ∀ oc,
  oc ∈ leaves root →
  ∃ p, leaf_position m oc = Some p ∧ positions m !! p = Some oc.2.
Local Set Default Proof Using "All".

Lemma sub_l (mk : nat → RegexNode → RegexNode → RegexNode) o l r :
  mk = Concat ∨ mk = Union → mk o l r ∈ subterms root → l ∈ subterms root.
Proof.
  intros Hmk Hu. apply (subterms_trans _ (mk o l r)); [|done].
  destruct Hmk as [-> | ->]; simpl; right; apply elem_of_app; left;
    apply subterms_self.
Qed.

Lemma sub_r (mk : nat → RegexNode → RegexNode → RegexNode) o l r :
  mk = Concat ∨ mk = Union → mk o l r ∈ subterms root → r ∈ subterms root.
Proof.
  intros Hmk Hu. apply (subterms_trans _ (mk o l r)); [|done].
  destruct Hmk as [-> | ->]; simpl; right; apply elem_of_app; right;
    apply subterms_self.
Qed.

Lemma sub_star o l : Star o l ∈ subterms root → l ∈ subterms root.
Proof.
  intros Hu. apply (subterms_trans _ (Star o l)); [|done].
  simpl. right. apply subterms_self.
Qed.

(** Both sets of a node are made of positions its leaves hold, and
    neither is empty. *)
Lemma final_tight u :
  u ∈ subterms root →
  tight m u ∧ firstpos (attr m u) ≠ ∅ ∧ lastpos (attr m u) ≠ ∅.
Proof.
  induction u as [o c|o l IHl r IHr|o l IHl r IHr|o l IHl]; intros Hu;
    pose proof (fm_consistent _ Hu) as Hc; unfold consistent in Hc.
  - destruct Hc as (p & Hp & _ & Hf & Hl).
    assert (Hheld : held m (Symbol o c) = {[p]}).
    { unfold held, leaf_position. simpl leaves. cbn [omap list_omap fst snd].
      rewrite Hp. simpl. set_solver. }
    unfold tight. rewrite Hheld, Hf, Hl.
    split; [done|]. split; apply non_empty_singleton_L.
  - destruct Hc as (_ & Hf & Hl).
    destruct (IHl (sub_l Concat o l r (or_introl eq_refl) Hu))
      as ([Hlf Hll] & Hlf0 & Hll0).
    destruct (IHr (sub_r Concat o l r (or_introl eq_refl) Hu))
      as ([Hrf Hrl] & Hrf0 & Hrl0).
    unfold tight. rewrite Hf, Hl, (proj1 (held_binary m o l r)).
    clear IHl IHr Hf Hl Hu.
    destruct (nullable (attr m l)), (nullable (attr m r)); set_solver.
  - destruct Hc as (_ & Hf & Hl).
    destruct (IHl (sub_l Union o l r (or_intror eq_refl) Hu))
      as ([Hlf Hll] & Hlf0 & Hll0).
    destruct (IHr (sub_r Union o l r (or_intror eq_refl) Hu))
      as ([Hrf Hrl] & Hrf0 & Hrl0).
    unfold tight. rewrite Hf, Hl, (proj2 (held_binary m o l r)).
    clear IHl IHr Hf Hl Hu. set_solver.
  - destruct Hc as (_ & Hf & Hl).
    destruct (IHl (sub_star o l Hu)) as ([Hlf Hll] & Hlf0 & Hll0).
    unfold tight. rewrite Hf, Hl. done.
Qed.

Lemma final_first u p :
  u ∈ subterms root → p ∈ firstpos (attr m u) → p ∈ held m u.
Proof. intros Hu Hp. by apply (proj1 (proj1 (final_tight u Hu))). Qed.

Lemma final_last u p :
  u ∈ subterms root → p ∈ lastpos (attr m u) → p ∈ held m u.
Proof. intros Hu Hp. by apply (proj2 (proj1 (final_tight u Hu))). Qed.

(** The nullable flag is the nullability of the tree. *)
Lemma final_nullable u :
  u ∈ subterms root → nullable (attr m u) = nullable_of u.
Proof.
  induction u as [o c|o l IHl r IHr|o l IHl r IHr|o l IHl]; intros Hu;
    pose proof (fm_consistent _ Hu) as Hc; unfold consistent in Hc; simpl.
  - by destruct Hc as (p & _ & Hn & _).
  - destruct Hc as (-> & _).
    by rewrite (IHl (sub_l Concat o l r (or_introl eq_refl) Hu)),
               (IHr (sub_r Concat o l r (or_introl eq_refl) Hu)).
  - destruct Hc as (-> & _).
    by rewrite (IHl (sub_l Union o l r (or_intror eq_refl) Hu)),
               (IHr (sub_r Union o l r (or_intror eq_refl) Hu)).
  - by destruct Hc as (-> & _).
Qed.

(** The pairs of a node join positions its leaves hold. *)
Lemma follows_held u p q :
  u ∈ subterms root → follows m u p q → p ∈ held m u ∧ q ∈ held m u.
Proof.
  intros Hu (v & Hv & Hpq).
  assert (Hvr : v ∈ subterms root) by (by eapply subterms_trans).
  pose proof (held_mono m v u Hv) as Hsub.
  destruct v as [o c|o l r|o l r|o l]; simpl in Hpq; try done.
  - destruct Hpq as [Hp Hq].
    apply (final_last l _ (sub_l Concat o l r (or_introl eq_refl) Hvr)) in Hp.
    apply (final_first r _ (sub_r Concat o l r (or_introl eq_refl) Hvr)) in Hq.
    rewrite (proj1 (held_binary m o l r)) in Hsub.
    clear Hv Hvr Hu. set_solver.
  - destruct Hpq as [Hp Hq].
    apply (final_last _ _ Hvr) in Hp. apply (final_first _ _ Hvr) in Hq.
    auto.
Qed.

Lemma follows_sub u v p q :
  u ∈ subterms v → follows m u p q → follows m v p q.
Proof.
  intros Hu (w & Hw & Hpq). exists w. split; [|done].
  by eapply subterms_trans.
Qed.

(** Operands without a common object hold no common position. *)
Lemma held_disjoint l r :
  l ∈ subterms root → r ∈ subterms root →
  (∀ v w, v ∈ subterms l → w ∈ subterms r → obj_of v ≠ obj_of w) →
  held m l ## held m r.
Proof.
  intros Hl Hr Hdisj p [[o1 c1] [H1 Hp1]]%elem_of_held
                       [[o2 c2] [H2 Hp2]]%elem_of_held.
  assert (o1 = o2).
  { apply (fm_injective (o1, c1) (o2, c2)).
    - apply leaves_subterms. apply leaves_subterms in H1.
      by eapply subterms_trans.
    - apply leaves_subterms. apply leaves_subterms in H2.
      by eapply subterms_trans.
    - by rewrite Hp1, Hp2. }
  subst o2. apply leaves_subterms in H1, H2.
  by apply (Hdisj _ _ H1 H2).
Qed.

(** *** Every word of positions is a path *)

Lemma linked_sub u v p ps :
  u ∈ subterms v → lastpos (attr m u) ⊆ lastpos (attr m v) →
  linked m u p ps → linked m v p ps.
Proof.
  intros Hu Hlast. revert p. induction ps as [|q ps IH]; intros p; simpl.
  - apply Hlast.
  - intros [Hpq Hl]. split; [by eapply follows_sub|by apply IH].
Qed.

Lemma linked_join u v w p ps1 ps2 :
  u ∈ subterms v →
  (∀ p q, p ∈ lastpos (attr m u) → q ∈ firstpos (attr m w) →
          follows m v p q) →
  (ps2 = [] → lastpos (attr m u) ⊆ lastpos (attr m v)) →
  linked m u p ps1 →
  match ps2 with
  | [] => True
  | q :: ps2' => q ∈ firstpos (attr m w) ∧ linked m v q ps2'
  end →
  linked m v p (ps1 ++ ps2).
Proof.
  intros Hu Hcross Hlast. revert p.
  induction ps1 as [|q ps1 IH]; intros p; simpl.
  - intros Hp H2. destruct ps2 as [|q ps2]; simpl.
    + by apply Hlast.
    + destruct H2 as [Hq H2]. split; [by apply Hcross|done].
  - intros [Hpq Hl] H2. split; [by eapply follows_sub|by apply IH].
Qed.

Lemma pmatches_path u ps :
  u ∈ subterms root → pmatches m u ps → path m u ps.
Proof.
  intros Hu H. revert Hu.
  induction H as [o c p Hp|o l r w1 w2 _ IH1 _ IH2|o l r w _ IH|o l r w _ IH
                 |o l|o l w1 w2 _ IH1 _ IH2]; intros Hu;
    pose proof (fm_consistent _ Hu) as Hc; unfold consistent in Hc.
  - destruct Hc as (p0 & Hp0 & _ & Hf & Hl).
    unfold leaf_position in Hp. simpl in Hp. rewrite Hp0 in Hp.
    injection Hp as ->. simpl. rewrite Hf, Hl. by split; apply elem_of_singleton.
  - destruct Hc as (Hn & Hf & Hl).
    pose proof (sub_l Concat o l r (or_introl eq_refl) Hu) as Hlr.
    pose proof (sub_r Concat o l r (or_introl eq_refl) Hu) as Hrr.
    specialize (IH1 Hlr). specialize (IH2 Hrr).
    assert (Hsl : l ∈ subterms (Concat o l r))
      by (simpl; right; apply elem_of_app; left; apply subterms_self).
    assert (Hsr : r ∈ subterms (Concat o l r))
      by (simpl; right; apply elem_of_app; right; apply subterms_self).
    assert (Hlastr : lastpos (attr m r) ⊆ lastpos (attr m (Concat o l r))).
    { rewrite Hl. destruct (nullable (attr m r)); set_solver. }
    destruct w1 as [|p w1]; simpl app.
    + simpl in IH1. destruct w2 as [|q w2]; simpl.
      * simpl in IH2. by rewrite Hn, IH1, IH2.
      * destruct IH2 as [Hq H2]. split.
        -- rewrite Hf, IH1. set_solver.
        -- by apply (linked_sub r).
    + destruct IH1 as [Hp H1]. split.
      * rewrite Hf. destruct (nullable (attr m l)); set_solver.
      * apply (linked_join l _ r); [done| | |done|].
        -- intros p' q' Hp' Hq'. apply follows_Concat. by left.
        -- intros ->. simpl in IH2. rewrite Hl, IH2. set_solver.
        -- destruct w2 as [|q w2]; [done|]. destruct IH2 as [Hq H2].
           split; [done|]. by apply (linked_sub r).
  - destruct Hc as (Hn & Hf & Hl).
    pose proof (sub_l Union o l r (or_intror eq_refl) Hu) as Hlr.
    specialize (IH Hlr).
    destruct w as [|p w]; simpl.
    + simpl in IH. by rewrite Hn, IH.
    + destruct IH as [Hp H1]. split; [rewrite Hf; set_solver|].
      apply (linked_sub l); [|rewrite Hl; set_solver|done].
      simpl; right; apply elem_of_app; left; apply subterms_self.
  - destruct Hc as (Hn & Hf & Hl).
    pose proof (sub_r Union o l r (or_intror eq_refl) Hu) as Hrr.
    specialize (IH Hrr).
    destruct w as [|p w]; simpl.
    + simpl in IH. rewrite Hn, IH. apply orb_true_r.
    + destruct IH as [Hp H1]. split; [rewrite Hf; set_solver|].
      apply (linked_sub r); [|rewrite Hl; set_solver|done].
      simpl; right; apply elem_of_app; right; apply subterms_self.
  - by destruct Hc as (Hn & _).
  - destruct Hc as (Hn & Hf & Hl).
    specialize (IH1 (sub_star o l Hu)). specialize (IH2 Hu).
    destruct w1 as [|p w1]; simpl app; [done|].
    destruct IH1 as [Hp H1]. split; [by rewrite Hf|].
    apply (linked_join l _ (Star o l)); [| | |done|].
    + simpl; right; apply subterms_self.
    + intros p' q' Hp' Hq'. apply follows_Star. left. by rewrite Hl.
    + intros _. by rewrite Hl.
    + destruct w2 as [|q w2]; [done|]. exact IH2.
Qed.

(** *** Every path is a word of positions *)

Lemma concat_right o l r p ps :
  Concat o l r ∈ subterms root → held m l ## held m r →
  p ∈ held m r → linked m (Concat o l r) p ps → linked m r p ps.
Proof.
  intros Hu Hdisj.
  pose proof (sub_l Concat o l r (or_introl eq_refl) Hu) as Hlr.
  pose proof (sub_r Concat o l r (or_introl eq_refl) Hu) as Hrr.
  destruct (fm_consistent _ Hu) as (_ & _ & Hl).
  revert p. induction ps as [|q ps IH]; intros p Hp; simpl.
  - intros Hlast. rewrite Hl in Hlast.
    destruct (nullable (attr m r)); [|done].
    apply elem_of_union in Hlast as [Hlast|Hlast]; [|done].
    apply (final_last l _ Hlr) in Hlast. set_solver.
  - intros [Hpq Hlink]. apply follows_Concat in Hpq as [[Hp1 _]|[Hpq|Hpq]].
    + apply (final_last l _ Hlr) in Hp1. set_solver.
    + apply (follows_held l _ _ Hlr) in Hpq as [Hp1 _]. set_solver.
    + split; [done|]. apply IH; [|done].
      by apply (follows_held r _ _ Hrr) in Hpq as [_ Hq].
Qed.

Lemma concat_left o l r p ps :
  Concat o l r ∈ subterms root → held m l ## held m r →
  p ∈ held m l → linked m (Concat o l r) p ps →
  ∃ ps1 ps2, ps = ps1 ++ ps2 ∧ linked m l p ps1 ∧ path m r ps2.
Proof.
  intros Hu Hdisj.
  pose proof (sub_l Concat o l r (or_introl eq_refl) Hu) as Hlr.
  pose proof (sub_r Concat o l r (or_introl eq_refl) Hu) as Hrr.
  destruct (fm_consistent _ Hu) as (_ & _ & Hl).
  revert p. induction ps as [|q ps IH]; intros p Hp; simpl.
  - intros Hlast. rewrite Hl in Hlast. exists [], [].
    destruct (nullable (attr m r)) eqn:Hnr.
    + apply elem_of_union in Hlast as [Hlast|Hlast]; [done|].
      apply (final_last r _ Hrr) in Hlast. set_solver.
    + apply (final_last r _ Hrr) in Hlast. set_solver.
  - intros [Hpq Hlink]. apply follows_Concat in Hpq as [[Hp1 Hq]|[Hpq|Hpq]].
    + exists [], (q :: ps). split; [done|]. split; [done|]. split; [done|].
      apply (concat_right o l r); [done|done| |done].
      by apply (final_first r _ Hrr).
    + destruct (IH q) as (ps1 & ps2 & -> & H1 & H2); [|done|].
      { by apply (follows_held l _ _ Hlr) in Hpq as [_ Hq]. }
      exists (q :: ps1), ps2. done.
    + apply (follows_held r _ _ Hrr) in Hpq as [Hp1 _]. set_solver.
Qed.

Lemma union_side o l r p ps :
  Union o l r ∈ subterms root → held m l ## held m r →
  linked m (Union o l r) p ps →
  (p ∈ held m l → linked m l p ps) ∧ (p ∈ held m r → linked m r p ps).
Proof.
  intros Hu Hdisj.
  pose proof (sub_l Union o l r (or_intror eq_refl) Hu) as Hlr.
  pose proof (sub_r Union o l r (or_intror eq_refl) Hu) as Hrr.
  destruct (fm_consistent _ Hu) as (_ & _ & Hl).
  revert p. induction ps as [|q ps IH]; intros p; simpl.
  - intros Hlast. rewrite Hl in Hlast.
    apply elem_of_union in Hlast as [Hlast|Hlast].
    + split; [done|]. apply (final_last l _ Hlr) in Hlast. set_solver.
    + split; [|done]. apply (final_last r _ Hrr) in Hlast. set_solver.
  - intros [Hpq Hlink]. destruct (IH q Hlink) as [IHl IHr].
    apply follows_Union in Hpq as [Hpq|Hpq].
    + destruct (follows_held l _ _ Hlr Hpq) as [Hp Hq].
      split; [auto|]. intros Hp'.
      exfalso. exact (proj1 (elem_of_disjoint _ _) Hdisj p Hp Hp').
    + destruct (follows_held r _ _ Hrr Hpq) as [Hp Hq].
      split; [|auto]. intros Hp'.
      exfalso. exact (proj1 (elem_of_disjoint _ _) Hdisj p Hp' Hp).
Qed.

Lemma star_split o l p ps :
  Star o l ∈ subterms root → linked m (Star o l) p ps →
  ∃ ps1 ps2, ps = ps1 ++ ps2 ∧ linked m l p ps1
    ∧ (ps2 = [] ∨ ∃ q ps2', ps2 = q :: ps2'
         ∧ q ∈ firstpos (attr m (Star o l)) ∧ linked m (Star o l) q ps2').
Proof.
  intros Hu. destruct (fm_consistent _ Hu) as (_ & _ & Hl).
  revert p. induction ps as [|q ps IH]; intros p; simpl.
  - intros Hlast. exists [], []. rewrite Hl in Hlast. auto.
  - intros [Hpq Hlink]. apply follows_Star in Hpq as [[Hp Hq]|Hpq].
    + exists [], (q :: ps). rewrite Hl in Hp. split; [done|]. split; [done|].
      right. by exists q, ps.
    + destruct (IH q Hlink) as (ps1 & ps2 & -> & H1 & H2).
      exists (q :: ps1), ps2. done.
Qed.

(** The concatenation the parser builds for [+], and a union of the
    same shape, allow the paths of their second operand only. *)
Lemma shared_linked (mk : nat → RegexNode → RegexNode → RegexNode) o o' l p ps :
  mk = Concat ∨ mk = Union → mk o l (Star o' l) ∈ subterms root →
  linked m (mk o l (Star o' l)) p ps → linked m (Star o' l) p ps.
Proof.
  intros Hmk Hu.
  pose proof (sub_r mk o l (Star o' l) Hmk Hu) as Hrr.
  destruct (fm_consistent _ Hrr) as (Hnr & Hfr & Hlr).
  assert (Hlast : lastpos (attr m (mk o l (Star o' l)))
                  ⊆ lastpos (attr m (Star o' l))).
  { destruct Hmk as [-> | ->]; destruct (fm_consistent _ Hu) as (_ & _ & Hl);
      rewrite Hl, ?Hnr, Hlr; set_solver. }
  assert (Hsub : l ∈ subterms (Star o' l))
    by (simpl; right; apply subterms_self).
  revert p. induction ps as [|q ps IH]; intros p; simpl.
  - apply Hlast.
  - intros [Hpq Hlink]. split; [|by apply IH].
    destruct Hmk as [-> | ->].
    + apply follows_Concat in Hpq as [[Hp Hq]|[Hpq|Hpq]]; [| |done].
      * apply follows_Star. left. by rewrite Hlr.
      * by apply (follows_sub l).
    + apply follows_Union in Hpq as [Hpq|Hpq]; [|done].
      by apply (follows_sub l).
Qed.

Lemma star_path o l :
  Star o l ∈ subterms root →
  (∀ ps, path m l ps → pmatches m l ps) →
  ∀ n ps p, length ps ≤ n → p ∈ firstpos (attr m (Star o l)) →
            linked m (Star o l) p ps → pmatches m (Star o l) (p :: ps).
Proof.
  intros Hu IHl. destruct (fm_consistent _ Hu) as (_ & Hf & _).
  induction n as [|n IH]; intros ps p Hlen Hp Hlink;
    destruct (star_split o l p ps Hu Hlink)
      as (ps1 & ps2 & -> & H1 & [->|(q & ps2' & -> & Hq & H2)]).
  - change (p :: ps1 ++ []) with ((p :: ps1) ++ []).
    apply pmatches_Star_app; [|apply pmatches_Star_nil].
    apply IHl. split; [by rewrite <- Hf|done].
  - rewrite length_app in Hlen. simpl in Hlen. lia.
  - change (p :: ps1 ++ []) with ((p :: ps1) ++ []).
    apply pmatches_Star_app; [|apply pmatches_Star_nil].
    apply IHl. split; [by rewrite <- Hf|done].
  - change (p :: ps1 ++ q :: ps2') with ((p :: ps1) ++ q :: ps2').
    apply pmatches_Star_app.
    + apply IHl. split; [by rewrite <- Hf|done].
    + apply IH; [|done|done]. rewrite length_app in Hlen. simpl in Hlen. lia.
Qed.

Lemma path_pmatches u ps :
  u ∈ subterms root → path m u ps → pmatches m u ps.
Proof.
  revert ps.
  induction u as [o c|o l IHl r IHr|o l IHl r IHr|o l IHl]; intros ps Hu Hpath;
    pose proof (fm_consistent _ Hu) as Hc; unfold consistent in Hc.
  - destruct Hc as (p0 & Hp0 & Hn & Hf & Hl).
    destruct ps as [|p ps]; simpl in Hpath; [congruence|].
    destruct Hpath as [Hp Hlink]. rewrite Hf in Hp.
    apply elem_of_singleton in Hp as ->.
    destruct ps as [|q ps]; [by apply pmatches_Symbol|].
    destruct Hlink as [Hpq _]. by apply follows_Symbol in Hpq.
  - destruct Hc as (Hn & Hf & Hl).
    pose proof (sub_l Concat o l r (or_introl eq_refl) Hu) as Hlr.
    pose proof (sub_r Concat o l r (or_introl eq_refl) Hu) as Hrr.
    pose proof (fm_sharing _ Hu) as Hshare. simpl in Hshare.
    destruct Hshare as [Hdisj|[o' ->]].
    + pose proof (held_disjoint l r Hlr Hrr Hdisj) as Hd.
      destruct ps as [|p ps]; simpl in Hpath.
      * rewrite Hn in Hpath. apply andb_true_iff in Hpath as [H1 H2].
        apply (pmatches_Concat m o l r [] []); [by apply IHl|by apply IHr].
      * destruct Hpath as [Hp Hlink]. rewrite Hf in Hp.
        assert (Hcase : p ∈ firstpos (attr m l)
                        ∨ (nullable (attr m l) = true
                           ∧ p ∈ firstpos (attr m r))).
        { destruct (nullable (attr m l)); [|by left].
          apply elem_of_union in Hp as [Hp|Hp]; auto. }
        destruct Hcase as [Hp1|[Hnl Hp2]].
        -- destruct (concat_left o l r p ps Hu Hd) as (ps1 & ps2 & -> & H1 & H2);
             [by apply (final_first l _ Hlr)|done|].
           change (p :: ps1 ++ ps2) with ((p :: ps1) ++ ps2).
           apply pmatches_Concat; [apply IHl|apply IHr]; done.
        -- apply (pmatches_Concat m o l r [] (p :: ps)); [by apply IHl|].
           apply IHr; [done|]. split; [done|].
           apply (concat_right o l r); [done|done| |done].
           by apply (final_first r _ Hrr).
    + destruct (fm_consistent _ Hrr) as (Hnr & Hfr & Hlr').
      destruct ps as [|p ps]; simpl in Hpath.
      * rewrite Hn, Hnr, andb_true_r in Hpath.
        apply (pmatches_Concat m o l _ [] []); [by apply IHl|].
        apply pmatches_Star_nil.
      * destruct Hpath as [Hp Hlink].
        assert (Hstar : pmatches m (Star o' l) (p :: ps)).
        { apply IHr; [done|]. split.
          - rewrite Hf in Hp. rewrite Hfr.
            destruct (nullable (attr m l)); [|done]. rewrite Hfr in Hp.
            set_solver.
          - by apply (shared_linked Concat o o' l _ _ (or_introl eq_refl) Hu). }
        assert (Hcut : ∃ w1 w2, p :: ps = w1 ++ w2 ∧ pmatches m l w1
                                ∧ pmatches m (Star o' l) w2).
        { inversion Hstar as [| | | | |o0 l0 w1 w2 H1 H2]; subst.
          by exists w1, w2. }
        destruct Hcut as (w1 & w2 & -> & H1 & H2).
        by apply pmatches_Concat.
  - destruct Hc as (Hn & Hf & Hl).
    pose proof (sub_l Union o l r (or_intror eq_refl) Hu) as Hlr.
    pose proof (sub_r Union o l r (or_intror eq_refl) Hu) as Hrr.
    pose proof (fm_sharing _ Hu) as Hshare. simpl in Hshare.
    destruct Hshare as [Hdisj|[o' ->]].
    + pose proof (held_disjoint l r Hlr Hrr Hdisj) as Hd.
      destruct ps as [|p ps]; simpl in Hpath.
      * rewrite Hn in Hpath. apply orb_true_iff in Hpath as [H1|H2].
        -- apply pmatches_Union_l. by apply IHl.
        -- apply pmatches_Union_r. by apply IHr.
      * destruct Hpath as [Hp Hlink]. rewrite Hf in Hp.
        destruct (union_side o l r p ps Hu Hd Hlink) as [Hleft Hright].
        apply elem_of_union in Hp as [Hp|Hp].
        -- apply pmatches_Union_l. apply IHl; [done|]. split; [done|].
           apply Hleft. by apply (final_first l _ Hlr).
        -- apply pmatches_Union_r. apply IHr; [done|]. split; [done|].
           apply Hright. by apply (final_first r _ Hrr).
    + destruct (fm_consistent _ Hrr) as (Hnr & Hfr & Hlr').
      apply pmatches_Union_r. apply IHr; [done|].
      destruct ps as [|p ps]; simpl in Hpath; [done|].
      destruct Hpath as [Hp Hlink]. split.
      * rewrite Hf, Hfr in Hp. rewrite Hfr. set_solver.
      * by apply (shared_linked Union o o' l _ _ (or_intror eq_refl) Hu).
  - destruct ps as [|p ps]; [apply pmatches_Star_nil|].
    destruct Hpath as [Hp Hlink].
    apply (star_path o l Hu) with (n := length ps); [|done|done|done].
    intros ps'. by apply IHl, sub_star with o.
Qed.

(** *** Words and words of positions *)

Lemma leaves_sub u oc : u ∈ subterms root → oc ∈ leaves u → oc ∈ leaves root.
Proof.
  destruct oc as [o c]. intros Hu Hoc%leaves_subterms.
  apply leaves_subterms. by eapply subterms_trans.
Qed.

Lemma matches_pmatches u w :
  u ∈ subterms root → matches u w →
  ∃ ps, pmatches m u ps ∧ spells (positions m) ps w.
Proof.
  intros Hu H. revert Hu.
  induction H as [o c|o l r w1 w2 _ IH1 _ IH2|o l r w _ IH|o l r w _ IH
                 |o l|o l w1 w2 _ IH1 _ IH2]; intros Hu.
  - destruct (fm_labelled (o, c)) as (p & Hp & HP).
    { apply leaves_subterms. exact Hu. }
    exists [p]. split; [by apply pmatches_Symbol|].
    by apply Forall2_cons.
  - destruct (IH1 (sub_l Concat o l r (or_introl eq_refl) Hu)) as (ps1 & H1 & S1).
    destruct (IH2 (sub_r Concat o l r (or_introl eq_refl) Hu)) as (ps2 & H2 & S2).
    exists (ps1 ++ ps2). split; [by apply pmatches_Concat|by apply Forall2_app].
  - destruct (IH (sub_l Union o l r (or_intror eq_refl) Hu)) as (ps & H1 & S1).
    exists ps. split; [by apply pmatches_Union_l|done].
  - destruct (IH (sub_r Union o l r (or_intror eq_refl) Hu)) as (ps & H1 & S1).
    exists ps. split; [by apply pmatches_Union_r|done].
  - exists []. split; [apply pmatches_Star_nil|apply Forall2_nil_2].
  - destruct (IH1 (sub_star o l Hu)) as (ps1 & H1 & S1).
    destruct (IH2 Hu) as (ps2 & H2 & S2).
    exists (ps1 ++ ps2). split; [by apply pmatches_Star_app|by apply Forall2_app].
Qed.

Lemma pmatches_matches u ps w :
  u ∈ subterms root → pmatches m u ps → spells (positions m) ps w →
  matches u w.
Proof.
  intros Hu H. revert w Hu.
  induction H as [o c p Hp|o l r w1 w2 _ IH1 _ IH2|o l r w' _ IH|o l r w' _ IH
                 |o l|o l w1 w2 _ IH1 _ IH2]; intros w Hu Hs.
  - destruct (fm_labelled (o, c)) as (p' & Hp' & HP).
    { apply leaves_subterms. exact Hu. }
    rewrite Hp in Hp'. injection Hp' as <-.
    apply Forall2_cons_inv_l in Hs as (c' & w' & Hc' & Hnil & ->).
    apply Forall2_nil_inv_l in Hnil as ->.
    simpl in HP. rewrite HP in Hc'. injection Hc' as <-.
    apply matches_Symbol.
  - apply Forall2_app_inv_l in Hs as (v1 & v2 & S1 & S2 & ->).
    apply matches_Concat.
    + by apply IH1; [eapply (sub_l Concat); [by left|]|].
    + by apply IH2; [eapply (sub_r Concat); [by left|]|].
  - apply matches_Union_l.
    by apply IH; [eapply (sub_l Union); [by right|]|].
  - apply matches_Union_r.
    by apply IH; [eapply (sub_r Union); [by right|]|].
  - apply Forall2_nil_inv_l in Hs as ->. apply matches_Star_nil.
  - apply Forall2_app_inv_l in Hs as (v1 & v2 & S1 & S2 & ->).
    apply matches_Star_app.
    + by apply IH1; [eapply sub_star|].
    + by apply IH2.
Qed.

(** The words of a node are the words its paths spell. *)
Lemma matches_path u w :
  u ∈ subterms root →
  matches u w ↔ ∃ ps, path m u ps ∧ spells (positions m) ps w.
Proof.
  intros Hu. split.
  - intros (ps & H & Hs)%matches_pmatches; [|done].
    exists ps. split; [by apply pmatches_path|done].
  - intros (ps & H & Hs). apply (pmatches_matches u ps); [done| |done].
    by apply path_pmatches.
Qed.

End final_memory.

(** ** The followpos table *)

Section followpos_table.
Variable set_iter : gset nat → list nat.
Hypothesis set_iter_perm : ∀ X, set_iter X ≡ₚ elements X.
Local Set Default Proof Using "All".

Lemma followpos_get_loop (t X : gset nat) tbl p q :
  q ∈ followpos_get (foldl (setdefault_update t) tbl (set_iter X)) p
  ↔ q ∈ followpos_get tbl p ∨ (p ∈ X ∧ q ∈ t).
Proof.
  unfold followpos_get. rewrite setdefault_update_loop.
  case_decide as Hin.
  - apply (elem_of_set_iter set_iter set_iter_perm) in Hin.
    simpl. rewrite elem_of_union. tauto.
  - rewrite (elem_of_set_iter set_iter set_iter_perm) in Hin. tauto.
Qed.

(** [compute_followpos] adds to the table exactly the pairs of the
    nodes of the tree, whatever the order in which the sets are
    visited. *)
Lemma compute_followpos_spec m node tbl p q :
  q ∈ followpos_get (compute_followpos set_iter m node tbl) p
  ↔ q ∈ followpos_get tbl p ∨ follows m node p q.
Proof.
  revert tbl.
  induction node as [o c|o l IHl r IHr|o l IHl r IHr|o l IHl]; intros tbl;
    simpl compute_followpos.
  - pose proof (follows_Symbol m o c p q). tauto.
  - rewrite IHr, IHl, followpos_get_loop, follows_Concat. tauto.
  - rewrite IHr, IHl, follows_Union. tauto.
  - rewrite IHl, followpos_get_loop, follows_Star. tauto.
Qed.

End followpos_table.

(** ** Runs of the automaton and trails of positions *)

Section runs.
Variable set_iter : gset nat → list nat.
Hypothesis set_iter_perm : ∀ X, set_iter X ≡ₚ elements X.
Variable P : gmap nat ascii.
Variable F : gmap nat (gset nat).
Hypothesis F_closed : ∀ p X, F !! p = Some X → X ⊆ dom P.
Variable d : dfa.
Hypothesis d_inv : dfa_inv P F d.
Hypothesis d_complete : complete_below P (length (states d)) d.
Local Set Default Proof Using "All".

Lemma trail_move X c ps q :
  trail F (move P F X c) ps q
  ↔ ∃ p, p ∈ X ∧ P !! p = Some c ∧ trail F (followpos_get F p) ps q.
Proof.
  destruct ps as [|p' ps]; simpl.
  - apply (elem_of_move set_iter set_iter_perm P F F_closed).
  - rewrite (elem_of_move set_iter set_iter_perm P F F_closed). split.
    + intros [(p & Hp & Hc & Hp') Ht]. by exists p.
    + intros (p & Hp & Hc & Hp' & Ht). split; [by exists p|done].
Qed.

Lemma reach_cons X c w q :
  reach P F X (c :: w) q
  ↔ c ≠ "#" ∧ carries P X c ∧ reach P F (move P F X c) w q.
Proof.
  unfold reach. split.
  - intros (ps & Hs & Hw & Ht).
    apply Forall2_cons_inv_r in Hs as (p & ps' & Hp & Hs & ->).
    destruct Ht as [HpX Ht]. apply not_elem_of_cons in Hw as [Hc Hw].
    split; [done|]. split; [by exists p|].
    exists ps'. split; [done|]. split; [done|].
    apply trail_move. by exists p.
  - intros (Hc & _ & ps & Hs & Hw & Ht).
    apply trail_move in Ht as (p & Hp & HPp & Ht).
    exists (p :: ps). split; [by apply Forall2_cons|].
    split; [|done]. apply not_elem_of_cons. done.
Qed.

(** Reading [w] from a state leads to the state whose position-set is
    made of the positions reached by reading [w] from the position-set
    of that state. *)
Lemma run_reach w : ∀ i X,
  state_pos d !! i = Some X →
  ∀ q, (∃ j Y, run (states d) i w = Some j ∧ state_pos d !! j = Some Y
               ∧ q ∈ Y)
       ↔ reach P F X w q.
Proof.
  induction w as [|c w IH]; intros i X HX q.
  - simpl. split.
    + intros (j & Y & [= <-] & HY & Hq).
      rewrite HX in HY. injection HY as <-.
      exists []. split; [apply Forall2_nil_2|]. split; [apply not_elem_of_nil|done].
    + intros (ps & Hs & _ & Ht). apply Forall2_nil_inv_r in Hs as ->.
      by exists i, X.
  - rewrite reach_cons. simpl. split.
    + intros (j & Y & Hrun & HY & Hq).
      destruct (states d !! i) as [tr|] eqn:Htr; [|done].
      destruct (dict_get c tr) as [j'|] eqn:Hj'; [|done].
      destruct (inv_trans _ _ _ d_inv i tr c j' Htr Hj')
        as (X' & HX' & Hc & Hcar & Hmove).
      rewrite HX in HX'. injection HX' as <-.
      split; [done|]. split; [done|].
      apply (IH j' _ Hmove). by exists j, Y.
    + intros (Hc & Hcar & Hreach).
      destruct (dfa_transition set_iter set_iter_perm P F F_closed d i X c
                  d_inv d_complete HX Hc Hcar) as (tr & j' & Htr & Hj' & Hmove).
      apply (IH j' _ Hmove) in Hreach as (j & Y & Hrun & HY & Hq).
      exists j, Y. by rewrite Htr, Hj'.
Qed.

(** The automaton accepts [w] exactly when reading [w] from the
    position-set of state 0 reaches a position whose symbol is [#]. *)
Lemma accepts_reach start w :
  state_pos d !! 0 = Some start →
  accepts (states d, accepting_states d) w
  ↔ ∃ q, reach P F start w q ∧ P !! q = Some "#".
Proof.
  intros H0. unfold accepts. simpl. split.
  - intros (j & Hrun & Hacc).
    pose proof (inv_acc_lt _ _ _ d_inv j Hacc) as Hlt.
    apply (inv_dom _ _ _ d_inv) in Hlt as [Y HY].
    destruct (proj1 (inv_acc _ _ _ d_inv j Y HY) Hacc) as (q & Hq & HPq).
    exists q. split; [|done]. apply (run_reach w 0 start H0). by exists j, Y.
  - intros (q & Hreach & HPq).
    apply (run_reach w 0 start H0) in Hreach as (j & Y & Hrun & HY & Hq).
    exists j. split; [done|]. apply (inv_acc _ _ _ d_inv j Y HY). by exists q.
Qed.

End runs.

(** ** The language of the position automaton *)

Lemma matches_symbols u w c : matches u w → c ∈ w → c ∈ (leaves u).*2.
Proof.
  intros H. revert c.
  induction H as [o c'|o l r w1 w2 _ IH1 _ IH2|o l r w _ IH|o l r w _ IH
                 |o l|o l w1 w2 _ IH1 _ IH2]; intros c Hc; simpl.
  - apply list_elem_of_singleton in Hc as ->. apply list_elem_of_singleton. done.
  - rewrite fmap_app. apply elem_of_app.
    apply elem_of_app in Hc as [Hc|Hc]; [left|right]; auto.
  - rewrite fmap_app. apply elem_of_app. left. auto.
  - rewrite fmap_app. apply elem_of_app. right. auto.
  - by apply elem_of_nil in Hc.
  - apply elem_of_app in Hc as [Hc|Hc]; auto.
Qed.

Lemma pmatches_end m o l h c ps :
  pmatches m (Concat o l (Symbol h c)) ps →
  ∃ w1 p, ps = w1 ++ [p] ∧ pmatches m l w1 ∧ leaf_position m (h, c) = Some p.
Proof.
  intros H. inversion H as [|o0 l0 r0 w1 w2 H1 H2| | | |]; subst.
  inversion H2 as [o1 c1 p Hp| | | | |]; subst.
  by exists w1, p.
Qed.

Section language.
Variable m : memory.
Variable e : RegexNode.
Variable h n : nat.
Variable F : gmap nat (gset nat).
Hypothesis fm_consistent :
  ∀ u, u ∈ subterms (Concat (S h) e (Symbol h "#")) → consistent m u.
Hypothesis fm_well_formed : well_formed (Concat (S h) e (Symbol h "#")).
Hypothesis fm_sharing : plus_sharing (Concat (S h) e (Symbol h "#")).
Hypothesis fm_injective : ∀ oc1 oc2,
  oc1 ∈ leaves (Concat (S h) e (Symbol h "#")) →
  oc2 ∈ leaves (Concat (S h) e (Symbol h "#")) →
  leaf_position m oc1 = leaf_position m oc2 → oc1.1 = oc2.1.
Hypothesis fm_labelled : ∀ oc,
  oc ∈ leaves (Concat (S h) e (Symbol h "#")) →
  ∃ p, leaf_position m oc = Some p ∧ positions m !! p = Some oc.2.
Hypothesis F_spec : ∀ p q,
  q ∈ followpos_get F p ↔ follows m (Concat (S h) e (Symbol h "#")) p q.
Hypothesis hash_free : ∀ oc, oc ∈ leaves e → oc.2 ≠ "#".
Hypothesis end_position : leaf_position m (h, "#") = Some n.
Local Set Default Proof Using "All".

Lemma end_in_root :
  Symbol h "#" ∈ subterms (Concat (S h) e (Symbol h "#"))
  ∧ e ∈ subterms (Concat (S h) e (Symbol h "#")).
Proof.
  split; simpl; right; apply elem_of_app; [right|left]; apply subterms_self.
Qed.

Lemma lastpos_root :
  lastpos (attr m (Concat (S h) e (Symbol h "#"))) = {[n]}.
Proof.
  destruct (fm_consistent _ (subterms_self _)) as (_ & _ & Hl).
  destruct (fm_consistent _ (proj1 end_in_root)) as (p & Hp & Hn & _ & Hlh).
  unfold leaf_position in end_position. simpl in end_position.
  rewrite Hp in end_position. injection end_position as ->.
  by rewrite Hl, Hn, Hlh.
Qed.

Lemma end_symbol : positions m !! n = Some "#".
Proof.
  destruct (fm_labelled (h, "#")) as (p & Hp & HP).
  { simpl. apply elem_of_app. right. apply list_elem_of_singleton. done. }
  rewrite end_position in Hp. by injection Hp as <-.
Qed.

(** The end marker holds the only position whose symbol is [#]. *)
Lemma hash_position q :
  q ∈ held m (Concat (S h) e (Symbol h "#")) →
  positions m !! q = Some "#" → q = n.
Proof.
  intros ([o c] & Hoc & Hq)%elem_of_held HP.
  destruct (fm_labelled _ Hoc) as (p & Hp & HPp).
  rewrite Hq in Hp. injection Hp as <-. rewrite HP in HPp.
  injection HPp as Hc. simpl in Hc. subst c.
  simpl in Hoc. apply elem_of_app in Hoc as [Hoc|Hoc].
  - by apply hash_free in Hoc.
  - apply list_elem_of_singleton in Hoc. injection Hoc as ->.
    rewrite end_position in Hq. by injection Hq.
Qed.

Lemma linked_trail ps : ∀ p q,
  linked m (Concat (S h) e (Symbol h "#")) p (ps ++ [q])
  ↔ trail F (followpos_get F p) ps q
    ∧ q ∈ lastpos (attr m (Concat (S h) e (Symbol h "#"))).
Proof.
  induction ps as [|p' ps IH]; intros p q; simpl.
  - by rewrite F_spec.
  - rewrite IH, F_spec. tauto.
Qed.

Lemma path_trail ps q :
  path m (Concat (S h) e (Symbol h "#")) (ps ++ [q])
  ↔ trail F (firstpos (attr m (Concat (S h) e (Symbol h "#")))) ps q
    ∧ q ∈ lastpos (attr m (Concat (S h) e (Symbol h "#"))).
Proof.
  destruct ps as [|p ps]; simpl.
  - done.
  - rewrite linked_trail. tauto.
Qed.

Lemma trail_held ps : ∀ X q,
  X ⊆ held m (Concat (S h) e (Symbol h "#")) →
  trail F X ps q → q ∈ held m (Concat (S h) e (Symbol h "#")).
Proof.
  induction ps as [|p ps IH]; intros X q HX; simpl.
  - apply HX.
  - intros [Hp Ht]. apply (IH (followpos_get F p)); [|done].
    intros q' Hq'. apply F_spec in Hq'.
    by apply (follows_held m _ fm_consistent fm_well_formed fm_sharing
                fm_injective fm_labelled _ p q' (subterms_self _)) in Hq'
      as [_ Hq'].
Qed.

(** Reading [w] from firstpos of the root reaches a position whose
    symbol is [#] exactly when the regex matches [w]. *)
Lemma language_reach w :
  (∃ q, reach (positions m) F
          (firstpos (attr m (Concat (S h) e (Symbol h "#")))) w q
        ∧ positions m !! q = Some "#")
  ↔ matches e w.
Proof.
  split.
  - intros (q & (ps & Hs & Hw & Ht) & HPq).
    assert (q = n) as ->.
    { apply hash_position; [|done]. apply (trail_held ps _ _) in Ht; [done|].
      intros p Hp.
      exact (final_first m _ fm_consistent fm_well_formed fm_sharing
               fm_injective fm_labelled _ p (subterms_self _) Hp). }
    assert (Hpath : path m (Concat (S h) e (Symbol h "#")) (ps ++ [n])).
    { apply path_trail. split; [done|]. rewrite lastpos_root.
      by apply elem_of_singleton. }
    apply (path_pmatches m _ fm_consistent fm_well_formed fm_sharing
             fm_injective fm_labelled _ _ (subterms_self _)) in Hpath.
    apply pmatches_end in Hpath as (w1 & p & Heq & He & _).
    apply app_inj_tail in Heq as [-> _].
    exact (pmatches_matches m _ fm_consistent fm_well_formed fm_sharing
             fm_injective fm_labelled e w1 w (proj2 end_in_root) He Hs).
  - intros Hm.
    destruct (matches_pmatches m _ fm_consistent fm_well_formed fm_sharing
                fm_injective fm_labelled e w (proj2 end_in_root) Hm)
      as (ps & He & Hs).
    assert (Hroot : pmatches m (Concat (S h) e (Symbol h "#")) (ps ++ [n])).
    { apply pmatches_Concat; [done|]. by apply pmatches_Symbol. }
    apply (pmatches_path m _ fm_consistent fm_well_formed fm_sharing
             fm_injective fm_labelled _ _ (subterms_self _)) in Hroot.
    apply path_trail in Hroot as [Ht _].
    exists n. split; [|apply end_symbol].
    exists ps. split; [done|]. split; [|done].
    intros Hin. apply (matches_symbols _ _ _ Hm) in Hin.
    apply list_elem_of_fmap in Hin as ([o c] & Hc & Hoc). simpl in Hc. subst c.
    by apply hash_free in Hoc.
Qed.

End language.

(** ** The memory after the annotation of a parsed regex *)

(** What the lemmas on the final memory assume holds after the
    annotation of the tree of a regex that parses. *)
Lemma parsed_final_memory regex root m :
  parse_regex regex = Return root →
  let m' := annotate root (reset m) in
  (∀ u, u ∈ subterms root → consistent m' u)
  ∧ well_formed root ∧ plus_sharing root
  ∧ (∀ oc1 oc2, oc1 ∈ leaves root → oc2 ∈ leaves root →
       leaf_position m' oc1 = leaf_position m' oc2 → oc1.1 = oc2.1)
  ∧ (∀ oc, oc ∈ leaves root →
       ∃ p, leaf_position m' oc = Some p ∧ positions m' !! p = Some oc.2).
Proof.
  intros Hparse m'.
  destruct (parse_regex_well_formed regex root Hparse) as (Hwf & _ & Hsh).
  split; [|split; [done|split; [done|split]]].
  - intros u Hu. by apply annotate_consistent.
  - intros [o1 c1] [o2 c2] H1 H2 Heq. simpl.
    exact (annotate_leaf_injective root (reset m) o1 c1 o2 c2 Hwf H1 H2 Heq).
  - intros [o c] Hoc.
    destruct (annotate_leaf_position root (reset m) o c Hwf Hoc)
      as (p & Hp & _ & HP).
    by exists p.
Qed.

Section conversion_language.
Variable set_iter : gset nat → list nat.
Hypothesis set_iter_perm : ∀ X, set_iter X ≡ₚ elements X.
Local Set Default Proof Using "All".

(** The automaton of a regex without [#] accepts the words the regex
    matches. *)
Lemma convert_language m regex root :
  parse_regex regex = Return root → "#" ∉ chars regex →
  ∃ a, convert set_iter m regex = Return a
    ∧ ∀ w, accepts a w ↔ matches (parsed_expression root) w.
Proof.
  intros Hparse Hhash.
  destruct (convert_locals_parsed set_iter set_iter_perm m regex root Hparse)
    as (d & _ & Hconv & HF & Hinv & Hcomp & H0).
  exists (states d, accepting_states d). split; [exact Hconv|].
  destruct (parsed_final_memory regex root m Hparse)
    as (Hcons & Hwf & Hsh & Hinj & Hlab).
  destruct (parse_regex_shape regex root Hparse) as (e & h & -> & Hwb).
  destruct (annotate_root regex e h m Hwb) as (_ & _ & Hend & _ & _).
  destruct Hwb as (_ & _ & Hchars & _).
  intros w. simpl parsed_expression.
  rewrite (accepts_reach set_iter set_iter_perm _ _ HF d Hinv Hcomp _ w H0).
  apply (language_reach _ e h (leaf_count (Concat (S h) e (Symbol h "#"))));
    try done.
  - intros p q.
    rewrite (compute_followpos_spec elements (λ X, reflexivity _)).
    unfold followpos_get at 1. rewrite lookup_empty. simpl.
    rewrite elem_of_empty. tauto.
  - intros oc Hoc Heq. apply Hhash. rewrite <- Heq. by apply Hchars.
  - unfold leaf_position. cbn [fst snd]. by rewrite Hend.
Qed.

End conversion_language.

(** ** The shape of the automaton *)

Lemma run_app states w1 : ∀ i w2,
  run states i (w1 ++ w2) = run states i w1 ≫= λ j, run states j w2.
Proof.
  induction w1 as [|c w1 IH]; intros i w2; simpl; [done|].
  destruct (states !! i) as [tr|]; [|done].
  destruct (dict_get c tr) as [j|]; [|done]. apply IH.
Qed.

Section shape.
Variable set_iter : gset nat → list nat.
Hypothesis set_iter_perm : ∀ X, set_iter X ≡ₚ elements X.
Variable P : gmap nat ascii.
Variable F : gmap nat (gset nat).
Hypothesis F_closed : ∀ p X, F !! p = Some X → X ⊆ dom P.
Variable d : dfa.
Hypothesis d_inv : dfa_inv P F d.
Hypothesis d_complete : complete_below P (length (states d)) d.
Local Set Default Proof Using "All".

Lemma dfa_target i tr c j :
  states d !! i = Some tr → dict_get c tr = Some j → j < length (states d).
Proof.
  intros Htr Hj.
  destruct (inv_trans _ _ _ d_inv i tr c j Htr Hj) as (X & _ & _ & _ & HY).
  apply (inv_dom _ _ _ d_inv). by eexists.
Qed.

(** Every state is reached from state 0 by reading some word. *)
Lemma dfa_reachable j :
  j < length (states d) → ∃ w, run (states d) 0 w = Some j.
Proof.
  induction j as [j IH] using lt_wf_ind. intros Hj.
  apply (inv_dom _ _ _ d_inv) in Hj as [X HX].
  destruct (inv_reach _ _ _ d_inv j X HX)
    as [->|(i & Y & c & Hij & HY & Hc & Hcar & ->)].
  - by exists [].
  - destruct (IH i Hij) as [w Hw].
    { apply (inv_dom _ _ _ d_inv). by eexists. }
    destruct (dfa_transition set_iter set_iter_perm P F F_closed d i Y c
                d_inv d_complete HY Hc Hcar) as (tr & j' & Htr & Hj' & Hmove).
    assert (j' = j) as ->
      by exact (dfa_state_pos_inj set_iter set_iter_perm P F F_closed d j' j _
                  d_inv Hmove HX).
    exists (w ++ [c]). rewrite run_app, Hw. simpl. by rewrite Htr, Hj'.
Qed.

(** The position-sets of the states are the sets the worklist can meet. *)
Lemma dfa_states_reachable start X :
  state_pos d !! 0 = Some start →
  (∃ i, state_pos d !! i = Some X) ↔ reachable_set P F start X.
Proof.
  intros H0. split.
  - intros [i Hi].
    apply (dfa_states_closed set_iter set_iter_perm P F F_closed
             (reachable_set P F start) d d_inv) with (j := i); [| |done].
    + intros X' HX'. rewrite H0 in HX'. injection HX' as <-.
      apply reachable_start.
    + intros X' c HX' Hc Hcar. by apply reachable_move.
  - induction 1 as [|Y c _ [i Hi] Hc Hcar].
    + by exists 0.
    + destruct (dfa_transition set_iter set_iter_perm P F F_closed d i Y c
                  d_inv d_complete Hi Hc Hcar) as (tr & j & _ & _ & Hmove).
      by exists j.
Qed.

Lemma dfa_length_dom : length (states d) = size (dom (pos_state d)).
Proof. by rewrite size_dom, (inv_size _ _ _ d_inv). Qed.

Lemma dfa_dom_states X :
  X ∈ dom (pos_state d) ↔ ∃ i, state_pos d !! i = Some X.
Proof.
  rewrite elem_of_dom. unfold is_Some.
  split; intros [i Hi]; exists i; by apply (inv_bij _ _ _ d_inv).
Qed.

End shape.

(** The number of states does not depend on the order in which the
    sets are visited. *)
Lemma dfa_length_order (s1 s2 : gset nat → list nat) P F d1 d2 start :
  (∀ X, s1 X ≡ₚ elements X) → (∀ X, s2 X ≡ₚ elements X) →
  (∀ p X, F !! p = Some X → X ⊆ dom P) →
  dfa_inv P F d1 → complete_below P (length (states d1)) d1 →
  dfa_inv P F d2 → complete_below P (length (states d2)) d2 →
  state_pos d1 !! 0 = Some start → state_pos d2 !! 0 = Some start →
  length (states d1) = length (states d2).
Proof.
  intros Hs1 Hs2 HF Hi1 Hc1 Hi2 Hc2 H1 H2.
  rewrite (dfa_length_dom s1 Hs1 P F HF d1 Hi1 Hc1),
          (dfa_length_dom s2 Hs2 P F HF d2 Hi2 Hc2).
  f_equal. apply set_eq. intros X.
  rewrite (dfa_dom_states s1 Hs1 P F HF d1 Hi1 Hc1),
          (dfa_dom_states s2 Hs2 P F HF d2 Hi2 Hc2).
  rewrite (dfa_states_reachable s1 Hs1 P F HF d1 Hi1 Hc1 start X H1).
  by rewrite (dfa_states_reachable s2 Hs2 P F HF d2 Hi2 Hc2 start X H2).
Qed.

(** ** Conversions: position-sets of the states *)

Section conversion_shape.
Variable set_iter : gset nat → list nat.
Hypothesis set_iter_perm : ∀ X, set_iter X ≡ₚ elements X.
Local Set Default Proof Using "All".

(** The states are sets of positions that leaves hold, so there are at
    most [2 ^ k] of them for [k] leaf objects. *)
Lemma convert_states_held m regex root :
  parse_regex regex = Return root →
  ∃ c, convert_locals set_iter m regex = Return c ∧ conv_root c = root
    ∧ (∀ i X, state_pos (conv_dfa c) !! i = Some X →
              X ⊆ held (conv_memory c) root)
    ∧ length (states (conv_dfa c)) ≤ 2 ^ size (leaf_objects root).
Proof.
  intros Hparse.
  destruct (convert_locals_parsed set_iter set_iter_perm m regex root Hparse)
    as (d & Hc & _ & HF & Hinv & Hcomp & H0).
  destruct (parsed_final_memory regex root m Hparse)
    as (Hcons & Hwf & Hsh & Hinj & Hlab).
  eexists. split; [exact Hc|]. cbn [conv_root conv_memory conv_dfa].
  split; [done|].
  assert (Hheld : ∀ i X, state_pos d !! i = Some X →
                         X ⊆ held (annotate root (reset m)) root).
  { apply (dfa_states_closed set_iter set_iter_perm _ _ HF
             (λ X, X ⊆ held (annotate root (reset m)) root) d Hinv).
    - intros X HX. rewrite H0 in HX. injection HX as <-. intros p Hp.
      exact (final_first _ _ Hcons Hwf Hsh Hinj Hlab root p
               (subterms_self _) Hp).
    - intros X c _ _ _ q Hq.
      apply (elem_of_move set_iter set_iter_perm _ _ HF) in Hq
        as (p & _ & _ & Hq).
      assert (Hpq : follows (annotate root (reset m)) root p q).
      { apply (compute_followpos_spec elements (λ X, reflexivity _)
                 (annotate root (reset m)) root ∅ p q) in Hq as [Hq|Hq];
          [|done].
        unfold followpos_get in Hq. rewrite lookup_empty in Hq.
        by apply elem_of_empty in Hq. }
      by apply (follows_held _ _ Hcons Hwf Hsh Hinj Hlab root p q
                  (subterms_self _)) in Hpq as [_ Hq']. }
  split; [exact Hheld|].
  destruct (enqueued_sets_spec set_iter set_iter_perm _ _ HF d Hinv)
    as [Hnd Hlen].
  rewrite <- Hlen.
  etrans; [apply (NoDup_subsets_length (held (annotate root (reset m)) root));
           [exact Hnd|]|].
  - intros X HX. unfold enqueued_sets in HX.
    apply list_elem_of_omap in HX as (i & _ & Hi). by apply (Hheld i).
  - apply Nat.pow_le_mono_r; [done|]. apply held_size.
Qed.

End conversion_shape.

(** ** A position that the table lacks *)

Section missing_position.
Variable set_iter : gset nat → list nat.
Hypothesis set_iter_perm : ∀ X, set_iter X ≡ₚ elements X.
Local Set Default Proof Using "All".

Lemma any_hash_outcome P l :
  (∃ hit, any_hash P l = Return hit) ∨ any_hash P l = Raise KeyError.
Proof.
  induction l as [|p l IH]; simpl; [left; by eexists|].
  destruct (P !! p) as [c|]; [|by right].
  case_decide; [left; by eexists|exact IH].
Qed.

Lemma group_position_missing P F l p : ∀ acc,
  p ∈ l → P !! p = None →
  for_each (group_position P F) acc l = Raise KeyError.
Proof.
  induction l as [|p' l IH]; intros acc Hin Hp; [by apply elem_of_nil in Hin|].
  simpl. unfold group_position at 1.
  destruct (P !! p') as [c|] eqn:Hp'; [|done].
  assert (Hl : p ∈ l).
  { apply elem_of_cons in Hin as [->|Hin]; [congruence|done]. }
  case_decide; simpl; by apply IH.
Qed.

(** When firstpos of the root holds a position the table has no entry
    for, [construct_dfa] raises [KeyError]: at the latest when the loop
    looks up the symbols of state 0. *)
Lemma construct_dfa_missing m root F p :
  p ∈ firstpos (attr m root) → positions m !! p = None →
  construct_dfa set_iter m root F = Raise KeyError.
Proof.
  intros Hp HP. unfold construct_dfa, construct_dfa_locals, construct_init.
  destruct (any_hash_outcome (positions m) (set_iter (firstpos (attr m root))))
    as [[hit ->]| ->]; [|done].
  cbn [obind construct_while]. rewrite decide_True by (simpl; lia).
  unfold process_state. cbn [queue_appended queue_popped state_pos].
  cbn [lookup list_lookup]. rewrite lookup_singleton_eq.
  rewrite (group_position_missing _ _ _ p); [done| |done].
  by apply (elem_of_set_iter set_iter set_iter_perm).
Qed.

End missing_position.
(** * More on the parser *)

Section segments.

Lemma chars_lookup s n : chars s !! n = String.get n s.
Proof.
  revert n. induction s as [|c s IH]; intros [|n]; simpl; auto.
Qed.

Lemma chars_length s : length (chars s) = String.length s.
Proof. induction s as [|c s IH]; simpl; [done|]. by rewrite <- IH. Qed.

Lemma segment_nil R a : segment R a a = [].
Proof. unfold segment. by rewrite Nat.sub_diag. Qed.

Lemma segment_app R a b c :
  a ≤ b → b ≤ c → segment R a b ++ segment R b c = segment R a c.
Proof.
  intros Hab Hbc. unfold segment.
  replace (drop b (chars R)) with (drop (b - a) (drop a (chars R)))
    by (rewrite drop_drop; f_equal; lia).
  rewrite take_take_drop. f_equal. lia.
Qed.

Lemma segment_one R a ch : String.get a R = Some ch → segment R a (S a) = [ch].
Proof.
  intros H. unfold segment. rewrite <- chars_lookup in H.
  rewrite (drop_S _ _ _ H). replace (S a - a) with 1 by lia. done.
Qed.

Lemma segment_all R : segment R 0 (String.length R) = chars R.
Proof.
  unfold segment. rewrite Nat.sub_0_r, drop_0, <- chars_length.
  apply firstn_all.
Qed.

Lemma segment_past R a b :
  String.length R ≤ b → segment R a b = drop a (chars R).
Proof.
  intros Hb. unfold segment. apply take_ge.
  rewrite length_drop, chars_length. lia.
Qed.

End segments.

Section parser_reads.
Import Parser.
Local Open Scope parser_scope.
Variable R : string.

Lemma alloc_current mk self node self' :
  alloc mk self = Return (node, self') → current_char self' = current_char self.
Proof. unfold alloc. by intros [= <- <-]. Qed.

Lemma filter_segment_app a b c :
  a ≤ b → b ≤ c →
  filter is_symbol (segment R a b) ++ filter is_symbol (segment R b c)
  = filter is_symbol (segment R a c).
Proof. intros Hab Hbc. by rewrite <- filter_app, segment_app. Qed.

(** A character that is not a symbol adds no leaf. *)
Lemma skip_first self c b :
  coherent self → regex self = R → current_char self = Some c →
  is_symbol c = false → S (pos self) ≤ b →
  filter is_symbol (segment R (pos self) b)
  = filter is_symbol (segment R (S (pos self)) b).
Proof.
  intros Hco HR Hc Hsym Hb. unfold coherent in Hco. rewrite Hc, HR in Hco.
  rewrite <- (filter_segment_app (pos self) (S (pos self)) b) by lia.
  rewrite (segment_one R _ c) by done.
  rewrite filter_cons_False by (cbv beta; rewrite Hsym; exact id). done.
Qed.

Lemma skip_last self c a :
  coherent self → regex self = R → current_char self = Some c →
  is_symbol c = false → a ≤ pos self →
  filter is_symbol (segment R a (S (pos self)))
  = filter is_symbol (segment R a (pos self)).
Proof.
  intros Hco HR Hc Hsym Ha. unfold coherent in Hco. rewrite Hc, HR in Hco.
  rewrite <- (filter_segment_app a (pos self) (S (pos self))) by lia.
  rewrite (segment_one R _ c) by done.
  rewrite filter_cons_False by (cbv beta; rewrite Hsym; exact id).
  by rewrite filter_nil, app_nil_r.
Qed.

Lemma factor_while_reads fuel :
  reads_on R (λ _, True) (λ _, True) (factor_while fuel).
Proof.
  induction fuel as [|fuel IH]; intros self node0 node self' Hco HR _ H;
    [done|].
  simpl in H. apply bind_Return in H as (c & s1 & Hpeek & H).
  injection Hpeek as <- <-.
  destruct (decide (current_char self = Some "*")) as [Hstar|Hnstar];
    [|destruct (decide (current_char self = Some "+")) as [Hplus|Hnplus]].
  - apply bind_Return in H as (u & s1 & Hadv & H).
    apply advance_inv in Hadv as (Hco1 & HR1 & Hpos1 & Hal1).
    apply bind_Return in H as (n1 & s2 & Hal & H).
    apply alloc_inv in Hal as (-> & Hco2 & HR2 & Hpos2 & Hal2).
    destruct (IH s2 _ _ _ (Hco2 Hco1) ltac:(congruence) I H)
      as (HR' & Hco' & Hpos' & _ & Hleaves).
    split; [done|]. split; [done|]. split; [lia|]. split; [done|].
    intros Hno. rewrite (Hleaves Hno). simpl leaves. f_equal.
    rewrite (skip_first self "*") by (done || lia).
    by rewrite Hpos2, Hpos1.
  - apply bind_Return in H as (u & s1 & Hadv & H).
    apply advance_inv in Hadv as (Hco1 & HR1 & Hpos1 & Hal1).
    apply bind_Return in H as (n1 & s2 & Hal & H).
    apply alloc_inv in Hal as (-> & Hco2 & HR2 & Hpos2 & Hal2).
    apply bind_Return in H as (n2 & s3 & Hal' & H).
    apply alloc_inv in Hal' as (-> & Hco3 & HR3 & Hpos3 & Hal3).
    destruct (IH s3 _ _ _ (Hco3 (Hco2 Hco1)) ltac:(congruence) I H)
      as (HR' & Hco' & Hpos' & _ & _).
    split; [done|]. split; [done|]. split; [lia|]. split; [done|].
    intros Hno. exfalso. apply Hno. rewrite <- HR.
    by apply (coherent_chars self).
  - injection H as <- <-.
    split; [done|]. split; [done|]. split; [done|]. split; [done|].
    intros _. by rewrite segment_nil, filter_nil, app_nil_r.
Qed.

Lemma parser_reads fuel :
  reads R stop_expression (expression fuel)
  ∧ reads_on R stop_term stop_expression (expression_while fuel)
  ∧ reads R stop_term (term fuel)
  ∧ reads_on R (λ _, True) stop_term (term_while fuel)
  ∧ reads R (λ _, True) (factor fuel)
  ∧ reads R (λ _, True) (base fuel).
Proof.
  induction fuel as [|fuel (IHe & IHew & IHt & IHtw & IHf & IHb)].
  { repeat split; intros; discriminate. }
  split; [|split; [|split; [|split; [|split]]]].
  - (* expression *)
    intros self node self' Hco HR H. simpl in H.
    apply bind_Return in H as (n1 & s1 & Ht & H).
    destruct (IHt _ _ _ Hco HR Ht) as (HR1 & Hco1 & Hpos1 & Hstop1 & Hl1).
    destruct (IHew _ _ _ _ Hco1 HR1 Hstop1 H)
      as (HR' & Hco' & Hpos' & Hstop' & Hl').
    split; [done|]. split; [done|]. split; [lia|]. split; [done|].
    intros Hno. rewrite (Hl' Hno), (Hl1 Hno).
    by apply filter_segment_app.
  - (* expression_while *)
    intros self node0 node self' Hco HR Hpre H. simpl in H.
    apply bind_Return in H as (c & s1 & Hpeek & H).
    injection Hpeek as <- <-.
    destruct (decide (current_char self = Some "|")) as [Hbar|Hnbar].
    + apply bind_Return in H as (u & s1 & Hadv & H).
      apply advance_inv in Hadv as (Hco1 & HR1 & Hpos1 & Hal1).
      apply bind_Return in H as (n1 & s2 & Ht & H).
      destruct (IHt _ _ _ Hco1 ltac:(congruence) Ht)
        as (HR2 & Hco2 & Hpos2 & Hstop2 & Hl2).
      apply bind_Return in H as (n2 & s3 & Hal & H).
      pose proof (alloc_current _ _ _ _ Hal) as Hcur3.
      apply alloc_inv in Hal as (-> & Hco3 & HR3 & Hpos3 & Hal3).
      destruct (IHew s3 _ _ _ (Hco3 Hco2) ltac:(congruence)
                  ltac:(by rewrite Hcur3) H)
        as (HR' & Hco' & Hpos' & Hstop' & Hl').
      split; [done|]. split; [done|]. split; [lia|]. split; [done|].
      intros Hno. rewrite (Hl' Hno). simpl leaves.
      rewrite fmap_app, (Hl2 Hno), <- app_assoc. f_equal.
      rewrite (skip_first self "|") by (done || lia).
      rewrite Hpos3, Hpos1. apply filter_segment_app; lia.
    + injection H as <- <-.
      split; [done|]. split; [done|]. split; [done|]. split.
      * destruct Hpre as [?|[?|?]]; [by left|done|by right].
      * intros _. by rewrite segment_nil, filter_nil, app_nil_r.
  - (* term *)
    intros self node self' Hco HR H. simpl in H.
    apply bind_Return in H as (n1 & s1 & Hf & H).
    destruct (IHf _ _ _ Hco HR Hf) as (HR1 & Hco1 & Hpos1 & _ & Hl1).
    destruct (IHtw _ _ _ _ Hco1 HR1 I H)
      as (HR' & Hco' & Hpos' & Hstop' & Hl').
    split; [done|]. split; [done|]. split; [lia|]. split; [done|].
    intros Hno. rewrite (Hl' Hno), (Hl1 Hno).
    by apply filter_segment_app.
  - (* term_while *)
    intros self node0 node self' Hco HR _ H. simpl in H.
    apply bind_Return in H as (c & s1 & Hpeek & H).
    injection Hpeek as <- <-.
    destruct (current_char self) as [ch|] eqn:Hch;
      [destruct (decide (ch ≠ "|" ∧ ch ≠ ")")) as [Hgo|Hstop]|].
    + apply bind_Return in H as (n1 & s2 & Hf & H).
      destruct (IHf _ _ _ Hco HR Hf) as (HR2 & Hco2 & Hpos2 & _ & Hl2).
      apply bind_Return in H as (n2 & s3 & Hal & H).
      apply alloc_inv in Hal as (-> & Hco3 & HR3 & Hpos3 & Hal3).
      destruct (IHtw s3 _ _ _ (Hco3 Hco2) ltac:(congruence) I H)
        as (HR' & Hco' & Hpos' & Hstop' & Hl').
      split; [done|]. split; [done|]. split; [lia|]. split; [done|].
      intros Hno. rewrite (Hl' Hno). simpl leaves.
      rewrite fmap_app, (Hl2 Hno), <- app_assoc. f_equal.
      rewrite Hpos3. apply filter_segment_app; lia.
    + injection H as <- <-.
      split; [done|]. split; [done|]. split; [done|]. split.
      * rewrite Hch. destruct (decide (ch = "|")) as [->|Hbar]; [by right; left|].
        destruct (decide (ch = ")")) as [->|Hclose]; [by right; right|].
        by destruct Hstop.
      * intros _. by rewrite segment_nil, filter_nil, app_nil_r.
    + injection H as <- <-.
      split; [done|]. split; [done|]. split; [done|]. split.
      * rewrite Hch. by left.
      * intros _. by rewrite segment_nil, filter_nil, app_nil_r.
  - (* factor *)
    intros self node self' Hco HR H. simpl in H.
    apply bind_Return in H as (n1 & s1 & Hb & H).
    destruct (IHb _ _ _ Hco HR Hb) as (HR1 & Hco1 & Hpos1 & _ & Hl1).
    destruct (factor_while_reads fuel _ _ _ _ Hco1 HR1 I H)
      as (HR' & Hco' & Hpos' & Hstop' & Hl').
    split; [done|]. split; [done|]. split; [lia|]. split; [done|].
    intros Hno. rewrite (Hl' Hno), (Hl1 Hno).
    by apply filter_segment_app.
  - (* base *)
    intros self node self' Hco HR H. simpl in H.
    apply bind_Return in H as (c & s1 & Hpeek & H).
    injection Hpeek as <- <-.
    destruct (decide (current_char self = Some "(")) as [Hopen|Hnopen].
    + apply bind_Return in H as (u & s1 & Hadv & H).
      apply advance_inv in Hadv as (Hco1 & HR1 & Hpos1 & Hal1).
      apply bind_Return in H as (n1 & s2 & He & H).
      destruct (IHe _ _ _ Hco1 ltac:(congruence) He)
        as (HR2 & Hco2 & Hpos2 & _ & Hl2).
      apply bind_Return in H as (c' & s3 & Hpeek & H).
      injection Hpeek as <- <-.
      destruct (decide (current_char s2 ≠ Some ")")) as [|Hclose]; [done|].
      apply dec_stable in Hclose.
      apply bind_Return in H as (u' & s3 & Hadv & H).
      apply advance_inv in Hadv as (Hco3 & HR3 & Hpos3 & Hal3).
      injection H as <- <-.
      split; [congruence|]. split; [done|]. split; [lia|]. split; [done|].
      intros Hno. rewrite (Hl2 Hno), Hpos3.
      rewrite (skip_last s2 ")") by (done || lia).
      rewrite (skip_first self "(") by (done || lia).
      by rewrite Hpos1.
    + destruct (current_char self) as [ch|] eqn:Hch; [|done].
      destruct (isalnum ch || bool_decide (ch = "#")) eqn:Hsym; [|done].
      apply bind_Return in H as (u & s1 & Hadv & H).
      apply advance_inv in Hadv as (Hco1 & HR1 & Hpos1 & Hal1).
      apply alloc_inv in H as (-> & Hco2 & HR2 & Hpos2 & Hal2).
      split; [congruence|]. split; [by auto|]. split; [lia|]. split; [done|].
      intros _. rewrite Hpos2, Hpos1. simpl.
      unfold coherent in Hco. rewrite Hch, HR in Hco.
      rewrite (segment_one R _ ch) by done.
      rewrite filter_cons_True by (cbv beta; unfold is_symbol; rewrite Hsym; exact I). done.
Qed.

(** *** The errors *)

Lemma bind_Raise {A B} (m : parser A) (k : A → parser B) self e :
  bind m k self = Raise e →
  m self = Raise e ∨ ∃ a self1, m self = Return (a, self1) ∧ k a self1 = Raise e.
Proof. unfold bind. destruct (m self) as [[a s1]| |]; naive_solver. Qed.

Lemma factor_while_raises fuel : ∀ node0 self e,
  factor_while fuel node0 self = Raise e → False.
Proof.
  induction fuel as [|fuel IH]; intros node0 self e H; [done|].
  simpl in H. apply bind_Raise in H as [H|(c & s1 & Hpeek & H)]; [done|].
  injection Hpeek as <- <-.
  destruct (decide (current_char self = Some "*")) as [Hstar|Hnstar];
    [|destruct (decide (current_char self = Some "+")) as [Hplus|Hnplus]].
  - apply bind_Raise in H as [H|(u & s1 & Hadv & H)]; [done|].
    apply bind_Raise in H as [H|(n1 & s2 & Hal & H)]; [done|].
    by apply IH in H.
  - apply bind_Raise in H as [H|(u & s1 & Hadv & H)]; [done|].
    apply bind_Raise in H as [H|(n1 & s2 & Hal & H)]; [done|].
    apply bind_Raise in H as [H|(n2 & s3 & Hal' & H)]; [done|].
    by apply IH in H.
  - done.
Qed.

Lemma parser_raises fuel :
  (∀ self e, coherent self → regex self = R →
     expression fuel self = Raise e → parse_error R e)
  ∧ (∀ node0 self e, coherent self → regex self = R →
     expression_while fuel node0 self = Raise e → parse_error R e)
  ∧ (∀ self e, coherent self → regex self = R →
     term fuel self = Raise e → parse_error R e)
  ∧ (∀ node0 self e, coherent self → regex self = R →
     term_while fuel node0 self = Raise e → parse_error R e)
  ∧ (∀ self e, coherent self → regex self = R →
     factor fuel self = Raise e → parse_error R e)
  ∧ (∀ self e, coherent self → regex self = R →
     base fuel self = Raise e → parse_error R e).
Proof.
  induction fuel as [|fuel (IHe & IHew & IHt & IHtw & IHf & IHb)].
  { repeat split; intros; discriminate. }
  destruct (parser_reads fuel) as (Re & Rew & Rt & Rtw & Rf & Rb).
  split; [|split; [|split; [|split; [|split]]]].
  - (* expression *)
    intros self e Hco HR H. simpl in H.
    apply bind_Raise in H as [H|(n1 & s1 & Ht & H)]; [by eapply IHt|].
    destruct (Rt _ _ _ Hco HR Ht) as (HR1 & Hco1 & _).
    by eapply IHew.
  - (* expression_while *)
    intros node0 self e Hco HR H. simpl in H.
    apply bind_Raise in H as [H|(c & s1 & Hpeek & H)]; [done|].
    injection Hpeek as <- <-.
    destruct (decide (current_char self = Some "|")) as [Hbar|Hnbar]; [|done].
    apply bind_Raise in H as [H|(u & s1 & Hadv & H)]; [done|].
    apply advance_inv in Hadv as (Hco1 & HR1 & Hpos1 & Hal1).
    apply bind_Raise in H as [H|(n1 & s2 & Ht & H)];
      [eapply IHt; [exact Hco1|congruence|exact H]|].
    destruct (Rt _ _ _ Hco1 ltac:(congruence) Ht) as (HR2 & Hco2 & _).
    apply bind_Raise in H as [H|(n2 & s3 & Hal & H)]; [done|].
    apply alloc_inv in Hal as (-> & Hco3 & HR3 & Hpos3 & Hal3).
    eapply IHew; [exact (Hco3 Hco2)|congruence|exact H].
  - (* term *)
    intros self e Hco HR H. simpl in H.
    apply bind_Raise in H as [H|(n1 & s1 & Hf & H)]; [by eapply IHf|].
    destruct (Rf _ _ _ Hco HR Hf) as (HR1 & Hco1 & _).
    by eapply IHtw.
  - (* term_while *)
    intros node0 self e Hco HR H. simpl in H.
    apply bind_Raise in H as [H|(c & s1 & Hpeek & H)]; [done|].
    injection Hpeek as <- <-.
    destruct (current_char self) as [ch|] eqn:Hch; [|done].
    destruct (decide (ch ≠ "|" ∧ ch ≠ ")")) as [Hgo|Hstop]; [|done].
    apply bind_Raise in H as [H|(n1 & s2 & Hf & H)]; [by eapply IHf|].
    destruct (Rf _ _ _ Hco HR Hf) as (HR2 & Hco2 & _).
    apply bind_Raise in H as [H|(n2 & s3 & Hal & H)]; [done|].
    apply alloc_inv in Hal as (-> & Hco3 & HR3 & Hpos3 & Hal3).
    eapply IHtw; [exact (Hco3 Hco2)|congruence|exact H].
  - (* factor *)
    intros self e Hco HR H. simpl in H.
    apply bind_Raise in H as [H|(n1 & s1 & Hb & H)]; [by eapply IHb|].
    by apply factor_while_raises in H.
  - (* base *)
    intros self e Hco HR H. simpl in H.
    apply bind_Raise in H as [H|(c & s1 & Hpeek & H)]; [done|].
    injection Hpeek as <- <-.
    destruct (decide (current_char self = Some "(")) as [Hopen|Hnopen].
    + apply bind_Raise in H as [H|(u & s1 & Hadv & H)]; [done|].
      apply advance_inv in Hadv as (Hco1 & HR1 & Hpos1 & Hal1).
      apply bind_Raise in H as [H|(n1 & s2 & He & H)];
        [eapply IHe; [exact Hco1|congruence|exact H]|].
      apply bind_Raise in H as [H|(c' & s3 & Hpeek & H)]; [done|].
      injection Hpeek as <- <-.
      destruct (decide (current_char s2 ≠ Some ")")) as [Hclose|Hclose].
      * injection H as <-. left. split; [done|].
        rewrite <- HR. by apply (coherent_chars self).
      * apply bind_Raise in H as [H|(u' & s3 & Hadv & H)]; done.
    + destruct (current_char self) as [ch|] eqn:Hch.
      * destruct (isalnum ch || bool_decide (ch = "#")) eqn:Hsym.
        -- apply bind_Raise in H as [H|(u & s1 & Hadv & H)]; done.
        -- injection H as <-. right; right. exists ch.
           split; [done|]. split; [rewrite <- HR; by apply (coherent_chars self)|].
           split; [exact Hsym|]. congruence.
      * injection H as <-. right; by left.
Qed.

End parser_reads.

(** ** The parser on a whole regex *)

Section parse_regex_facts.
Import Parser.
Local Open Scope parser_scope.

Lemma parse_regex_Return regex root :
  parse_regex regex = Return root ↔
  ∃ self', parse (fuel_for regex) (RegexParser_init regex) = Return (root, self').
Proof.
  unfold parse_regex.
  destruct (parse (fuel_for regex) (RegexParser_init regex)) as [[n s]| |].
  - split; [intros [= ->]; by exists s|intros (s' & [= -> _]); done].
  - split; [done|by intros (s' & ?)].
  - split; [done|by intros (s' & ?)].
Qed.

(** What a successful parse has read: the input up to its end or up to
    a closing parenthesis that matches no opening one. *)
Lemma parse_regex_reads regex root :
  parse_regex regex = Return root →
  ∃ e h k, root = Concat (S h) e (Symbol h "#")
    ∧ k ≤ String.length regex
    ∧ (k = String.length regex ∨ String.get k regex = Some ")")
    ∧ ("+" ∉ chars regex →
       (leaves e).*2 = filter is_symbol (take k (chars regex))).
Proof.
  intros (self' & H)%parse_regex_Return.
  unfold parse in H.
  apply bind_Return in H as (e & s1 & He & H).
  apply bind_Return in H as (n1 & s2 & Hal & H).
  apply alloc_inv in Hal as (-> & _ & _ & _ & Hal2).
  apply bind_Return in H as (n2 & s3 & Hal & H).
  apply alloc_inv in Hal as (-> & _ & _ & _ & Hal3).
  injection H as <- <-.
  destruct (proj1 (parser_reads regex (fuel_for regex)) _ _ _
              (init_coherent regex) eq_refl He)
    as (HR & Hco & _ & Hstop & Hl).
  unfold coherent in Hco. rewrite HR in Hco.
  exists e, (allocated s1).
  destruct Hstop as [Hnone|Hclose].
  - rewrite Hnone in Hco. symmetry in Hco.
    rewrite <- chars_lookup in Hco. apply lookup_ge_None in Hco.
    rewrite chars_length in Hco.
    exists (String.length regex). rewrite Hal2.
    split; [done|]. split; [done|]. split; [by left|].
    intros Hno. rewrite (Hl Hno). simpl pos.
    rewrite (segment_past regex 0 (pos s1) Hco), drop_0.
    by rewrite <- chars_length, firstn_all.
  - rewrite Hclose in Hco. symmetry in Hco.
    exists (pos s1). rewrite Hal2.
    split; [done|]. split; [by apply get_lt in Hco; lia|].
    split; [by right|].
    intros Hno. rewrite (Hl Hno). simpl pos.
    unfold segment. by rewrite Nat.sub_0_r, drop_0.
Qed.

Lemma parse_regex_raises regex e :
  parse_regex regex = Raise e → parse_error regex e.
Proof.
  unfold parse_regex.
  destruct (parse (fuel_for regex) (RegexParser_init regex))
    as [[n s]| |] eqn:H; [done| |done].
  intros [= <-]. unfold parse in H.
  apply bind_Raise in H as [H|(n1 & s1 & He & H)].
  - exact (proj1 (parser_raises regex (fuel_for regex)) _ _
             (init_coherent regex) eq_refl H).
  - apply bind_Raise in H as [H|(n2 & s2 & Hal & H)]; [done|].
    apply bind_Raise in H as [H|(n3 & s3 & Hal' & H)]; done.
Qed.

(** The first character of the regex is neither a symbol nor an
    opening parenthesis, or there is none. *)
Lemma base_unexpected fuel self :
  match current_char self with
  | Some c => is_symbol c = false ∧ c ≠ "("
  | None => True
  end →
  base (S fuel) self = Raise (UnexpectedCharacter (current_char self)).
Proof.
  intros H. simpl. unfold bind, peek.
  destruct (current_char self) as [c|] eqn:Hc.
  - destruct H as [Hsym Hopen].
    rewrite decide_False by congruence.
    unfold is_symbol in Hsym. by rewrite Hsym.
  - by rewrite decide_False.
Qed.

Lemma parse_regex_first s :
  match String.get 0 s with
  | Some c => is_symbol c = false ∧ c ≠ "("
  | None => True
  end →
  parse_regex s = Raise (UnexpectedCharacter (String.get 0 s)).
Proof.
  intros H. unfold parse_regex, parse, fuel_for.
  replace (7 * String.length s + 7)
    with (S (S (S (S (7 * String.length s + 3))))) by lia.
  pose proof (init_coherent s) as Hco. unfold coherent in Hco.
  cbn [pos regex RegexParser_init] in Hco. rewrite <- Hco in H.
  pose proof (base_unexpected (7 * String.length s + 3) _ H) as Hb.
  rewrite Hco in Hb.
  cbn [expression term factor]. unfold bind at 1 2 3 4.
  by rewrite Hb.
Qed.

End parse_regex_facts.

(** ** More fuel changes nothing *)

Section parser_fuel.
Import Parser.
Local Open Scope parser_scope.

Lemma refines_refl {A} (f : parser A) : refines f f.
Proof. by intros self r. Qed.

Lemma refines_bind {A B} (m m' : parser A) (k k' : A → parser B) :
  refines m m' → (∀ a, refines (k a) (k' a)) →
  refines (bind m k) (bind m' k').
Proof.
  intros Hm Hk self [b s'] H.
  apply bind_Return in H as (a & s1 & Ha & Hb).
  unfold bind. rewrite (Hm _ _ Ha). by apply Hk.
Qed.

Lemma factor_while_S fuel node :
  factor_while (S fuel) node
  = (c <- peek ;;
     if decide (c = Some "*") then
       advance ;;;
       node <- alloc (λ o, Star o node) ;;
       factor_while fuel node
     else if decide (c = Some "+") then
       advance ;;;
       star <- alloc (λ o, Star o node) ;;
       node <- alloc (λ o, Concat o node star) ;;
       factor_while fuel node
     else ret node).
Proof. reflexivity. Qed.

Lemma expression_S fuel :
  expression (S fuel) = (node <- term fuel ;; expression_while fuel node).
Proof. reflexivity. Qed.

Lemma expression_while_S fuel node :
  expression_while (S fuel) node
  = (c <- peek ;;
     if decide (c = Some "|") then
       advance ;;;
       right <- term fuel ;;
       node <- alloc (λ o, Union o node right) ;;
       expression_while fuel node
     else ret node).
Proof. reflexivity. Qed.

Lemma term_S fuel :
  term (S fuel) = (node <- factor fuel ;; term_while fuel node).
Proof. reflexivity. Qed.

Lemma term_while_S fuel node :
  term_while (S fuel) node
  = (c <- peek ;;
     match c with
     | Some ch =>
         if decide (ch ≠ "|" ∧ ch ≠ ")") then
           right <- factor fuel ;;
           node <- alloc (λ o, Concat o node right) ;;
           term_while fuel node
         else ret node
     | None => ret node
     end).
Proof. reflexivity. Qed.

Lemma factor_S fuel :
  factor (S fuel) = (node <- base fuel ;; factor_while fuel node).
Proof. reflexivity. Qed.

Lemma base_S fuel :
  base (S fuel)
  = (c <- peek ;;
     if decide (c = Some "(") then
       advance ;;;
       node <- expression fuel ;;
       c' <- peek ;;
       if decide (c' ≠ Some ")") then raise MismatchedParentheses
       else
         advance ;;;
         ret node
     else
       match c with
       | Some ch =>
           if isalnum ch || bool_decide (ch = "#") then
             advance ;;;
             alloc (λ o, Symbol o ch)
           else raise (UnexpectedCharacter c)
       | None => raise (UnexpectedCharacter c)
       end).
Proof. reflexivity. Qed.

Lemma factor_while_more fuel : ∀ node,
  refines (factor_while fuel node) (factor_while (S fuel) node).
Proof.
  induction fuel as [|fuel IH]; intros node; [by intros self r|].
  rewrite (factor_while_S (S fuel)), (factor_while_S fuel).
  apply refines_bind; [apply refines_refl|]. intros c.
  destruct (decide (c = Some "*")); [|destruct (decide (c = Some "+"))].
  - apply refines_bind; [apply refines_refl|]. intros _.
    apply refines_bind; [apply refines_refl|]. intros n. apply IH.
  - apply refines_bind; [apply refines_refl|]. intros _.
    apply refines_bind; [apply refines_refl|]. intros n1.
    apply refines_bind; [apply refines_refl|]. intros n2. apply IH.
  - apply refines_refl.
Qed.

Lemma parser_more fuel :
  refines (expression fuel) (expression (S fuel))
  ∧ (∀ node, refines (expression_while fuel node)
                     (expression_while (S fuel) node))
  ∧ refines (term fuel) (term (S fuel))
  ∧ (∀ node, refines (term_while fuel node) (term_while (S fuel) node))
  ∧ refines (factor fuel) (factor (S fuel))
  ∧ refines (base fuel) (base (S fuel)).
Proof.
  induction fuel as [|fuel (IHe & IHew & IHt & IHtw & IHf & IHb)].
  { repeat split; intros; by intros self r. }
  split; [|split; [|split; [|split; [|split]]]].
  - rewrite (expression_S (S fuel)), (expression_S fuel).
    apply refines_bind; [exact IHt|exact IHew].
  - intros node.
    rewrite (expression_while_S (S fuel)), (expression_while_S fuel).
    apply refines_bind; [apply refines_refl|]. intros c.
    destruct (decide (c = Some "|")); [|apply refines_refl].
    apply refines_bind; [apply refines_refl|]. intros _.
    apply refines_bind; [exact IHt|]. intros n1.
    apply refines_bind; [apply refines_refl|]. intros n2. apply IHew.
  - rewrite (term_S (S fuel)), (term_S fuel).
    apply refines_bind; [exact IHf|exact IHtw].
  - intros node.
    rewrite (term_while_S (S fuel)), (term_while_S fuel).
    apply refines_bind; [apply refines_refl|]. intros [ch|];
      [|apply refines_refl].
    destruct (decide (ch ≠ "|" ∧ ch ≠ ")")); [|apply refines_refl].
    apply refines_bind; [exact IHf|]. intros n1.
    apply refines_bind; [apply refines_refl|]. intros n2. apply IHtw.
  - rewrite (factor_S (S fuel)), (factor_S fuel).
    apply refines_bind; [exact IHb|]. apply factor_while_more.
  - rewrite (base_S (S fuel)), (base_S fuel).
    apply refines_bind; [apply refines_refl|]. intros c.
    destruct (decide (c = Some "(")); [|apply refines_refl].
    apply refines_bind; [apply refines_refl|]. intros _.
    apply refines_bind; [exact IHe|]. intros n1. apply refines_refl.
Qed.

Lemma parse_more fuel fuel' :
  fuel ≤ fuel' → refines (parse fuel) (parse fuel').
Proof.
  induction 1 as [|fuel' _ IH]; [apply refines_refl|].
  intros self r H. apply IH in H. revert self r H.
  unfold parse. apply refines_bind; [|intros n; apply refines_refl].
  apply (parser_more fuel').
Qed.

End parser_fuel.

(** ** What follows a closing parenthesis that matches none *)

Section parser_prefix.
Import Parser.
Local Open Scope parser_scope.
Variable s s2 : string.
Hypothesis s2_before : ∀ n, n < String.length s → String.get n s2 = String.get n s.
Hypothesis s2_close : String.get (String.length s) s2 = Some ")".
Local Set Default Proof Using "All".

Lemma same_place_current self1 self2 :
  same_place s s2 self1 self2 →
  match current_char self1 with
  | Some c => current_char self2 = Some c
  | None => current_char self2 = Some ")"
  end.
Proof.
  intros (HR1 & HR2 & Hpos & _ & Hco1 & Hco2 & Hle).
  unfold coherent in Hco1, Hco2. rewrite Hco1, Hco2, HR1, HR2, <- Hpos.
  destruct (String.get (pos self1) s) as [c|] eqn:Hget.
  - rewrite s2_before; [done|]. by eapply get_lt.
  - rewrite <- chars_lookup in Hget. apply lookup_ge_None in Hget.
    rewrite chars_length in Hget.
    replace (pos self1) with (String.length s) by lia. exact s2_close.
Qed.

Lemma follows_ret {A} self1 self2 (a : A) :
  same_place s s2 self1 self2 → follows_suit s s2 self1 self2 (ret a) (ret a).
Proof. intros Hsame a' self1' [= <- <-]. by exists self2. Qed.

Lemma follows_raise {A} self1 self2 e (g : parser A) :
  follows_suit s s2 self1 self2 (raise e) g.
Proof. by intros a self1' H. Qed.

Lemma follows_alloc self1 self2 mk :
  same_place s s2 self1 self2 →
  follows_suit s s2 self1 self2 (alloc mk) (alloc mk).
Proof.
  intros (HR1 & HR2 & Hpos & Hal & Hco1 & Hco2 & Hle) a self1' H.
  unfold alloc in *. injection H as <- <-. rewrite Hal.
  eexists. split; [reflexivity|].
  unfold same_place, coherent in *. simpl. done.
Qed.

Lemma follows_advance self1 self2 c :
  same_place s s2 self1 self2 → current_char self1 = Some c →
  follows_suit s s2 self1 self2 advance advance.
Proof.
  intros (HR1 & HR2 & Hpos & Hal & Hco1 & Hco2 & Hle) Hc u self1' H.
  pose proof (coherent_remaining _ _ Hco1 Hc) as Hlt. rewrite HR1 in Hlt.
  pose proof (advance_inv _ _ _ H) as (Hco1' & HR1' & Hpos1' & Hal1').
  destruct (advance self2) as [[u' self2']| |] eqn:H2; [|done..].
  pose proof (advance_inv _ _ _ H2) as (Hco2' & HR2' & Hpos2' & Hal2').
  exists self2'. destruct u, u'. split; [done|].
  unfold same_place. rewrite HR1', HR2', Hpos1', Hpos2', Hal1', Hal2'.
  repeat split; try done; lia.
Qed.

Lemma follows_bind {A B} self1 self2 (m m' : parser A) (k k' : A → parser B) :
  follows_suit s s2 self1 self2 m m' →
  (∀ a s1 s1', same_place s s2 s1 s1' → follows_suit s s2 s1 s1' (k a) (k' a)) →
  follows_suit s s2 self1 self2 (bind m k) (bind m' k').
Proof.
  intros Hm Hk b self1' H.
  apply bind_Return in H as (a & s1 & Ha & Hb).
  destruct (Hm a s1 Ha) as (s1' & Ha' & Hsame).
  destruct (Hk a s1 s1' Hsame b self1' Hb) as (self2' & Hb' & Hsame').
  exists self2'. split; [|done]. unfold bind. by rewrite Ha'.
Qed.

Lemma follows_peek {A} self1 self2 (k k' : option ascii → parser A) :
  follows_suit s s2 self1 self2 (k (current_char self1)) (k' (current_char self2)) →
  follows_suit s s2 self1 self2 (bind peek k) (bind peek k').
Proof. done. Qed.

Lemma factor_while_follows fuel : ∀ node self1 self2,
  same_place s s2 self1 self2 →
  follows_suit s s2 self1 self2 (factor_while fuel node) (factor_while fuel node).
Proof.
  induction fuel as [|fuel IH]; intros node self1 self2 Hsame;
    [by intros a self1' H|].
  rewrite factor_while_S. apply follows_peek.
  pose proof (same_place_current _ _ Hsame) as Hcur.
  destruct (current_char self1) as [c|] eqn:Hc; rewrite Hcur.
  - destruct (decide (Some c = Some "*")); [|destruct (decide (Some c = Some "+"))].
    + apply follows_bind; [by apply (follows_advance _ _ c)|].
      intros _ s1 s1' H1. apply follows_bind; [by apply follows_alloc|].
      intros n t1 t1' H2. by apply IH.
    + apply follows_bind; [by apply (follows_advance _ _ c)|].
      intros _ s1 s1' H1. apply follows_bind; [by apply follows_alloc|].
      intros n1 t1 t1' H2. apply follows_bind; [by apply follows_alloc|].
      intros n2 v1 v1' H3. by apply IH.
    + by apply follows_ret.
  - rewrite !decide_False by done. by apply follows_ret.
Qed.

Lemma parser_follows fuel :
  (∀ self1 self2, same_place s s2 self1 self2 →
     follows_suit s s2 self1 self2 (expression fuel) (expression fuel))
  ∧ (∀ node self1 self2, same_place s s2 self1 self2 →
       follows_suit s s2 self1 self2 (expression_while fuel node)
                    (expression_while fuel node))
  ∧ (∀ self1 self2, same_place s s2 self1 self2 →
       follows_suit s s2 self1 self2 (term fuel) (term fuel))
  ∧ (∀ node self1 self2, same_place s s2 self1 self2 →
       follows_suit s s2 self1 self2 (term_while fuel node)
                    (term_while fuel node))
  ∧ (∀ self1 self2, same_place s s2 self1 self2 →
       follows_suit s s2 self1 self2 (factor fuel) (factor fuel))
  ∧ (∀ self1 self2, same_place s s2 self1 self2 →
       follows_suit s s2 self1 self2 (base fuel) (base fuel)).
Proof.
  induction fuel as [|fuel (IHe & IHew & IHt & IHtw & IHf & IHb)].
  { repeat split; intros; by intros a self1' H'. }
  split; [|split; [|split; [|split; [|split]]]].
  - (* expression *)
    intros self1 self2 Hsame. rewrite expression_S.
    apply follows_bind; [by apply IHt|].
    intros n1 s1 s1' H1. by apply IHew.
  - (* expression_while *)
    intros node self1 self2 Hsame. rewrite expression_while_S.
    apply follows_peek.
    pose proof (same_place_current _ _ Hsame) as Hcur.
    destruct (current_char self1) as [c|] eqn:Hc; rewrite Hcur.
    + destruct (decide (Some c = Some "|")); [|by apply follows_ret].
      apply follows_bind; [by apply (follows_advance _ _ c)|].
      intros _ s1 s1' H1. apply follows_bind; [by apply IHt|].
      intros n1 t1 t1' H2. apply follows_bind; [by apply follows_alloc|].
      intros n2 v1 v1' H3. by apply IHew.
    + rewrite !decide_False by done. by apply follows_ret.
  - (* term *)
    intros self1 self2 Hsame. rewrite term_S.
    apply follows_bind; [by apply IHf|].
    intros n1 s1 s1' H1. by apply IHtw.
  - (* term_while *)
    intros node self1 self2 Hsame. rewrite term_while_S.
    apply follows_peek.
    pose proof (same_place_current _ _ Hsame) as Hcur.
    destruct (current_char self1) as [c|] eqn:Hc; rewrite Hcur.
    + destruct (decide (c ≠ "|" ∧ c ≠ ")")); [|by apply follows_ret].
      apply follows_bind; [by apply IHf|].
      intros n1 s1 s1' H1. apply follows_bind; [by apply follows_alloc|].
      intros n2 t1 t1' H2. by apply IHtw.
    + rewrite decide_False by (intros [_ ?]; done). by apply follows_ret.
  - (* factor *)
    intros self1 self2 Hsame. rewrite factor_S.
    apply follows_bind; [by apply IHb|].
    intros n1 s1 s1' H1. by apply factor_while_follows.
  - (* base *)
    intros self1 self2 Hsame. rewrite base_S.
    apply follows_peek.
    pose proof (same_place_current _ _ Hsame) as Hcur.
    destruct (current_char self1) as [c|] eqn:Hc; rewrite Hcur.
    + destruct (decide (Some c = Some "(")).
      * apply follows_bind; [by apply (follows_advance _ _ c)|].
        intros _ s1 s1' H1. apply follows_bind; [by apply IHe|].
        intros n1 t1 t1' H2. apply follows_peek.
        pose proof (same_place_current _ _ H2) as Hcur2.
        destruct (current_char t1) as [c'|] eqn:Hc'; rewrite Hcur2.
        -- destruct (decide (Some c' ≠ Some ")")); [apply follows_raise|].
           apply follows_bind; [by apply (follows_advance _ _ c')|].
           intros _ v1 v1' H3. by apply follows_ret.
        -- rewrite (decide_True (P := None ≠ Some ")")) by done.
           apply follows_raise.
      * destruct (isalnum c || bool_decide (c = "#")); [|apply follows_raise].
        apply follows_bind; [by apply (follows_advance _ _ c)|].
        intros _ s1 s1' H1. by apply follows_alloc.
    + rewrite (decide_False (P := None = Some "(")) by done.
      apply follows_raise.
Qed.

Lemma parse_follows fuel self1 self2 :
  same_place s s2 self1 self2 →
  follows_suit s s2 self1 self2 (parse fuel) (parse fuel).
Proof.
  intros Hsame. unfold parse.
  apply follows_bind; [by apply (parser_follows fuel)|].
  intros n1 s1 s1' H1. apply follows_bind; [by apply follows_alloc|].
  intros n2 t1 t1' H2. apply follows_bind; [by apply follows_alloc|].
  intros n3 v1 v1' H3. by apply follows_ret.
Qed.

End parser_prefix.

Section parse_regex_prefix.
Import Parser.

Lemma chars_app s t : chars (s ++ t) = chars s ++ chars t.
Proof. induction s as [|c s IH]; simpl; [done|]. by rewrite <- IH. Qed.

Lemma length_app_string s t :
  String.length (s ++ t) = String.length s + String.length t.
Proof. by rewrite <- !chars_length, chars_app, length_app. Qed.

(** A regex that parses, followed by a closing parenthesis and
    anything, parses to the same tree. *)
Lemma parse_regex_close s t root :
  parse_regex s = Return root →
  parse_regex (s ++ String ")" t) = Return root.
Proof.
  intros (self1' & H)%parse_regex_Return.
  assert (Hsame : same_place s (s ++ String ")" t)%string
            (RegexParser_init s) (RegexParser_init (s ++ String ")" t))).
  { unfold same_place. simpl. repeat split; try done.
    - apply init_coherent.
    - apply init_coherent.
    - lia. }
  destruct (parse_follows s (s ++ String ")" t)%string) with
    (fuel := fuel_for s) (self1 := RegexParser_init s)
    (self2 := RegexParser_init (s ++ String ")" t)) (a := root)
    (self1' := self1') as (self2' & H2 & _); [| |done|done|].
  - intros n Hn. rewrite <- !chars_lookup, chars_app.
    apply lookup_app_l. by rewrite chars_length.
  - rewrite <- chars_lookup, chars_app, lookup_app_r
      by (by rewrite chars_length).
    by rewrite chars_length, Nat.sub_diag.
  - apply parse_regex_Return. exists self2'.
    apply (parse_more (fuel_for s)); [|done].
    unfold fuel_for. rewrite length_app_string. lia.
Qed.

End parse_regex_prefix.

(** ** One leaf object for each symbol read *)

Section leaf_objects_facts.

Lemma leaf_objects_binary o l r :
  leaf_objects (Concat o l r) = leaf_objects l ∪ leaf_objects r
  ∧ leaf_objects (Union o l r) = leaf_objects l ∪ leaf_objects r.
Proof.
  unfold leaf_objects. simpl. by rewrite fmap_app, list_to_set_app_L.
Qed.

Lemma size_union_le (X Y : gset nat) : size (X ∪ Y) ≤ size X + size Y.
Proof.
  rewrite size_union_alt.
  assert (size (Y ∖ X) ≤ size Y) by (apply subseteq_size; set_solver). lia.
Qed.

Lemma leaf_objects_binary_size (mk : nat → RegexNode → RegexNode → RegexNode)
    o l r :
  mk = Concat ∨ mk = Union →
  size (leaf_objects (mk o l r)) ≤ size (leaf_objects l) + size (leaf_objects r).
Proof.
  intros [-> | ->].
  - rewrite (proj1 (leaf_objects_binary o l r)). apply size_union_le.
  - rewrite (proj2 (leaf_objects_binary o l r)). apply size_union_le.
Qed.

Lemma leaf_objects_plus o o' node :
  leaf_objects (Concat o' node (Star o node)) = leaf_objects node.
Proof.
  rewrite (proj1 (leaf_objects_binary o' node (Star o node))).
  change (leaf_objects (Star o node)) with (leaf_objects node).
  apply union_idemp_L.
Qed.

Lemma leaf_objects_Symbol o c : size (leaf_objects (Symbol o c)) = 1.
Proof.
  assert (H : leaf_objects (Symbol o c) = {[o]})
    by (apply set_eq; intros x; unfold leaf_objects; simpl; set_solver).
  by rewrite H, size_singleton.
Qed.

End leaf_objects_facts.

Section parser_counts.
Import Parser.
Local Open Scope parser_scope.
Variable R : string.

Lemma symbols_app a b c :
  a ≤ b → b ≤ c →
  length (filter is_symbol (segment R a c))
  = length (filter is_symbol (segment R a b))
    + length (filter is_symbol (segment R b c)).
Proof.
  intros Hab Hbc. by rewrite <- (filter_segment_app R a b c), length_app.
Qed.

Lemma factor_while_counts fuel : ∀ self node0 node self',
  coherent self → regex self = R →
  factor_while fuel node0 self = Return (node, self') →
  size (leaf_objects node)
  ≤ size (leaf_objects node0)
    + length (filter is_symbol (segment R (pos self) (pos self'))).
Proof.
  induction fuel as [|fuel IH]; intros self node0 node self' Hco HR H;
    [done|].
  simpl in H. apply bind_Return in H as (c & s1 & Hpeek & H).
  injection Hpeek as <- <-.
  destruct (decide (current_char self = Some "*")) as [Hstar|Hnstar];
    [|destruct (decide (current_char self = Some "+")) as [Hplus|Hnplus]].
  - apply bind_Return in H as (u & s1 & Hadv & H).
    apply advance_inv in Hadv as (Hco1 & HR1 & Hpos1 & Hal1).
    apply bind_Return in H as (n1 & s2 & Hal & H).
    apply alloc_inv in Hal as (-> & Hco2 & HR2 & Hpos2 & Hal2).
    destruct (factor_while_reads R fuel s2 _ _ _ (Hco2 Hco1)
                ltac:(congruence) I H) as (_ & _ & Hpos' & _).
    pose proof (IH s2 _ _ _ (Hco2 Hco1) ltac:(congruence) H) as Hsize.
    change (leaf_objects (Star (allocated s1) node0))
      with (leaf_objects node0) in Hsize.
    rewrite (skip_first R self "*") by (done || lia).
    by rewrite Hpos2, Hpos1 in Hsize.
  - apply bind_Return in H as (u & s1 & Hadv & H).
    apply advance_inv in Hadv as (Hco1 & HR1 & Hpos1 & Hal1).
    apply bind_Return in H as (n1 & s2 & Hal & H).
    apply alloc_inv in Hal as (-> & Hco2 & HR2 & Hpos2 & Hal2).
    apply bind_Return in H as (n2 & s3 & Hal' & H).
    apply alloc_inv in Hal' as (-> & Hco3 & HR3 & Hpos3 & Hal3).
    destruct (factor_while_reads R fuel s3 _ _ _ (Hco3 (Hco2 Hco1))
                ltac:(congruence) I H) as (_ & _ & Hpos' & _).
    pose proof (IH s3 _ _ _ (Hco3 (Hco2 Hco1)) ltac:(congruence) H) as Hsize.
    rewrite leaf_objects_plus in Hsize.
    rewrite (skip_first R self "+") by (done || lia).
    by rewrite Hpos3, Hpos2, Hpos1 in Hsize.
  - injection H as <- <-. lia.
Qed.

Lemma parser_counts fuel :
  (∀ self node self', coherent self → regex self = R →
     expression fuel self = Return (node, self') →
     size (leaf_objects node)
     ≤ length (filter is_symbol (segment R (pos self) (pos self'))))
  ∧ (∀ self node0 node self', coherent self → regex self = R →
     stop_term (current_char self) →
     expression_while fuel node0 self = Return (node, self') →
     size (leaf_objects node)
     ≤ size (leaf_objects node0)
       + length (filter is_symbol (segment R (pos self) (pos self'))))
  ∧ (∀ self node self', coherent self → regex self = R →
     term fuel self = Return (node, self') →
     size (leaf_objects node)
     ≤ length (filter is_symbol (segment R (pos self) (pos self'))))
  ∧ (∀ self node0 node self', coherent self → regex self = R →
     term_while fuel node0 self = Return (node, self') →
     size (leaf_objects node)
     ≤ size (leaf_objects node0)
       + length (filter is_symbol (segment R (pos self) (pos self'))))
  ∧ (∀ self node self', coherent self → regex self = R →
     factor fuel self = Return (node, self') →
     size (leaf_objects node)
     ≤ length (filter is_symbol (segment R (pos self) (pos self'))))
  ∧ (∀ self node self', coherent self → regex self = R →
     base fuel self = Return (node, self') →
     size (leaf_objects node)
     ≤ length (filter is_symbol (segment R (pos self) (pos self')))).
Proof.
  induction fuel as [|fuel (IHe & IHew & IHt & IHtw & IHf & IHb)].
  { repeat split; intros; discriminate. }
  destruct (parser_reads R fuel) as (Re & Rew & Rt & Rtw & Rf & Rb).
  split; [|split; [|split; [|split; [|split]]]].
  - (* expression *)
    intros self node self' Hco HR H. simpl in H.
    apply bind_Return in H as (n1 & s1 & Ht & H).
    destruct (Rt _ _ _ Hco HR Ht) as (HR1 & Hco1 & Hpos1 & Hstop1 & _).
    destruct (Rew _ _ _ _ Hco1 HR1 Hstop1 H) as (_ & _ & Hpos' & _).
    pose proof (IHt _ _ _ Hco HR Ht) as Hs1.
    pose proof (IHew _ _ _ _ Hco1 HR1 Hstop1 H) as Hs2.
    rewrite (symbols_app (pos self) (pos s1) (pos self')) by done. lia.
  - (* expression_while *)
    intros self node0 node self' Hco HR Hpre H. simpl in H.
    apply bind_Return in H as (c & s1 & Hpeek & H).
    injection Hpeek as <- <-.
    destruct (decide (current_char self = Some "|")) as [Hbar|Hnbar].
    + apply bind_Return in H as (u & s1 & Hadv & H).
      apply advance_inv in Hadv as (Hco1 & HR1 & Hpos1 & Hal1).
      apply bind_Return in H as (n1 & s2 & Ht & H).
      destruct (Rt _ _ _ Hco1 ltac:(congruence) Ht)
        as (HR2 & Hco2 & Hpos2 & Hstop2 & _).
      pose proof (IHt _ _ _ Hco1 ltac:(congruence) Ht) as Hs1.
      apply bind_Return in H as (n2 & s3 & Hal & H).
      pose proof (alloc_current _ _ _ _ Hal) as Hcur3.
      apply alloc_inv in Hal as (-> & Hco3 & HR3 & Hpos3 & Hal3).
      assert (Hstop3 : stop_term (current_char s3)) by (by rewrite Hcur3).
      destruct (Rew s3 _ _ _ (Hco3 Hco2) ltac:(congruence) Hstop3 H)
        as (_ & _ & Hpos' & _).
      pose proof (IHew s3 _ _ _ (Hco3 Hco2) ltac:(congruence) Hstop3 H) as Hs2.
      pose proof (leaf_objects_binary_size Union (allocated s2) node0 n1
                    (or_intror eq_refl)) as Hu.
      rewrite (skip_first R self "|") by (done || lia).
      rewrite (symbols_app (S (pos self)) (pos s2) (pos self')) by lia.
      rewrite Hpos3 in Hs2. rewrite Hpos1 in Hs1. lia.
    + injection H as <- <-. lia.
  - (* term *)
    intros self node self' Hco HR H. simpl in H.
    apply bind_Return in H as (n1 & s1 & Hf & H).
    destruct (Rf _ _ _ Hco HR Hf) as (HR1 & Hco1 & Hpos1 & _ & _).
    destruct (Rtw _ _ _ _ Hco1 HR1 I H) as (_ & _ & Hpos' & _).
    pose proof (IHf _ _ _ Hco HR Hf) as Hs1.
    pose proof (IHtw _ _ _ _ Hco1 HR1 H) as Hs2.
    rewrite (symbols_app (pos self) (pos s1) (pos self')) by done. lia.
  - (* term_while *)
    intros self node0 node self' Hco HR H. simpl in H.
    apply bind_Return in H as (c & s1 & Hpeek & H).
    injection Hpeek as <- <-.
    destruct (current_char self) as [ch|] eqn:Hch;
      [destruct (decide (ch ≠ "|" ∧ ch ≠ ")")) as [Hgo|Hstop]|].
    + apply bind_Return in H as (n1 & s2 & Hf & H).
      destruct (Rf _ _ _ Hco HR Hf) as (HR2 & Hco2 & Hpos2 & _ & _).
      pose proof (IHf _ _ _ Hco HR Hf) as Hs1.
      apply bind_Return in H as (n2 & s3 & Hal & H).
      apply alloc_inv in Hal as (-> & Hco3 & HR3 & Hpos3 & Hal3).
      destruct (Rtw s3 _ _ _ (Hco3 Hco2) ltac:(congruence) I H)
        as (_ & _ & Hpos' & _).
      pose proof (IHtw s3 _ _ _ (Hco3 Hco2) ltac:(congruence) H) as Hs2.
      pose proof (leaf_objects_binary_size Concat (allocated s2) node0 n1
                    (or_introl eq_refl)) as Hu.
      rewrite (symbols_app (pos self) (pos s2) (pos self')) by lia.
      rewrite Hpos3 in Hs2. lia.
    + injection H as <- <-. lia.
    + injection H as <- <-. lia.
  - (* factor *)
    intros self node self' Hco HR H. simpl in H.
    apply bind_Return in H as (n1 & s1 & Hb & H).
    destruct (Rb _ _ _ Hco HR Hb) as (HR1 & Hco1 & Hpos1 & _ & _).
    destruct (factor_while_reads R fuel _ _ _ _ Hco1 HR1 I H)
      as (_ & _ & Hpos' & _).
    pose proof (IHb _ _ _ Hco HR Hb) as Hs1.
    pose proof (factor_while_counts fuel _ _ _ _ Hco1 HR1 H) as Hs2.
    rewrite (symbols_app (pos self) (pos s1) (pos self')) by done. lia.
  - (* base *)
    intros self node self' Hco HR H. simpl in H.
    apply bind_Return in H as (c & s1 & Hpeek & H).
    injection Hpeek as <- <-.
    destruct (decide (current_char self = Some "(")) as [Hopen|Hnopen].
    + apply bind_Return in H as (u & s1 & Hadv & H).
      apply advance_inv in Hadv as (Hco1 & HR1 & Hpos1 & Hal1).
      apply bind_Return in H as (n1 & s2 & He & H).
      destruct (Re _ _ _ Hco1 ltac:(congruence) He)
        as (HR2 & Hco2 & Hpos2 & _ & _).
      pose proof (IHe _ _ _ Hco1 ltac:(congruence) He) as Hs1.
      apply bind_Return in H as (c' & s3 & Hpeek & H).
      injection Hpeek as <- <-.
      destruct (decide (current_char s2 ≠ Some ")")) as [|Hclose]; [done|].
      apply dec_stable in Hclose.
      apply bind_Return in H as (u' & s3 & Hadv & H).
      apply advance_inv in Hadv as (Hco3 & HR3 & Hpos3 & Hal3).
      injection H as <- <-. rewrite Hpos3.
      rewrite (skip_last R s2 ")") by (done || lia).
      rewrite (skip_first R self "(") by (done || lia).
      by rewrite Hpos1 in Hs1.
    + destruct (current_char self) as [ch|] eqn:Hch; [|done].
      destruct (isalnum ch || bool_decide (ch = "#")) eqn:Hsym; [|done].
      apply bind_Return in H as (u & s1 & Hadv & H).
      apply advance_inv in Hadv as (Hco1 & HR1 & Hpos1 & Hal1).
      apply alloc_inv in H as (-> & Hco2 & HR2 & Hpos2 & Hal2).
      rewrite Hpos2, Hpos1.
      unfold coherent in Hco. rewrite Hch, HR in Hco.
      rewrite (segment_one R _ ch) by done.
      rewrite filter_cons_True by (cbv beta; unfold is_symbol; rewrite Hsym; exact I).
      rewrite leaf_objects_Symbol. simpl. lia.
Qed.

End parser_counts.

Section parse_regex_counts.
Import Parser.
Local Open Scope parser_scope.

(** The tree of a regex has at most one leaf object for each
    alphanumeric or [#] character of the regex, and one for the end
    marker. *)
Lemma parse_regex_leaf_objects regex root :
  parse_regex regex = Return root →
  size (leaf_objects root) ≤ length (filter is_symbol (chars regex)) + 1.
Proof.
  intros (self' & H)%parse_regex_Return.
  unfold parse in H.
  apply bind_Return in H as (e & s1 & He & H).
  apply bind_Return in H as (n1 & s2 & Hal & H).
  apply alloc_inv in Hal as (-> & _ & _ & _ & Hal2).
  apply bind_Return in H as (n2 & s3 & Hal & H).
  apply alloc_inv in Hal as (-> & _ & _ & _ & Hal3).
  injection H as <- <-.
  pose proof (proj1 (parser_counts regex (fuel_for regex)) _ _ _
                (init_coherent regex) eq_refl He) as Hsize.
  cbn [pos RegexParser_init] in Hsize.
  pose proof (leaf_objects_binary_size Concat (allocated s2) e
                (Symbol (allocated s1) "#") (or_introl eq_refl)) as Hu.
  assert (Hone : size (leaf_objects (Symbol (allocated s1) "#")) = 1).
  { apply leaf_objects_Symbol. }
  assert (Hseg : length (filter is_symbol (segment regex 0 (pos s1)))
                 ≤ length (filter is_symbol (chars regex))).
  { unfold segment. rewrite Nat.sub_0_r, drop_0.
    rewrite <- (take_drop (pos s1) (chars regex)) at 2.
    rewrite filter_app, length_app. lia. }
  lia.
Qed.

End parse_regex_counts.
(** * What the three functions of the construction mean *)

Lemma matches_inhabited u : ∃ w, matches u w.
Proof.
  induction u as [o c|o l [w1 H1] r [w2 H2]|o l [w1 H1] r _|o l _].
  - exists [c]. apply matches_Symbol.
  - exists (w1 ++ w2). by apply matches_Concat.
  - exists w1. by apply matches_Union_l.
  - exists []. apply matches_Star_nil.
Qed.

Section walks.
Variable m : memory.

Lemma linked_arrives u p ps :
  linked m u p ps ↔ ∃ q, arrives m u p ps q ∧ q ∈ lastpos (attr m u).
Proof.
  revert p. induction ps as [|p' ps IH]; intros p; simpl.
  - split; [intros H; by exists p|by intros (q & -> & H)].
  - rewrite IH. split.
    + intros (Hf & q & Ha & Hq). exists q. done.
    + intros (q & (Hf & Ha) & Hq). split; [done|]. by exists q.
Qed.

Lemma arrives_sub u v p ps q :
  u ∈ subterms v → arrives m u p ps q → arrives m v p ps q.
Proof.
  intros Hu. revert p. induction ps as [|p' ps IH]; intros p; simpl; [done|].
  intros [Hf Ha]. split; [|by apply IH].
  destruct Hf as (w & Hw & Hpq). exists w. split; [|done].
  by eapply subterms_trans.
Qed.

Lemma arrives_app u a xs p q ys b :
  arrives m u a xs p → follows m u p q → arrives m u q ys b →
  arrives m u a (xs ++ q :: ys) b.
Proof.
  revert a. induction xs as [|x xs IH]; intros a; simpl.
  - intros -> Hf Ha. done.
  - intros [Hf' Ha'] Hf Ha. split; [done|]. by apply IH.
Qed.

Lemma arrives_last u p ps q :
  arrives m u p ps q → ∃ ps', p :: ps = ps' ++ [q].
Proof.
  revert p. induction ps as [|p' ps IH]; intros p; simpl.
  - intros ->. by exists [].
  - intros [_ Ha]. destruct (IH p' Ha) as [ps' Heq].
    exists (p :: ps'). by rewrite Heq.
Qed.

Lemma arrives_end u p ps ps' q q' :
  arrives m u p ps q → p :: ps = ps' ++ [q'] → q = q'.
Proof.
  intros Ha Heq. destruct (arrives_last u p ps q Ha) as [ps'' Heq'].
  rewrite Heq' in Heq. by apply app_inj_tail in Heq as [_ ?].
Qed.

Lemma arrives_linked u a xs p q ys :
  arrives m u a xs p → follows m u p q → linked m u q ys →
  linked m u a (xs ++ q :: ys).
Proof.
  intros Ha Hf (b & Hb & Hlast)%linked_arrives.
  apply linked_arrives. exists b. split; [|done].
  by apply (arrives_app u a xs p q ys b).
Qed.

(** Two neighbours in a path are a pair of the node. *)
Lemma path_neighbours u ps1 p q ps2 :
  path m u (ps1 ++ p :: q :: ps2) → follows m u p q.
Proof.
  destruct ps1 as [|a xs]; simpl.
  - by intros (_ & Hf & _).
  - intros [_ Hl]. revert a Hl.
    induction xs as [|x xs IH]; intros a; simpl.
    + by intros (_ & Hf & _).
    + intros [_ Hl]. by apply (IH x).
Qed.

End walks.

Section semantics.
Variable m : memory.
Variable root : RegexNode.
Hypothesis fm_consistent : ∀ u, u ∈ subterms root → consistent m u.
Hypothesis fm_well_formed : well_formed root.
Hypothesis fm_sharing : plus_sharing root.
Hypothesis fm_injective : ∀ oc1 oc2,
  oc1 ∈ leaves root → oc2 ∈ leaves root →
  leaf_position m oc1 = leaf_position m oc2 → oc1.1 = oc2.1.
Hypothesis fm_labelled : ∀ oc,
  oc ∈ leaves root →
  ∃ p, leaf_position m oc = Some p ∧ positions m !! p = Some oc.2.
Local Set Default Proof Using "All".

Local Notation "'FM' l" :=
  (l m root fm_consistent fm_well_formed fm_sharing fm_injective fm_labelled)
  (at level 10, l at level 9, only parsing).

(** Every node has a path. *)
Lemma path_inhabited u : u ∈ subterms root → ∃ ps, path m u ps.
Proof.
  intros Hu. destruct (matches_inhabited u) as [w Hw].
  destruct (FM matches_pmatches u w Hu Hw) as (ps & Hps & _).
  exists ps. by apply (FM pmatches_path).
Qed.

(** From a position that a leaf of the node holds, a path of the node
    can be completed. *)
Lemma suffix_exists u p :
  u ∈ subterms root → p ∈ held m u → ∃ ps, linked m u p ps.
Proof.
  revert p.
  induction u as [o c|o l IHl r IHr|o l IHl r IHr|o l IHl]; intros p Hu Hp;
    pose proof (fm_consistent _ Hu) as Hc; unfold consistent in Hc.
  - destruct Hc as (p0 & Hp0 & _ & _ & Hl).
    exists []. simpl. rewrite Hl.
    apply elem_of_held in Hp as (oc & Hoc & Hp).
    simpl in Hoc. apply list_elem_of_singleton in Hoc as ->.
    unfold leaf_position in Hp. simpl in Hp. rewrite Hp0 in Hp.
    injection Hp as ->. by apply elem_of_singleton.
  - destruct Hc as (_ & _ & Hl).
    pose proof (FM sub_l Concat o l r (or_introl eq_refl) Hu) as Hlr.
    pose proof (FM sub_r Concat o l r (or_introl eq_refl) Hu) as Hrr.
    assert (Hsl : l ∈ subterms (Concat o l r))
      by (simpl; right; apply elem_of_app; left; apply subterms_self).
    assert (Hsr : r ∈ subterms (Concat o l r))
      by (simpl; right; apply elem_of_app; right; apply subterms_self).
    assert (Hlastr : lastpos (attr m r) ⊆ lastpos (attr m (Concat o l r))).
    { rewrite Hl. destruct (nullable (attr m r)).
      - apply union_subseteq_r.
      - done. }
    rewrite (proj1 (held_binary m o l r)) in Hp.
    apply elem_of_union in Hp as [Hp|Hp].
    + destruct (IHl p Hlr Hp) as [ps1 H1].
      destruct (path_inhabited r Hrr) as [ps2 H2].
      exists (ps1 ++ ps2).
      apply (FM linked_join l _ r); [done| | |done|].
      * intros p' q' Hp' Hq'. apply follows_Concat. by left.
      * intros ->. simpl in H2. rewrite Hl, H2. apply union_subseteq_l.
      * destruct ps2 as [|q ps2]; [done|]. destruct H2 as [Hq H2].
        split; [done|]. by apply (FM linked_sub r).
    + destruct (IHr p Hrr Hp) as [ps H]. exists ps.
      by apply (FM linked_sub r).
  - destruct Hc as (_ & _ & Hl).
    pose proof (FM sub_l Union o l r (or_intror eq_refl) Hu) as Hlr.
    pose proof (FM sub_r Union o l r (or_intror eq_refl) Hu) as Hrr.
    rewrite (proj2 (held_binary m o l r)) in Hp.
    apply elem_of_union in Hp as [Hp|Hp].
    + destruct (IHl p Hlr Hp) as [ps H]. exists ps.
      apply (FM linked_sub l); [|rewrite Hl; apply union_subseteq_l|done].
      simpl; right; apply elem_of_app; left; apply subterms_self.
    + destruct (IHr p Hrr Hp) as [ps H]. exists ps.
      apply (FM linked_sub r); [|rewrite Hl; apply union_subseteq_r|done].
      simpl; right; apply elem_of_app; right; apply subterms_self.
  - destruct Hc as (_ & _ & Hl).
    destruct (IHl p (FM sub_star o l Hu) Hp) as [ps H]. exists ps.
    apply (FM linked_sub l); [|by rewrite Hl|done].
    simpl; right; apply subterms_self.
Qed.

(** A position that a leaf of the node holds is arrived at from
    firstpos of the node. *)
Lemma prefix_exists u q :
  u ∈ subterms root → q ∈ held m u →
  ∃ p ps, p ∈ firstpos (attr m u) ∧ arrives m u p ps q.
Proof.
  revert q.
  induction u as [o c|o l IHl r IHr|o l IHl r IHr|o l IHl]; intros q Hu Hq;
    pose proof (fm_consistent _ Hu) as Hc; unfold consistent in Hc.
  - destruct Hc as (p0 & Hp0 & _ & Hf & _).
    exists q, []. simpl. rewrite Hf. split; [|done].
    apply elem_of_held in Hq as (oc & Hoc & Hq).
    simpl in Hoc. apply list_elem_of_singleton in Hoc as ->.
    unfold leaf_position in Hq. simpl in Hq. rewrite Hp0 in Hq.
    injection Hq as ->. by apply elem_of_singleton.
  - destruct Hc as (_ & Hf & _).
    pose proof (FM sub_l Concat o l r (or_introl eq_refl) Hu) as Hlr.
    pose proof (FM sub_r Concat o l r (or_introl eq_refl) Hu) as Hrr.
    assert (Hsl : l ∈ subterms (Concat o l r))
      by (simpl; right; apply elem_of_app; left; apply subterms_self).
    assert (Hsr : r ∈ subterms (Concat o l r))
      by (simpl; right; apply elem_of_app; right; apply subterms_self).
    assert (Hfirstl : firstpos (attr m l) ⊆ firstpos (attr m (Concat o l r))).
    { rewrite Hf. destruct (nullable (attr m l)).
      - apply union_subseteq_l.
      - done. }
    rewrite (proj1 (held_binary m o l r)) in Hq.
    apply elem_of_union in Hq as [Hq|Hq].
    + destruct (IHl q Hlr Hq) as (p & ps & Hp & Ha).
      exists p, ps. split; [by apply Hfirstl|]. by apply (arrives_sub m l).
    + destruct (IHr q Hrr Hq) as (p & ps & Hp & Ha).
      apply (arrives_sub m r (Concat o l r)) in Ha; [|done].
      destruct (nullable (attr m l)) eqn:Hnl.
      * exists p, ps. split; [|done]. rewrite Hf. by apply elem_of_union_r.
      * destruct (path_inhabited l Hlr) as [[|a xs] Hpath];
          [simpl in Hpath; congruence|].
        destruct Hpath as [Ha0 Hlink].
        apply linked_arrives in Hlink as (b & Hb & Hlast).
        apply (arrives_sub m l (Concat o l r)) in Hb; [|done].
        exists a, (xs ++ p :: ps). split; [by apply Hfirstl|].
        apply (arrives_app m _ a xs b p ps q); [done| |done].
        apply follows_Concat. by left.
  - destruct Hc as (_ & Hf & _).
    pose proof (FM sub_l Union o l r (or_intror eq_refl) Hu) as Hlr.
    pose proof (FM sub_r Union o l r (or_intror eq_refl) Hu) as Hrr.
    rewrite (proj2 (held_binary m o l r)) in Hq.
    apply elem_of_union in Hq as [Hq|Hq].
    + destruct (IHl q Hlr Hq) as (p & ps & Hp & Ha).
      exists p, ps. split; [rewrite Hf; by apply elem_of_union_l|].
      apply (arrives_sub m l); [|done].
      simpl; right; apply elem_of_app; left; apply subterms_self.
    + destruct (IHr q Hrr Hq) as (p & ps & Hp & Ha).
      exists p, ps. split; [rewrite Hf; by apply elem_of_union_r|].
      apply (arrives_sub m r); [|done].
      simpl; right; apply elem_of_app; right; apply subterms_self.
  - destruct Hc as (_ & Hf & _).
    destruct (IHl q (FM sub_star o l Hu) Hq) as (p & ps & Hp & Ha).
    exists p, ps. split; [by rewrite Hf|].
    apply (arrives_sub m l); [|done]. simpl; right; apply subterms_self.
Qed.

(** firstpos of a node is the set of the positions that begin a word
    of positions of the node. *)
Lemma firstpos_meaning u p :
  u ∈ subterms root →
  p ∈ firstpos (attr m u) ↔ ∃ ps, pmatches m u (p :: ps).
Proof.
  intros Hu. split.
  - intros Hp.
    destruct (suffix_exists u p Hu (FM final_first u p Hu Hp)) as [ps Hl].
    exists ps. apply (FM path_pmatches); [done|]. by split.
  - intros [ps H]. by apply (FM pmatches_path u _ Hu) in H as [Hp _].
Qed.

(** lastpos of a node is the set of the positions that end a word of
    positions of the node. *)
Lemma lastpos_meaning u q :
  u ∈ subterms root →
  q ∈ lastpos (attr m u) ↔ ∃ ps, pmatches m u (ps ++ [q]).
Proof.
  intros Hu. split.
  - intros Hq.
    destruct (prefix_exists u q Hu (FM final_last u q Hu Hq))
      as (p & ps & Hp & Ha).
    destruct (arrives_last m u p ps q Ha) as [ps' Heq].
    exists ps'. rewrite <- Heq. apply (FM path_pmatches); [done|].
    split; [done|]. apply linked_arrives. by exists q.
  - intros [ps H]. apply (FM pmatches_path u _ Hu) in H.
    destruct ps as [|a xs]; simpl in H.
    + by destruct H as [_ H].
    + destruct H as [_ (b & Hb & Hlast)%linked_arrives].
      by rewrite <- (arrives_end m u a (xs ++ [q]) (a :: xs) b q Hb eq_refl).
Qed.

(** A pair of the tree is a pair of neighbours in a word of positions
    of the tree. *)
Lemma follows_meaning p q :
  follows m root p q ↔ ∃ ps1 ps2, pmatches m root (ps1 ++ p :: q :: ps2).
Proof.
  split.
  - intros Hf.
    destruct (FM follows_held root p q (subterms_self _) Hf) as [Hp Hq].
    destruct (prefix_exists root p (subterms_self _) Hp)
      as (a & xs & Ha & Harr).
    destruct (suffix_exists root q (subterms_self _) Hq) as [ps2 Hl].
    destruct (arrives_last m root a xs p Harr) as [ps1 Heq].
    exists ps1, ps2.
    replace (ps1 ++ p :: q :: ps2) with (a :: xs ++ q :: ps2)
      by (rewrite app_comm_cons, Heq, <- app_assoc; done).
    apply (FM path_pmatches); [apply subterms_self|].
    split; [done|]. by apply (arrives_linked m root a xs p q ps2).
  - intros (ps1 & ps2 & H).
    apply (FM pmatches_path root _ (subterms_self _)) in H.
    by apply path_neighbours in H.
Qed.

End semantics.

(** ** The words the automaton accepts, for every regex *)

Lemma spells_functional P ps w1 w2 : spells P ps w1 → spells P ps w2 → w1 = w2.
Proof.
  intros H1. revert w2.
  induction H1 as [|p c ps w1 Hp _ IH]; intros w2 H2.
  - by apply Forall2_nil_inv_l in H2.
  - apply Forall2_cons_inv_l in H2 as (c' & w2' & Hp' & H2 & ->).
    rewrite Hp in Hp'. injection Hp' as <-. f_equal. by apply IH.
Qed.

Lemma followpos_of_tree m root p q :
  q ∈ followpos_get (compute_followpos elements m root ∅) p
  ↔ follows m root p q.
Proof.
  rewrite (compute_followpos_spec elements (λ X, reflexivity _)).
  unfold followpos_get at 1. rewrite lookup_empty. simpl.
  rewrite elem_of_empty. tauto.
Qed.

(** The end marker of the tree of a regex that parses: its position is
    the only member of lastpos of the root, and its symbol is [#]. *)
Lemma parsed_end_marker regex root m :
  parse_regex regex = Return root →
  ∃ n, lastpos (attr (annotate root (reset m)) root) = {[n]}
       ∧ positions (annotate root (reset m)) !! n = Some "#".
Proof.
  intros Hparse.
  destruct (parsed_final_memory regex root m Hparse) as (Hcons & _).
  destruct (parse_regex_shape regex root Hparse) as (e & h & -> & Hwb).
  destruct (annotate_root regex e h m Hwb) as (_ & _ & Hend & _ & HP).
  exists (leaf_count (Concat (S h) e (Symbol h "#"))). split.
  - destruct (Hcons _ (subterms_self _)) as (_ & _ & Hl).
    rewrite Hl, Hend. done.
  - rewrite HP. rewrite decide_False by lia. by rewrite decide_True.
Qed.

Section automaton_semantics.
Variable set_iter : gset nat → list nat.
Hypothesis set_iter_perm : ∀ X, set_iter X ≡ₚ elements X.
Variable m : memory.
Variable root : RegexNode.
Variable n : nat.
Variable F : gmap nat (gset nat).
Variable d : dfa.
Hypothesis fm_consistent : ∀ u, u ∈ subterms root → consistent m u.
Hypothesis fm_well_formed : well_formed root.
Hypothesis fm_sharing : plus_sharing root.
Hypothesis fm_injective : ∀ oc1 oc2,
  oc1 ∈ leaves root → oc2 ∈ leaves root →
  leaf_position m oc1 = leaf_position m oc2 → oc1.1 = oc2.1.
Hypothesis fm_labelled : ∀ oc,
  oc ∈ leaves root →
  ∃ p, leaf_position m oc = Some p ∧ positions m !! p = Some oc.2.
Hypothesis F_spec : ∀ p q, q ∈ followpos_get F p ↔ follows m root p q.
Hypothesis F_closed : ∀ p X, F !! p = Some X → X ⊆ dom (positions m).
Hypothesis last_root : lastpos (attr m root) = {[n]}.
Hypothesis end_symbol : positions m !! n = Some "#".
Hypothesis d_inv : dfa_inv (positions m) F d.
Hypothesis d_complete : complete_below (positions m) (length (states d)) d.
Hypothesis d_start : state_pos d !! 0 = Some (firstpos (attr m root)).
Local Set Default Proof Using "All".

Local Notation "'FM' l" :=
  (l m root fm_consistent fm_well_formed fm_sharing fm_injective fm_labelled)
  (at level 10, l at level 9, only parsing).

Lemma held_label p :
  p ∈ held m root → ∃ c, positions m !! p = Some c.
Proof.
  intros (oc & Hoc & Hp)%elem_of_held.
  destruct (fm_labelled oc Hoc) as (p' & Hp' & HP).
  rewrite Hp in Hp'. injection Hp' as <-. by eexists.
Qed.

Lemma pmatches_spells u ps :
  u ∈ subterms root → pmatches m u ps → ∃ w, spells (positions m) ps w.
Proof.
  intros Hu H. revert Hu.
  induction H as [o c p Hp|o l r w1 w2 _ IH1 _ IH2|o l r w' _ IH|o l r w' _ IH
                 |o l|o l w1 w2 _ IH1 _ IH2]; intros Hu.
  - destruct (fm_labelled (o, c)) as (p' & Hp' & HP).
    { apply leaves_subterms. exact Hu. }
    rewrite Hp in Hp'. injection Hp' as <-.
    exists [c]. by apply Forall2_cons.
  - destruct (IH1 (FM sub_l Concat o l r (or_introl eq_refl) Hu)) as [v1 S1].
    destruct (IH2 (FM sub_r Concat o l r (or_introl eq_refl) Hu)) as [v2 S2].
    exists (v1 ++ v2). by apply Forall2_app.
  - exact (IH (FM sub_l Union o l r (or_intror eq_refl) Hu)).
  - exact (IH (FM sub_r Union o l r (or_intror eq_refl) Hu)).
  - exists []. apply Forall2_nil_2.
  - destruct (IH1 (FM sub_star o l Hu)) as [v1 S1].
    destruct (IH2 Hu) as [v2 S2].
    exists (v1 ++ v2). by apply Forall2_app.
Qed.

Lemma trail_linked ps q ps2 : ∀ p,
  trail F (followpos_get F p) ps q → linked m root q ps2 →
  linked m root p (ps ++ q :: ps2).
Proof.
  induction ps as [|p' ps IH]; intros p; simpl.
  - intros Hq Hl. split; [by apply F_spec|done].
  - intros [Hp' Ht] Hl. split; [by apply F_spec|by apply IH].
Qed.

Lemma trail_path ps q ps2 :
  trail F (firstpos (attr m root)) ps q → linked m root q ps2 →
  path m root (ps ++ q :: ps2).
Proof.
  destruct ps as [|a xs]; simpl.
  - done.
  - intros [Ha Ht] Hl. split; [done|]. by apply trail_linked.
Qed.

Lemma linked_trail_prefix ps q ps2 : ∀ p,
  linked m root p (ps ++ q :: ps2) → trail F (followpos_get F p) ps q.
Proof.
  induction ps as [|p' ps IH]; intros p; simpl.
  - intros [Hf _]. by apply F_spec.
  - intros [Hf Hl]. split; [by apply F_spec|by apply IH].
Qed.

Lemma path_trail_prefix ps q ps2 :
  path m root (ps ++ q :: ps2) → trail F (firstpos (attr m root)) ps q.
Proof.
  destruct ps as [|a xs]; simpl.
  - by intros [Hq _].
  - intros [Ha Hl]. split; [done|]. by apply (linked_trail_prefix xs q ps2).
Qed.

Lemma trail_in_held ps : ∀ X q,
  X ⊆ held m root → trail F X ps q → q ∈ held m root.
Proof.
  induction ps as [|p ps IH]; intros X q HX; simpl.
  - apply HX.
  - intros [Hp Ht]. apply (IH (followpos_get F p)); [|done].
    intros q' Hq'. apply F_spec in Hq'.
    by apply (FM follows_held root p q' (subterms_self _)) in Hq' as [_ Hq'].
Qed.

(** The automaton accepts [w] exactly when [w] has no [#] and [w]
    followed by [#] begins a word of the regex with its end marker. *)
Lemma accepts_prefix w :
  accepts (states d, accepting_states d) w
  ↔ "#" ∉ w ∧ ∃ v, matches root (w ++ "#" :: v).
Proof.
  rewrite (accepts_reach set_iter set_iter_perm _ _ F_closed d d_inv
             d_complete _ w d_start).
  split.
  - intros (q & (ps & Hs & Hw & Ht) & HPq). split; [done|].
    assert (Hq : q ∈ held m root).
    { apply (trail_in_held ps _ q) in Ht; [done|].
      intros p Hp. exact (FM final_first root p (subterms_self _) Hp). }
    destruct (FM suffix_exists root q (subterms_self _) Hq) as [ps2 Hl].
    pose proof (trail_path ps q ps2 Ht Hl) as Hpath.
    apply (FM path_pmatches root _ (subterms_self _)) in Hpath.
    destruct (pmatches_spells root _ (subterms_self _) Hpath) as [wall Hall].
    pose proof (FM pmatches_matches root _ wall (subterms_self _) Hpath Hall)
      as Hm.
    apply Forall2_app_inv_l in Hall as (w1 & w2 & S1 & S2 & ->).
    apply Forall2_cons_inv_l in S2 as (c & v & Hc & S2 & ->).
    rewrite HPq in Hc. injection Hc as <-.
    rewrite (spells_functional _ _ _ _ Hs S1). by exists v.
  - intros (Hw & v & Hm).
    destruct (FM matches_pmatches root _ (subterms_self _) Hm)
      as (psall & Hp & Hs).
    apply Forall2_app_inv_r in Hs as (ps & qs & S1 & S2 & ->).
    apply Forall2_cons_inv_r in S2 as (q & ps2 & Hq & S2 & ->).
    apply (FM pmatches_path root _ (subterms_self _)) in Hp.
    apply path_trail_prefix in Hp.
    exists q. split; [|done]. by exists ps.
Qed.

(** From a position of a set, reading on reaches a position whose
    symbol is [#]. *)
Lemma reach_hash ps : ∀ p X,
  p ∈ X → p ∈ held m root → arrives m root p ps n →
  ∃ w q, reach (positions m) F X w q ∧ positions m !! q = Some "#".
Proof.
  induction ps as [|p' ps IH]; intros p X HpX Hheld; simpl.
  - intros ->. exists [], n. split; [|done].
    exists []. split; [apply Forall2_nil_2|]. split; [apply not_elem_of_nil|done].
  - intros [Hf Ha].
    destruct (held_label p Hheld) as [c Hc].
    destruct (decide (c = "#")) as [->|Hne].
    + exists [], p. split; [|done].
      exists []. split; [apply Forall2_nil_2|].
      split; [apply not_elem_of_nil|done].
    + destruct (IH p' (followpos_get F p)) as (w & q & (qs & Hs & Hw & Ht) & HPq);
        [by apply F_spec| |done|].
      { by apply (FM follows_held root p p' (subterms_self _)) in Hf as [_ ?]. }
      exists (c :: w), q. split; [|done].
      exists (p :: qs). split; [by apply Forall2_cons|].
      split; [|done]. apply not_elem_of_cons. split; [congruence|done].
Qed.

(** No state is empty, and every state has a word that leads to an
    accepting state. *)
Lemma states_trim j X :
  state_pos d !! j = Some X →
  X ≠ ∅ ∧ X ⊆ held m root
  ∧ ∃ w k, run (states d) j w = Some k ∧ k ∈ accepting_states d.
Proof.
  intros Hj.
  assert (HR : X ≠ ∅ ∧ X ⊆ held m root).
  { revert j X Hj.
    apply (dfa_states_closed set_iter set_iter_perm _ _ F_closed
             (λ X, X ≠ ∅ ∧ X ⊆ held m root) d d_inv).
    - intros X HX. rewrite d_start in HX. injection HX as <-. split.
      + exact (proj1 (proj2 (FM final_tight root (subterms_self _)))).
      + intros p Hp. exact (FM final_first root p (subterms_self _) Hp).
    - intros X c [_ Hsub] Hc (p & Hp & HPp). split.
      + destruct (FM suffix_exists root p (subterms_self _) (Hsub p Hp))
          as [[|q ps] Hl]; simpl in Hl.
        * rewrite last_root in Hl. apply elem_of_singleton in Hl as ->.
          rewrite end_symbol in HPp. congruence.
        * destruct Hl as [Hf _]. apply F_spec in Hf.
          intros Hempty.
          assert (Hq : q ∈ move (positions m) F X c).
          { apply (elem_of_move set_iter set_iter_perm _ _ F_closed).
            by exists p. }
          rewrite Hempty in Hq. by apply elem_of_empty in Hq.
      + intros q Hq.
        apply (elem_of_move set_iter set_iter_perm _ _ F_closed) in Hq
          as (p' & _ & _ & Hq).
        apply F_spec in Hq.
        by apply (FM follows_held root p' q (subterms_self _)) in Hq as [_ ?]. }
  destruct HR as [Hne Hsub]. split; [done|]. split; [done|].
  apply set_choose_L in Hne as [p Hp].
  destruct (FM suffix_exists root p (subterms_self _) (Hsub p Hp)) as [ps Hl].
  apply linked_arrives in Hl as (b & Hb & Hlast).
  rewrite last_root in Hlast. apply elem_of_singleton in Hlast as ->.
  destruct (reach_hash ps p X Hp (Hsub p Hp) Hb) as (w & q & Hreach & HPq).
  apply (run_reach set_iter set_iter_perm _ _ F_closed d d_inv d_complete
           w j X Hj q) in Hreach as (k & Y & Hrun & HY & Hq).
  exists w, k. split; [done|].
  apply (inv_acc _ _ _ d_inv k Y HY). by exists q.
Qed.

End automaton_semantics.

(** ** Conversions *)

Section conversion_semantics.
Variable set_iter : gset nat → list nat.
Hypothesis set_iter_perm : ∀ X, set_iter X ≡ₚ elements X.
Local Set Default Proof Using "All".

Lemma convert_semantics m regex root :
  parse_regex regex = Return root →
  ∃ d, convert set_iter m regex = Return (states d, accepting_states d)
    ∧ (∀ w, accepts (states d, accepting_states d) w
            ↔ "#" ∉ w ∧ ∃ v, matches root (w ++ "#" :: v))
    ∧ (∀ j, j < length (states d) →
            ∃ w k, run (states d) j w = Some k ∧ k ∈ accepting_states d)
    ∧ (∀ j X, state_pos d !! j = Some X → X ≠ ∅)
    ∧ dfa_inv (positions (annotate root (reset m)))
              (compute_followpos elements (annotate root (reset m)) root ∅) d.
Proof.
  intros Hparse.
  destruct (convert_locals_parsed set_iter set_iter_perm m regex root Hparse)
    as (d & _ & Hconv & HF & Hinv & Hcomp & H0).
  destruct (parsed_final_memory regex root m Hparse)
    as (Hcons & Hwf & Hsh & Hinj & Hlab).
  destruct (parsed_end_marker regex root m Hparse) as (n & Hlast & Hend).
  exists d. split; [exact Hconv|]. split; [|split; [|split]].
  - intros w.
    exact (accepts_prefix set_iter set_iter_perm _ root n _ d Hcons Hwf Hsh
             Hinj Hlab (followpos_of_tree _ root) HF Hlast Hend Hinv Hcomp H0 w).
  - intros j Hj. apply (inv_dom _ _ _ Hinv) in Hj as [X HX].
    exact (proj2 (proj2
             (states_trim set_iter set_iter_perm _ root n _ d Hcons Hwf Hsh
                Hinj Hlab (followpos_of_tree _ root) HF Hlast Hend Hinv Hcomp
                H0 j X HX))).
  - intros j X HX.
    exact (proj1
             (states_trim set_iter set_iter_perm _ root n _ d Hcons Hwf Hsh
                Hinj Hlab (followpos_of_tree _ root) HF Hlast Hend Hinv Hcomp
                H0 j X HX)).
  - exact Hinv.
Qed.

End conversion_semantics.
(** * The renderer *)

(** ** The transition dictionaries have distinct keys *)

Lemma for_each_preserves {A S} (Q : S → Prop) (body : S → A → outcome S) l :
  (∀ s a s', Q s → body s a = Return s' → Q s') →
  ∀ s s', Q s → for_each body s l = Return s' → Q s'.
Proof.
  intros Hbody. induction l as [|a l IH]; intros s s' HQ; simpl.
  - by intros [= <-].
  - destruct (body s a) as [s1| |] eqn:Hb; simpl; [|done..].
    apply IH. by eapply Hbody.
Qed.

Section distinct_keys_facts.
Variable set_iter : gset nat → list nat.
Hypothesis set_iter_perm : ∀ X, set_iter X ≡ₚ elements X.
Local Set Default Proof Using "All".

Lemma distinct_keys_with_state S hit d :
  distinct_keys d → distinct_keys (with_state S hit d).
Proof.
  intros Hd i tr. unfold with_state. simpl.
  intros [Hi|[_ Hi]]%lookup_app_Some.
  - by apply (Hd i).
  - destruct (i - length (states d)) as [|k]; simpl in Hi; [|done].
    injection Hi as <-. apply NoDup_nil_2.
Qed.

Lemma distinct_keys_with_transition i c j tr d :
  distinct_keys d → states d !! i = Some tr →
  distinct_keys (with_transition i c j tr d).
Proof.
  intros Hd Htr i' tr'. unfold with_transition. simpl.
  destruct (decide (i = i')) as [<-|Hne].
  - rewrite list_lookup_insert_eq by (by eapply lookup_lt_Some).
    intros [= <-]. apply dict_set_NoDup. by apply (Hd i).
  - rewrite list_lookup_insert_ne by done. apply Hd.
Qed.

Lemma distinct_keys_add_transition P i d item d' :
  distinct_keys d → add_transition set_iter P i d item = Return d' →
  distinct_keys d'.
Proof.
  destruct item as [c S]. intros Hd.
  assert (Hempty : ∀ p (X : gset nat),
            (∅ : gmap nat (gset nat)) !! p = Some X → X ⊆ dom P)
    by (intros p X H; by rewrite lookup_empty in H).
  rewrite (add_transition_unfold set_iter set_iter_perm P ∅ Hempty).
  destruct (pos_state d !! S) as [j|].
  - destruct (states d !! i) as [tr|] eqn:Htr; [|done].
    intros [= <-]. by apply distinct_keys_with_transition.
  - destruct (any_hash P (set_iter S)) as [hit| |]; cbn [obind]; [|done..].
    destruct (states (with_state S hit d) !! i) as [tr|] eqn:Htr; [|done].
    intros [= <-]. apply distinct_keys_with_transition; [|done].
    by apply distinct_keys_with_state.
Qed.

Lemma distinct_keys_process_state P F d d' :
  distinct_keys d → process_state set_iter P F d = Return d' →
  distinct_keys d'.
Proof.
  intros Hd. unfold process_state.
  destruct (queue_appended d !! queue_popped d) as [i|]; [|done].
  cbn [state_pos].
  destruct (state_pos d !! i) as [X|]; [|done].
  destruct (for_each (group_position P F) [] (set_iter X)) as [spm| |];
    simpl; [|done..].
  apply for_each_preserves; [|exact Hd].
  intros s a s'. apply distinct_keys_add_transition.
Qed.

Lemma distinct_keys_construct_while fuel P F : ∀ d d',
  distinct_keys d → construct_while set_iter fuel P F d = Return d' →
  distinct_keys d'.
Proof.
  induction fuel as [|fuel IH]; intros d d' Hd; simpl; [done|].
  case_decide; [|by intros [= <-]].
  destruct (process_state set_iter P F d) as [d1| |] eqn:Hp; simpl; [|done..].
  apply IH. by eapply distinct_keys_process_state.
Qed.

Lemma distinct_keys_construct m root F d :
  construct_dfa_locals set_iter m root F = Return d → distinct_keys d.
Proof.
  unfold construct_dfa_locals, construct_init.
  destruct (any_hash (positions m) (set_iter (firstpos (attr m root))))
    as [hit| |]; cbn [obind]; [|done..].
  intros H. eapply distinct_keys_construct_while; [|exact H].
  intros i tr. cbn [states]. destruct i as [|i]; simpl; [|done].
  intros [= <-]. apply NoDup_nil_2.
Qed.

End distinct_keys_facts.

(** ** The calls of the renderer *)

Lemma elem_of_concat {A} (x : A) (ls : list (list A)) :
  x ∈ concat ls ↔ ∃ l, l ∈ ls ∧ x ∈ l.
Proof.
  induction ls as [|l ls IH]; simpl.
  - split; [by intros ?%elem_of_nil|by intros (l & ?%elem_of_nil & _)].
  - rewrite elem_of_app, IH. split.
    + intros [H|(l' & Hl' & H)].
      * exists l. split; [left|done].
      * exists l'. split; [by right|done].
    + intros (l' & [->|Hl']%elem_of_cons & H); [by left|].
      right. by exists l'.
Qed.

Section drawing.
Variable path_exists : string → bool.
Variable dirname : string → string.

Lemma node_calls_draw acc i tr :
  node_calls (draw_state acc i tr)
  = [(str i, if decide (i ∈ acc) then "doublecircle"%string
             else "circle"%string)].
Proof.
  unfold draw_state, node_calls. cbn [omap list_omap]. f_equal.
  induction tr as [|item tr IH]; [done|]. exact IH.
Qed.

Lemma edge_calls_draw acc i tr :
  edge_calls (draw_state acc i tr)
  = map (λ item, (str i, str item.2, String item.1 ""%string)) tr.
Proof.
  unfold draw_state, edge_calls. cbn [omap list_omap].
  induction tr as [|item tr IH]; [done|]. simpl. f_equal. exact IH.
Qed.

Lemma node_calls_states acc l : ∀ k,
  node_calls (concat (imap (λ i, draw_state acc (k + i)) l))
  = (λ i, (str i, if decide (i ∈ acc) then "doublecircle"%string
                  else "circle"%string)) <$> seq k (length l).
Proof.
  induction l as [|tr l IH]; intros k; [done|].
  rewrite imap_cons. cbn [concat length seq fmap list_fmap].
  unfold node_calls at 1. rewrite omap_app. fold (node_calls (draw_state acc (k + 0) tr)).
  rewrite node_calls_draw, Nat.add_0_r. cbn [app]. f_equal.
  rewrite <- (IH (S k)). unfold node_calls. f_equal. f_equal.
  apply imap_ext. intros i x _. simpl. f_equal. lia.
Qed.

Lemma edge_calls_states acc l tl hd lb : ∀ k,
  (tl, hd, lb) ∈ edge_calls (concat (imap (λ i, draw_state acc (k + i)) l))
  ↔ ∃ i tr c j, l !! i = Some tr ∧ (c, j) ∈ tr
      ∧ tl = str (k + i) ∧ hd = str j ∧ lb = String c ""%string.
Proof.
  intros k. unfold edge_calls at 1. rewrite list_elem_of_omap. split.
  - intros (call & Hcall & Hedge).
    apply elem_of_concat in Hcall as (calls & Hcalls & Hcall).
    apply elem_of_lookup_imap in Hcalls as (i & tr & -> & Htr).
    exists i, tr. unfold draw_state in Hcall.
    apply elem_of_cons in Hcall as [->|Hcall]; [done|].
    apply list_elem_of_fmap in Hcall as ([c j] & -> & Hitem).
    injection Hedge as <- <- <-. by exists c, j.
  - intros (i & tr & c & j & Htr & Hitem & -> & -> & ->).
    exists (dot_edge (str (k + i)) (str j) (String c ""%string)).
    split; [|done]. apply elem_of_concat.
    exists (draw_state acc (k + i) tr). split.
    + by apply (elem_of_lookup_imap_2 (λ i, draw_state acc (k + i))).
    + unfold draw_state. right. apply list_elem_of_fmap. by exists (c, j).
Qed.

Lemma node_calls_visualize states acc image_path :
  node_calls (visualize_dfa path_exists dirname states acc image_path)
  = (λ i, (str i, if decide (i ∈ acc) then "doublecircle"%string
                  else "circle"%string)) <$> seq 0 (length states).
Proof.
  unfold visualize_dfa, node_calls. cbn [omap list_omap].
  rewrite omap_app.
  change (imap (draw_state acc) states)
    with (imap (λ i, draw_state acc (0 + i)) states).
  fold (node_calls (concat (imap (λ i, draw_state acc (0 + i)) states))).
  rewrite (node_calls_states acc states 0).
  destruct (path_exists (dirname image_path)); simpl; by rewrite app_nil_r.
Qed.

Lemma edge_calls_visualize states acc image_path tl hd lb :
  (tl, hd, lb)
  ∈ edge_calls (visualize_dfa path_exists dirname states acc image_path)
  ↔ ∃ i tr c j, states !! i = Some tr ∧ (c, j) ∈ tr
      ∧ tl = str i ∧ hd = str j ∧ lb = String c ""%string.
Proof.
  rewrite <- (edge_calls_states acc states tl hd lb 0).
  unfold visualize_dfa, edge_calls. cbn [omap list_omap].
  rewrite omap_app.
  change (imap (draw_state acc) states)
    with (imap (λ i, draw_state acc (0 + i)) states).
  destruct (path_exists (dirname image_path)); simpl; by rewrite app_nil_r.
Qed.

Lemma node_names_visualize states acc image_path name :
  name ∈ (node_calls
            (visualize_dfa path_exists dirname states acc image_path)).*1
  ↔ ∃ i, i < length states ∧ name = str i.
Proof.
  rewrite node_calls_visualize, <- list_fmap_compose, list_elem_of_fmap.
  split.
  - intros (i & -> & Hi%elem_of_seq). exists i. split; [lia|done].
  - intros (i & Hi & ->). exists i. split; [done|]. apply elem_of_seq. lia.
Qed.

Lemma node_names_distinct states acc image_path :
  NoDup (node_calls
           (visualize_dfa path_exists dirname states acc image_path)).*1.
Proof.
  rewrite node_calls_visualize, <- list_fmap_compose.
  apply NoDup_fmap_2_strong; [|apply NoDup_seq].
  intros i j _ _ Heq. simpl in Heq. by apply (inj pretty) in Heq.
Qed.

(** The drawing of an automaton whose transitions lead to states, have
    distinct symbols that are not [#], and that has an accepting
    state. *)
Lemma visualize_well_drawn states acc image_path :
  (∀ i tr c j, states !! i = Some tr → (c, j) ∈ tr →
               j < length states ∧ c ≠ "#") →
  (∀ i tr, states !! i = Some tr → NoDup tr.*1) →
  (∃ k, k ∈ acc ∧ k < length states) →
  well_drawn (visualize_dfa path_exists dirname states acc image_path).
Proof.
  intros Htarget Hkeys (k & Hk & Hlt). split; [|split; [|split]].
  - intros tl hd lb (i & tr & c & j & Htr & Hitem & -> & -> & ->)%edge_calls_visualize.
    destruct (Htarget i tr c j Htr Hitem) as [Hj Hc].
    split; [|split].
    + apply node_names_visualize. exists i. split; [|done].
      by eapply lookup_lt_Some.
    + apply node_names_visualize. by exists j.
    + intros [= ->]. done.
  - intros tl hd1 hd2 lb
      (i & tr & c & j & Htr & Hitem & -> & -> & ->)%edge_calls_visualize
      (i' & tr' & c' & j' & Htr' & Hitem' & Hi & -> & Hc)%edge_calls_visualize.
    apply (inj pretty) in Hi as <-. injection Hc as <-.
    rewrite Htr in Htr'. injection Htr' as <-.
    pose proof (Hkeys i tr Htr) as Hnd.
    pose proof (dict_get_elem_of c j tr Hnd Hitem) as H1.
    pose proof (dict_get_elem_of c j' tr Hnd Hitem') as H2.
    rewrite H1 in H2. by injection H2 as <-.
  - apply node_names_distinct.
  - exists (str k). rewrite node_calls_visualize. apply list_elem_of_fmap.
    exists k. split; [by rewrite decide_True|]. apply elem_of_seq. lia.
Qed.

End drawing.

Section conversion_drawing.
Variable set_iter : gset nat → list nat.
Hypothesis set_iter_perm : ∀ X, set_iter X ≡ₚ elements X.
Local Set Default Proof Using "All".

Lemma convert_well_drawn m regex root :
  parse_regex regex = Return root →
  ∃ a, convert set_iter m regex = Return a
    ∧ ∀ path_exists dirname image_path,
        well_drawn (visualize_dfa path_exists dirname a.1 a.2 image_path).
Proof.
  intros Hparse.
  destruct (convert_semantics set_iter set_iter_perm m regex root Hparse)
    as (d & Hconv & _ & Htrim & _ & Hinv).
  exists (states d, accepting_states d). split; [exact Hconv|].
  intros path_exists dirname image_path. cbn [fst snd].
  assert (Hkeys : ∀ i tr, states d !! i = Some tr → NoDup tr.*1).
  { unfold convert, convert_locals in Hconv. rewrite Hparse in Hconv.
    cbn [obind] in Hconv.
    destruct (construct_dfa_locals set_iter (annotate root (reset m)) root
                (compute_followpos set_iter (annotate root (reset m)) root ∅))
      as [d'| |] eqn:Hd; cbn [obind conv_dfa] in Hconv; [|done..].
    injection Hconv as Hst _. rewrite <- Hst.
    exact (distinct_keys_construct set_iter set_iter_perm _ _ _ _ Hd). }
  apply visualize_well_drawn.
  - intros i tr c j Htr Hitem.
    pose proof (dict_get_elem_of c j tr (Hkeys i tr Htr) Hitem) as Hget.
    destruct (inv_trans _ _ _ Hinv i tr c j Htr Hget)
      as (X & _ & Hc & _ & HY).
    split; [|done]. apply (inv_dom _ _ _ Hinv). by eexists.
  - exact Hkeys.
  - assert (Hlen : 0 < length (states d)).
    { destruct (convert_locals_parsed set_iter set_iter_perm m regex root
                  Hparse) as (d2 & _ & Hconv2 & _ & Hinv2 & _ & H02).
      rewrite Hconv2 in Hconv. injection Hconv as Hst _.
      rewrite <- Hst. apply (inv_dom _ _ _ Hinv2). by eexists. }
    destruct (Htrim 0 Hlen) as (w & k & _ & Hk).
    exists k. split; [done|]. by apply (inv_acc_lt _ _ _ Hinv).
Qed.

End conversion_drawing.

(** ** Words the automaton can read *)

Section readable.
Variable set_iter : gset nat → list nat.
Hypothesis set_iter_perm : ∀ X, set_iter X ≡ₚ elements X.
Local Set Default Proof Using "All".

Lemma run_index P F d w : ∀ i j,
  dfa_inv P F d → (∀ p X, F !! p = Some X → X ⊆ dom P) →
  i < length (states d) → run (states d) i w = Some j →
  j < length (states d).
Proof.
  induction w as [|c w IH]; intros i j Hinv HF Hi; simpl.
  - by intros [= <-].
  - destruct (states d !! i) as [tr|] eqn:Htr; [|done].
    destruct (dict_get c tr) as [k|] eqn:Hk; [|done].
    apply IH; [done|done|].
    destruct (inv_trans _ _ _ Hinv i tr c k Htr Hk) as (X & _ & _ & _ & HY).
    apply (inv_dom _ _ _ Hinv). by eexists.
Qed.

(** The automaton can read a word exactly when the word begins an
    accepted word. *)
Lemma convert_readable m regex root :
  parse_regex regex = Return root →
  ∃ a, convert set_iter m regex = Return a
    ∧ ∀ w, is_Some (run a.1 0 w) ↔ ∃ v, accepts a (w ++ v).
Proof.
  intros Hparse.
  destruct (convert_semantics set_iter set_iter_perm m regex root Hparse)
    as (d & Hconv & _ & Htrim & _ & Hinv).
  destruct (convert_locals_parsed set_iter set_iter_perm m regex root Hparse)
    as (d2 & _ & Hconv2 & HF & Hinv2 & _ & H02).
  assert (Hlen : 0 < length (states d)).
  { rewrite Hconv2 in Hconv. injection Hconv as Hst _.
    rewrite <- Hst. apply (inv_dom _ _ _ Hinv2). by eexists. }
  exists (states d, accepting_states d). split; [exact Hconv|].
  intros w. unfold accepts. cbn [fst snd]. split.
  - intros [j Hj].
    pose proof (run_index _ _ d w 0 j Hinv HF Hlen Hj) as Hlt.
    destruct (Htrim j Hlt) as (v & k & Hv & Hk).
    exists v, k. split; [|done]. rewrite run_app, Hj. exact Hv.
  - intros (v & k & Hrun & _). rewrite run_app in Hrun.
    destruct (run (states d) 0 w) as [j|]; [by eexists|done].
Qed.

End readable.
(** * Further properties of the code *)

Ltac not_in_chars :=
  unfold chars; simpl;
  repeat (apply not_elem_of_cons; split; [discriminate|]);
  apply not_elem_of_nil.

Section automaton_properties.
(** The order in which a set is visited is any order of its elements. *)
Variable set_iter : gset nat → list nat.
Hypothesis set_iter_perm : ∀ X, set_iter X ≡ₚ elements X.

(** X1: the automaton is correct. For every regex that parses and does
    not contain the character [#], the automaton the conversion returns
    accepts exactly the words the regex matches: reading a word from
    state 0 along the transitions ends in an accepting state if and
    only if the word is in the language of the parsed expression. The
    operand that [+] shares between the concatenation and the star is
    covered. *)
Theorem automaton_language m regex root :
  parse_regex regex = Return root → "#" ∉ chars regex →
  ∃ a, convert set_iter m regex = Return a
    ∧ ∀ w, accepts a w ↔ matches (parsed_expression root) w.
Proof. exact (convert_language set_iter set_iter_perm m regex root). Qed.

(** X2: the automaton is well formed. For every regex that parses, the
    list of states is not empty, every transition leads to an index of
    the list, and every accepting index is an index of the list. *)
Theorem automaton_indices m regex root :
  parse_regex regex = Return root →
  ∃ a, convert set_iter m regex = Return a
    ∧ a.1 ≠ []
    ∧ (∀ i tr c j, a.1 !! i = Some tr → dict_get c tr = Some j →
                   j < length a.1)
    ∧ (∀ i, i ∈ a.2 → i < length a.1).
Proof.
  intros Hparse.
  destruct (convert_locals_parsed set_iter set_iter_perm m regex root Hparse)
    as (d & _ & Hconv & HF & Hinv & Hcomp & H0).
  exists (states d, accepting_states d). split; [exact Hconv|]. simpl.
  split; [|split].
  - assert (Hlt : 0 < length (states d))
      by (apply (inv_dom _ _ _ Hinv); by eexists).
    intros Hnil. rewrite Hnil in Hlt. simpl in Hlt. lia.
  - intros i tr c j Htr Hj.
    exact (dfa_target set_iter set_iter_perm _ _ HF d Hinv Hcomp i tr c j
             Htr Hj).
  - apply (inv_acc_lt _ _ _ Hinv).
Qed.

(** X3: no state is useless on the way in. For every regex that
    parses, every state of the automaton is reached from state 0 by
    reading some word along the transitions. *)
Theorem automaton_states_reachable m regex root :
  parse_regex regex = Return root →
  ∃ a, convert set_iter m regex = Return a
    ∧ ∀ j, j < length a.1 → ∃ w, run a.1 0 w = Some j.
Proof.
  intros Hparse.
  destruct (convert_locals_parsed set_iter set_iter_perm m regex root Hparse)
    as (d & _ & Hconv & HF & Hinv & Hcomp & H0).
  exists (states d, accepting_states d). split; [exact Hconv|]. simpl.
  exact (dfa_reachable set_iter set_iter_perm _ _ HF d Hinv Hcomp).
Qed.

(** X4: the states are made of the positions the leaves hold. In every
    conversion the position-set of every state holds only positions
    that leaf objects of the tree hold when annotation ends, so the
    positions a shared operand of [+] was given on its first visit occur
    in no state, and the number of states is at most [2 ^ k] for [k]
    distinct leaf objects, the end marker included. *)
Theorem automaton_states_of_leaves m regex root :
  parse_regex regex = Return root →
  ∃ c, convert_locals set_iter m regex = Return c ∧ conv_root c = root
    ∧ (∀ i X, state_pos (conv_dfa c) !! i = Some X →
              X ⊆ held (conv_memory c) root)
    ∧ length (states (conv_dfa c)) ≤ 2 ^ size (leaf_objects root).
Proof. exact (convert_states_held set_iter set_iter_perm m regex root). Qed.

(** X5: the followpos table is made of the pairs of the nodes.
    Whatever the table held before and whatever the order in which the
    sets are visited, after [compute_followpos] position [q] is in the
    entry of position [p] exactly when it was there before, or some
    concatenation node of the tree has [p] in lastpos of its left
    operand and [q] in firstpos of its right operand, or some star node
    has [p] in its lastpos and [q] in its firstpos; a missing entry
    reads as the empty set. *)
Theorem followpos_table_pairs m node tbl p q :
  q ∈ followpos_get (compute_followpos set_iter m node tbl) p
  ↔ q ∈ followpos_get tbl p ∨ follows m node p q.
Proof. exact (compute_followpos_spec set_iter set_iter_perm m node tbl p q). Qed.

(** X6: a position the table lacks. When firstpos of the root holds a
    position that is not a key of the position table (the globals were
    reset after the annotation, say), [construct_dfa] raises [KeyError],
    whatever the followpos table: at the latest when the loop looks up
    the symbols of the positions of state 0. *)
Theorem construct_dfa_missing_position m root F p :
  p ∈ firstpos (attr m root) → positions m !! p = None →
  construct_dfa set_iter m root F = Raise KeyError.
Proof. exact (construct_dfa_missing set_iter set_iter_perm m root F p). Qed.

End automaton_properties.

(** X1 at the regex [a|b], the sets visited in the order of [elements]. *)
Lemma automaton_language_witness :
  parse_regex "a|b"
  = Return (Concat 4 (Union 2 (Symbol 0 "a") (Symbol 1 "b")) (Symbol 3 "#"))
  ∧ "#" ∉ chars "a|b"
  ∧ ∃ a, convert elements fresh_memory "a|b" = Return a
      ∧ ∀ w, accepts a w ↔ matches (Union 2 (Symbol 0 "a") (Symbol 1 "b")) w.
Proof.
  assert (Hparse : parse_regex "a|b"
    = Return (Concat 4 (Union 2 (Symbol 0 "a") (Symbol 1 "b")) (Symbol 3 "#")))
    by (vm_compute; reflexivity).
  assert (Hhash : "#" ∉ chars "a|b") by not_in_chars.
  split; [exact Hparse|]. split; [exact Hhash|].
  exact (automaton_language elements (λ X, reflexivity _) fresh_memory
           "a|b" _ Hparse Hhash).
Defined.

(** X2 at the regex [ab]. *)
Lemma automaton_indices_witness :
  parse_regex "ab"
  = Return (Concat 4 (Concat 2 (Symbol 0 "a") (Symbol 1 "b")) (Symbol 3 "#"))
  ∧ ∃ a, convert elements fresh_memory "ab" = Return a
      ∧ a.1 ≠ []
      ∧ (∀ i tr c j, a.1 !! i = Some tr → dict_get c tr = Some j →
                     j < length a.1)
      ∧ (∀ i, i ∈ a.2 → i < length a.1).
Proof.
  assert (Hparse : parse_regex "ab"
    = Return (Concat 4 (Concat 2 (Symbol 0 "a") (Symbol 1 "b")) (Symbol 3 "#")))
    by (vm_compute; reflexivity).
  split; [exact Hparse|].
  exact (automaton_indices elements (λ X, reflexivity _) fresh_memory
           "ab" _ Hparse).
Defined.

(** X3 at the regex [ab]. *)
Lemma automaton_states_reachable_witness :
  parse_regex "ab"
  = Return (Concat 4 (Concat 2 (Symbol 0 "a") (Symbol 1 "b")) (Symbol 3 "#"))
  ∧ ∃ a, convert elements fresh_memory "ab" = Return a
      ∧ ∀ j, j < length a.1 → ∃ w, run a.1 0 w = Some j.
Proof.
  assert (Hparse : parse_regex "ab"
    = Return (Concat 4 (Concat 2 (Symbol 0 "a") (Symbol 1 "b")) (Symbol 3 "#")))
    by (vm_compute; reflexivity).
  split; [exact Hparse|].
  exact (automaton_states_reachable elements (λ X, reflexivity _) fresh_memory
           "ab" _ Hparse).
Defined.

(** X4 at the regex [a+]: two leaf objects, at most four states. *)
Lemma automaton_states_of_leaves_witness :
  parse_regex "a+"
  = Return (Concat 4 (Concat 2 (Symbol 0 "a") (Star 1 (Symbol 0 "a")))
                   (Symbol 3 "#"))
  ∧ ∃ c, convert_locals elements fresh_memory "a+" = Return c
      ∧ conv_root c
        = Concat 4 (Concat 2 (Symbol 0 "a") (Star 1 (Symbol 0 "a")))
                 (Symbol 3 "#")
      ∧ (∀ i X, state_pos (conv_dfa c) !! i = Some X →
                X ⊆ held (conv_memory c)
                      (Concat 4 (Concat 2 (Symbol 0 "a") (Star 1 (Symbol 0 "a")))
                              (Symbol 3 "#")))
      ∧ length (states (conv_dfa c))
        ≤ 2 ^ size (leaf_objects
                      (Concat 4 (Concat 2 (Symbol 0 "a") (Star 1 (Symbol 0 "a")))
                              (Symbol 3 "#"))).
Proof.
  assert (Hparse : parse_regex "a+"
    = Return (Concat 4 (Concat 2 (Symbol 0 "a") (Star 1 (Symbol 0 "a")))
                     (Symbol 3 "#")))
    by (vm_compute; reflexivity).
  split; [exact Hparse|].
  exact (automaton_states_of_leaves elements (λ X, reflexivity _) fresh_memory
           "a+" _ Hparse).
Defined.

(** X5 for the star of a leaf that holds position 1, the sets visited
    in the order of [elements]. *)
Lemma followpos_table_pairs_witness :
  1 ∈ followpos_get
        (compute_followpos elements
           (annotate (Star 1 (Symbol 0 "a")) fresh_memory)
           (Star 1 (Symbol 0 "a")) ∅) 1
  ↔ 1 ∈ followpos_get ∅ 1
    ∨ follows (annotate (Star 1 (Symbol 0 "a")) fresh_memory)
              (Star 1 (Symbol 0 "a")) 1 1.
Proof.
  exact (followpos_table_pairs elements (λ X, reflexivity _)
           (annotate (Star 1 (Symbol 0 "a")) fresh_memory)
           (Star 1 (Symbol 0 "a")) ∅ 1 1).
Defined.

(** X6 for a leaf that holds position 1 and an empty position table. *)
Lemma construct_dfa_missing_position_witness :
  construct_dfa elements
    {| position_counter := 1; positions := ∅;
       objects := {[0 := {| nullable := false; firstpos := {[1]};
                            lastpos := {[1]}; position := Some 1 |}]} |}
    (Symbol 0 "a") ∅
  = Raise KeyError.
Proof.
  apply (construct_dfa_missing_position elements (λ X, reflexivity _) _ _ _ 1).
  - vm_compute. reflexivity.
  - vm_compute. reflexivity.
Defined.

(** X7: the order in which Python visits a set does not matter. For two
    orders of visiting sets, the conversions of a regex that parses
    build the same followpos table and return automata with the same
    number of states that accept the same words; only the numbering of
    the states may differ. *)
Theorem conversion_order_independent (s1 s2 : gset nat → list nat) m regex root :
  (∀ X, s1 X ≡ₚ elements X) → (∀ X, s2 X ≡ₚ elements X) →
  parse_regex regex = Return root →
  ∃ a1 a2, convert s1 m regex = Return a1 ∧ convert s2 m regex = Return a2
    ∧ length a1.1 = length a2.1
    ∧ (∀ w, accepts a1 w ↔ accepts a2 w)
    ∧ compute_followpos s1 (annotate root (reset m)) root ∅
      = compute_followpos s2 (annotate root (reset m)) root ∅.
Proof.
  intros Hs1 Hs2 Hparse.
  destruct (convert_locals_parsed s1 Hs1 m regex root Hparse)
    as (d1 & _ & Hconv1 & HF & Hinv1 & Hcomp1 & H1).
  destruct (convert_locals_parsed s2 Hs2 m regex root Hparse)
    as (d2 & _ & Hconv2 & _ & Hinv2 & Hcomp2 & H2).
  exists (states d1, accepting_states d1), (states d2, accepting_states d2).
  split; [exact Hconv1|]. split; [exact Hconv2|]. split; [|split].
  - exact (dfa_length_order s1 s2 _ _ d1 d2 _ Hs1 Hs2 HF Hinv1 Hcomp1
             Hinv2 Hcomp2 H1 H2).
  - intros w.
    rewrite (accepts_reach s1 Hs1 _ _ HF d1 Hinv1 Hcomp1 _ w H1).
    by rewrite (accepts_reach s2 Hs2 _ _ HF d2 Hinv2 Hcomp2 _ w H2).
  - rewrite (compute_followpos_order s1 Hs1).
    by rewrite (compute_followpos_order s2 Hs2).
Qed.

(** X7 at the regex [ab], for the order of [elements] and its reverse. *)
Lemma conversion_order_independent_witness :
  parse_regex "ab"
  = Return (Concat 4 (Concat 2 (Symbol 0 "a") (Symbol 1 "b")) (Symbol 3 "#"))
  ∧ ∃ a1 a2, convert elements fresh_memory "ab" = Return a1
      ∧ convert (λ X, reverse (elements X)) fresh_memory "ab" = Return a2
      ∧ length a1.1 = length a2.1
      ∧ (∀ w, accepts a1 w ↔ accepts a2 w)
      ∧ compute_followpos elements
          (annotate (Concat 4 (Concat 2 (Symbol 0 "a") (Symbol 1 "b"))
                            (Symbol 3 "#")) (reset fresh_memory))
          (Concat 4 (Concat 2 (Symbol 0 "a") (Symbol 1 "b")) (Symbol 3 "#")) ∅
        = compute_followpos (λ X, reverse (elements X))
            (annotate (Concat 4 (Concat 2 (Symbol 0 "a") (Symbol 1 "b"))
                              (Symbol 3 "#")) (reset fresh_memory))
            (Concat 4 (Concat 2 (Symbol 0 "a") (Symbol 1 "b")) (Symbol 3 "#")) ∅.
Proof.
  assert (Hparse : parse_regex "ab"
    = Return (Concat 4 (Concat 2 (Symbol 0 "a") (Symbol 1 "b")) (Symbol 3 "#")))
    by (vm_compute; reflexivity).
  split; [exact Hparse|].
  exact (conversion_order_independent elements (λ X, reverse (elements X))
           fresh_memory "ab" _ (λ X, reflexivity _)
           (λ X, reverse_Permutation (elements X)) Hparse).
Defined.

(** X8: the attributes satisfy the equations of the construction in the
    memory annotation ends with. For every node of the tree of a regex
    that parses: a leaf holds a position [p], is not nullable, and has
    firstpos and lastpos [{p}]; a concatenation, a union and a star have
    the nullable flag and the two sets that the rules prescribe from the
    attributes their operands have at the end, also where an operand of
    [+] has been visited a second time after the node was computed. *)
Theorem annotate_equations regex root m u :
  parse_regex regex = Return root → u ∈ subterms root →
  consistent (annotate root (reset m)) u.
Proof.
  intros Hparse Hu.
  destruct (parsed_final_memory regex root m Hparse) as (Hcons & _).
  by apply Hcons.
Qed.

(** X8 at the regex [a+], for the concatenation whose operands share a
    leaf. *)
Lemma annotate_equations_witness :
  parse_regex "a+"
  = Return (Concat 4 (Concat 2 (Symbol 0 "a") (Star 1 (Symbol 0 "a")))
                   (Symbol 3 "#"))
  ∧ Concat 2 (Symbol 0 "a") (Star 1 (Symbol 0 "a"))
    ∈ subterms (Concat 4 (Concat 2 (Symbol 0 "a") (Star 1 (Symbol 0 "a")))
                         (Symbol 3 "#"))
  ∧ consistent
      (annotate (Concat 4 (Concat 2 (Symbol 0 "a") (Star 1 (Symbol 0 "a")))
                          (Symbol 3 "#")) (reset fresh_memory))
      (Concat 2 (Symbol 0 "a") (Star 1 (Symbol 0 "a"))).
Proof.
  assert (Hparse : parse_regex "a+"
    = Return (Concat 4 (Concat 2 (Symbol 0 "a") (Star 1 (Symbol 0 "a")))
                     (Symbol 3 "#")))
    by (vm_compute; reflexivity).
  assert (Hsub : Concat 2 (Symbol 0 "a") (Star 1 (Symbol 0 "a"))
    ∈ subterms (Concat 4 (Concat 2 (Symbol 0 "a") (Star 1 (Symbol 0 "a")))
                         (Symbol 3 "#")))
    by (simpl; apply list_elem_of_further, list_elem_of_here).
  split; [exact Hparse|]. split; [exact Hsub|].
  exact (annotate_equations "a+" _ fresh_memory _ Hparse Hsub).
Defined.

(** X9: the nullable flag says whether the empty word is matched. After
    the annotation of the tree of a regex that parses, the flag of a
    node is set exactly when the language of the node contains the
    empty word. *)
Theorem nullable_empty_word regex root m u :
  parse_regex regex = Return root → u ∈ subterms root →
  nullable (attr (annotate root (reset m)) u) = true ↔ matches u [].
Proof.
  intros Hparse Hu.
  destruct (parse_regex_well_formed regex root Hparse) as (Hwf & _).
  rewrite (annotate_nullable root (reset m) u Hwf Hu).
  symmetry. apply matches_nil_nullable.
Qed.

(** X9 at the regex [a*], for the star. *)
Lemma nullable_empty_word_witness :
  parse_regex "a*" = Return (Concat 3 (Star 1 (Symbol 0 "a")) (Symbol 2 "#"))
  ∧ Star 1 (Symbol 0 "a")
    ∈ subterms (Concat 3 (Star 1 (Symbol 0 "a")) (Symbol 2 "#"))
  ∧ (nullable (attr (annotate (Concat 3 (Star 1 (Symbol 0 "a")) (Symbol 2 "#"))
                              (reset fresh_memory))
                    (Star 1 (Symbol 0 "a"))) = true
     ↔ matches (Star 1 (Symbol 0 "a")) []).
Proof.
  assert (Hparse : parse_regex "a*"
    = Return (Concat 3 (Star 1 (Symbol 0 "a")) (Symbol 2 "#")))
    by (vm_compute; reflexivity).
  assert (Hsub : Star 1 (Symbol 0 "a")
    ∈ subterms (Concat 3 (Star 1 (Symbol 0 "a")) (Symbol 2 "#")))
    by (simpl; apply list_elem_of_further, list_elem_of_here).
  split; [exact Hparse|]. split; [exact Hsub|].
  exact (nullable_empty_word "a*" _ fresh_memory _ Hparse Hsub).
Defined.

(** X10: firstpos and lastpos are sets of positions of leaves of the
    node. After the annotation of the tree of a regex that parses,
    neither set of a node is empty, and both hold only positions that
    leaves below the node hold at the end. *)
Theorem firstpos_lastpos_of_leaves regex root m u :
  parse_regex regex = Return root → u ∈ subterms root →
  firstpos (attr (annotate root (reset m)) u) ≠ ∅
  ∧ lastpos (attr (annotate root (reset m)) u) ≠ ∅
  ∧ firstpos (attr (annotate root (reset m)) u)
    ⊆ held (annotate root (reset m)) u
  ∧ lastpos (attr (annotate root (reset m)) u)
    ⊆ held (annotate root (reset m)) u.
Proof.
  intros Hparse Hu.
  destruct (parsed_final_memory regex root m Hparse)
    as (Hcons & Hwf & Hsh & Hinj & Hlab).
  destruct (final_tight _ _ Hcons Hwf Hsh Hinj Hlab u Hu)
    as ([Hf Hl] & Hf0 & Hl0).
  done.
Qed.

(** X10 at the regex [ab], for the root. *)
Lemma firstpos_lastpos_of_leaves_witness :
  parse_regex "ab"
  = Return (Concat 4 (Concat 2 (Symbol 0 "a") (Symbol 1 "b")) (Symbol 3 "#"))
  ∧ firstpos (attr (annotate (Concat 4 (Concat 2 (Symbol 0 "a") (Symbol 1 "b"))
                                     (Symbol 3 "#")) (reset fresh_memory))
                   (Concat 4 (Concat 2 (Symbol 0 "a") (Symbol 1 "b"))
                           (Symbol 3 "#"))) ≠ ∅.
Proof.
  assert (Hparse : parse_regex "ab"
    = Return (Concat 4 (Concat 2 (Symbol 0 "a") (Symbol 1 "b")) (Symbol 3 "#")))
    by (vm_compute; reflexivity).
  split; [exact Hparse|].
  exact (proj1 (firstpos_lastpos_of_leaves "ab" _ fresh_memory _ Hparse
                  (subterms_self _))).
Defined.

(** X11: [annotate] numbers on from the counter. From any memory, the
    visit of a tree advances [position_counter] by the number of leaves
    visited and writes, for the [i]-th leaf visited, its symbol at key
    [position_counter + i]; every other entry of the position table is
    left as it was. Without the reset the hosts make, a second
    conversion would therefore number on after the first. *)
Theorem annotate_numbering node m :
  position_counter (annotate node m) = position_counter m + leaf_count node
  ∧ ∀ p, positions (annotate node m) !! p
         = if decide (position_counter m ≤ p
                      < position_counter m + leaf_count node)
           then (leaves node).*2 !! (p - position_counter m)
           else positions m !! p.
Proof.
  split; [apply annotate_counter|]. intros p. apply annotate_positions.
Qed.

(** X12: the parser returns or fails with one of its two errors. For
    every regex, parsing ends: it returns a tree, or raises `Mismatched
    parentheses` for a regex that contains an opening parenthesis, or
    raises `Unexpected character` with the end of the input or with a
    character of the regex that is neither alphanumeric, nor [#], nor an
    opening parenthesis. *)
Theorem parser_outcomes regex :
  (∃ root, parse_regex regex = Return root)
  ∨ (∃ e, parse_regex regex = Raise e ∧ parse_error regex e).
Proof.
  destruct (parse_regex regex) as [root|e|] eqn:H.
  - left. by exists root.
  - right. exists e. split; [done|]. by apply parse_regex_raises.
  - by apply parse_regex_fuelled in H.
Qed.

(** X13: a regex that cannot start. The empty regex fails with
    `Unexpected character: None`, and a regex whose first character is
    neither alphanumeric, nor [#], nor an opening parenthesis (an
    operator, a closing parenthesis, a space, ...) fails with
    `Unexpected character` of that character, whatever follows. *)
Theorem parser_first_character :
  parse_regex "" = Raise (UnexpectedCharacter None)
  ∧ ∀ c s, is_symbol c = false → c ≠ "(" →
           parse_regex (String c s) = Raise (UnexpectedCharacter (Some c)).
Proof.
  split.
  - by apply (parse_regex_first "").
  - intros c s Hsym Hopen. by apply (parse_regex_first (String c s)).
Qed.

(** X13 at the regex [*a]. *)
Lemma parser_first_character_witness :
  is_symbol "*" = false ∧ "*" ≠ "("
  ∧ parse_regex "*a" = Raise (UnexpectedCharacter (Some "*")).
Proof.
  assert (Hsym : is_symbol "*" = false) by reflexivity.
  assert (Hopen : "*" ≠ "(") by discriminate.
  split; [exact Hsym|]. split; [exact Hopen|].
  exact (proj2 parser_first_character "*" "a"%string Hsym Hopen).
Defined.



(** X15: the position table spells the regex. After the conversion of a
    regex without [+] that parses, the position table has no key 0 and
    maps the keys 1, 2, ... to the alphanumeric and [#] characters of
    the part of the regex that was read, in order, followed by the [#]
    of the end marker. *)
Theorem position_table_spells_regex regex root m :
  parse_regex regex = Return root → "+" ∉ chars regex →
  ∃ k, k ≤ String.length regex
    ∧ (k = String.length regex ∨ String.get k regex = Some ")")
    ∧ positions (annotate root (reset m)) !! 0 = None
    ∧ ∀ i, positions (annotate root (reset m)) !! (S i)
           = (filter is_symbol (take k (chars regex)) ++ ["#"]) !! i.
Proof.
  intros Hparse Hno.
  destruct (parse_regex_reads regex root Hparse)
    as (e & h & k & -> & Hk & Hstop & Hl).
  exists k. split; [done|]. split; [done|].
  assert (Hleaves : (leaves (Concat (S h) e (Symbol h "#"))).*2
                    = filter is_symbol (take k (chars regex)) ++ ["#"]).
  { simpl leaves. by rewrite fmap_app, (Hl Hno). }
  split.
  - rewrite annotate_positions. by rewrite decide_False by (simpl; lia).
  - intros i. rewrite annotate_positions, <- Hleaves.
    cbn [position_counter reset]. case_decide as Hi.
    + f_equal. lia.
    + cbn [positions reset]. rewrite lookup_empty. symmetry.
      apply lookup_ge_None. rewrite length_fmap. unfold leaf_count in Hi. lia.
Qed.

(** X15 at the regex [a|b]. *)
Lemma position_table_spells_regex_witness :
  parse_regex "a|b"
  = Return (Concat 4 (Union 2 (Symbol 0 "a") (Symbol 1 "b")) (Symbol 3 "#"))
  ∧ "+" ∉ chars "a|b"
  ∧ ∃ k, k ≤ String.length "a|b"
      ∧ (k = String.length "a|b" ∨ String.get k "a|b" = Some ")")
      ∧ positions (annotate (Concat 4 (Union 2 (Symbol 0 "a") (Symbol 1 "b"))
                                    (Symbol 3 "#")) (reset fresh_memory)) !! 0
        = None
      ∧ ∀ i, positions (annotate (Concat 4 (Union 2 (Symbol 0 "a") (Symbol 1 "b"))
                                         (Symbol 3 "#")) (reset fresh_memory))
               !! (S i)
             = (filter is_symbol (take k (chars "a|b")) ++ ["#"]) !! i.
Proof.
  assert (Hparse : parse_regex "a|b"
    = Return (Concat 4 (Union 2 (Symbol 0 "a") (Symbol 1 "b")) (Symbol 3 "#")))
    by (vm_compute; reflexivity).
  assert (Hplus : "+" ∉ chars "a|b") by not_in_chars.
  split; [exact Hparse|]. split; [exact Hplus|].
  exact (position_table_spells_regex "a|b" _ fresh_memory Hparse Hplus).
Defined.

(** X16: firstpos and lastpos are what the construction means by them.
    After the annotation of the tree of a regex that parses, for every
    node: the words of the node are the words that its words of
    positions spell by the position table; firstpos is the set of the
    positions that begin a word of positions of the node, and lastpos
    the set of those that end one. *)
Theorem firstpos_lastpos_meaning regex root m u :
  parse_regex regex = Return root → u ∈ subterms root →
  (∀ w, matches u w
        ↔ ∃ ps, pmatches (annotate root (reset m)) u ps
                ∧ spells (positions (annotate root (reset m))) ps w)
  ∧ (∀ p, p ∈ firstpos (attr (annotate root (reset m)) u)
          ↔ ∃ ps, pmatches (annotate root (reset m)) u (p :: ps))
  ∧ (∀ q, q ∈ lastpos (attr (annotate root (reset m)) u)
          ↔ ∃ ps, pmatches (annotate root (reset m)) u (ps ++ [q])).
Proof.
  intros Hparse Hu.
  destruct (parsed_final_memory regex root m Hparse)
    as (Hcons & Hwf & Hsh & Hinj & Hlab).
  split; [|split].
  - intros w. split.
    + exact (matches_pmatches _ _ Hcons Hwf Hsh Hinj Hlab u w Hu).
    + intros (ps & Hp & Hs).
      exact (pmatches_matches _ _ Hcons Hwf Hsh Hinj Hlab u ps w Hu Hp Hs).
  - intros p. exact (firstpos_meaning _ _ Hcons Hwf Hsh Hinj Hlab u p Hu).
  - intros q. exact (lastpos_meaning _ _ Hcons Hwf Hsh Hinj Hlab u q Hu).
Qed.

(** X16 at the regex [ab], for the root. *)
Lemma firstpos_lastpos_meaning_witness :
  parse_regex "ab"
  = Return (Concat 4 (Concat 2 (Symbol 0 "a") (Symbol 1 "b")) (Symbol 3 "#"))
  ∧ ∀ p, p ∈ firstpos
               (attr (annotate (Concat 4 (Concat 2 (Symbol 0 "a") (Symbol 1 "b"))
                                         (Symbol 3 "#")) (reset fresh_memory))
                     (Concat 4 (Concat 2 (Symbol 0 "a") (Symbol 1 "b"))
                             (Symbol 3 "#")))
         ↔ ∃ ps, pmatches
                   (annotate (Concat 4 (Concat 2 (Symbol 0 "a") (Symbol 1 "b"))
                                       (Symbol 3 "#")) (reset fresh_memory))
                   (Concat 4 (Concat 2 (Symbol 0 "a") (Symbol 1 "b"))
                           (Symbol 3 "#")) (p :: ps).
Proof.
  assert (Hparse : parse_regex "ab"
    = Return (Concat 4 (Concat 2 (Symbol 0 "a") (Symbol 1 "b")) (Symbol 3 "#")))
    by (vm_compute; reflexivity).
  split; [exact Hparse|].
  exact (proj1 (proj2 (firstpos_lastpos_meaning "ab" _ fresh_memory _ Hparse
                         (subterms_self _)))).
Defined.

Section automaton_semantics_properties.
Variable set_iter : gset nat → list nat.
Hypothesis set_iter_perm : ∀ X, set_iter X ≡ₚ elements X.

(** X17: the followpos table is what the construction means by it.
    After the conversion of a regex that parses, position [q] is in the
    entry of position [p] exactly when [p] is followed by [q] in some
    word of positions of the whole tree, end marker included. *)
Theorem followpos_meaning regex root m p q :
  parse_regex regex = Return root →
  q ∈ followpos_get
        (compute_followpos set_iter (annotate root (reset m)) root ∅) p
  ↔ ∃ ps1 ps2, pmatches (annotate root (reset m)) root (ps1 ++ p :: q :: ps2).
Proof.
  intros Hparse.
  destruct (parsed_final_memory regex root m Hparse)
    as (Hcons & Hwf & Hsh & Hinj & Hlab).
  rewrite (compute_followpos_order set_iter set_iter_perm).
  rewrite followpos_of_tree.
  exact (follows_meaning _ _ Hcons Hwf Hsh Hinj Hlab p q).
Qed.

(** X18: the words the automaton accepts, for every regex. For every
    regex that parses, with or without the character [#], the automaton
    accepts a word exactly when the word has no [#] and, followed by
    [#], begins a word of the tree the parser returns, that is of the
    regex followed by the end marker. *)
Theorem automaton_language_prefix m regex root :
  parse_regex regex = Return root →
  ∃ a, convert set_iter m regex = Return a
    ∧ ∀ w, accepts a w ↔ "#" ∉ w ∧ ∃ v, matches root (w ++ "#" :: v).
Proof.
  intros Hparse.
  destruct (convert_semantics set_iter set_iter_perm m regex root Hparse)
    as (d & Hconv & Hacc & _).
  by exists (states d, accepting_states d).
Qed.

(** X19: no state is a dead end. For every regex that parses, from
    every state of the automaton some word leads to an accepting
    state. *)
Theorem automaton_trim m regex root :
  parse_regex regex = Return root →
  ∃ a, convert set_iter m regex = Return a
    ∧ ∀ j, j < length a.1 → ∃ w k, run a.1 j w = Some k ∧ k ∈ a.2.
Proof.
  intros Hparse.
  destruct (convert_semantics set_iter set_iter_perm m regex root Hparse)
    as (d & Hconv & _ & Htrim & _).
  by exists (states d, accepting_states d).
Qed.

End automaton_semantics_properties.

(** X17 at the regex [ab], the sets visited in the order of [elements]. *)
Lemma followpos_meaning_witness :
  parse_regex "ab"
  = Return (Concat 4 (Concat 2 (Symbol 0 "a") (Symbol 1 "b")) (Symbol 3 "#"))
  ∧ (2 ∈ followpos_get
           (compute_followpos elements
              (annotate (Concat 4 (Concat 2 (Symbol 0 "a") (Symbol 1 "b"))
                                (Symbol 3 "#")) (reset fresh_memory))
              (Concat 4 (Concat 2 (Symbol 0 "a") (Symbol 1 "b")) (Symbol 3 "#"))
              ∅) 1
     ↔ ∃ ps1 ps2,
         pmatches (annotate (Concat 4 (Concat 2 (Symbol 0 "a") (Symbol 1 "b"))
                                    (Symbol 3 "#")) (reset fresh_memory))
                  (Concat 4 (Concat 2 (Symbol 0 "a") (Symbol 1 "b"))
                          (Symbol 3 "#"))
                  (ps1 ++ 1 :: 2 :: ps2)).
Proof.
  assert (Hparse : parse_regex "ab"
    = Return (Concat 4 (Concat 2 (Symbol 0 "a") (Symbol 1 "b")) (Symbol 3 "#")))
    by (vm_compute; reflexivity).
  split; [exact Hparse|].
  exact (followpos_meaning elements (λ X, reflexivity _) "ab" _ fresh_memory
           1 2 Hparse).
Defined.

(** X18 at the regex [#]. *)
Lemma automaton_language_prefix_witness :
  parse_regex "#" = Return (Concat 2 (Symbol 0 "#") (Symbol 1 "#"))
  ∧ ∃ a, convert elements fresh_memory "#" = Return a
      ∧ ∀ w, accepts a w
             ↔ "#" ∉ w
               ∧ ∃ v, matches (Concat 2 (Symbol 0 "#") (Symbol 1 "#"))
                              (w ++ "#" :: v).
Proof.
  assert (Hparse : parse_regex "#"
    = Return (Concat 2 (Symbol 0 "#") (Symbol 1 "#")))
    by (vm_compute; reflexivity).
  split; [exact Hparse|].
  exact (automaton_language_prefix elements (λ X, reflexivity _) fresh_memory
           "#" _ Hparse).
Defined.

(** X19 at the regex [ab]. *)
Lemma automaton_trim_witness :
  parse_regex "ab"
  = Return (Concat 4 (Concat 2 (Symbol 0 "a") (Symbol 1 "b")) (Symbol 3 "#"))
  ∧ ∃ a, convert elements fresh_memory "ab" = Return a
      ∧ ∀ j, j < length a.1 → ∃ w k, run a.1 j w = Some k ∧ k ∈ a.2.
Proof.
  assert (Hparse : parse_regex "ab"
    = Return (Concat 4 (Concat 2 (Symbol 0 "a") (Symbol 1 "b")) (Symbol 3 "#")))
    by (vm_compute; reflexivity).
  split; [exact Hparse|].
  exact (automaton_trim elements (λ X, reflexivity _) fresh_memory
           "ab" _ Hparse).
Defined.

Section unmatched_close.
Variable set_iter : gset nat → list nat.

(** X20: what follows a closing parenthesis that matches no opening
    one is ignored. When a regex [s] parses, the regex [s] followed by
    a closing parenthesis and by any text parses to the same tree and is
    converted to the same automaton, without any error. *)
Theorem unmatched_close_ignored m s t root :
  parse_regex s = Return root →
  parse_regex (s ++ String ")" t) = Return root
  ∧ convert set_iter m (s ++ String ")" t) = convert set_iter m s.
Proof.
  intros Hparse.
  pose proof (parse_regex_close s t root Hparse) as Hclose.
  split; [exact Hclose|].
  unfold convert, convert_locals. by rewrite Hclose, Hparse.
Qed.

End unmatched_close.

(** X20 at the regex [a] followed by [)b]. *)
Lemma unmatched_close_ignored_witness :
  parse_regex "a" = Return (Concat 2 (Symbol 0 "a") (Symbol 1 "#"))
  ∧ parse_regex ("a" ++ String ")" "b")
    = Return (Concat 2 (Symbol 0 "a") (Symbol 1 "#"))
  ∧ convert elements fresh_memory ("a" ++ String ")" "b")
    = convert elements fresh_memory "a".
Proof.
  assert (Hparse : parse_regex "a"
    = Return (Concat 2 (Symbol 0 "a") (Symbol 1 "#")))
    by (vm_compute; reflexivity).
  split; [exact Hparse|].
  exact (unmatched_close_ignored elements fresh_memory "a"%string "b"%string
           _ Hparse).
Defined.


Section drawing_properties.
Variable set_iter : gset nat → list nat.
Hypothesis set_iter_perm : ∀ X, set_iter X ≡ₚ elements X.

(** X22: the drawing of a converted regex is the drawing of a
    deterministic automaton. For every regex that parses, whatever the
    image path and the file system, in the calls [visualize_dfa] makes
    for the automaton [construct_dfa] returns: every edge joins two
    declared nodes, no two edges leave a node with the same label, no
    edge is labelled [#], no two nodes have the same name, and at least
    one node is drawn as accepting. *)
Theorem drawing_of_conversion m regex root :
  parse_regex regex = Return root →
  ∃ a, convert set_iter m regex = Return a
    ∧ ∀ path_exists dirname image_path,
        well_drawn (visualize_dfa path_exists dirname a.1 a.2 image_path).
Proof. exact (convert_well_drawn set_iter set_iter_perm m regex root). Qed.

End drawing_properties.

(** X22 at the regex [ab]. *)
Lemma drawing_of_conversion_witness :
  parse_regex "ab"
  = Return (Concat 4 (Concat 2 (Symbol 0 "a") (Symbol 1 "b")) (Symbol 3 "#"))
  ∧ ∃ a, convert elements fresh_memory "ab" = Return a
      ∧ ∀ path_exists dirname image_path,
          well_drawn (visualize_dfa path_exists dirname a.1 a.2 image_path).
Proof.
  assert (Hparse : parse_regex "ab"
    = Return (Concat 4 (Concat 2 (Symbol 0 "a") (Symbol 1 "b")) (Symbol 3 "#")))
    by (vm_compute; reflexivity).
  split; [exact Hparse|].
  exact (drawing_of_conversion elements (λ X, reflexivity _) fresh_memory
           "ab" _ Hparse).
Defined.

Section desktop_host.
Variable set_iter : gset nat → list nat.
Hypothesis set_iter_perm : ∀ X, set_iter X ≡ₚ elements X.

(** X23: the desktop host never shows an automaton. [generate_dfa] of
    [main.py] ends, for every text of the input field, with the toast
    `Invalid regular expression`: for a regex that does not parse it
    carries the error of the parser; for a regex that parses, the
    conversion succeeds and the toast carries the [TypeError] of the
    call of [visualize_dfa] without its [image_path] argument. The
    image of the window is never set. *)
Theorem generate_dfa_always_toasts m regex :
  (∃ root, parse_regex regex = Return root
     ∧ generate_dfa set_iter m regex
       = Return (toast_invalid
                   (TypeError_missing_argument "visualize_dfa"%string
                                               "image_path"%string)))
  ∨ (∃ e, parse_regex regex = Raise e ∧ parse_error regex e
       ∧ generate_dfa set_iter m regex
         = Return (toast_invalid (conversion_exn e))).
Proof.
  destruct (parse_regex regex) as [root|e|] eqn:Hparse.
  - left. exists root. split; [done|].
    destruct (convert_locals_parsed set_iter set_iter_perm m regex root Hparse)
      as (d & _ & Hconv & _).
    unfold generate_dfa. by rewrite Hconv.
  - right. exists e. split; [done|].
    split; [by apply parse_regex_raises|].
    unfold generate_dfa, convert, convert_locals. by rewrite Hparse.
  - by apply parse_regex_fuelled in Hparse.
Qed.

End desktop_host.

(** X23 at the regex [a], the sets visited in the order of [elements]. *)
Lemma generate_dfa_always_toasts_witness :
  (∃ root, parse_regex "a" = Return root
     ∧ generate_dfa elements fresh_memory "a"
       = Return (toast_invalid
                   (TypeError_missing_argument "visualize_dfa"%string
                                               "image_path"%string)))
  ∨ (∃ e, parse_regex "a" = Raise e ∧ parse_error "a" e
       ∧ generate_dfa elements fresh_memory "a"
         = Return (toast_invalid (conversion_exn e))).
Proof.
  exact (generate_dfa_always_toasts elements (λ X, reflexivity _)
           fresh_memory "a"%string).
Defined.

Section readable_words.
Variable set_iter : gset nat → list nat.
Hypothesis set_iter_perm : ∀ X, set_iter X ≡ₚ elements X.

(** X24: the automaton fails as early as possible. For every regex
    that parses, a word can be read from state 0 along the transitions,
    without meeting a missing transition, exactly when it begins some
    accepted word. *)
Theorem automaton_reads_prefixes m regex root :
  parse_regex regex = Return root →
  ∃ a, convert set_iter m regex = Return a
    ∧ ∀ w, is_Some (run a.1 0 w) ↔ ∃ v, accepts a (w ++ v).
Proof. exact (convert_readable set_iter set_iter_perm m regex root). Qed.

End readable_words.

(** X24 at the regex [ab]. *)
Lemma automaton_reads_prefixes_witness :
  parse_regex "ab"
  = Return (Concat 4 (Concat 2 (Symbol 0 "a") (Symbol 1 "b")) (Symbol 3 "#"))
  ∧ ∃ a, convert elements fresh_memory "ab" = Return a
      ∧ ∀ w, is_Some (run a.1 0 w) ↔ ∃ v, accepts a (w ++ v).
Proof.
  assert (Hparse : parse_regex "ab"
    = Return (Concat 4 (Concat 2 (Symbol 0 "a") (Symbol 1 "b")) (Symbol 3 "#")))
    by (vm_compute; reflexivity).
  split; [exact Hparse|].
  exact (automaton_reads_prefixes elements (λ X, reflexivity _) fresh_memory
           "ab" _ Hparse).
Defined.

(** X25: a second visit renumbers. When [annotate] visits a tree whose
    leaves are distinct objects a second time, as it does for the
    operand of [+], the [i]-th leaf, which held position
    [position_counter + i] after the first visit, holds position
    [position_counter + n + i] after the second one, for [n] leaves;
    the table keeps the [n] entries of the first visit, which no leaf
    holds any more, and gets [n] new ones with the same symbols. *)
Theorem annotate_second_visit node m i o c :
  NoDup (leaves node).*1 → leaves node !! i = Some (o, c) →
  position (attr (annotate node m) (Symbol o c))
  = Some (position_counter m + i)
  ∧ position (attr (annotate node (annotate node m)) (Symbol o c))
    = Some (position_counter m + leaf_count node + i)
  ∧ positions (annotate node (annotate node m)) !! (position_counter m + i)
    = Some c
  ∧ positions (annotate node (annotate node m))
      !! (position_counter m + leaf_count node + i)
    = Some c.
Proof.
  intros Hnd Hi.
  assert (Hlt : i < leaf_count node) by (by eapply lookup_lt_Some).
  assert (Hc : (leaves node).*2 !! i = Some c)
    by (by rewrite list_lookup_fmap, Hi).
  split; [by apply annotate_leaf_dense|]. split; [|split].
  - rewrite (annotate_leaf_dense node (annotate node m) i o c Hnd Hi).
    by rewrite annotate_counter.
  - rewrite annotate_positions, annotate_counter.
    rewrite decide_False by lia.
    rewrite annotate_positions, decide_True by lia.
    rewrite <- Hc. f_equal. lia.
  - rewrite annotate_positions, annotate_counter.
    rewrite decide_True by lia. rewrite <- Hc. f_equal. lia.
Qed.

(** X25 for the leaf [a] visited from the memory the hosts start with. *)
Lemma annotate_second_visit_witness :
  NoDup (leaves (Symbol 0 "a")).*1
  ∧ leaves (Symbol 0 "a") !! 0 = Some (0, "a")
  ∧ position (attr (annotate (Symbol 0 "a")
                      (annotate (Symbol 0 "a") fresh_memory)) (Symbol 0 "a"))
    = Some (position_counter fresh_memory + leaf_count (Symbol 0 "a") + 0).
Proof.
  assert (Hnd : NoDup (leaves (Symbol 0 "a")).*1)
    by (apply NoDup_singleton).
  assert (Hi : leaves (Symbol 0 "a") !! 0 = Some (0, "a")) by reflexivity.
  split; [exact Hnd|]. split; [exact Hi|].
  exact (proj1 (proj2 (annotate_second_visit (Symbol 0 "a") fresh_memory
                         0 0 "a" Hnd Hi))).
Defined.

Section automaton_size.
Variable set_iter : gset nat → list nat.
Hypothesis set_iter_perm : ∀ X, set_iter X ≡ₚ elements X.

(** X26: the size of the automaton against the text of the regex. For
    every regex that parses, the automaton has at most [2 ^ (s + 1)]
    states, for [s] the number of alphanumeric and [#] characters of
    the regex: the operators, [+] included, add no position that a
    state can hold. *)
Theorem automaton_size_of_regex m regex root :
  parse_regex regex = Return root →
  ∃ a, convert set_iter m regex = Return a
    ∧ length a.1 ≤ 2 ^ (length (filter is_symbol (chars regex)) + 1).
Proof.
  intros Hparse.
  destruct (convert_states_held set_iter set_iter_perm m regex root Hparse)
    as (c & Hc & _ & _ & Hbound).
  exists (states (conv_dfa c), accepting_states (conv_dfa c)).
  split; [unfold convert; by rewrite Hc|]. cbn [fst].
  etrans; [exact Hbound|].
  apply Nat.pow_le_mono_r; [done|].
  by apply parse_regex_leaf_objects.
Qed.

End automaton_size.

(** X26 at the regex [a+]: one symbol, at most four states. *)
Lemma automaton_size_of_regex_witness :
  parse_regex "a+"
  = Return (Concat 4 (Concat 2 (Symbol 0 "a") (Star 1 (Symbol 0 "a")))
                   (Symbol 3 "#"))
  ∧ ∃ a, convert elements fresh_memory "a+" = Return a
      ∧ length a.1 ≤ 2 ^ (length (filter is_symbol (chars "a+")) + 1).
Proof.
  assert (Hparse : parse_regex "a+"
    = Return (Concat 4 (Concat 2 (Symbol 0 "a") (Star 1 (Symbol 0 "a")))
                     (Symbol 3 "#")))
    by (vm_compute; reflexivity).
  split; [exact Hparse|].
  exact (automaton_size_of_regex elements (λ X, reflexivity _) fresh_memory
           "a+" _ Hparse).
Defined.
